(** * RenderDown: the markdown-to-HTML converter of [markdown-parser.js]

    A shallow embedding of the class [MarkdownParser] and proofs about it.

    JavaScript strings are sequences of UTF-16 code units; a code unit is
    modelled as a number in [N] and a string as a list of them.  The
    converter is built from regular-expression rewrites, so the file starts
    with the backtracking matcher of the language standard (continuation
    passing, as in the standard's own description), then the string methods
    the parser calls ([replace], [split], [trim], [match], [test], ...), then
    the passes of the parser in the order of the source, the notions the
    statements use, and finally the lemmas and theorems.  The method
    [isSequential] of the class is never called and is left out. *)

From Stdlib Require Import String Ascii DecimalString.
From Stdlib Require Import List NArith Arith Bool Lia Sorted Permutation.
Import ListNotations.
Local Open Scope string_scope.
Local Open Scope nat_scope.
Local Open Scope list_scope.

Set Implicit Arguments.

(** ** Strings *)

Definition jsstring := list N.

(** Literals: the code units of an ASCII text. *)
Definition str (s : string) : jsstring :=
  map N_of_ascii (list_ascii_of_string s).

Definition NL : N := 10.
Definition CR : N := 13.
Definition DQ : N := 34.
Definition nl : jsstring := [NL].

Definition in_range (lo hi c : N) : bool := (lo <=? c)%N && (c <=? hi)%N.
Definition one_of (l : list N) (c : N) : bool := existsb (N.eqb c) l.
Definition chars (s : string) (c : N) : bool := one_of (str s) c.

(** LineTerminator of the language: LF, CR, LS, PS. *)
Definition line_terminators : list N := [10; 13; 8232; 8233]%N.
Definition is_line_terminator (c : N) : bool := one_of line_terminators c.

(** WhiteSpace and LineTerminator: the set of [\s] and of [trim]. *)
Definition white_space : list N :=
  [9; 10; 11; 12; 13; 32; 160; 5760;
   8192; 8193; 8194; 8195; 8196; 8197; 8198; 8199; 8200; 8201; 8202;
   8232; 8233; 8239; 8287; 12288; 65279]%N.
Definition is_space (c : N) : bool := one_of white_space c.

Definition is_digit (c : N) : bool := in_range 48 57 c.
Definition is_upper (c : N) : bool := in_range 65 90 c.
Definition is_lower (c : N) : bool := in_range 97 122 c.
Definition is_letter (c : N) : bool := is_upper c || is_lower c.
(** [\w] *)
Definition is_word (c : N) : bool := is_letter c || is_digit c || (c =? 95)%N.

Definition to_upper (c : N) : N := if is_lower c then (c - 32)%N else c.
Definition to_lower (c : N) : N := if is_upper c then (c + 32)%N else c.

Fixpoint string_eqb (a b : jsstring) : bool :=
  match a, b with
  | [], [] => true
  | x :: a', y :: b' => (x =? y)%N && string_eqb a' b'
  | _, _ => false
  end.

Fixpoint starts_with (p s : jsstring) : bool :=
  match p, s with
  | [], _ => true
  | x :: p', y :: s' => (x =? y)%N && starts_with p' s'
  | _ :: _, [] => false
  end.

(** [s.indexOf(p)] *)
Fixpoint indexOf (p s : jsstring) : option nat :=
  if starts_with p s then Some 0
  else match s with
       | [] => None
       | _ :: s' => option_map S (indexOf p s')
       end.

(** [s.includes(p)] *)
Definition includes (p s : jsstring) : bool :=
  match indexOf p s with Some _ => true | None => false end.

(** [s.substring(n)] *)
Definition substring_from (n : nat) (s : jsstring) : jsstring := skipn n s.

Fixpoint trim_start (s : jsstring) : jsstring :=
  match s with
  | c :: s' => if is_space c then trim_start s' else s
  | [] => []
  end.

(** [s.trim()] *)
Definition trim (s : jsstring) : jsstring :=
  rev (trim_start (rev (trim_start s))).

(** [s.split(sep)] for a separator of one code unit. *)
Fixpoint split_on (sep : N) (s : jsstring) : list jsstring :=
  match s with
  | [] => [[]]
  | c :: s' =>
      if (c =? sep)%N then [] :: split_on sep s'
      else match split_on sep s' with
           | piece :: pieces => (c :: piece) :: pieces
           | [] => [[c]]
           end
  end.

(** [a.join(sep)] *)
Fixpoint join (sep : jsstring) (l : list jsstring) : jsstring :=
  match l with
  | [] => []
  | [x] => x
  | x :: l' => x ++ sep ++ join sep l'
  end.

(** Template literal [${n}] of a non-negative integer. *)
Definition nat_to_string (n : nat) : jsstring :=
  str (NilZero.string_of_uint (Nat.to_uint n)).

(** ** Regular expressions *)

(** A class is the set written between the brackets and whether it is
    negated ([[^...]]). *)
Record CharClass := mkClass { cc_invert : bool; cc_set : N -> bool }.

Definition cls (p : N -> bool) : CharClass := mkClass false p.
Definition ncls (p : N -> bool) : CharClass := mkClass true p.

Inductive regex : Type :=
| Empty : regex
| Chr : CharClass -> regex
| Seq : regex -> regex -> regex
| Alt : regex -> regex -> regex
| Rep : nat -> option nat -> bool -> regex -> regex  (* min, max, greedy *)
| Group : nat -> regex -> regex                       (* capturing group n *)
| Backref : nat -> regex
| Bol : regex                                         (* ^ *)
| Eol : regex                                         (* $ *)
| WordBoundary : regex                                (* \b *)
| NotBehind : CharClass -> regex                      (* (?<![...]) *)
| NotAhead : CharClass -> regex.                      (* (?![...]) *)

Record RegExp := mkRegExp {
  re_body : regex;
  re_ignoreCase : bool;
  re_multiline : bool
}.

(** Building blocks that follow the surface syntax. *)
Definition ch (c : string) : regex := Chr (cls (chars c)).
Definition cset (p : N -> bool) : regex := Chr (cls p).
Definition nset (p : N -> bool) : regex := Chr (ncls p).
Definition star (r : regex) : regex := Rep 0 None true r.
Definition plus (r : regex) : regex := Rep 1 None true r.
Definition opt (r : regex) : regex := Rep 0 (Some 1) true r.
Definition lazy_star (r : regex) : regex := Rep 0 None false r.
Definition lazy_plus (r : regex) : regex := Rep 1 None false r.
Fixpoint rseq (l : list regex) : regex :=
  match l with
  | [] => Empty
  | [r] => r
  | r :: l' => Seq r (rseq l')
  end.
Fixpoint ralt (l : list regex) : regex :=
  match l with
  | [] => Empty
  | [r] => r
  | r :: l' => Alt r (ralt l')
  end.
(** A run of literal characters. *)
Definition lit (s : string) : regex :=
  rseq (map (fun c => Chr (cls (N.eqb c))) (str s)).

Definition ws : regex := cset is_space.                       (* \s *)
Definition any : regex := cset (fun _ => true).               (* [\s\S] *)
Definition dot : regex := nset is_line_terminator.            (* . *)
Definition digit : regex := cset is_digit.                    (* \d *)

Fixpoint groups (r : regex) : list nat :=
  match r with
  | Seq a b | Alt a b => groups a ++ groups b
  | Rep _ _ _ a => groups a
  | Group n a => n :: groups a
  | _ => []
  end.

(** ** The backtracking matcher *)

Record MatchState := mkState {
  st_before : jsstring;               (* the text before the position, reversed *)
  st_after : jsstring;                (* the text from the position on *)
  st_caps : list (nat * jsstring)     (* the captures that are defined *)
}.

Definition Cont := MatchState -> option MatchState.

Fixpoint get_capture (n : nat) (caps : list (nat * jsstring)) : option jsstring :=
  match caps with
  | [] => None
  | (k, v) :: caps' => if Nat.eqb k n then Some v else get_capture n caps'
  end.

Definition set_capture (n : nat) (v : jsstring) (x : MatchState) : MatchState :=
  mkState (st_before x) (st_after x) ((n, v) :: st_caps x).

Definition clear_captures (grp : list nat) (x : MatchState) : MatchState :=
  mkState (st_before x) (st_after x)
          (filter (fun kv => negb (existsb (Nat.eqb (fst kv)) grp)) (st_caps x)).

(** Canonicalize without the unicode flag; only the ASCII letters matter for
    the patterns of this parser, whose sets are ASCII or closed under case. *)
Definition canonicalize (ic : bool) (c : N) : N := if ic then to_upper c else c.

Definition cc_match (ic : bool) (cc : CharClass) (c : N) : bool :=
  xorb (cc_invert cc)
       (if ic then cc_set cc c || cc_set cc (to_upper c) || cc_set cc (to_lower c)
        else cc_set cc c).

Fixpoint backref_match (ic : bool) (s after : jsstring) (before : jsstring)
  : option (jsstring * jsstring) :=
  match s with
  | [] => Some (before, after)
  | c :: s' =>
      match after with
      | d :: after' =>
          if (canonicalize ic c =? canonicalize ic d)%N
          then backref_match ic s' after' (d :: before)
          else None
      | [] => None
      end
  end.

Section RepeatMatcher.
Variable m : Cont -> Cont.          (* the matcher of the repeated atom *)
Variable grp : list nat.            (* the groups inside the atom *)
Variable greedy : bool.
Variable c : Cont.

(** RepeatMatcher of the standard.  The fuel bounds the number of
    iterations: at most [min] of them may be empty. *)
Fixpoint RepeatMatcher (fuel min : nat) (max : option nat) (x : MatchState)
  {struct fuel} : option MatchState :=
  match fuel with
  | O => None
  | S fuel' =>
      match max with
      | Some O => c x
      | _ =>
          let d : Cont := fun y =>
            if (min =? 0) && (length (st_after y) =? length (st_after x))
            then None
            else RepeatMatcher fuel' (pred min) (option_map pred max) y in
          let xr := clear_captures grp x in
          if negb (min =? 0) then m d xr
          else if negb greedy then
            match c x with
            | Some z => Some z
            | None => m d xr
            end
          else
            match m d xr with
            | Some z => Some z
            | None => c x
            end
      end
  end.
End RepeatMatcher.

Section Matcher.
Variable ic : bool.                 (* flag i *)
Variable ml : bool.                 (* flag m *)

Definition at_line_start (x : MatchState) : bool :=
  match st_before x with
  | [] => true
  | p :: _ => ml && is_line_terminator p
  end.

Definition at_line_end (x : MatchState) : bool :=
  match st_after x with
  | [] => true
  | n :: _ => ml && is_line_terminator n
  end.

Definition is_word_at (s : jsstring) : bool :=
  match s with
  | [] => false
  | n :: _ => is_word n
  end.

Fixpoint matcher (r : regex) (c : Cont) (x : MatchState) {struct r}
  : option MatchState :=
  match r with
  | Empty => c x
  | Chr cc =>
      match st_after x with
      | d :: rest =>
          if cc_match ic cc d
          then c (mkState (d :: st_before x) rest (st_caps x))
          else None
      | [] => None
      end
  | Seq r1 r2 => matcher r1 (fun y => matcher r2 c y) x
  | Alt r1 r2 =>
      match matcher r1 c x with
      | Some z => Some z
      | None => matcher r2 c x
      end
  | Rep min max greedy r1 =>
      RepeatMatcher (matcher r1) (groups r1) greedy c
                    (min + length (st_after x) + 1) min max x
  | Group n r1 =>
      matcher r1
        (fun y =>
           c (set_capture n
                (firstn (length (st_after x) - length (st_after y)) (st_after x))
                y))
        x
  | Backref n =>
      match get_capture n (st_caps x) with
      | None => c x
      | Some s =>
          match backref_match ic s (st_after x) (st_before x) with
          | Some (b, a) => c (mkState b a (st_caps x))
          | None => None
          end
      end
  | Bol => if at_line_start x then c x else None
  | Eol => if at_line_end x then c x else None
  | WordBoundary =>
      if xorb (is_word_at (st_before x)) (is_word_at (st_after x))
      then c x else None
  | NotBehind cc =>
      match st_before x with
      | p :: _ => if cc_match ic cc p then None else c x
      | [] => c x
      end
  | NotAhead cc =>
      match st_after x with
      | n :: _ => if cc_match ic cc n then None else c x
      | [] => c x
      end
  end.
End Matcher.

(** One attempt at a fixed position, with no capture defined. *)
Definition match_at (re : RegExp) (before after : jsstring) : option MatchState :=
  matcher (re_ignoreCase re) (re_multiline re) (re_body re)
          (fun y => Some y) (mkState before after []).

(** What a replacer sees of a match. *)
Record MatchInfo := mkInfo {
  mi_before : jsstring;       (* the text before the match, reversed *)
  mi_matched : jsstring;
  mi_after : jsstring;        (* the text after the match *)
  mi_caps : list (nat * jsstring)
}.

Definition info_of (before after : jsstring) (y : MatchState) : MatchInfo :=
  mkInfo before
         (firstn (length after - length (st_after y)) after)
         (st_after y)
         (st_caps y).

(** [$n]: a group that did not take part counts as the empty string. *)
Definition cap (n : nat) (mi : MatchInfo) : jsstring :=
  match get_capture n (mi_caps mi) with
  | Some s => s
  | None => []
  end.

(** The first match at or after the position: [re.exec] of a pattern that
    is not sticky. *)
Fixpoint search (re : RegExp) (before after : jsstring) : option MatchInfo :=
  match match_at re before after with
  | Some y => Some (info_of before after y)
  | None =>
      match after with
      | [] => None
      | d :: rest => search re (d :: before) rest
      end
  end.

(** [re.test(s)] and [s.match(re)] for a pattern without the flag g. *)
Definition test (re : RegExp) (s : jsstring) : bool :=
  match search re [] s with Some _ => true | None => false end.
Definition match_ (re : RegExp) (s : jsstring) : option MatchInfo :=
  search re [] s.

(** ** String methods that take a pattern *)

(** The value of a digit. *)
Definition digit_value (c : N) : nat := N.to_nat (c - 48).

(** GetSubstitution: the expansion of [$$], [$&], [$`], [$'], [$n] and [$nn]
    in a replacement text; [m] is the number of groups of the pattern. *)
Fixpoint GetSubstitution (m : nat) (mi : MatchInfo) (tpl : jsstring) : jsstring :=
  match tpl with
  | [] => []
  | c :: t =>
      if negb (c =? 36)%N then c :: GetSubstitution m mi t
      else
        match t with
        | [] => [c]
        | d1 :: t1 =>
            if (d1 =? 36)%N then 36%N :: GetSubstitution m mi t1
            else if (d1 =? 38)%N then mi_matched mi ++ GetSubstitution m mi t1
            else if (d1 =? 96)%N then rev (mi_before mi) ++ GetSubstitution m mi t1
            else if (d1 =? 39)%N then mi_after mi ++ GetSubstitution m mi t1
            else if is_digit d1 then
              let n1 := digit_value d1 in
              let one :=
                if (1 <=? n1) && (n1 <=? m)
                then cap n1 mi ++ GetSubstitution m mi t1
                else c :: d1 :: GetSubstitution m mi t1 in
              match t1 with
              | d2 :: t2 =>
                  let n12 := 10 * n1 + digit_value d2 in
                  if is_digit d2 && (1 <=? n12) && (n12 <=? m)
                  then cap n12 mi ++ GetSubstitution m mi t2
                  else one
              | [] => one
              end
            else c :: GetSubstitution m mi t
        end
  end.

Definition ngroups (re : RegExp) : nat := length (groups (re_body re)).

Section Replace.
Variable St : Type.
Variable re : RegExp.
(** The replacer may update a state of its own (an array it pushes to). *)
Variable f : St -> MatchInfo -> St * jsstring.

(** [s.replace(re, f)] for a pattern with the flag g: one walk over the
    positions.  [skip] counts the code units still inside the last
    match; after an empty match the walk moves on by one. *)
Fixpoint replace_scan (before after : jsstring) (skip : nat) (s : St)
  {struct after} : St * jsstring :=
  match skip with
  | S skip' =>
      match after with
      | d :: rest => replace_scan (d :: before) rest skip' s
      | [] => (s, [])
      end
  | O =>
      match match_at re before after with
      | Some y =>
          let mi := info_of before after y in
          let (s1, out) := f s mi in
          match after with
          | [] => (s1, out)
          | d :: rest =>
              match length (mi_matched mi) with
              | O => let (s2, tl) := replace_scan (d :: before) rest 0 s1 in
                     (s2, out ++ d :: tl)
              | S k => let (s2, tl) := replace_scan (d :: before) rest k s1 in
                       (s2, out ++ tl)
              end
          end
      | None =>
          match after with
          | [] => (s, [])
          | d :: rest => let (s1, tl) := replace_scan (d :: before) rest 0 s in
                         (s1, d :: tl)
          end
      end
  end.
End Replace.

(** [s.replace(re, fn)], flag g, with a function that has no effect. *)
Definition replace_all_with (re : RegExp) (f : MatchInfo -> jsstring)
  (s : jsstring) : jsstring :=
  snd (replace_scan re (fun (_ : unit) mi => (tt, f mi)) [] s 0 tt).

(** [s.replace(re, tpl)], flag g, with a replacement text. *)
Definition replace_all (re : RegExp) (tpl : jsstring) (s : jsstring) : jsstring :=
  replace_all_with re (fun mi => GetSubstitution (ngroups re) mi tpl) s.

(** [s.replace(re, tpl)] for a pattern without the flag g: the first match
    only. *)
Definition replace_first (re : RegExp) (tpl : jsstring) (s : jsstring) : jsstring :=
  match search re [] s with
  | Some mi => rev (mi_before mi) ++ GetSubstitution (ngroups re) mi tpl ++ mi_after mi
  | None => s
  end.

(** [s.replace(pat, tpl)] for a pattern that is a string: the first
    occurrence only, and the replacement text is still expanded. *)
Definition replace_string (pat tpl s : jsstring) : jsstring :=
  match indexOf pat s with
  | Some n =>
      let mi := mkInfo (rev (firstn n s)) pat (skipn (n + length pat) s) [] in
      firstn n s ++ GetSubstitution 0 mi tpl ++ skipn (n + length pat) s
  | None => s
  end.

(** [s.split(re)] for a pattern without groups. *)
Fixpoint split_scan (re : RegExp) (before after : jsstring) (skip : nat)
  (acc : jsstring) {struct after} : list jsstring :=
  match after with
  | [] => [rev acc]
  | d :: rest =>
      match skip with
      | S k => split_scan re (d :: before) rest k acc
      | O =>
          match match_at re before after with
          | None => split_scan re (d :: before) rest 0 (d :: acc)
          | Some y =>
              match length after - length (st_after y), acc with
              | O, [] => split_scan re (d :: before) rest 0 (d :: acc)
              | O, _ => rev acc :: split_scan re (d :: before) rest 0 [d]
              | S k, _ => rev acc :: split_scan re (d :: before) rest k []
              end
          end
      end
  end.

Definition split_re (re : RegExp) (s : jsstring) : list jsstring :=
  match s with
  | [] => match match_at re [] [] with Some _ => [] | None => [[]] end
  | _ => split_scan re [] s 0 []
  end.

(** ** The passes of [MarkdownParser] *)

(** [escapeHtml] assigns [textContent] of a fresh element and reads
    [innerHTML] back.  The element belongs to the browser, not to the
    parser: what is modelled is the serialisation of a text node in the
    HTML standard, which escapes the ampersand, the two angle brackets and
    the no-break space. *)
Definition escape_char (c : N) : jsstring :=
  if (c =? 38)%N then str "&amp;"
  else if (c =? 60)%N then str "&lt;"
  else if (c =? 62)%N then str "&gt;"
  else if (c =? 160)%N then str "&nbsp;"
  else [c].

Definition escapeHtml (text : jsstring) : jsstring := flat_map escape_char text.

(** *** normalizeContent *)

(** The class of the three quote characters: double quote, apostrophe and
    backtick. *)
Definition is_quote (c : N) : bool := one_of [DQ; 39; 96]%N c.

(** [/^Q([\s\S]*?)Q$/s], where Q stands for the class of the quote
    characters. *)
Definition re_quotes : RegExp :=
  mkRegExp (rseq [Bol; cset is_quote; Group 1 (lazy_star any); cset is_quote; Eol])
           false false.
(** [/\r\n/g], [/\r/g], [/[ \t]+$/gm] *)
Definition re_crlf : RegExp := mkRegExp (rseq [cset (N.eqb CR); cset (N.eqb NL)]) false false.
Definition re_cr : RegExp := mkRegExp (cset (N.eqb CR)) false false.
Definition re_trailing : RegExp :=
  mkRegExp (rseq [plus (cset (one_of [32; 9]%N)); Eol]) false true.

(** The first statement of [normalizeContent]. *)
Definition stripQuotes (text : jsstring) : jsstring :=
  replace_first re_quotes (str "$1") text.

Definition normalizeContent (text : jsstring) : jsstring :=
  let text := stripQuotes text in
  let text := replace_all re_cr nl (replace_all re_crlf nl text) in
  replace_all re_trailing [] text.

(** *** protectCodeBlocks *)

Definition backtick : N := 96.
(** [/```([\s\S]*?)```/g] and [/`([^`]+)`/g] *)
Definition re_fence : RegExp :=
  mkRegExp (rseq [lit "```"; Group 1 (lazy_star any); lit "```"]) false false.
Definition re_inline : RegExp :=
  mkRegExp (rseq [lit "`"; Group 1 (plus (nset (N.eqb backtick))); lit "`"]) false false.

Definition code_block_key (index : nat) : jsstring :=
  str "__CODE_BLOCK_" ++ nat_to_string index ++ str "__".
Definition inline_code_key (index : nat) : jsstring :=
  str "__INLINE_CODE_" ++ nat_to_string index ++ str "__".

(** The two replacer functions: each pushes the rendering of its match to
    its array and returns the key of that index. *)
Definition protect_fence (codeBlocks : list jsstring) (mi : MatchInfo)
  : list jsstring * jsstring :=
  let index := length codeBlocks in
  (codeBlocks ++ [str "<pre><code>" ++ escapeHtml (cap 1 mi) ++ str "</code></pre>"],
   code_block_key index).

Definition protect_inline (inlineCode : list jsstring) (mi : MatchInfo)
  : list jsstring * jsstring :=
  let index := length inlineCode in
  (inlineCode ++ [str "<code>" ++ escapeHtml (cap 1 mi) ++ str "</code>"],
   inline_code_key index).

(** The result is the text together with the two arrays as the call leaves
    them. *)
Definition protectCodeBlocks (text : jsstring) (codeBlocks inlineCode : list jsstring)
  : jsstring * list jsstring * list jsstring :=
  let (codeBlocks1, text1) := replace_scan re_fence protect_fence [] text 0 codeBlocks in
  let (inlineCode1, text2) := replace_scan re_inline protect_inline [] text1 0 inlineCode in
  (text2, codeBlocks1, inlineCode1).

(** *** processHeaders *)

Definition hashes : regex := Rep 1 (Some 6) true (lit "#").     (* #{1,6} *)

(** [/^\s*(#{1,6})\s*(.+?)\s*#*\s*$/gm] *)
Definition re_atx : RegExp :=
  mkRegExp (rseq [Bol; star ws; Group 1 hashes; star ws; Group 2 (lazy_plus dot);
                  star ws; star (lit "#"); star ws; Eol])
           false true.
(** [/^\s*[\*\-\+]\s*(#{1,6})\s*(.+?)\s*$/gm] *)
Definition re_bullet_atx : RegExp :=
  mkRegExp (rseq [Bol; star ws; ch "*-+"; star ws; Group 1 hashes; star ws;
                  Group 2 (lazy_plus dot); star ws; Eol])
           false true.
(** [/^(.+)\n\s*=+\s*$/gm] and [/^(.+)\n\s*-+\s*$/gm] *)
Definition re_setext (c : string) : RegExp :=
  mkRegExp (rseq [Bol; Group 1 (plus dot); cset (N.eqb NL); star ws; plus (lit c);
                  star ws; Eol])
           false true.

Definition header_of (mi : MatchInfo) : jsstring :=
  let level := length (cap 1 mi) in
  str "<h" ++ nat_to_string level ++ str ">" ++ trim (cap 2 mi)
      ++ str "</h" ++ nat_to_string level ++ str ">".

Definition processHeaders (text : jsstring) : jsstring :=
  let text := replace_all_with re_atx header_of text in
  let text := replace_all_with re_bullet_atx header_of text in
  let text := replace_all (re_setext "=") (str "<h1>$1</h1>") text in
  replace_all (re_setext "-") (str "<h2>$1</h2>") text.

(** *** processTextFormatting *)

Definition not_space : regex := nset is_space.                 (* [^\s] and \S *)
Definition star_c : N := 42.
Definition under_c : N := 95.

(** [/QQ([^Q]+)QQ/g], where Q stands for the double quote. *)
Definition re_double_quotes : RegExp :=
  mkRegExp (rseq [cset (N.eqb DQ); cset (N.eqb DQ); Group 1 (plus (nset (N.eqb DQ)));
                  cset (N.eqb DQ); cset (N.eqb DQ)])
           false false.
(** [/(\*\*|__)([^\s][^\n]*?[^\s]|[^\s])(\1)/g] *)
Definition re_bold : RegExp :=
  mkRegExp (rseq [Group 1 (Alt (lit "**") (lit "__"));
                  Group 2 (Alt (rseq [not_space; lazy_star (nset (N.eqb NL)); not_space])
                               not_space);
                  Group 3 (Backref 1)])
           false false.
(** The four patterns of the inner pass, [(?<!B)(D)([^D\n]+)(D)(?!B)]:
    [D] is the delimiter and [B] the set that must not surround it. *)
Definition re_inner (d : N) (guard : N -> bool) : RegExp :=
  mkRegExp (rseq [NotBehind (cls guard); Group 1 (cset (N.eqb d));
                  Group 2 (plus (nset (one_of [d; NL])));
                  Group 3 (cset (N.eqb d)); NotAhead (cls guard)])
           false false.
(** [/(?<!\w)(\*|_)([^*_\s][^*_]*[^*_\s]|\S)\1(?!\w)/g] *)
Definition star_under_space (c : N) : bool :=
  one_of [star_c; under_c] c || is_space c.
Definition re_italic : RegExp :=
  mkRegExp (rseq [NotBehind (cls is_word);
                  Group 1 (Alt (lit "*") (lit "_"));
                  Group 2 (Alt (rseq [nset star_under_space;
                                      star (nset (one_of [star_c; under_c]));
                                      nset star_under_space])
                               not_space);
                  Backref 1; NotAhead (cls is_word)])
           false false.
(** [/~~([^~]+)~~/g] *)
Definition re_strike : RegExp :=
  mkRegExp (rseq [lit "~~"; Group 1 (plus (nset (chars "~"))); lit "~~"]) false false.

Definition em2 : jsstring := str "<em>$2</em>".

Definition bold_of (mi : MatchInfo) : jsstring :=
  let delimiter := cap 1 mi in
  let content := cap 2 mi in
  let content :=
    if string_eqb delimiter (str "**") then
      replace_all (re_inner under_c is_word) em2
        (replace_all (re_inner star_c (N.eqb star_c)) em2 content)
    else if string_eqb delimiter (str "__") then
      replace_all (re_inner under_c (N.eqb under_c)) em2
        (replace_all (re_inner star_c is_word) em2 content)
    else content in
  str "<strong>" ++ content ++ str "</strong>".

Definition processTextFormatting (text : jsstring) : jsstring :=
  let text := replace_all re_double_quotes ([DQ] ++ str "*$1*" ++ [DQ]) text in
  let text := replace_all_with re_bold bold_of text in
  let text := replace_all re_italic em2 text in
  replace_all re_strike (str "<del>$1</del>") text.

(** *** processBlockquotes *)

(** [/^\s*>\s*(.+)$/gm] and [/(<\/blockquote>\s*<blockquote>)/g] *)
Definition re_quote_line : RegExp :=
  mkRegExp (rseq [Bol; star ws; lit ">"; star ws; Group 1 (plus dot); Eol]) false true.
Definition re_quote_join : RegExp :=
  mkRegExp (Group 1 (rseq [lit "</blockquote>"; star ws; lit "<blockquote>"])) false false.

Definition processBlockquotes (text : jsstring) : jsstring :=
  let text := replace_all re_quote_line (str "<blockquote>$1</blockquote>") text in
  replace_all re_quote_join (str "<br>") text.

(** *** processLists and its helpers *)

Inductive ListType := ul | ol.

Definition ListType_eqb (a b : ListType) : bool :=
  match a, b with
  | ul, ul | ol, ol => true
  | _, _ => false
  end.

Definition tag_name (t : ListType) : jsstring :=
  match t with ul => str "ul" | ol => str "ol" end.
Definition open_tag (t : ListType) : jsstring := str "<" ++ tag_name t ++ str ">".
Definition close_tag (t : ListType) : jsstring := str "</" ++ tag_name t ++ str ">".

(** An entry of [listStack]. *)
Record ListCtx := mkCtx { type : ListType; level : nat }.

(** The two arrays the walk updates.  [listStack] is kept with its last
    element (the deepest list, the one [pop] returns) at the head;
    [result] is in the order of the [push] calls. *)
Record ListState := mkLists { listStack : list ListCtx; result : list jsstring }.

Definition push_result (line : jsstring) (st : ListState) : ListState :=
  mkLists (listStack st) (result st ++ [line]).

Definition dot_or_paren : regex := ch ".)".                      (* [\.\)] *)
Definition letter : regex := cset is_letter.                     (* [a-zA-Z] *)

(** The marker alternatives shared by the patterns, in their order:
    [[-*+]|\d+[\.\)]|\([0-9]+\)|[a-zA-Z][\.\)]]. *)
Definition marker_basic : list regex :=
  [ch "-*+";
   rseq [plus digit; dot_or_paren];
   rseq [lit "("; plus (cset (in_range 48 57)); lit ")"];
   rseq [letter; dot_or_paren]].
(** [[ivxlcdm]+[\.\)]|[IVXLCDM]+[\.\)]] *)
Definition marker_roman : list regex :=
  [rseq [plus (ch "ivxlcdm"); dot_or_paren];
   rseq [plus (ch "IVXLCDM"); dot_or_paren]].

(** The pattern of [processLists], flag i: indent, marker, white space, an
    optional task box [\[[ x]\]\s+] and the rest of the line. *)
Definition re_list_line : RegExp :=
  mkRegExp (rseq [Bol; Group 1 (star ws); Group 2 (ralt (marker_basic ++ marker_roman));
                  plus ws;
                  opt (Group 3 (rseq [lit "["; ch " x"; lit "]"; plus ws]));
                  Group 4 (star dot); Eol])
           true false.
(** The pattern of [analyzeIndentationLevels], flag i: the same up to the
    white space after the marker. *)
Definition re_list_prefix : RegExp :=
  mkRegExp (rseq [Bol; Group 1 (star ws); Group 2 (ralt (marker_basic ++ marker_roman));
                  plus ws])
           true false.
(** The pattern of [checkListContext] and of the two sequence checks, no
    flag: the basic markers only. *)
Definition re_list_context : RegExp :=
  mkRegExp (rseq [Bol; Group 1 (star ws); Group 2 (ralt marker_basic); plus ws;
                  Group 3 (star dot); Eol])
           false false.
(** The test of [isOrdered], flag i: every marker but the bullets, from
    start to end. *)
Definition re_ordered : RegExp :=
  mkRegExp (rseq [Bol; Group 1 (ralt (tl marker_basic ++ marker_roman)); Eol]) true false.

(** [/^[-*+]$/], [/^\d+[\.\)]$/], [/^[a-zA-Z][\.\)]$/], [/^[a-zA-Z0-9][\.\)]$/],
    [/^[a-zA-Z]$/], [/^\d+$/], [/[\.\)]$/] *)
Definition re_bullet : RegExp := mkRegExp (rseq [Bol; ch "-*+"; Eol]) false false.
Definition re_number_marker : RegExp :=
  mkRegExp (rseq [Bol; plus digit; dot_or_paren; Eol]) false false.
Definition re_letter_marker : RegExp :=
  mkRegExp (rseq [Bol; letter; dot_or_paren; Eol]) false false.
Definition re_single_marker : RegExp :=
  mkRegExp (rseq [Bol; cset (fun c => is_letter c || is_digit c); dot_or_paren; Eol])
           false false.
Definition re_one_letter : RegExp := mkRegExp (rseq [Bol; letter; Eol]) false false.
Definition re_digits : RegExp := mkRegExp (rseq [Bol; plus digit; Eol]) false false.
Definition re_marker_end : RegExp := mkRegExp (rseq [dot_or_paren; Eol]) false false.

(** The two name shapes, [/^[A-Z][a-z]*\s+[A-Z]/] and [/^[A-Z][a-z]*\.$/],
    and [/^[A-Z]/]. *)
Definition re_name_pair : RegExp :=
  mkRegExp (rseq [Bol; cset is_upper; star (cset is_lower); plus ws; cset is_upper])
           false false.
Definition re_name_dot : RegExp :=
  mkRegExp (rseq [Bol; cset is_upper; star (cset is_lower); lit "."; Eol]) false false.
Definition re_capital : RegExp := mkRegExp (rseq [Bol; cset is_upper]) false false.

(** [parseInt] of a text of digits. *)
Definition parseInt (s : jsstring) : nat :=
  fold_left (fun acc c => 10 * acc + digit_value c) s 0.

(** [Math.abs(a - b) <= 2] on widths. *)
Definition near (a b : nat) : bool := (a - b <=? 2) && (b - a <=? 2).

(** **** analyzeIndentationLevels and calculateNestingLevel *)

(** A [Map] from numbers to numbers, in insertion order. *)
Definition NumMap := list (nat * nat).

Fixpoint map_get (k : nat) (m : NumMap) : option nat :=
  match m with
  | [] => None
  | (k', v) :: m' => if Nat.eqb k' k then Some v else map_get k m'
  end.

Definition map_has (k : nat) (m : NumMap) : bool :=
  match map_get k m with Some _ => true | None => false end.

Fixpoint map_set (k v : nat) (m : NumMap) : NumMap :=
  match m with
  | [] => [(k, v)]
  | (k', v') :: m' => if Nat.eqb k' k then (k, v) :: m' else (k', v') :: map_set k v m'
  end.

Definition map_keys (m : NumMap) : list nat := map fst m.

(** [sort((a, b) => a - b)] *)
Fixpoint insert_sorted (x : nat) (l : list nat) : list nat :=
  match l with
  | [] => [x]
  | y :: l' => if x <=? y then x :: l else y :: insert_sorted x l'
  end.

Definition sort_numbers (l : list nat) : list nat := fold_right insert_sorted [] l.

(** The first loop: the width of the indent of every line the pattern
    accepts is counted. *)
Definition count_indent (indentCounts : NumMap) (line : jsstring) : NumMap :=
  match match_ re_list_prefix line with
  | Some listMatch =>
      let indent := length (cap 1 listMatch) in
      map_set indent
              (match map_get indent indentCounts with Some n => n | None => 0 end + 1)
              indentCounts
  | None => indentCounts
  end.

(** [forEach] over the sorted widths, with the index as level. *)
Fixpoint set_levels (sortedIndents : list nat) (index : nat) (levelMap : NumMap) : NumMap :=
  match sortedIndents with
  | [] => levelMap
  | indent :: rest => set_levels rest (S index) (map_set indent index levelMap)
  end.

Definition analyzeIndentationLevels (lines : list jsstring) : NumMap :=
  let indentCounts := fold_left count_indent lines [] in
  let sortedIndents := sort_numbers (map_keys indentCounts) in
  set_levels sortedIndents 0 [].

(** The loop over the entries that looks for the closest known width. *)
Definition closest_step (indent : nat) (acc : nat * nat) (entry : nat * nat) : nat * nat :=
  let (closestIndent, closestLevel) := acc in
  let (levelIndent, lvl) := entry in
  if (levelIndent <=? indent) && (closestIndent <? levelIndent)
  then (levelIndent, lvl) else acc.

Definition calculateNestingLevel (indent : nat) (indentLevels : NumMap) : nat :=
  match map_get indent indentLevels with
  | Some lvl => lvl
  | None =>
      let (closestIndent, closestLevel) :=
        fold_left (closest_step indent) indentLevels (0, 0) in
      if closestIndent <? indent
      then closestLevel + (indent - closestIndent) / 4
      else closestLevel
  end.

(** **** adjustListStack and closeAllLists *)

(** [while (listStack.length > targetLevel)]: pop and emit the closing tag. *)
Fixpoint close_deeper (targetLevel : nat) (st : ListState) (n : nat) : ListState :=
  match n with
  | O => st
  | S n' =>
      match listStack st with
      | closedList :: rest =>
          if targetLevel <? length (listStack st)
          then close_deeper targetLevel
                 (mkLists rest (result st ++ [close_tag (type closedList)])) n'
          else st
      | [] => st
      end
  end.

(** [while (listStack.length < targetLevel)]: open the lists in between. *)
Fixpoint open_up_to (targetLevel : nat) (listType : ListType) (st : ListState) (n : nat)
  : ListState :=
  match n with
  | O => st
  | S n' =>
      if length (listStack st) <? targetLevel then
        let newType :=
          if length (listStack st) =? targetLevel - 1 then listType else ul in
        open_up_to targetLevel listType
          (mkLists (mkCtx newType (length (listStack st)) :: listStack st)
                   (result st ++ [open_tag newType])) n'
      else st
  end.

Definition adjustListStack (st : ListState) (targetLevel : nat) (listType : ListType)
  : ListState :=
  let st := close_deeper targetLevel st (length (listStack st)) in
  let st := open_up_to targetLevel listType st (targetLevel - length (listStack st)) in
  let st :=
    if (length (listStack st) =? targetLevel) && (0 <? targetLevel) then
      match listStack st with
      | currentList :: rest =>
          if negb (ListType_eqb (type currentList) listType) then
            mkLists (mkCtx listType (targetLevel - 1) :: rest)
                    (result st ++ [close_tag (type currentList); open_tag listType])
          else st
      | [] => st
      end
    else st in
  if length (listStack st) =? 0 then
    mkLists [mkCtx listType 0] (result st ++ [open_tag listType])
  else st.

Fixpoint close_all (stack : list ListCtx) : list jsstring :=
  match stack with
  | [] => []
  | closedList :: rest => close_tag (type closedList) :: close_all rest
  end.

Definition closeAllLists (st : ListState) : ListState :=
  mkLists [] (result st ++ close_all (listStack st)).

(** **** The classification filter *)

(** [lines[i]] *)
Definition line_at (lines : list jsstring) (i : nat) : jsstring := nth i lines [].

(** [areRelatedMarkers] *)
Definition areRelatedMarkers (marker1 marker2 : jsstring) : bool :=
  if test re_bullet marker1 && test re_bullet marker2 then true
  else if test re_number_marker marker1 && test re_number_marker marker2 then true
  else if test re_letter_marker marker1 && test re_letter_marker marker2 then true
  else false.

Record ListContext := mkContext { hasContext : bool; nearbyItems : nat }.

(** The body of the loop of [checkListContext] for one index. *)
Definition context_step (lines : list jsstring) (currentIndex : nat) (marker : jsstring)
  (indent : nat) (acc : ListContext) (i : nat) : ListContext :=
  if i =? currentIndex then acc
  else
    match match_ re_list_context (line_at lines i) with
    | Some listMatch =>
        let otherIndent := length (cap 1 listMatch) in
        let otherMarker := cap 2 listMatch in
        if near otherIndent indent then
          mkContext (if areRelatedMarkers marker otherMarker then true else hasContext acc)
                    (S (nearbyItems acc))
        else acc
    | None => acc
    end.

Definition checkRange : nat := 3.

(** [checkListContext]: the indices from [max(0, currentIndex - 3)] to
    [min(lines.length - 1, currentIndex + 3)]. *)
Definition checkListContext (lines : list jsstring) (currentIndex : nat)
  (marker : jsstring) (indent : nat) : ListContext :=
  let lo := currentIndex - checkRange in
  let hi := Nat.min (length lines - 1) (currentIndex + checkRange) in
  fold_left (context_step lines currentIndex marker indent)
            (List.seq lo (S hi - lo))
            (mkContext false 0).

(** A [Set]: an element is added once. *)
Definition set_add (x : nat) (s : list nat) : list nat :=
  if existsb (Nat.eqb x) s then s else s ++ [x].

(** The text of a marker without its closing dot or parenthesis. *)
Definition marker_base (marker : jsstring) : jsstring :=
  replace_first re_marker_end [] marker.

(** What one earlier line adds to the set of found items: [pick] reads the
    item, if any, off the base of the marker of a line at a near indent. *)
Definition found_on_line (pick : jsstring -> option nat) (required : list nat)
  (indent : nat) (line : jsstring) (found : list nat) : list nat :=
  match match_ re_list_context line with
  | Some listMatch =>
      let lineIndent := length (cap 1 listMatch) in
      let lineMarker := cap 2 listMatch in
      if near lineIndent indent then
        match pick (marker_base lineMarker) with
        | Some item =>
            if existsb (Nat.eqb item) required then set_add item found else found
        | None => found
        end
      else found
  | None => found
  end.

(** The loop [for (let i = currentIndex - 1; i >= 0; i--)] of the two
    sequence checks; [n] is [i + 1]. *)
Fixpoint search_backwards (pick : jsstring -> option nat) (required : list nat)
  (indent : nat) (lines : list jsstring) (n : nat) (found : list nat) : bool :=
  match n with
  | O => false
  | S i =>
      let found := found_on_line pick required indent (line_at lines i) found in
      if length found =? length required then true
      else search_backwards pick required indent lines i found
  end.

(** The lower-case code of the letter a one-letter base holds. *)
Definition pick_letter (base : jsstring) : option nat :=
  if test re_one_letter base
  then match base with
       | c :: _ => Some (N.to_nat (to_lower c))
       | [] => None
       end
  else None.

Definition pick_number (base : jsstring) : option nat :=
  if test re_digits base then Some (parseInt base) else None.

(** [verifyAlphabeticalSequence]; the letters are kept as their codes. *)
Definition verifyAlphabeticalSequence (lines : list jsstring) (currentIndex : nat)
  (currentLetter : jsstring) (indent : nat) : bool :=
  let currentCharCode :=
    match currentLetter with c :: _ => N.to_nat (to_lower c) | [] => 0 end in
  let startCharCode := 97 in
  if currentCharCode =? startCharCode then true
  else
    let requiredLetters := List.seq startCharCode (currentCharCode - startCharCode) in
    search_backwards pick_letter requiredLetters indent lines currentIndex [].

(** [verifyNumericalSequence] *)
Definition verifyNumericalSequence (lines : list jsstring) (currentIndex : nat)
  (currentNumber : nat) (indent : nat) : bool :=
  if currentNumber =? 1 then true
  else
    let requiredNumbers := List.seq 1 (currentNumber - 1) in
    search_backwards pick_number requiredNumbers indent lines currentIndex [].

(** [hasSequentialMarkers] *)
Definition hasSequentialMarkers (lines : list jsstring) (currentIndex : nat)
  (marker : jsstring) (indent : nat) : bool :=
  let baseChar := marker_base marker in
  if test re_one_letter baseChar
  then verifyAlphabeticalSequence lines currentIndex baseChar indent
  else if test re_digits baseChar
  then verifyNumericalSequence lines currentIndex (parseInt baseChar) indent
  else false.

(** The text after the marker: [substring(indexOf(marker) + marker.length)],
    trimmed; [indexOf] gives -1 when there is no occurrence. *)
Definition content_after (currentLine marker : jsstring) : jsstring :=
  let from :=
    match indexOf marker currentLine with
    | Some n => n + length marker
    | None => length marker - 1
    end in
  trim (substring_from from currentLine).

(** [isActualListItem] *)
Definition isActualListItem (lines : list jsstring) (currentIndex : nat)
  (marker : jsstring) (indent : nat) : bool :=
  if test re_bullet marker then true
  else
    let currentLine := line_at lines currentIndex in
    let content := content_after currentLine marker in
    if test re_name_pair content || test re_name_dot content then false
    else
      let listContext := checkListContext lines currentIndex marker indent in
      if hasContext listContext then true
      else
        let undecided := 2 <=? nearbyItems listContext in
        if test re_single_marker marker then
          if hasSequentialMarkers lines currentIndex marker indent then true
          else if test re_capital content
                  && (includes (str " ") content || (length content <? 20))
          then false
          else undecided
        else undecided.

(** **** The walk *)

Definition checkbox (taskCheckbox content : jsstring) : jsstring :=
  match taskCheckbox with
  | [] => content
  | _ =>
      str "<input type=" ++ [DQ] ++ str "checkbox" ++ [DQ] ++ str " "
        ++ (if includes (str "x") taskCheckbox then str "checked" else [])
        ++ str " disabled> " ++ content
  end.

(** The body of the loop of [processLists] for the line of index [i]. *)
Definition process_line (lines : list jsstring) (indentLevels : NumMap) (i : nat)
  (st : ListState) : ListState :=
  let line := line_at lines i in
  match match_ re_list_line line with
  | Some listMatch =>
      let indent := length (cap 1 listMatch) in
      let marker := cap 2 listMatch in
      let taskCheckbox := cap 3 listMatch in
      let content := cap 4 listMatch in
      if negb (isActualListItem lines i marker indent) then
        push_result line (closeAllLists st)
      else
        let listType := if test re_ordered marker then ol else ul in
        let lvl := calculateNestingLevel indent indentLevels in
        let st := adjustListStack st lvl listType in
        push_result (str "<li>" ++ checkbox taskCheckbox content ++ str "</li>") st
  | None =>
      if negb (string_eqb (trim line) []) then push_result line (closeAllLists st)
      else push_result line st
  end.

(** The loop from index [i] over the [n] lines that remain. *)
Fixpoint walk (lines : list jsstring) (indentLevels : NumMap) (i n : nat)
  (st : ListState) : ListState :=
  match n with
  | O => st
  | S n' => walk lines indentLevels (S i) n' (process_line lines indentLevels i st)
  end.

Definition processLists (text : jsstring) : jsstring :=
  let lines := split_on NL text in
  let indentLevels := analyzeIndentationLevels lines in
  let st := walk lines indentLevels 0 (length lines) (mkLists [] []) in
  join nl (result (closeAllLists st)).

(** *** processHorizontalRules *)

(** [/^\s*(-{3,}|\*{3,}|_{3,})\s*$/gm] *)
Definition re_rule : RegExp :=
  mkRegExp (rseq [Bol; star ws;
                  Group 1 (ralt [Rep 3 None true (lit "-"); Rep 3 None true (lit "*");
                                 Rep 3 None true (lit "_")]);
                  star ws; Eol])
           false true.

Definition processHorizontalRules (text : jsstring) : jsstring :=
  replace_all re_rule (str "<hr>") text.

(** *** processLinksAndImages *)

(** The link pattern is [/\[([^\]]+)\]\(([^)]+)\)/g]; the image pattern has
    an exclamation mark in front and lets the text in brackets be empty. *)
Definition re_image : RegExp :=
  mkRegExp (rseq [lit "!["; Group 1 (star (nset (chars "]"))); lit "]("; 
                  Group 2 (plus (nset (chars ")"))); lit ")"])
           false false.
Definition re_link : RegExp :=
  mkRegExp (rseq [lit "["; Group 1 (plus (nset (chars "]"))); lit "](";
                  Group 2 (plus (nset (chars ")"))); lit ")"])
           false false.
(** [/(?<![Q'>])\bhttps?:\/\/[^\s<>]+/g], where Q stands for the double
    quote. *)
Definition re_autolink : RegExp :=
  mkRegExp (rseq [NotBehind (cls (one_of [DQ; 39; 62]%N)); WordBoundary; lit "http";
                  opt (lit "s"); lit "://";
                  plus (nset (fun c => is_space c || one_of [60; 62]%N c))])
           false false.

Definition processLinksAndImages (text : jsstring) : jsstring :=
  let text :=
    replace_all re_image
      (str "<img src=" ++ [DQ] ++ str "$2" ++ [DQ] ++ str " alt=" ++ [DQ] ++ str "$1"
           ++ [DQ] ++ str ">") text in
  let text :=
    replace_all re_link
      (str "<a href=" ++ [DQ] ++ str "$2" ++ [DQ] ++ str ">$1</a>") text in
  replace_all re_autolink
    (str "<a href=" ++ [DQ] ++ str "$&" ++ [DQ] ++ str ">$&</a>") text.

(** *** restoreCodeBlocks *)

(** One turn of a loop of [restoreCodeBlocks]: [text.replace(key, fragment)]
    with the key as a plain string. *)
Definition restore_one (key : nat -> jsstring) (text : jsstring) (i : nat)
  (fragment : jsstring) : jsstring :=
  replace_string (key i) fragment text.

Fixpoint restore_loop (key : nat -> jsstring) (fragments : list jsstring) (i : nat)
  (text : jsstring) : jsstring :=
  match fragments with
  | [] => text
  | fragment :: rest => restore_loop key rest (S i) (restore_one key text i fragment)
  end.

Definition restoreCodeBlocks (text : jsstring) (codeBlocks inlineCode : list jsstring)
  : jsstring :=
  let text := restore_loop code_block_key codeBlocks 0 text in
  restore_loop inline_code_key inlineCode 0 text.

(** *** processParagraphs *)

Definition newline : regex := cset (N.eqb NL).

(** [/\n\s*\n/] *)
Definition re_blank_line : RegExp := mkRegExp (rseq [newline; star ws; newline]) false false.
(** [/\n/g] *)
Definition re_newline : RegExp := mkRegExp newline false false.

Definition h_digit : regex := cset (in_range 49 54).              (* [1-6] *)

(** [/^(\s*<h[1-6][^>]*>[\s\S]*?<\/h[1-6]>)\s*([\s\S]+)$/i] *)
Definition re_header_with_text : RegExp :=
  mkRegExp (rseq [Bol;
                  Group 1 (rseq [star ws; lit "<h"; h_digit; star (nset (chars ">"));
                                 lit ">"; lazy_star any; lit "</h"; h_digit; lit ">"]);
                  star ws; Group 2 (plus any); Eol])
           true false.
(** [/^<(h[1-6]|ul|ol|blockquote|pre|hr|div)/i] *)
Definition re_block_start : RegExp :=
  mkRegExp (rseq [Bol; lit "<";
                  Group 1 (ralt [rseq [lit "h"; h_digit]; lit "ul"; lit "ol";
                                 lit "blockquote"; lit "pre"; lit "hr"; lit "div"])])
           true false.
(** [/(<\/h[1-6]>|<\/ul>|<\/ol>|<\/blockquote>|<\/pre>|<hr>|<\/div>)$/i] *)
Definition re_block_end : RegExp :=
  mkRegExp (rseq [Group 1 (ralt [rseq [lit "</h"; h_digit; lit ">"]; lit "</ul>";
                                 lit "</ol>"; lit "</blockquote>"; lit "</pre>";
                                 lit "<hr>"; lit "</div>"]);
                  Eol])
           true false.

Definition is_block_level (s : jsstring) : bool :=
  test re_block_start s || test re_block_end s.

Definition paragraph (s : jsstring) : jsstring :=
  str "<p>" ++ replace_all re_newline (str "<br>") s ++ str "</p>".

(** The body of the loop over the blocks: what one block pushes to
    [processedBlocks]. *)
Definition process_block (block : jsstring) : list jsstring :=
  let block := trim block in
  match block with
  | [] => []
  | _ =>
      match match_ re_header_with_text block with
      | Some headerWithText =>
          let after := trim (cap 2 headerWithText) in
          cap 1 headerWithText ::
            match after with
            | [] => []
            | _ => if is_block_level after then [after] else [paragraph after]
            end
      | None => if is_block_level block then [block] else [paragraph block]
      end
  end.

Definition processParagraphs (text : jsstring) : jsstring :=
  let blocks := split_re re_blank_line text in
  let processedBlocks := flat_map process_block blocks in
  join nl processedBlocks.

(** *** finalCleanup *)

Definition br_tag : regex := rseq [lit "<br"; star ws; opt (lit "/"); lit ">"].
Definition list_tags : regex :=
  ralt [lit "ul"; lit "ol"; lit "li"; lit "/ul"; lit "/ol"; lit "/li"].

(** The seven patterns of [finalCleanup], in order:
    [/<\/(h[1-6])>\s*<br\s*\/?>\s*/gi], [/<p>\s*<\/p>/g],
    [/<p>(?:\s|&nbsp;|<br\s*\/?>)*<\/p>/gi],
    [/<br>\s*<(ul|ol|li|\/ul|\/ol|\/li)>/g],
    [/<(ul|ol|li|\/ul|\/ol|\/li)>\s*<br>/g], [/\n\s*\n\s*\n/g] and
    [/>\s*\n\s*</g]. *)
Definition re_br_after_header : RegExp :=
  mkRegExp (rseq [lit "</"; Group 1 (rseq [lit "h"; h_digit]); lit ">"; star ws; br_tag;
                  star ws])
           true false.
Definition re_empty_p : RegExp :=
  mkRegExp (rseq [lit "<p>"; star ws; lit "</p>"]) false false.
Definition re_blank_p : RegExp :=
  mkRegExp (rseq [lit "<p>"; star (ralt [ws; lit "&nbsp;"; br_tag]); lit "</p>"])
           true false.
Definition re_br_before_list : RegExp :=
  mkRegExp (rseq [lit "<br>"; star ws; lit "<"; Group 1 list_tags; lit ">"]) false false.
Definition re_br_after_list : RegExp :=
  mkRegExp (rseq [lit "<"; Group 1 list_tags; lit ">"; star ws; lit "<br>"]) false false.
Definition re_three_newlines : RegExp :=
  mkRegExp (rseq [newline; star ws; newline; star ws; newline]) false false.
Definition re_between_tags : RegExp :=
  mkRegExp (rseq [lit ">"; star ws; newline; star ws; lit "<"]) false false.

Definition non_empty (line : jsstring) : bool := negb (string_eqb line []).

Definition finalCleanup (html : jsstring) : jsstring :=
  let html := replace_all re_br_after_header (str "</$1>") html in
  let html := replace_all re_empty_p [] html in
  let html := replace_all re_blank_p [] html in
  let html := replace_all re_br_before_list (str "<$1>") html in
  let html := replace_all re_br_after_list (str "<$1>") html in
  let html := replace_all re_three_newlines (nl ++ nl) html in
  let html := replace_all re_between_tags (str "><") html in
  join nl (filter non_empty (map trim (split_on NL html))).

(** *** convertMarkdownToHTML *)

(** How a call ends: with a value, or with an error thrown. *)
Inductive completion (A : Type) : Type :=
| Normal : A -> completion A
| Throw : jsstring -> completion A.
Arguments Normal {A} _.
Arguments Throw {A} _.

(** The variables of the [try] block. *)
Record Buffers := mkBuffers {
  html : jsstring;
  codeBlocks : list jsstring;
  inlineCode : list jsstring
}.

Definition Pass := Buffers -> completion Buffers.

(** The statements of a [try] block, one after the other: the first error
    ends the block. *)
Fixpoint run (passes : list Pass) (b : Buffers) : completion Buffers :=
  match passes with
  | [] => Normal b
  | p :: rest =>
      match p b with
      | Normal b' => run rest b'
      | Throw error => Throw error
      end
  end.

Definition start (markdown : jsstring) : Buffers := mkBuffers markdown [] [].

(** What the [catch] clause assigns. *)
Definition fallback (markdown : jsstring) : jsstring :=
  str "<p>Error rendering content. Raw content:</p><pre>" ++ escapeHtml markdown
      ++ str "</pre>".

(** [let html = markdown; try { passes } catch { html = fallback } return html] *)
Definition try_catch (passes : list Pass) (markdown : jsstring) : jsstring :=
  match run passes (start markdown) with
  | Normal b => html b
  | Throw _ => fallback markdown
  end.

(** A pass that rewrites [html] and leaves the arrays; none of the methods
    of the parser throws. *)
Definition on_html (f : jsstring -> jsstring) : Pass :=
  fun b => Normal (mkBuffers (f (html b)) (codeBlocks b) (inlineCode b)).

Definition protect_pass : Pass :=
  fun b =>
    let '(text, blocks, inline) := protectCodeBlocks (html b) (codeBlocks b) (inlineCode b) in
    Normal (mkBuffers text blocks inline).

Definition restore_pass : Pass :=
  fun b =>
    Normal (mkBuffers (restoreCodeBlocks (html b) (codeBlocks b) (inlineCode b))
                      (codeBlocks b) (inlineCode b)).

(** Steps 1 to 11. *)
Definition pipeline : list Pass :=
  [on_html normalizeContent;
   protect_pass;
   on_html processHeaders;
   on_html processTextFormatting;
   on_html processBlockquotes;
   on_html processLists;
   on_html processHorizontalRules;
   on_html processLinksAndImages;
   restore_pass;
   on_html processParagraphs;
   on_html finalCleanup].

Definition convertMarkdownToHTML (markdown : jsstring) : jsstring :=
  try_catch pipeline markdown.

(** * Notions used in the statements *)

(** The text whose lines are the given ones. *)
Definition text_of (ls : list string) : jsstring := join nl (map str ls).

(** ** About the matcher *)

(** [a] is what is left of [b] after some code units. *)
Definition suffix_of (a b : jsstring) : Prop := exists p, b = p ++ a.

(** One unfolding of [RepeatMatcher]. *)
Definition repeat_again (m : Cont -> Cont) (grp : list nat) (greedy : bool) (c : Cont)
  (fuel min : nat) (max : option nat) (x : MatchState) : Cont :=
  fun y =>
    if (min =? 0) && (length (st_after y) =? length (st_after x))
    then None
    else RepeatMatcher m grp greedy c fuel (pred min) (option_map pred max) y.

(** A matcher looks at its continuation only at positions that are not
    before its own. *)
Definition forward (m : Cont -> Cont) : Prop :=
  forall (c c' : Cont) (x : MatchState),
    (forall y, length (st_after y) <= length (st_after x) -> c y = c' y) ->
    m c x = m c' x.

(** [steps ic ml r x y]: the pattern [r] can lead from the state [x] to
    the state [y].  The upper bound of a repetition and the order of the
    attempts are left out: the relation says where a match can end, not
    which end comes first. *)
Inductive steps (ic ml : bool) : regex -> MatchState -> MatchState -> Prop :=
| steps_Empty x : steps ic ml Empty x x
| steps_Chr cc d rest before caps :
    cc_match ic cc d = true ->
    steps ic ml (Chr cc) (mkState before (d :: rest) caps)
          (mkState (d :: before) rest caps)
| steps_Seq r1 r2 x y z :
    steps ic ml r1 x y -> steps ic ml r2 y z -> steps ic ml (Seq r1 r2) x z
| steps_Alt_l r1 r2 x y : steps ic ml r1 x y -> steps ic ml (Alt r1 r2) x y
| steps_Alt_r r1 r2 x y : steps ic ml r2 x y -> steps ic ml (Alt r1 r2) x y
| steps_Rep_done min max greedy r x :
    min = 0 \/ max = Some 0 -> steps ic ml (Rep min max greedy r) x x
| steps_Rep_more min max max' greedy r x y z :
    steps ic ml r (clear_captures (groups r) x) y ->
    steps ic ml (Rep (pred min) max' greedy r) y z ->
    steps ic ml (Rep min max greedy r) x z
| steps_Group n r x y :
    steps ic ml r x y ->
    steps ic ml (Group n r) x
          (set_capture n
             (firstn (length (st_after x) - length (st_after y)) (st_after x)) y)
| steps_Backref_none n x :
    get_capture n (st_caps x) = None -> steps ic ml (Backref n) x x
| steps_Backref_some n x s b a :
    get_capture n (st_caps x) = Some s ->
    backref_match ic s (st_after x) (st_before x) = Some (b, a) ->
    steps ic ml (Backref n) x (mkState b a (st_caps x))
| steps_Bol x : at_line_start ml x = true -> steps ic ml Bol x x
| steps_Eol x : at_line_end ml x = true -> steps ic ml Eol x x
| steps_WordBoundary x :
    xorb (is_word_at (st_before x)) (is_word_at (st_after x)) = true ->
    steps ic ml WordBoundary x x
| steps_NotBehind cc x :
    match st_before x with p :: _ => cc_match ic cc p = false | [] => True end ->
    steps ic ml (NotBehind cc) x x
| steps_NotAhead cc x :
    match st_after x with n :: _ => cc_match ic cc n = false | [] => True end ->
    steps ic ml (NotAhead cc) x x.

(** [s] is made of code units of [alphabet]. *)
Definition within (alphabet : list N) (s : jsstring) : Prop :=
  Forall (fun d => In d alphabet) s.

(** White space only. *)
Definition blank (s : jsstring) : Prop := within white_space s.

(** [dead ic alphabet r]: every match of [r] consumes a code unit outside
    [alphabet]. *)
Fixpoint dead (ic : bool) (alphabet : list N) (r : regex) : bool :=
  match r with
  | Chr cc => forallb (fun d => negb (cc_match ic cc d)) alphabet
  | Seq a b => dead ic alphabet a || dead ic alphabet b
  | Alt a b => dead ic alphabet a && dead ic alphabet b
  | Rep min max _ a =>
      negb (min =? 0)
      && match max with Some 0 => false | _ => true end
      && dead ic alphabet a
  | Group _ a => dead ic alphabet a
  | _ => false
  end.

Definition dead_re (alphabet : list N) (re : RegExp) : bool :=
  dead (re_ignoreCase re) alphabet (re_body re).

(** [starts_outside ic alphabet r]: every match of [r] starts with a code
    unit outside [alphabet]. *)
Fixpoint starts_outside (ic : bool) (alphabet : list N) (r : regex) : bool :=
  match r with
  | Chr cc => forallb (fun d => negb (cc_match ic cc d)) alphabet
  | Seq a _ => starts_outside ic alphabet a
  | Alt a b => starts_outside ic alphabet a && starts_outside ic alphabet b
  | Rep min max _ a =>
      negb (min =? 0)
      && match max with Some 0 => false | _ => true end
      && starts_outside ic alphabet a
  | Group _ a => starts_outside ic alphabet a
  | _ => false
  end.

(** If a match succeeds with one continuation it succeeds with every
    continuation that succeeds wherever that one does. *)
Definition weaker (c c' : Cont) : Prop := forall y, c y <> None -> c' y <> None.

(** ** About the lists *)

(** An accepted list candidate: the line has the shape of a list line and
    the filter takes it. *)
Definition accepted (lines : list jsstring) (i : nat) : bool :=
  match match_ re_list_line (line_at lines i) with
  | Some listMatch =>
      isActualListItem lines i (cap 2 listMatch) (length (cap 1 listMatch))
  | None => false
  end.

(** The closing tags of the open lists, the deepest list first. *)
Definition closing_tags (stack : list ListCtx) : list jsstring :=
  map (fun ctx => close_tag (type ctx)) stack.

(** The width [analyzeIndentationLevels] records for a line, if any. *)
Definition indent_of (line : jsstring) : option nat :=
  match match_ re_list_prefix line with
  | Some listMatch => Some (length (cap 1 listMatch))
  | None => None
  end.

(** The widths used in a document, line by line. *)
Definition used_indents (lines : list jsstring) : list nat :=
  flat_map (fun line => match indent_of line with Some w => [w] | None => [] end) lines.

(** The local variable [sortedIndents] of [analyzeIndentationLevels]. *)
Definition sortedIndents (lines : list jsstring) : list nat :=
  sort_numbers (map_keys (fold_left count_indent lines [])).

(** The line of the example. *)
Definition spielberger : jsstring := str "B. Spielberger directed the film.".

(** The line is a list line, at an indent within two columns of [indent],
    whose marker is the letter of code [code], in either case. *)
Definition letter_item_at (indent code : nat) (line : jsstring) : bool :=
  match match_ re_list_context line with
  | Some listMatch =>
      near (length (cap 1 listMatch)) indent
      && match pick_letter (marker_base (cap 2 listMatch)) with
         | Some c => c =? code
         | None => false
         end
  | None => false
  end.

(** ** Example documents *)

(** [- a], an empty line and [text], and the lists as the walk has them
    after the first line. *)
Definition bullet_then_text : list jsstring := [str "- a"; []; str "text"].
Definition after_first_bullet : ListState :=
  mkLists [mkCtx ul 0] [str "<ul>"; str "<li>a</li>"].

(** Three bullet lines at the widths 0, 4 and 2, not in that order. *)
Definition three_widths : list jsstring := [str "- a"; str "    - c"; str "  - b"].

(** A double quote, [abc] and an apostrophe. *)
Definition mixed_quotes : jsstring := DQ :: str "abc" ++ [39%N].

(** An item [a.], three empty lines, and the line of the example. *)
Definition distant_item : list jsstring := [str "a. Intro"; []; []; []; spielberger].

(** The text of the key of the first block, in bold, and after it a fenced
    block, in bold as well. *)
Definition written_key : jsstring := str "**x __CODE_BLOCK_0__ y** and **z ```a``` w**".

(** ** Further notions *)

(** The four code units [escapeHtml] rewrites: ampersand, the two angle
    brackets and the no-break space. *)
Definition is_escaped (c : N) : bool := one_of [38; 60; 62; 160]%N c.

(** The levels of a stack of lists count the lists below: the deepest
    list of a stack of [n] lists has level [n - 1], the outermost level 0. *)
Fixpoint levelled (stack : list ListCtx) : Prop :=
  match stack with
  | [] => True
  | ctx :: below => level ctx = length below /\ levelled below
  end.

(** The opening tags of the lists of a stack, the outermost list first. *)
Definition opening_tags (stack : list ListCtx) : list jsstring :=
  rev (map (fun ctx => open_tag (type ctx)) stack).

(** The lists the second loop of [adjustListStack] pushes on a stack of
    [base] lists to reach [base + n], the last one pushed first in the
    list: that one has the type of the item, the others are [ul]. *)
Fixpoint new_lists (listType : ListType) (base n : nat) : list ListCtx :=
  match n with
  | O => []
  | S n' =>
      new_lists listType (S base) n'
        ++ [mkCtx (if n' =? 0 then listType else ul) base]
  end.

(** A line that is one of the four list tags: whether it opens or closes,
    and the type of the list. *)
Definition list_tag (line : jsstring) : option (bool * ListType) :=
  if string_eqb line (open_tag ul) then Some (true, ul)
  else if string_eqb line (open_tag ol) then Some (true, ol)
  else if string_eqb line (close_tag ul) then Some (false, ul)
  else if string_eqb line (close_tag ol) then Some (false, ol)
  else None.

(** A line that starts as an item does. *)
Definition is_item (line : jsstring) : bool := starts_with (str "<li>") line.

(** The lists left open by [lines], read from a point where the lists
    [open] are, the innermost first; [None] when a closing tag does not
    close the innermost list or an item is outside every list. *)
Fixpoint nest (lines : list jsstring) (open : list ListType) : option (list ListType) :=
  match lines with
  | [] => Some open
  | line :: rest =>
      match list_tag line with
      | Some (true, t) => nest rest (t :: open)
      | Some (false, t) =>
          match open with
          | t' :: below => if ListType_eqb t t' then nest rest below else None
          | [] => None
          end
      | None =>
          if is_item line
          then match open with [] => None | _ => nest rest open end
          else nest rest open
      end
  end.

(** Every list is closed by its own tag, and every item is in a list. *)
Definition well_nested (lines : list jsstring) : Prop := nest lines [] = Some [].

(** A line of the input that cannot be taken for a tag the walk writes. *)
Definition plain_line (line : jsstring) : bool :=
  match list_tag line with Some _ => false | None => negb (is_item line) end.

(** The text has no line break inside. *)
Definition one_line (s : jsstring) : Prop := ~ In NL s.

(** The state and the captures of a match hold code units of [P] only. *)
Definition caps_ok (P : N -> Prop) (x : MatchState) : Prop :=
  Forall P (st_after x) /\ Forall (fun kv => Forall P (snd kv)) (st_caps x).

(** What the walk keeps true of its two arrays: the lists left open by
    the lines of [result] are those of [listStack], and no line of
    [result] has a line break inside. *)
Definition walk_ok (st : ListState) : Prop :=
  nest (result st) [] = Some (map type (listStack st))
  /\ Forall one_line (result st).

(** The array [after] is the array [before] with new entries at its end,
    each of them in [Q]. *)
Definition grows_by (Q : jsstring -> Prop) (before after : list jsstring) : Prop :=
  exists new, after = before ++ new /\ Forall Q new.

(** The two renderings [protectCodeBlocks] stores: the code is escaped. *)
Definition stored_block (fragment : jsstring) : Prop :=
  exists code, fragment = str "<pre><code>" ++ escapeHtml code ++ str "</code></pre>".
Definition stored_inline (fragment : jsstring) : Prop :=
  exists code, fragment = str "<code>" ++ escapeHtml code ++ str "</code>".

(** ** Texts without the characters a pattern needs *)

(** The text has none of the code units of [l]. *)
Definition free_of (l : list N) (s : jsstring) : Prop := Forall (fun d => ~ In d l) s.

(** [needs ic l r]: every match of [r] consumes a code unit of [l]. *)
Fixpoint needs (ic : bool) (l : list N) (r : regex) : Prop :=
  match r with
  | Chr cc => forall d, cc_match ic cc d = true -> In d l
  | Seq a b => needs ic l a \/ needs ic l b
  | Alt a b => needs ic l a /\ needs ic l b
  | Rep min max _ a => min <> 0 /\ max <> Some 0 /\ needs ic l a
  | Group _ a => needs ic l a
  | _ => False
  end.

Definition needs_re (l : list N) (re : RegExp) : Prop :=
  needs (re_ignoreCase re) l (re_body re).

(** [begins ic l r]: every match of [r] starts with a code unit of [l]. *)
Fixpoint begins (ic : bool) (l : list N) (r : regex) : Prop :=
  match r with
  | Chr cc => forall d, cc_match ic cc d = true -> In d l
  | Seq a _ => begins ic l a
  | Alt a b => begins ic l a /\ begins ic l b
  | Rep min max _ a => min <> 0 /\ max <> Some 0 /\ begins ic l a
  | Group _ a => begins ic l a
  | _ => False
  end.

Definition begins_re (l : list N) (re : RegExp) : Prop :=
  begins (re_ignoreCase re) l (re_body re).

(** The pattern matches at no position of the text. *)
Definition no_match (re : RegExp) (s : jsstring) : Prop :=
  forall before after, suffix_of after s -> match_at re before after = None.

(** The code units a line of plain text must not have for the passes to
    leave it alone: the line terminators, the two quotes, and the
    characters of the markup and of the tags. *)
Definition markup : list N := line_terminators ++ [DQ; 39%N] ++ str "`#=-*_~><[&/".

(** ** The sequence checks *)

(** The line is a list line at an indent within two columns of [indent]
    and [pick] reads [item] off the base of its marker. *)
Definition item_at (pick : jsstring -> option nat) (indent item : nat)
  (line : jsstring) : bool :=
  match match_ re_list_context line with
  | Some listMatch =>
      near (length (cap 1 listMatch)) indent
      && match pick (marker_base (cap 2 listMatch)) with
         | Some c => c =? item
         | None => false
         end
  | None => false
  end.

(** [opens strict ic P r]: the first code unit a match of [r] consumes is
    in [P]; with [strict] every match consumes one, without it a match may
    also be empty. *)
Fixpoint opens (strict ic : bool) (P : N -> Prop) (r : regex) : Prop :=
  match r with
  | Chr cc => forall d, cc_match ic cc d = true -> P d
  | Seq a b =>
      if strict
      then opens true ic P a \/ (opens false ic P a /\ opens true ic P b)
      else opens false ic P a /\ opens false ic P b
  | Alt a b => opens strict ic P a /\ opens strict ic P b
  | Rep min max _ a =>
      if strict then min <> 0 /\ max <> Some 0 /\ opens true ic P a
      else opens false ic P a
  | Group _ a => opens strict ic P a
  | Backref _ => False
  | _ => if strict then False else True
  end.

(** The pattern matches at no position of the text [s] that comes after
    [before]. *)
Definition no_match_from (re : RegExp) (before s : jsstring) : Prop :=
  forall p after, s = p ++ after -> match_at re (rev p ++ before) after = None.

(** ** Example texts *)

(** A line of [n] hyphens. *)
Definition hyphens (n : nat) : jsstring := repeat 45%N n.

(** A heading line: [n] number signs, a space and the title. *)
Definition atx (n : nat) (title : jsstring) : jsstring := repeat 35%N n ++ 32%N :: title.

(** The element of a heading of level [n]. *)
Definition heading (n : nat) (title : jsstring) : jsstring :=
  str "<h" ++ nat_to_string n ++ str ">" ++ title ++ str "</h" ++ nat_to_string n
      ++ str ">".

(** The element of a heading whose level is written with the digit [d]. *)
Definition heading_of_digit (d : N) (title : jsstring) : jsstring :=
  60%N :: [104; d; 62]%N ++ title ++ 60%N :: [47; 104; d; 62]%N.

(** The digits 1 to 6. *)
Definition level_digits : list N := [49; 50; 51; 52; 53; 54]%N.

(** The patterns of the later passes that begin with [<]. *)
Definition tag_patterns : list RegExp :=
  [re_quote_join; re_br_after_header; re_empty_p; re_blank_p; re_br_before_list;
   re_br_after_list].

(** A quoted line: [>], a space and the text. *)
Definition quoted (text : jsstring) : jsstring := 62%N :: 32%N :: text.

(** The element of a quotation. *)
Definition blockquote (text : jsstring) : jsstring :=
  str "<blockquote>" ++ text ++ str "</blockquote>".

(** A text between two pairs of tildes, and the element it stands for. *)
Definition struck (text : jsstring) : jsstring := str "~~" ++ text ++ str "~~".
Definition deleted (text : jsstring) : jsstring := str "<del>" ++ text ++ str "</del>".

(** The element of a paragraph. *)
Definition wrapped (body : jsstring) : jsstring := str "<p>" ++ body ++ str "</p>".

(** An element with the tag [name] around [body], and the tags of the
    elements [processTextFormatting] writes. *)
Definition element (name body : jsstring) : jsstring :=
  60%N :: name ++ 62%N :: body ++ 60%N :: 47%N :: name ++ [62%N].
Definition inline_names : list jsstring := [str "del"; str "strong"; str "em"].

(** A text between two pairs of asterisks, and the element it stands
    for. *)
Definition bold (text : jsstring) : jsstring := str "**" ++ text ++ str "**".
Definition strong (text : jsstring) : jsstring :=
  str "<strong>" ++ text ++ str "</strong>".

(** A text between two asterisks, and the element it stands for. *)
Definition starred (text : jsstring) : jsstring := str "*" ++ text ++ str "*".
Definition em (text : jsstring) : jsstring := str "<em>" ++ text ++ str "</em>".

(** A line with a hyphen as bullet, the element of its item, and the
    lines [processLists] writes for a list with this one item. *)
Definition bullet_item (text : jsstring) : jsstring := str "- " ++ text.
Definition li (text : jsstring) : jsstring := str "<li>" ++ text ++ str "</li>".
Definition own_list (text : jsstring) : list jsstring :=
  [open_tag ul; li text; close_tag ul].

(** The text of an item that is read as it stands: it is on one line and
    does not start with white space, and it has no opening bracket. *)
Definition item_text (text : jsstring) : Prop :=
  free_of (91%N :: line_terminators) text /\ trim_start text = text.

(** The lines the walk writes for the items [texts] at level 0, from a
    point where the lists of [stack] are open: before each item the open
    lists are closed and a new list is opened. *)
Fixpoint item_lines (stack : list ListCtx) (texts : list jsstring) : list jsstring :=
  match texts with
  | [] => []
  | t :: rest =>
      closing_tags stack ++ [open_tag ul; li t] ++ item_lines [mkCtx ul 0] rest
  end.

(** What [s.replace] with the flag g writes from a position on, for a
    replacer without effect; [skip] code units of the last match are
    still to be passed. *)
Definition scan (re : RegExp) (g : MatchInfo -> jsstring) (before after : jsstring)
  (skip : nat) : jsstring :=
  snd (replace_scan re (fun (_ : unit) mi => (tt, g mi)) before after skip tt).

(** ** The argument of [convertMarkdownToHTML] *)










(** ** The loop of [processLists], line by line *)

(** The two arrays as the loop of [processLists] has them when it comes
    to the line of index [i], the lines before it being done. *)
Definition walk_state (lines : list jsstring) (i : nat) : ListState :=
  walk lines (analyzeIndentationLevels lines) 0 i (mkLists [] []).

(** An item, two empty lines, a heading, and the line of the example. *)
Definition item_then_heading : jsstring :=
  str "c. Third" ++ nl ++ nl ++ nl ++ str "# H" ++ nl ++ spielberger.

(** A sentence, an empty line, and the line of the example. *)
Definition after_a_paragraph : jsstring :=
  str "He made it in 1975." ++ nl ++ nl ++ spielberger.

(** ** Line ends *)

(** Every pair of a carriage return and a line feed becomes one line
    feed. *)
Fixpoint crlf_to_lf (s : jsstring) : jsstring :=
  match s with
  | [] => []
  | c :: rest =>
      match rest with
      | d :: rest' =>
          if (c =? CR)%N && (d =? NL)%N then NL :: crlf_to_lf rest'
          else c :: crlf_to_lf rest
      | [] => [c]
      end
  end.

(** Every carriage return becomes a line feed. *)
Definition cr_to_lf (s : jsstring) : jsstring :=
  map (fun c => if (c =? CR)%N then NL else c) s.

(** The line ends of a text made line feeds: first the pairs, then the
    carriage returns that are left. *)
Definition unix_lines (s : jsstring) : jsstring := cr_to_lf (crlf_to_lf s).

(** ** Code in a text *)

(** A fenced block and a code span, as they are written. *)
Definition fenced (code : jsstring) : jsstring := str "```" ++ code ++ str "```".
Definition code_span (code : jsstring) : jsstring := str "`" ++ code ++ str "`".

(** * Properties *)

(** ** The failure boundary *)

Lemma run_app (done rest : list Pass) (b : Buffers) :
  run (done ++ rest) b
  = match run done b with
    | Normal b' => run rest b'
    | Throw error => Throw error
    end.
Proof.
  revert b. induction done as [|p done IH]; intros b; simpl.
  - reflexivity.
  - destruct (p b) as [b'|error]; [apply IH | reflexivity].
Qed.

Lemma run_on_html (f : jsstring -> jsstring) (rest : list Pass) (b : Buffers) :
  run (on_html f :: rest) b
  = run rest (mkBuffers (f (html b)) (codeBlocks b) (inlineCode b)).
Proof. reflexivity. Qed.





(** ** The matcher *)

Lemma suffix_of_refl (a : jsstring) : suffix_of a a.
Proof. exists []. reflexivity. Qed.

Lemma suffix_of_cons (d : N) (a : jsstring) : suffix_of a (d :: a).
Proof. exists [d]. reflexivity. Qed.

Lemma suffix_of_trans (a b c : jsstring) :
  suffix_of a b -> suffix_of b c -> suffix_of a c.
Proof.
  intros [p ->] [q ->]. exists (q ++ p). now rewrite app_assoc.
Qed.

Lemma suffix_of_Forall (P : N -> Prop) (a b : jsstring) :
  suffix_of a b -> Forall P b -> Forall P a.
Proof.
  intros [p ->] H. apply Forall_app in H. tauto.
Qed.

Lemma suffix_of_length (a b : jsstring) : suffix_of a b -> length a <= length b.
Proof. intros [p ->]. rewrite length_app. lia. Qed.

Create HintDb matcher.
#[local] Hint Resolve suffix_of_refl suffix_of_cons suffix_of_trans : matcher.

Lemma backref_match_suffix (ic : bool) (s after before b a : jsstring) :
  backref_match ic s after before = Some (b, a) -> suffix_of a after.
Proof.
  revert after before.
  induction s as [|c s IH]; intros after before H; simpl in H.
  - injection H as _ <-. auto with matcher.
  - destruct after as [|d after']; [discriminate|].
    destruct (canonicalize ic c =? canonicalize ic d)%N; [|discriminate].
    apply IH in H. eauto with matcher.
Qed.

Lemma RepeatMatcher_S (m : Cont -> Cont) (grp : list nat) (greedy : bool) (c : Cont)
  (fuel min : nat) (max : option nat) (x : MatchState) :
  RepeatMatcher m grp greedy c (S fuel) min max x
  = match max with
    | Some O => c x
    | _ =>
        let d := repeat_again m grp greedy c fuel min max x in
        let xr := clear_captures grp x in
        if negb (min =? 0) then m d xr
        else if negb greedy then
          match c x with Some z => Some z | None => m d xr end
        else
          match m d xr with Some z => Some z | None => c x end
    end.
Proof. reflexivity. Qed.

(** A continuation that fails wherever the atom can lead makes the whole
    repetition fail. *)
Lemma RepeatMatcher_none (m : Cont -> Cont) (grp : list nat) (greedy : bool) :
  (forall c x, (forall y, suffix_of (st_after y) (st_after x) -> c y = None) ->
               m c x = None) ->
  forall fuel min max c x,
    (forall y, suffix_of (st_after y) (st_after x) -> c y = None) ->
    RepeatMatcher m grp greedy c fuel min max x = None.
Proof.
  intros Hm. induction fuel as [|fuel IH]; intros min max c x Hc.
  - reflexivity.
  - rewrite RepeatMatcher_S.
    assert (Hx : c x = None) by auto with matcher.
    assert (Hd : m (repeat_again m grp greedy c fuel min max x)
                   (clear_captures grp x) = None).
    { apply Hm. intros y Hy. unfold repeat_again.
      destruct (_ && _); [reflexivity|].
      apply IH. intros z Hz. apply Hc. simpl in Hy. eauto with matcher. }
    cbv zeta. rewrite Hd, Hx.
    destruct max as [[|k]|]; destruct (min =? 0), greedy; reflexivity.
Qed.

Lemma matcher_none (ic ml : bool) (r : regex) :
  forall c x,
    (forall y, suffix_of (st_after y) (st_after x) -> c y = None) ->
    matcher ic ml r c x = None.
Proof.
  induction r as [|cc|r1 IH1 r2 IH2|r1 IH1 r2 IH2|min max greedy r1 IH1|n r1 IH1
                  |n| | | |cc|cc];
    intros c x Hc; simpl.
  - auto with matcher.
  - destruct (st_after x) as [|d rest] eqn:E; [reflexivity|].
    destruct (cc_match ic cc d); [|reflexivity].
    apply Hc. simpl. auto with matcher.
  - apply IH1. intros y Hy. apply IH2. intros z Hz. eauto with matcher.
  - rewrite IH1, IH2; auto.
  - apply RepeatMatcher_none; auto.
  - apply IH1. intros y Hy. apply Hc. exact Hy.
  - destruct (get_capture n (st_caps x)) as [s|]; [|auto with matcher].
    destruct (backref_match ic s (st_after x) (st_before x)) as [[b a]|] eqn:E;
      [|reflexivity].
    apply Hc. simpl. eapply backref_match_suffix; eauto.
  - destruct (at_line_start ml x); auto with matcher.
  - destruct (at_line_end ml x); auto with matcher.
  - destruct (xorb _ _); auto with matcher.
  - assert (Hx : c x = None) by auto with matcher.
    destruct (st_before x) as [|d0 rest0]; [exact Hx|].
    destruct (cc_match ic cc d0); [reflexivity | exact Hx].
  - assert (Hx : c x = None) by auto with matcher.
    destruct (st_after x) as [|d0 rest0]; [exact Hx|].
    destruct (cc_match ic cc d0); [reflexivity | exact Hx].
Qed.

(** *** Patterns that cannot match inside a given alphabet *)

Lemma dead_sound (ic ml : bool) (alphabet : list N) (r : regex) :
  dead ic alphabet r = true ->
  forall c x, within alphabet (st_after x) -> matcher ic ml r c x = None.
Proof.
  induction r as [|cc|r1 IH1 r2 IH2|r1 IH1 r2 IH2|min max greedy r1 IH1|n r1 IH1
                  |n| | | |cc|cc];
    simpl; intros Hdead c x Hx; try discriminate.
  - destruct (st_after x) as [|d rest] eqn:E; [reflexivity|].
    rewrite forallb_forall in Hdead.
    apply Forall_inv in Hx. apply Hdead in Hx.
    apply negb_true_iff in Hx. now rewrite Hx.
  - apply orb_true_iff in Hdead as [Hdead|Hdead].
    + now apply IH1.
    + apply matcher_none. intros y Hy. apply IH2; [exact Hdead|].
      eapply suffix_of_Forall; eauto.
  - apply andb_true_iff in Hdead as [H1 H2]. rewrite IH1, IH2; auto.
  - apply andb_true_iff in Hdead as [Hdead H1].
    apply andb_true_iff in Hdead as [Hmin Hmax].
    rewrite Nat.add_1_r, RepeatMatcher_S. cbv zeta. rewrite Hmin.
    destruct max as [[|k]|]; try discriminate; apply IH1; auto.
  - now apply IH1.
Qed.

Lemma match_at_dead (alphabet : list N) (re : RegExp) (before after : jsstring) :
  dead_re alphabet re = true -> within alphabet after ->
  match_at re before after = None.
Proof.
  intros Hdead Hafter. unfold match_at. now apply dead_sound with (alphabet := alphabet).
Qed.

Lemma search_dead (alphabet : list N) (re : RegExp) (after : jsstring) :
  dead_re alphabet re = true -> within alphabet after ->
  forall before, search re before after = None.
Proof.
  intros Hdead. induction after as [|d rest IH]; intros Hafter before; simpl;
    rewrite (match_at_dead _ _ Hdead Hafter).
  - reflexivity.
  - apply IH. now apply Forall_inv_tail in Hafter.
Qed.

Lemma replace_scan_dead (St : Type) (alphabet : list N) (re : RegExp)
  (f : St -> MatchInfo -> St * jsstring) (after : jsstring) :
  dead_re alphabet re = true -> within alphabet after ->
  forall before s, replace_scan re f before after 0 s = (s, after).
Proof.
  intros Hdead. induction after as [|d rest IH]; intros Hafter before s; simpl;
    rewrite (match_at_dead _ _ Hdead Hafter).
  - reflexivity.
  - rewrite IH; [reflexivity|]. now apply Forall_inv_tail in Hafter.
Qed.

Lemma replace_all_with_dead (alphabet : list N) (re : RegExp)
  (f : MatchInfo -> jsstring) (s : jsstring) :
  dead_re alphabet re = true -> within alphabet s -> replace_all_with re f s = s.
Proof.
  intros Hdead Hs. unfold replace_all_with.
  now rewrite replace_scan_dead with (alphabet := alphabet).
Qed.

Lemma replace_all_dead (alphabet : list N) (re : RegExp) (tpl s : jsstring) :
  dead_re alphabet re = true -> within alphabet s -> replace_all re tpl s = s.
Proof. intros. unfold replace_all. eapply replace_all_with_dead; eauto. Qed.

Lemma replace_first_dead (alphabet : list N) (re : RegExp) (tpl s : jsstring) :
  dead_re alphabet re = true -> within alphabet s -> replace_first re tpl s = s.
Proof.
  intros Hdead Hs. unfold replace_first.
  now rewrite search_dead with (alphabet := alphabet).
Qed.

Lemma match_dead (alphabet : list N) (re : RegExp) (s : jsstring) :
  dead_re alphabet re = true -> within alphabet s -> match_ re s = None.
Proof. intros. unfold match_. eapply search_dead; eauto. Qed.

(** [search] unfolded once. *)
Lemma search_eq (re : RegExp) (before after : jsstring) :
  search re before after
  = match match_at re before after with
    | Some y => Some (info_of before after y)
    | None =>
        match after with
        | [] => None
        | d :: rest => search re (d :: before) rest
        end
    end.
Proof. destruct after; reflexivity. Qed.

(** *** The fuel of a repetition is enough *)

Lemma backref_match_length (ic : bool) (s after before b a : jsstring) :
  backref_match ic s after before = Some (b, a) -> length a <= length after.
Proof.
  intros H. apply backref_match_suffix in H. now apply suffix_of_length.
Qed.

Lemma RepeatMatcher_forward (m : Cont -> Cont) (grp : list nat) (greedy : bool) :
  forward m ->
  forall fuel min max c c' x,
    (forall y, length (st_after y) <= length (st_after x) -> c y = c' y) ->
    RepeatMatcher m grp greedy c fuel min max x
    = RepeatMatcher m grp greedy c' fuel min max x.
Proof.
  intros Hm. induction fuel as [|fuel IH]; intros min max c c' x Hc; [reflexivity|].
  rewrite !RepeatMatcher_S. cbv zeta.
  rewrite (Hc x (le_n _)).
  assert (Hd : m (repeat_again m grp greedy c fuel min max x) (clear_captures grp x)
               = m (repeat_again m grp greedy c' fuel min max x) (clear_captures grp x)).
  { apply Hm. intros y Hy. unfold repeat_again.
    destruct (_ && _); [reflexivity|].
    apply IH. intros z Hz. apply Hc. simpl in Hy. lia. }
  now rewrite Hd.
Qed.

Lemma matcher_forward (ic ml : bool) (r : regex) : forward (matcher ic ml r).
Proof.
  induction r as [|cc|r1 IH1 r2 IH2|r1 IH1 r2 IH2|min max greedy r1 IH1|n r1 IH1
                  |n| | | |cc|cc];
    intros c c' x Hc; simpl; try (rewrite (Hc x (le_n _)); reflexivity).
  - destruct (st_after x) as [|d rest] eqn:E; [reflexivity|].
    destruct (cc_match ic cc d); [|reflexivity].
    apply Hc. simpl. lia.
  - apply IH1. intros y Hy. apply IH2. intros z Hz. apply Hc. lia.
  - rewrite (IH1 c c' x Hc), (IH2 c c' x Hc). reflexivity.
  - apply RepeatMatcher_forward; assumption.
  - apply IH1. intros y Hy. apply Hc. exact Hy.
  - destruct (get_capture n (st_caps x)) as [s|]; [|apply Hc; lia].
    destruct (backref_match ic s (st_after x) (st_before x)) as [[b a]|] eqn:E;
      [|reflexivity].
    apply Hc. simpl. eapply backref_match_length; eauto.
Qed.

(** With the fuel [matcher] gives it, and with any larger one, a
    repetition never runs out of fuel: its value does not depend on it. *)
Lemma RepeatMatcher_fuel (m : Cont -> Cont) (grp : list nat) (greedy : bool) (c : Cont) :
  forward m ->
  forall fuel1 fuel2 min max x,
    min + length (st_after x) < fuel1 ->
    min + length (st_after x) < fuel2 ->
    RepeatMatcher m grp greedy c fuel1 min max x
    = RepeatMatcher m grp greedy c fuel2 min max x.
Proof.
  intros Hm. induction fuel1 as [|fuel1 IH]; intros fuel2 min max x H1 H2; [lia|].
  destruct fuel2 as [|fuel2]; [lia|].
  rewrite !RepeatMatcher_S. cbv zeta.
  assert (Hd : m (repeat_again m grp greedy c fuel1 min max x) (clear_captures grp x)
               = m (repeat_again m grp greedy c fuel2 min max x) (clear_captures grp x)).
  { apply Hm. intros y Hy. unfold repeat_again. simpl in Hy.
    destruct (min =? 0) eqn:Emin; simpl.
    - apply Nat.eqb_eq in Emin. subst min.
      destruct (length (st_after y) =? length (st_after x)) eqn:Elen; [reflexivity|].
      apply Nat.eqb_neq in Elen. apply IH; simpl; lia.
    - apply Nat.eqb_neq in Emin. apply IH; lia. }
  now rewrite Hd.
Qed.

Lemma matcher_Rep_fuel (ic ml : bool) (min : nat) (max : option nat) (greedy : bool)
  (r : regex) (c : Cont) (x : MatchState) (fuel : nat) :
  min + length (st_after x) < fuel ->
  matcher ic ml (Rep min max greedy r) c x
  = RepeatMatcher (matcher ic ml r) (groups r) greedy c fuel min max x.
Proof.
  intros H. simpl. apply RepeatMatcher_fuel; [apply matcher_forward | lia | exact H].
Qed.

(** *** What a match goes through *)

Lemma RepeatMatcher_steps (ic ml : bool) (r : regex) (greedy : bool) :
  (forall c x z, matcher ic ml r c x = Some z ->
                 exists y, steps ic ml r x y /\ c y = Some z) ->
  forall fuel min max c x z,
    RepeatMatcher (matcher ic ml r) (groups r) greedy c fuel min max x = Some z ->
    exists y, steps ic ml (Rep min max greedy r) x y /\ c y = Some z.
Proof.
  intros Hm. induction fuel as [|fuel IH]; intros min max c x z H; [discriminate|].
  rewrite RepeatMatcher_S in H. cbv zeta in H.
  assert (Hstop : min = 0 \/ max = Some 0 -> c x = Some z ->
                  exists y, steps ic ml (Rep min max greedy r) x y /\ c y = Some z).
  { intros Hmin Hc. exists x. split; [now constructor | exact Hc]. }
  assert (Hmore : matcher ic ml r
                    (repeat_again (matcher ic ml r) (groups r) greedy c fuel min max x)
                    (clear_captures (groups r) x) = Some z ->
                  exists y, steps ic ml (Rep min max greedy r) x y /\ c y = Some z).
  { intros Hd. apply Hm in Hd as [y [Hy Hd]]. unfold repeat_again in Hd.
    destruct (_ && _); [discriminate|].
    apply IH in Hd as [y' [Hy' Hc]]. exists y'. split; [|exact Hc].
    eapply steps_Rep_more; eauto. }
  destruct max as [[|k]|]; [auto| |];
    (destruct (min =? 0) eqn:Emin; simpl in H; [apply Nat.eqb_eq in Emin | auto]);
    (destruct (negb greedy);
     [destruct (c x) eqn:Ec; [injection H as ->; auto | auto]
     |destruct (matcher ic ml r _ _) eqn:Em; [injection H as ->; auto | auto]]).
Qed.

(** The matcher is sound for [steps]: when it succeeds, its continuation
    has succeeded in a state the pattern leads to. *)
Lemma matcher_steps (ic ml : bool) (r : regex) :
  forall c x z,
    matcher ic ml r c x = Some z -> exists y, steps ic ml r x y /\ c y = Some z.
Proof.
  induction r as [|cc|r1 IH1 r2 IH2|r1 IH1 r2 IH2|min max greedy r1 IH1|n r1 IH1
                  |n| | | |cc|cc];
    intros c x z H; simpl in H.
  - exists x. split; [constructor | exact H].
  - destruct x as [before after caps]. simpl in H.
    destruct after as [|d rest]; [discriminate|].
    destruct (cc_match ic cc d) eqn:E; [|discriminate].
    eexists. split; [now constructor | exact H].
  - apply IH1 in H as [y [Hy H]]. apply IH2 in H as [y' [Hy' H]].
    exists y'. split; [econstructor; eauto | exact H].
  - destruct (matcher ic ml r1 c x) eqn:E1.
    + injection H as ->. apply IH1 in E1 as [y [Hy H]].
      exists y. split; [now apply steps_Alt_l | exact H].
    + apply IH2 in H as [y [Hy H]].
      exists y. split; [now apply steps_Alt_r | exact H].
  - eapply RepeatMatcher_steps; eauto.
  - apply IH1 in H as [y [Hy H]]. eexists. split; [constructor; exact Hy | exact H].
  - destruct (get_capture n (st_caps x)) as [s|] eqn:Eg.
    + destruct (backref_match ic s (st_after x) (st_before x)) as [[b a]|] eqn:Eb;
        [|discriminate].
      eexists. split; [eapply steps_Backref_some; eauto | exact H].
    + exists x. split; [now constructor | exact H].
  - destruct (at_line_start ml x) eqn:E; [|discriminate].
    exists x. split; [now constructor | exact H].
  - destruct (at_line_end ml x) eqn:E; [|discriminate].
    exists x. split; [now constructor | exact H].
  - destruct (xorb _ _) eqn:E; [|discriminate].
    exists x. split; [now constructor | exact H].
  - exists x. split; [|destruct (st_before x) as [|p rest];
                        [exact H | destruct (cc_match ic cc p); [discriminate | exact H]]].
    constructor. destruct (st_before x) as [|p rest]; [exact I|].
    destruct (cc_match ic cc p); [discriminate | reflexivity].
  - exists x. split; [|destruct (st_after x) as [|p rest];
                        [exact H | destruct (cc_match ic cc p); [discriminate | exact H]]].
    constructor. destruct (st_after x) as [|p rest]; [exact I|].
    destruct (cc_match ic cc p); [discriminate | reflexivity].
Qed.

(** *** How the captures and the text move along a match *)

Lemma get_capture_clear (n : nat) (grp : list nat) (x : MatchState) :
  ~ In n grp ->
  get_capture n (st_caps (clear_captures grp x)) = get_capture n (st_caps x).
Proof.
  intros Hn. unfold clear_captures. simpl.
  induction (st_caps x) as [|[k v] caps IH]; simpl; [reflexivity|].
  destruct (existsb (Nat.eqb k) grp) eqn:E; simpl.
  - destruct (Nat.eqb k n) eqn:Ek; [|exact IH].
    apply Nat.eqb_eq in Ek. subst k.
    apply existsb_exists in E as [k' [Hin Hk]]. apply Nat.eqb_eq in Hk. now subst.
  - now rewrite IH.
Qed.

(** A group that the pattern does not hold keeps its capture. *)
Lemma steps_other_capture (ic ml : bool) (n : nat) (r : regex) (x y : MatchState) :
  steps ic ml r x y -> ~ In n (groups r) ->
  get_capture n (st_caps y) = get_capture n (st_caps x).
Proof.
  induction 1 as [x|cc d rest before caps Hd|r1 r2 x y z H1 IH1 H2 IH2
                  |r1 r2 x y H1 IH1|r1 r2 x y H2 IH2
                  |min max greedy r x Hmin|min max max' greedy r x y z H1 IH1 H2 IH2
                  |k r x y H1 IH1|k x Hk|k x s b a Hk Hb|x Hx|x Hx|x Hx|cc x Hx|cc x Hx];
    simpl; intros Hn; try reflexivity.
  - rewrite in_app_iff in Hn. rewrite IH2, IH1; tauto.
  - rewrite in_app_iff in Hn. apply IH1. tauto.
  - rewrite in_app_iff in Hn. apply IH2. tauto.
  - rewrite (IH2 Hn), (IH1 Hn). now apply get_capture_clear.
  - destruct (Nat.eqb k n) eqn:E.
    + apply Nat.eqb_eq in E. tauto.
    + apply IH1. tauto.
Qed.

Lemma steps_Chr_inv (ic ml : bool) (cc : CharClass) (x y : MatchState) :
  steps ic ml (Chr cc) x y ->
  exists d, st_after x = d :: st_after y /\ cc_match ic cc d = true.
Proof. inversion 1; subst. simpl. eauto. Qed.

(** A repetition of one class goes over code units of the class. *)
Lemma steps_class_run (ic ml : bool) (cc : CharClass) (r : regex) (x y : MatchState) :
  steps ic ml r x y ->
  forall min max greedy,
    r = Rep min max greedy (Chr cc) ->
    exists p, st_after x = p ++ st_after y
              /\ Forall (fun d => cc_match ic cc d = true) p.
Proof.
  induction 1 as [x|cc' d rest before caps Hd|r1 r2 x y z H1 IH1 H2 IH2
                  |r1 r2 x y H1 IH1|r1 r2 x y H2 IH2
                  |min max greedy r x Hmin|min max max' greedy r x y z H1 IH1 H2 IH2
                  |k r x y H1 IH1|k x Hk|k x s b a Hk Hb|x Hx|x Hx|x Hx|cc' x Hx|cc' x Hx];
    intros min0 max0 greedy0 Hr; try discriminate.
  - exists []. split; [reflexivity | constructor].
  - injection Hr as -> -> -> ->.
    destruct (IH2 _ _ _ eq_refl) as [p [Hp Hall]].
    apply steps_Chr_inv in H1 as [d [Hd Hcc]]. simpl in Hd.
    exists (d :: p). split; [now rewrite Hd, Hp | now constructor].
Qed.

(** *** Patterns whose first code unit lies outside an alphabet *)

Lemma steps_starts_outside (ic ml : bool) (alphabet : list N) (r : regex)
  (x y : MatchState) :
  steps ic ml r x y -> starts_outside ic alphabet r = true ->
  exists d rest, st_after x = d :: rest /\ ~ In d alphabet.
Proof.
  induction 1 as [x|cc d rest before caps Hd|r1 r2 x y z H1 IH1 H2 IH2
                  |r1 r2 x y H1 IH1|r1 r2 x y H2 IH2
                  |min max greedy r x Hmin|min max max' greedy r x y z H1 IH1 H2 IH2
                  |k r x y H1 IH1|k x Hk|k x s b a Hk Hb|x Hx|x Hx|x Hx|cc x Hx|cc x Hx];
    simpl; intros Hs; try discriminate; auto.
  - exists d, rest. split; [reflexivity|]. intros Hin.
    rewrite forallb_forall in Hs. apply Hs in Hin. now rewrite Hd in Hin.
  - apply andb_true_iff in Hs as [Hs _]. auto.
  - apply andb_true_iff in Hs as [_ Hs]. auto.
  - destruct Hmin as [-> | ->]; [discriminate|].
    now rewrite andb_false_r in Hs.
  - apply andb_true_iff in Hs as [_ Hs]. apply IH1 in Hs. exact Hs.
Qed.

(** *** A weaker continuation *)

Lemma RepeatMatcher_weaker (m : Cont -> Cont) (grp : list nat) (greedy : bool) :
  (forall c c' x, weaker c c' -> m c x <> None -> m c' x <> None) ->
  forall fuel min max c c' x,
    weaker c c' ->
    RepeatMatcher m grp greedy c fuel min max x <> None ->
    RepeatMatcher m grp greedy c' fuel min max x <> None.
Proof.
  intros Hm. induction fuel as [|fuel IH]; intros min max c c' x Hc; [auto|].
  rewrite !RepeatMatcher_S. cbv zeta.
  pose proof (Hc x) as Hx.
  assert (Hd : m (repeat_again m grp greedy c fuel min max x) (clear_captures grp x)
               <> None ->
               m (repeat_again m grp greedy c' fuel min max x) (clear_captures grp x)
               <> None).
  { apply Hm. intros y. unfold repeat_again.
    destruct (_ && _); [auto|]. now apply IH. }
  destruct max as [[|k]|]; [exact Hx| |];
    (destruct (negb (min =? 0)); [exact Hd|]);
    destruct (negb greedy);
    destruct (c x), (c' x), (m _ _), (m _ _);
    intros H; try discriminate; try congruence;
    exfalso;
    first [ solve [apply Hx; first [discriminate | reflexivity]]
          | solve [apply Hd; first [discriminate | reflexivity]] ].
Qed.

Lemma matcher_weaker (ic ml : bool) (r : regex) :
  forall c c' x,
    weaker c c' -> matcher ic ml r c x <> None -> matcher ic ml r c' x <> None.
Proof.
  induction r as [|cc|r1 IH1 r2 IH2|r1 IH1 r2 IH2|min max greedy r1 IH1|n r1 IH1
                  |n| | | |cc|cc];
    intros c c' x Hc; simpl; try (now apply Hc).
  - destruct (st_after x) as [|d rest]; [auto|].
    destruct (cc_match ic cc d); [apply Hc | auto].
  - apply IH1. intros y. now apply IH2.
  - pose proof (IH1 c c' x Hc) as H1. pose proof (IH2 c c' x Hc) as H2.
    destruct (matcher ic ml r1 c x), (matcher ic ml r1 c' x);
      auto; try discriminate.
    intros _. exfalso. apply H1; [discriminate | reflexivity].
  - now apply RepeatMatcher_weaker.
  - apply IH1. intros y. apply Hc.
  - destruct (get_capture n (st_caps x)) as [s|]; [|apply Hc].
    destruct (backref_match ic s (st_after x) (st_before x)) as [[b a]|]; [apply Hc | auto].
  - destruct (at_line_start ml x); [apply Hc | auto].
  - destruct (at_line_end ml x); [apply Hc | auto].
  - destruct (xorb _ _); [apply Hc | auto].
  - destruct (st_before x) as [|p rest]; [apply Hc|].
    destruct (cc_match ic cc p); [auto | apply Hc].
  - destruct (st_after x) as [|p rest]; [apply Hc|].
    destruct (cc_match ic cc p); [auto | apply Hc].
Qed.

(** *** Anchored patterns *)

(** Without the flag m, a pattern that starts with [^] matches at the
    start of the text only. *)
Lemma search_anchored (re : RegExp) (r : regex) :
  re_body re = Seq Bol r -> re_multiline re = false ->
  forall after before, before <> [] -> search re before after = None.
Proof.
  intros Hbody Hml.
  assert (Hat : forall after before, before <> [] -> match_at re before after = None).
  { intros after [|p before] Hne; [contradiction|].
    unfold match_at. rewrite Hbody, Hml. reflexivity. }
  induction after as [|d rest IH]; intros before Hne; rewrite search_eq, Hat by exact Hne.
  - reflexivity.
  - apply IH. discriminate.
Qed.

Lemma match_anchored (re : RegExp) (r : regex) (s : jsstring) (mi : MatchInfo) :
  re_body re = Seq Bol r -> re_multiline re = false ->
  match_ re s = Some mi ->
  exists y, match_at re [] s = Some y /\ mi = info_of [] s y.
Proof.
  intros Hbody Hml H. unfold match_ in H. rewrite search_eq in H.
  destruct (match_at re [] s) as [y|].
  - injection H as <-. now exists y.
  - destruct s as [|d rest]; [discriminate|].
    rewrite (search_anchored re Hbody Hml) in H; discriminate.
Qed.

(** *** What a rewrite is made of *)

(** The output of a rewrite holds code units of the input and of the
    replacements only. *)
Lemma replace_scan_within (St : Type) (alphabet : list N) (re : RegExp)
  (f : St -> MatchInfo -> St * jsstring) :
  (forall s mi, within alphabet (snd (f s mi))) ->
  forall after before skip s,
    within alphabet after ->
    within alphabet (snd (replace_scan re f before after skip s)).
Proof.
  intros Hf. induction after as [|d rest IH]; intros before skip s Hafter.
  - destruct skip as [|k]; simpl; [|constructor].
    destruct (match_at re before []) as [y|]; [|constructor].
    specialize (Hf s (info_of before [] y)). destruct (f s _). exact Hf.
  - pose proof (Forall_inv Hafter) as Hd.
    pose proof (Forall_inv_tail Hafter) as Hrest.
    destruct skip as [|k]; simpl; [|apply IH; exact Hrest].
    destruct (match_at re before (d :: rest)) as [y|].
    + specialize (Hf s (info_of before (d :: rest) y)).
      destruct (f s _) as [s1 out]. simpl in Hf.
      destruct (length _) as [|k].
      * specialize (IH (d :: before) 0 s1 Hrest).
        destruct (replace_scan _ _ _ _ _ _) as [s2 tl]. simpl in *.
        apply Forall_app. split; [exact Hf|]. constructor; assumption.
      * specialize (IH (d :: before) k s1 Hrest).
        destruct (replace_scan _ _ _ _ _ _) as [s2 tl]. simpl in *.
        apply Forall_app. split; assumption.
    + specialize (IH (d :: before) 0 s Hrest).
      destruct (replace_scan _ _ _ _ _ _) as [s1 tl]. simpl in *.
      constructor; assumption.
Qed.

(** A replacement text without a dollar sign stands for itself. *)
Lemma GetSubstitution_plain (m : nat) (mi : MatchInfo) (tpl : jsstring) :
  Forall (fun c => c <> 36%N) tpl -> GetSubstitution m mi tpl = tpl.
Proof.
  induction tpl as [|c t IH]; intros H; simpl; [reflexivity|].
  pose proof (Forall_inv H) as Hc. apply N.eqb_neq in Hc. rewrite Hc. simpl.
  f_equal. apply IH. now apply Forall_inv_tail in H.
Qed.

Lemma replace_all_within (alphabet : list N) (re : RegExp) (tpl s : jsstring) :
  Forall (fun c => c <> 36%N) tpl -> within alphabet tpl -> within alphabet s ->
  within alphabet (replace_all re tpl s).
Proof.
  intros Hplain Htpl Hs. unfold replace_all, replace_all_with.
  apply replace_scan_within; [|exact Hs].
  intros _ mi. simpl. now rewrite GetSubstitution_plain.
Qed.

Lemma split_scan_cons (re : RegExp) (before rest : jsstring) (d : N) (skip : nat)
  (acc : jsstring) :
  split_scan re before (d :: rest) skip acc
  = match skip with
    | S k => split_scan re (d :: before) rest k acc
    | O =>
        match match_at re before (d :: rest) with
        | None => split_scan re (d :: before) rest 0 (d :: acc)
        | Some y =>
            match length (d :: rest) - length (st_after y), acc with
            | O, [] => split_scan re (d :: before) rest 0 (d :: acc)
            | O, _ => rev acc :: split_scan re (d :: before) rest 0 [d]
            | S k, _ => rev acc :: split_scan re (d :: before) rest k []
            end
        end
    end.
Proof. reflexivity. Qed.

(** The pieces of a split hold code units of the input only. *)
Lemma split_scan_within (alphabet : list N) (re : RegExp) :
  forall after before skip acc,
    within alphabet after -> within alphabet acc ->
    Forall (within alphabet) (split_scan re before after skip acc).
Proof.
  induction after as [|d rest IH]; intros before skip acc Hafter Hacc.
  - simpl. constructor; [|constructor]. now apply Forall_rev.
  - rewrite split_scan_cons.
    pose proof (Forall_inv Hafter) as Hd.
    pose proof (Forall_inv_tail Hafter) as Hrest.
    assert (Hdacc : within alphabet (d :: acc)) by (constructor; assumption).
    assert (Hone : within alphabet [d]) by (constructor; [assumption | constructor]).
    assert (Hrev : within alphabet (rev acc)) by now apply Forall_rev.
    destruct skip as [|k]; [|now apply IH].
    destruct (match_at re before (d :: rest)) as [y|]; [|now apply IH].
    destruct (length (d :: rest) - length (st_after y)) as [|k].
    + destruct acc as [|a acc']; [now apply IH|].
      constructor; [exact Hrev | now apply IH].
    + constructor; [exact Hrev | apply IH; [exact Hrest | constructor]].
Qed.

Lemma split_re_within (alphabet : list N) (re : RegExp) (s : jsstring) :
  within alphabet s -> Forall (within alphabet) (split_re re s).
Proof.
  intros Hs. unfold split_re. destruct s as [|d rest].
  - destruct (match_at re [] []); repeat constructor.
  - apply split_scan_within; [exact Hs | constructor].
Qed.

Lemma split_on_within (alphabet : list N) (sep : N) (s : jsstring) :
  within alphabet s -> Forall (within alphabet) (split_on sep s).
Proof.
  induction s as [|d rest IH]; intros Hs; simpl.
  - repeat constructor.
  - pose proof (Forall_inv Hs) as Hd.
    specialize (IH (Forall_inv_tail Hs)).
    destruct (d =? sep)%N.
    + constructor; [constructor | exact IH].
    + destruct (split_on sep rest) as [|piece pieces].
      * repeat constructor. exact Hd.
      * inversion IH; subst. constructor; [constructor|]; assumption.
Qed.

Lemma split_on_not_nil (sep : N) (s : jsstring) : split_on sep s <> [].
Proof.
  destruct s as [|d rest]; simpl; [discriminate|].
  destruct (d =? sep)%N; [discriminate|].
  destruct (split_on sep rest); discriminate.
Qed.

(** [split] and [join] on the same separator are inverse. *)
Lemma join_split_on (sep : N) (s : jsstring) : join [sep] (split_on sep s) = s.
Proof.
  induction s as [|d rest IH]; simpl; [reflexivity|].
  pose proof (split_on_not_nil sep rest) as Hne.
  destruct (d =? sep)%N eqn:E.
  - apply N.eqb_eq in E. subst d.
    destruct (split_on sep rest) as [|piece pieces]; [contradiction|].
    simpl. simpl in IH. now rewrite IH.
  - destruct (split_on sep rest) as [|piece pieces]; [contradiction|].
    simpl in *. destruct pieces; simpl in *; now rewrite <- IH.
Qed.

(** *** White space *)

Lemma is_space_In (d : N) : is_space d = true <-> In d white_space.
Proof.
  unfold is_space, one_of. rewrite existsb_exists. split.
  - intros [e [Hin He]]. apply N.eqb_eq in He. now subst.
  - intros Hin. exists d. split; [exact Hin | apply N.eqb_refl].
Qed.

Lemma trim_start_blank (s : jsstring) : blank s -> trim_start s = [].
Proof.
  induction s as [|d rest IH]; intros H; simpl; [reflexivity|].
  pose proof (Forall_inv H) as Hd. apply is_space_In in Hd. rewrite Hd.
  apply IH. now apply Forall_inv_tail in H.
Qed.

Lemma trim_blank (s : jsstring) : blank s -> trim s = [].
Proof.
  intros H. unfold trim. now rewrite (trim_start_blank H).
Qed.

(** What [trim_start] leaves is empty or starts with a code unit that is
    not white space. *)
Lemma trim_start_nil_blank (s : jsstring) : trim_start s = [] -> blank s.
Proof.
  induction s as [|d rest IH]; simpl; intros H; [constructor|].
  destruct (is_space d) eqn:E; [|discriminate].
  constructor; [now apply is_space_In | now apply IH].
Qed.

Lemma trim_start_idem (s : jsstring) : trim_start (trim_start s) = trim_start s.
Proof.
  induction s as [|d rest IH]; simpl; [reflexivity|].
  destruct (is_space d) eqn:E; [exact IH|]. simpl. now rewrite E.
Qed.

Lemma trim_nil_blank (s : jsstring) : trim s = [] -> blank s.
Proof.
  unfold trim. intros H.
  assert (H1 : trim_start (rev (trim_start s)) = []).
  { destruct (trim_start (rev (trim_start s))) as [|a t]; [reflexivity|].
    apply (f_equal (@length N)) in H. simpl in H.
    rewrite length_app in H. simpl in H. lia. }
  apply trim_start_nil_blank in H1.
  apply Forall_rev in H1. rewrite rev_involutive in H1.
  apply trim_start_blank in H1. rewrite trim_start_idem in H1.
  now apply trim_start_nil_blank.
Qed.

(** ** The passes on white space *)

Ltac dead_rewrite :=
  match goal with
  | H : blank ?s |- _ =>
      repeat first
        [ rewrite replace_all_dead with (alphabet := white_space) (s := s)
            by first [exact H | reflexivity]
        | rewrite replace_all_with_dead with (alphabet := white_space) (s := s)
            by first [exact H | reflexivity]
        | rewrite replace_first_dead with (alphabet := white_space) (s := s)
            by first [exact H | reflexivity] ]
  end.

Lemma normalizeContent_blank (s : jsstring) : blank s -> blank (normalizeContent s).
Proof.
  intros H. unfold normalizeContent, stripQuotes. dead_rewrite.
  repeat apply replace_all_within; try exact H;
    repeat constructor; try discriminate; simpl; tauto.
Qed.

Lemma protectCodeBlocks_blank (s : jsstring) (blocks inline : list jsstring) :
  blank s -> protectCodeBlocks s blocks inline = (s, blocks, inline).
Proof.
  intros H. unfold protectCodeBlocks.
  rewrite replace_scan_dead with (alphabet := white_space); [|reflexivity|exact H].
  rewrite replace_scan_dead with (alphabet := white_space); [|reflexivity|exact H].
  reflexivity.
Qed.

Lemma processHeaders_blank (s : jsstring) : blank s -> processHeaders s = s.
Proof. intros H. unfold processHeaders. dead_rewrite. reflexivity. Qed.

Lemma processTextFormatting_blank (s : jsstring) :
  blank s -> processTextFormatting s = s.
Proof. intros H. unfold processTextFormatting. dead_rewrite. reflexivity. Qed.

Lemma processBlockquotes_blank (s : jsstring) : blank s -> processBlockquotes s = s.
Proof. intros H. unfold processBlockquotes. dead_rewrite. reflexivity. Qed.

Lemma processHorizontalRules_blank (s : jsstring) :
  blank s -> processHorizontalRules s = s.
Proof. intros H. unfold processHorizontalRules. dead_rewrite. reflexivity. Qed.

Lemma processLinksAndImages_blank (s : jsstring) :
  blank s -> processLinksAndImages s = s.
Proof. intros H. unfold processLinksAndImages. dead_rewrite. reflexivity. Qed.

(** A line of white space is not a list line, and the walk passes it on
    without touching the stack. *)
Lemma list_line_blank (line : jsstring) : blank line -> match_ re_list_line line = None.
Proof. intros H. apply match_dead with (alphabet := white_space); [reflexivity | exact H]. Qed.

Lemma process_line_blank (lines : list jsstring) (indentLevels : NumMap) (i : nat)
  (st : ListState) :
  blank (line_at lines i) ->
  process_line lines indentLevels i st = push_result (line_at lines i) st.
Proof.
  intros H. unfold process_line.
  rewrite (list_line_blank H), (trim_blank H). reflexivity.
Qed.

Lemma skipn_line_at (lines : list jsstring) (i : nat) :
  i < length lines -> skipn i lines = line_at lines i :: skipn (S i) lines.
Proof.
  revert i. induction lines as [|l lines IH]; intros i Hi; simpl in Hi; [lia|].
  destruct i as [|i]; [reflexivity|].
  simpl. unfold line_at. simpl. apply IH. lia.
Qed.

Lemma walk_blank (lines : list jsstring) (indentLevels : NumMap) :
  Forall blank lines ->
  forall n i st,
    i + n <= length lines ->
    walk lines indentLevels i n st
    = mkLists (listStack st) (result st ++ firstn n (skipn i lines)).
Proof.
  intros Hlines. induction n as [|n IH]; intros i st Hi; simpl.
  - rewrite app_nil_r. now destruct st.
  - rewrite process_line_blank.
    + rewrite IH by lia. simpl.
      rewrite (@skipn_line_at lines i) by lia. simpl.
      now rewrite <- app_assoc.
    + rewrite Forall_forall in Hlines. apply Hlines. apply nth_In. lia.
Qed.

Lemma processLists_blank (s : jsstring) : blank s -> processLists s = s.
Proof.
  intros H. unfold processLists.
  rewrite walk_blank.
  - simpl. rewrite firstn_all, app_nil_r. apply join_split_on.
  - now apply split_on_within.
  - simpl. lia.
Qed.

Lemma process_block_blank (block : jsstring) : blank block -> process_block block = [].
Proof. intros H. unfold process_block. now rewrite (trim_blank H). Qed.

Lemma processParagraphs_blank (s : jsstring) : blank s -> processParagraphs s = [].
Proof.
  intros H. unfold processParagraphs.
  pose proof (split_re_within re_blank_line H) as Hblocks.
  induction Hblocks as [|block blocks Hb Hbs IH]; simpl; [reflexivity|].
  rewrite (process_block_blank Hb). simpl. exact IH.
Qed.

(** The value of [convertMarkdownToHTML] when no pass throws. *)
Lemma convertMarkdownToHTML_eq (markdown : jsstring) :
  convertMarkdownToHTML markdown
  = let '(text, blocks, inline) := protectCodeBlocks (normalizeContent markdown) [] [] in
    finalCleanup
      (processParagraphs
         (restoreCodeBlocks
            (processLinksAndImages
               (processHorizontalRules
                  (processLists
                     (processBlockquotes
                        (processTextFormatting (processHeaders text))))))
            blocks inline)).
Proof.
  unfold convertMarkdownToHTML, try_catch, pipeline.
  rewrite run_on_html.
  change (run (protect_pass :: ?rest) ?b)
    with (match protect_pass b with Normal b' => run rest b' | Throw e => Throw e end).
  unfold protect_pass. simpl html. simpl codeBlocks. simpl inlineCode.
  destruct (protectCodeBlocks _ _ _) as [[text blocks] inline].
  reflexivity.
Qed.

(** C10.  On an input of white space only, the empty string included,
    [convertMarkdownToHTML] returns the empty string. *)
Theorem whitespace_only_input_gives_empty_output (markdown : jsstring) :
  Forall (fun c => is_space c = true) markdown ->
  convertMarkdownToHTML markdown = [].
Proof.
  intros Hws.
  assert (H : blank markdown).
  { eapply Forall_impl; [|exact Hws]. intros c Hc. now apply is_space_In. }
  apply normalizeContent_blank in H.
  rewrite convertMarkdownToHTML_eq, (protectCodeBlocks_blank _ _ H).
  rewrite (processHeaders_blank H), (processTextFormatting_blank H),
    (processBlockquotes_blank H), (processLists_blank H),
    (processHorizontalRules_blank H), (processLinksAndImages_blank H).
  unfold restoreCodeBlocks. simpl restore_loop.
  rewrite (processParagraphs_blank H). reflexivity.
Qed.

(** A space, a tab, a line break, a no-break space and a line separator. *)
Lemma whitespace_only_input_gives_empty_output_witness :
  convertMarkdownToHTML [32; 9; 10; 160; 8232]%N = [].
Proof.
  apply whitespace_only_input_gives_empty_output.
  repeat constructor.
Defined.

(** ** The walk over the lines *)

Lemma close_all_closing_tags (stack : list ListCtx) : close_all stack = closing_tags stack.
Proof. induction stack as [|ctx stack IH]; simpl; [reflexivity | now rewrite IH]. Qed.

Lemma string_eqb_nil (s : jsstring) : string_eqb s [] = true <-> s = [].
Proof. destruct s; simpl; split; intros H; congruence. Qed.

Lemma close_deeper_all (stack : list ListCtx) :
  forall res n, length stack <= n ->
    close_deeper 0 (mkLists stack res) n = mkLists [] (res ++ closing_tags stack).
Proof.
  induction stack as [|ctx stack IH]; intros res n Hn.
  - destruct n; simpl; now rewrite app_nil_r.
  - destruct n as [|n]; [simpl in Hn; lia|]. simpl.
    rewrite IH by (simpl in Hn; lia). now rewrite <- app_assoc.
Qed.

(** At level 0 [adjustListStack] closes every open list, the list of
    level 0 included, and opens a new one. *)
Lemma adjustListStack_level_0 (stack : list ListCtx) (res : list jsstring)
  (listType : ListType) :
  adjustListStack (mkLists stack res) 0 listType
  = mkLists [mkCtx listType 0] (res ++ closing_tags stack ++ [open_tag listType]).
Proof.
  unfold adjustListStack. cbn [listStack].
  rewrite close_deeper_all by lia. simpl. now rewrite <- app_assoc.
Qed.

(** A line that is not blank and is not accepted closes every open list
    and is passed on. *)
Lemma process_line_rejected (lines : list jsstring) (indentLevels : NumMap) (i : nat)
  (st : ListState) :
  trim (line_at lines i) <> [] -> accepted lines i = false ->
  process_line lines indentLevels i st
  = mkLists [] (result st ++ closing_tags (listStack st) ++ [line_at lines i]).
Proof.
  intros Htext Hrej. unfold process_line. unfold accepted in Hrej.
  destruct (match_ re_list_line (line_at lines i)) as [listMatch|].
  - rewrite Hrej. simpl. unfold push_result, closeAllLists. simpl.
    now rewrite close_all_closing_tags, <- app_assoc.
  - destruct (string_eqb (trim (line_at lines i)) []) eqn:E.
    + apply string_eqb_nil in E. contradiction.
    + simpl. unfold push_result, closeAllLists. simpl.
      now rewrite close_all_closing_tags, <- app_assoc.
Qed.

(** One more turn of the loop. *)
Lemma walk_next (lines : list jsstring) (indentLevels : NumMap) :
  forall n i st,
    walk lines indentLevels i (S n) st
    = process_line lines indentLevels (i + n) (walk lines indentLevels i n st).
Proof.
  induction n as [|n IH]; intros i st.
  - simpl. now rewrite Nat.add_0_r.
  - change (walk lines indentLevels i (S (S n)) st)
      with (walk lines indentLevels (S i) (S n) (process_line lines indentLevels i st)).
    rewrite IH. now rewrite Nat.add_succ_r.
Qed.

Lemma walk_state_next (lines : list jsstring) (i : nat) :
  walk_state lines (S i)
  = process_line lines (analyzeIndentationLevels lines) i (walk_state lines i).
Proof. unfold walk_state. now rewrite walk_next. Qed.

(** C7.  [processLists] goes through the lines of its text in order, and
    [walk_state lines i] is what it has written and left open when it
    comes to the line of index [i]: nothing before the first line.  A blank line leaves the stack of open
    lists as it is and is emitted; a line that is neither blank nor an
    accepted candidate empties the stack, the closing tags being emitted
    from the deepest list outwards, before the line itself, unchanged; and
    after the last line the lists still open are closed in the same way:
    the value returned is the lines written, then those closing tags. *)
Theorem list_walk_closes_lists_on_text_and_at_end (text : jsstring) :
  let lines := split_on NL text in
  walk_state lines 0 = mkLists [] []
  /\ (forall i, i < length lines ->
        trim (line_at lines i) = [] ->
        walk_state lines (S i)
        = mkLists (listStack (walk_state lines i))
                  (result (walk_state lines i) ++ [line_at lines i]))
  /\ (forall i, i < length lines ->
        trim (line_at lines i) <> [] -> accepted lines i = false ->
        walk_state lines (S i)
        = mkLists [] (result (walk_state lines i)
                        ++ closing_tags (listStack (walk_state lines i))
                        ++ [line_at lines i]))
  /\ processLists text
     = join nl (result (walk_state lines (length lines))
                  ++ closing_tags (listStack (walk_state lines (length lines)))).
Proof.
  intros lines. split; [reflexivity|]. split; [|split].
  - intros i _ Hblank. apply trim_nil_blank in Hblank.
    rewrite walk_state_next. now rewrite process_line_blank.
  - intros i _ Htext Hrej. rewrite walk_state_next.
    now apply process_line_rejected.
  - unfold processLists. fold lines. unfold walk_state, closeAllLists.
    cbn [result listStack]. now rewrite close_all_closing_tags.
Qed.

(** The text [- a], an empty line, [text]: the empty line keeps the list
    open, the text closes it. *)
Lemma list_walk_closes_lists_on_text_and_at_end_witness :
  walk_state bullet_then_text 2
    = mkLists [mkCtx ul 0] [str "<ul>"; str "<li>a</li>"; []]
  /\ walk_state bullet_then_text 3
    = mkLists [] [str "<ul>"; str "<li>a</li>"; []; str "</ul>"; str "text"].
Proof.
  pose proof (list_walk_closes_lists_on_text_and_at_end (join nl bullet_then_text))
    as [_ [Hblank [Htext _]]].
  split.
  - apply (Hblank 1); [vm_compute; lia | reflexivity].
  - apply (Htext 2); [vm_compute; lia | discriminate | reflexivity].
Defined.

(** ** Indent widths and nesting levels *)

Section NumMapFacts.
Implicit Types (m : NumMap) (k v : nat).

Lemma map_get_set_same m k v : map_get k (map_set k v m) = Some v.
Proof.
  induction m as [|[k' v'] m IH]; simpl.
  - now rewrite Nat.eqb_refl.
  - destruct (Nat.eqb k' k) eqn:E; simpl.
    + now rewrite Nat.eqb_refl.
    + now rewrite E.
Qed.

Lemma map_get_set_other m k k' v : k' <> k -> map_get k' (map_set k v m) = map_get k' m.
Proof.
  intros Hne. induction m as [|[k0 v0] m IH]; simpl.
  - apply Nat.eqb_neq in Hne. rewrite Nat.eqb_sym. now rewrite Hne.
  - destruct (Nat.eqb k0 k) eqn:E; simpl.
    + apply Nat.eqb_eq in E. subst k0.
      assert (E' : Nat.eqb k k' = false) by (apply Nat.eqb_neq; congruence).
      now rewrite E'.
    + destruct (Nat.eqb k0 k'); [reflexivity | exact IH].
Qed.

Lemma map_keys_set m k v :
  map_keys (map_set k v m)
  = if existsb (Nat.eqb k) (map_keys m) then map_keys m else map_keys m ++ [k].
Proof.
  unfold map_keys. induction m as [|[k' v'] m IH]; simpl; [reflexivity|].
  rewrite (Nat.eqb_sym k k').
  destruct (Nat.eqb k' k) eqn:E; simpl.
  - apply Nat.eqb_eq in E. now subst.
  - rewrite IH. now destruct (existsb (Nat.eqb k) (map fst m)).
Qed.

Lemma map_keys_set_In m k v w :
  In w (map_keys (map_set k v m)) <-> In w (map_keys m) \/ w = k.
Proof.
  rewrite map_keys_set. destruct (existsb (Nat.eqb k) (map_keys m)) eqn:E.
  - apply existsb_exists in E as [k' [Hin Hk]]. apply Nat.eqb_eq in Hk. subst k'.
    split; [tauto | intros [H| ->]; assumption].
  - rewrite in_app_iff. simpl. intuition congruence.
Qed.

Lemma map_keys_set_NoDup m k v : NoDup (map_keys m) -> NoDup (map_keys (map_set k v m)).
Proof.
  intros H. rewrite map_keys_set.
  destruct (existsb (Nat.eqb k) (map_keys m)) eqn:E; [exact H|].
  apply NoDup_app; [exact H | constructor; [intros [] | constructor] |].
  intros w Hin [Heq|[]]. subst w.
  assert (existsb (Nat.eqb k) (map_keys m) = true); [|congruence].
  apply existsb_exists. exists k. split; [exact Hin | apply Nat.eqb_refl].
Qed.
End NumMapFacts.

Lemma count_indent_keys (m : NumMap) (line : jsstring) (w : nat) :
  In w (map_keys (count_indent m line))
  <-> In w (map_keys m) \/ indent_of line = Some w.
Proof.
  unfold count_indent, indent_of.
  destruct (match_ re_list_prefix line) as [listMatch|].
  - rewrite map_keys_set_In. split; intros [H|H]; auto; right; congruence.
  - split; [tauto | intros [H|H]; [exact H | discriminate]].
Qed.

Lemma count_indent_NoDup (m : NumMap) (line : jsstring) :
  NoDup (map_keys m) -> NoDup (map_keys (count_indent m line)).
Proof.
  intros H. unfold count_indent.
  destruct (match_ re_list_prefix line); [now apply map_keys_set_NoDup | exact H].
Qed.

(** The keys of [indentCounts] are the widths used, each once. *)
Lemma indentCounts_keys (lines : list jsstring) :
  forall m w,
    In w (map_keys (fold_left count_indent lines m))
    <-> In w (map_keys m) \/ In w (used_indents lines).
Proof.
  induction lines as [|line lines IH]; intros m w; simpl.
  - tauto.
  - rewrite IH, count_indent_keys, in_app_iff.
    destruct (indent_of line) as [v|]; simpl; intuition congruence.
Qed.

Lemma indentCounts_NoDup (lines : list jsstring) :
  forall m, NoDup (map_keys m) -> NoDup (map_keys (fold_left count_indent lines m)).
Proof.
  induction lines as [|line lines IH]; intros m H; simpl; [exact H|].
  apply IH. now apply count_indent_NoDup.
Qed.

(** The sort. *)
Lemma insert_sorted_Permutation (x : nat) (l : list nat) :
  Permutation (insert_sorted x l) (x :: l).
Proof.
  induction l as [|y l IH]; simpl; [reflexivity|].
  destruct (x <=? y); [reflexivity|].
  rewrite IH. apply perm_swap.
Qed.

Lemma sort_numbers_Permutation (l : list nat) : Permutation (sort_numbers l) l.
Proof.
  induction l as [|x l IH]; simpl; [reflexivity|].
  rewrite insert_sorted_Permutation. now constructor.
Qed.

Lemma insert_sorted_sorted (x : nat) (l : list nat) :
  StronglySorted le l -> StronglySorted le (insert_sorted x l).
Proof.
  induction l as [|y l IH]; intros H; simpl.
  - repeat constructor.
  - apply StronglySorted_inv in H as [Hl Hy].
    destruct (x <=? y) eqn:E.
    + apply Nat.leb_le in E. constructor; [now constructor|].
      constructor; [exact E|].
      eapply Forall_impl; [|exact Hy]. intros z Hz. lia.
    + apply Nat.leb_gt in E. constructor; [now apply IH|].
      rewrite Forall_forall in *. intros z Hz.
      apply (Permutation_in _ (insert_sorted_Permutation x l)) in Hz.
      destruct Hz as [<-|Hz]; [lia | now apply Hy].
Qed.

Lemma sort_numbers_sorted (l : list nat) : StronglySorted le (sort_numbers l).
Proof.
  induction l as [|x l IH]; simpl; [constructor | now apply insert_sorted_sorted].
Qed.

Lemma sorted_NoDup_strict (l : list nat) :
  StronglySorted le l -> NoDup l -> StronglySorted lt l.
Proof.
  induction l as [|x l IH]; intros Hs Hn; [constructor|].
  apply StronglySorted_inv in Hs as [Hl Hx].
  apply NoDup_cons_iff in Hn as [Hnot Hn].
  constructor; [now apply IH|].
  rewrite Forall_forall in *. intros y Hy.
  specialize (Hx y Hy). assert (x <> y) by congruence. lia.
Qed.

Lemma sortedIndents_strict (lines : list jsstring) :
  StronglySorted lt (sortedIndents lines).
Proof.
  unfold sortedIndents. apply sorted_NoDup_strict.
  - apply sort_numbers_sorted.
  - eapply Permutation_NoDup.
    + symmetry. apply sort_numbers_Permutation.
    + apply indentCounts_NoDup. constructor.
Qed.

Lemma sortedIndents_used (lines : list jsstring) (w : nat) :
  In w (sortedIndents lines) <-> In w (used_indents lines).
Proof.
  unfold sortedIndents. split; intros H.
  - apply (Permutation_in _ (sort_numbers_Permutation _)) in H.
    apply indentCounts_keys in H as [[]|H]. exact H.
  - apply (Permutation_in _ (Permutation_sym (sort_numbers_Permutation _))).
    apply indentCounts_keys. now right.
Qed.

(** In a strictly increasing list the order of the positions is the
    order of the values. *)
Lemma strict_nth_error_lt (l : list nat) :
  StronglySorted lt l ->
  forall i j a b, i < j -> nth_error l i = Some a -> nth_error l j = Some b -> a < b.
Proof.
  induction 1 as [|x l Hl IH Hx]; intros i j a b Hij Hi Hj.
  - destruct i; discriminate.
  - destruct j as [|j]; [lia|]. simpl in Hj.
    destruct i as [|i]; simpl in Hi.
    + injection Hi as <-. rewrite Forall_forall in Hx. apply Hx.
      eapply nth_error_In; eauto.
    + apply (IH i j); auto. lia.
Qed.

(** [forEach((indent, index) => levelMap.set(indent, index))] gives every
    width its position. *)
Lemma set_levels_other (l : list nat) :
  forall index m w, ~ In w l -> map_get w (set_levels l index m) = map_get w m.
Proof.
  induction l as [|x l IH]; intros index m w Hw; simpl; [reflexivity|].
  rewrite IH by (intros H; apply Hw; now right).
  apply map_get_set_other. intros ->. apply Hw. now left.
Qed.

Lemma set_levels_get (l : list nat) :
  NoDup l ->
  forall index m i w,
    nth_error l i = Some w -> map_get w (set_levels l index m) = Some (index + i).
Proof.
  induction 1 as [|x l Hx Hl IH]; intros index m i w Hi.
  - destruct i; discriminate.
  - simpl. destruct i as [|i]; simpl in Hi.
    + injection Hi as <-. rewrite set_levels_other by exact Hx.
      rewrite map_get_set_same. f_equal. lia.
    + rewrite (IH (S index) _ i w Hi). f_equal. lia.
Qed.

Lemma strict_NoDup (l : list nat) : StronglySorted lt l -> NoDup l.
Proof.
  induction 1 as [|x l Hl IH Hx]; constructor; [|exact IH].
  intros Hin. rewrite Forall_forall in Hx. specialize (Hx x Hin). lia.
Qed.

(** The level of a width that is used is its position among the sorted
    widths. *)
Lemma used_indent_level (lines : list jsstring) (w : nat) :
  In w (used_indents lines) ->
  nth_error (sortedIndents lines)
            (calculateNestingLevel w (analyzeIndentationLevels lines)) = Some w.
Proof.
  intros Hw. apply sortedIndents_used in Hw.
  apply In_nth_error in Hw as [i Hi].
  unfold calculateNestingLevel, analyzeIndentationLevels.
  change (sort_numbers (map_keys (fold_left count_indent lines [])))
    with (sortedIndents lines).
  rewrite (set_levels_get (strict_NoDup (sortedIndents_strict lines)) 0 [] i Hi).
  exact Hi.
Qed.

(** *** The indent of a list line *)

Lemma is_space_low_or_high (d : N) : is_space d = true -> (d <= 32 \/ 160 <= d)%N.
Proof.
  intros H. apply is_space_In in H. unfold white_space in H.
  repeat (destruct H as [<-|H]; [lia|]). destruct H.
Qed.

Lemma to_upper_space (d : N) : is_space (to_upper d) = true -> is_space d = true.
Proof.
  unfold to_upper. destruct (is_lower d) eqn:El; [|auto].
  intros H. apply is_space_low_or_high in H.
  unfold is_lower, in_range in El. apply andb_true_iff in El as [E1 E2].
  apply N.leb_le in E1, E2. lia.
Qed.

Lemma to_lower_space (d : N) : is_space (to_lower d) = true -> is_space d = true.
Proof.
  unfold to_lower. destruct (is_upper d) eqn:El; [|auto].
  intros H. apply is_space_low_or_high in H.
  unfold is_upper, in_range in El. apply andb_true_iff in El as [E1 E2].
  apply N.leb_le in E1, E2. lia.
Qed.

(** Ignoring case adds nothing to [\s]. *)
Lemma cc_match_space (ic : bool) (d : N) :
  cc_match ic (cls is_space) d = true -> In d white_space.
Proof.
  unfold cc_match. simpl. intros H. apply is_space_In.
  destruct ic; [|now destruct (is_space d)].
  destruct (is_space d) eqn:E; [reflexivity|]. simpl in H.
  destruct (is_space (to_upper d)) eqn:Eu.
  - apply to_upper_space in Eu. congruence.
  - simpl in H. destruct (is_space (to_lower d)) eqn:Elow; [|discriminate].
    apply to_lower_space in Elow. congruence.
Qed.

Lemma steps_Seq_inv (ic ml : bool) (r1 r2 : regex) (x z : MatchState) :
  steps ic ml (Seq r1 r2) x z -> exists y, steps ic ml r1 x y /\ steps ic ml r2 y z.
Proof. inversion 1; subst. eauto. Qed.

Lemma steps_Bol_inv (ic ml : bool) (x y : MatchState) : steps ic ml Bol x y -> y = x.
Proof. now inversion 1. Qed.

Lemma steps_Group_inv (ic ml : bool) (n : nat) (r : regex) (x z : MatchState) :
  steps ic ml (Group n r) x z ->
  exists y, steps ic ml r x y
            /\ z = set_capture n
                     (firstn (length (st_after x) - length (st_after y)) (st_after x)) y.
Proof. inversion 1; subst. eauto. Qed.

(** A pattern that starts with [^], a group 1 of white space of any
    length, and a marker that cannot start with white space: group 1 is
    the white space the line starts with, all of it. *)
Lemma indent_capture (re : RegExp) (marker rest : regex) (line : jsstring)
  (z : MatchState) :
  re_body re = Seq Bol (Seq (Group 1 (star ws)) (Seq marker rest)) ->
  starts_outside (re_ignoreCase re) white_space marker = true ->
  ~ In 1 (groups marker) -> ~ In 1 (groups rest) ->
  match_at re [] line = Some z ->
  exists p d tl,
    line = p ++ d :: tl /\ blank p /\ ~ In d white_space
    /\ get_capture 1 (st_caps z) = Some p.
Proof.
  intros Hbody Hstart Hm Hr H. unfold match_at in H. rewrite Hbody in H.
  apply matcher_steps in H as [y [Hsteps Hy]]. injection Hy as ->.
  apply steps_Seq_inv in Hsteps as [x1 [Hbol H14]].
  apply steps_Bol_inv in Hbol. subst x1.
  apply steps_Seq_inv in H14 as [x2 [Hgroup H24]].
  apply steps_Seq_inv in H24 as [x3 [Hmarker Hrest]].
  apply steps_Group_inv in Hgroup as [y1 [Hrun ->]].
  simpl in *.
  destruct (steps_class_run Hrun eq_refl) as [p [Hp Hall]]. simpl in Hp.
  destruct (steps_starts_outside white_space Hmarker Hstart) as [d [tl [Hd Hnot]]].
  simpl in Hd. exists p, d, tl.
  split; [now rewrite Hp, Hd|]. split.
  - eapply Forall_impl; [|exact Hall]. intros a. apply cc_match_space.
  - split; [exact Hnot|].
    rewrite (steps_other_capture 1 Hrest Hr), (steps_other_capture 1 Hmarker Hm).
    simpl. f_equal. rewrite Hp, length_app.
    replace (length p + length (st_after y1) - length (st_after y1)) with (length p)
      by lia.
    now rewrite firstn_app, firstn_all, Nat.sub_diag, app_nil_r.
Qed.

(** The white space a line starts with is determined by the line. *)
Lemma leading_space_unique (p p' tl tl' : jsstring) (d d' : N) :
  p ++ d :: tl = p' ++ d' :: tl' ->
  blank p -> blank p' -> ~ In d white_space -> ~ In d' white_space -> p = p'.
Proof.
  revert p'. induction p as [|a p IH]; intros [|a' p'] Heq Hp Hp' Hd Hd';
    simpl in Heq; injection Heq as Ha Heq; subst.
  - reflexivity.
  - apply Forall_inv in Hp'. contradiction.
  - apply Forall_inv in Hp. contradiction.
  - f_equal. apply (IH p' Heq); auto; eapply Forall_inv_tail; eauto.
Qed.

(** A line that [processLists] takes as a list line is one whose indent
    [analyzeIndentationLevels] has recorded, with the same width. *)
Lemma list_line_indent_is_recorded (line : jsstring) (listMatch : MatchInfo) :
  match_ re_list_line line = Some listMatch ->
  indent_of line = Some (length (cap 1 listMatch)).
Proof.
  intros H.
  assert (Hstart : starts_outside true white_space
                     (Group 2 (ralt (marker_basic ++ marker_roman))) = true)
    by reflexivity.
  destruct (@match_anchored re_list_line _ line listMatch eq_refl eq_refl H)
    as [z [Hz ->]].
  destruct (@indent_capture re_list_line _ _ line z eq_refl Hstart)
    as [p [d [tl [Hline [Hp [Hd Hcap]]]]]];
    [simpl; lia | simpl; lia | exact Hz |].
  assert (Hprefix : match_at re_list_prefix [] line <> None).
  { unfold match_at in *. simpl re_body in *. simpl re_ignoreCase in *.
    simpl re_multiline in *.
    revert Hz. 
    match goal with
    | |- matcher _ _ (Seq ?a (Seq ?b (Seq ?c (Seq ?d ?e)))) ?k ?x = _ -> _ =>
        change (matcher true false (Seq a (Seq b (Seq c (Seq d e)))) k x)
          with (matcher true false (Seq a (Seq b (Seq c d)))
                        (fun y => matcher true false e k y) x)
    end.
    intros Hz. eapply matcher_weaker; cycle 1.
    - rewrite Hz. discriminate.
    - intros y _. discriminate. }
  unfold indent_of, match_. rewrite search_eq.
  destruct (match_at re_list_prefix [] line) as [z'|] eqn:Ez'; [|contradiction].
  destruct (@indent_capture re_list_prefix _ _ line z' eq_refl Hstart)
    as [p' [d' [tl' [Hline' [Hp' [Hd' Hcap']]]]]];
    [simpl; lia | simpl; tauto | exact Ez' |].
  f_equal. unfold cap, info_of. simpl. rewrite Hcap, Hcap'.
  rewrite Hline in Hline'.
  now rewrite (@leading_space_unique p p' tl tl' d d' Hline' Hp Hp' Hd Hd').
Qed.

Lemma indent_of_used (lines : list jsstring) (line : jsstring) (w : nat) :
  In line lines -> indent_of line = Some w -> In w (used_indents lines).
Proof.
  intros Hin Hw. unfold used_indents. apply in_flat_map.
  exists line. split; [exact Hin|]. rewrite Hw. now left.
Qed.

(** C5.  The sorted widths of a document are strictly increasing and are
    the widths its list lines use, the indent of every line that
    [processLists] takes as a list line among them; the nesting level of
    a used width is its position in that list, its rank.  So the smallest
    used width has level 0, and of two used widths the larger has the
    higher or the same level. *)
Theorem nesting_level_is_rank_of_indent (lines : list jsstring) :
  let levels := analyzeIndentationLevels lines in
  StronglySorted lt (sortedIndents lines)
  /\ (forall w, In w (sortedIndents lines) <-> In w (used_indents lines))
  /\ (forall line listMatch,
         In line lines -> match_ re_list_line line = Some listMatch ->
         In (length (cap 1 listMatch)) (used_indents lines))
  /\ (forall w, In w (used_indents lines) ->
                nth_error (sortedIndents lines) (calculateNestingLevel w levels) = Some w)
  /\ (forall w, In w (used_indents lines) ->
                (forall v, In v (used_indents lines) -> w <= v) ->
                calculateNestingLevel w levels = 0)
  /\ (forall w1 w2, In w1 (used_indents lines) -> In w2 (used_indents lines) ->
                    w1 <= w2 ->
                    calculateNestingLevel w1 levels <= calculateNestingLevel w2 levels).
Proof.
  intros levels.
  pose proof (sortedIndents_strict lines) as Hstrict.
  split; [exact Hstrict|]. split; [apply sortedIndents_used|].
  split.
  { intros line listMatch Hin Hm. apply indent_of_used with (line := line);
      [exact Hin | now apply list_line_indent_is_recorded]. }
  split; [intros w; apply used_indent_level|]. split.
  - intros w Hw Hmin. pose proof (used_indent_level _ _ Hw) as Hn.
    fold levels in Hn.
    destruct (calculateNestingLevel w levels) as [|k] eqn:E; [reflexivity|].
    destruct (sortedIndents lines) as [|v0 rest] eqn:Es; [discriminate|].
    assert (Hv0 : In v0 (used_indents lines)).
    { apply sortedIndents_used. rewrite Es. now left. }
    specialize (Hmin v0 Hv0).
    assert (v0 < w); [|lia].
    apply (strict_nth_error_lt Hstrict) with (i := 0) (j := S k); auto. lia.
  - intros w1 w2 H1 H2 Hle.
    pose proof (used_indent_level _ _ H1) as Hn1.
    pose proof (used_indent_level _ _ H2) as Hn2.
    fold levels in Hn1, Hn2.
    destruct (Nat.le_gt_cases (calculateNestingLevel w1 levels)
                              (calculateNestingLevel w2 levels)) as [H|H];
      [exact H|].
    pose proof (strict_nth_error_lt Hstrict H Hn2 Hn1). lia.
Qed.

(** In the document of the three widths, 0 has level 0 and the level of 2
    is at most that of 4. *)
Lemma nesting_level_is_rank_of_indent_witness :
  calculateNestingLevel 0 (analyzeIndentationLevels three_widths) = 0
  /\ calculateNestingLevel 2 (analyzeIndentationLevels three_widths)
     <= calculateNestingLevel 4 (analyzeIndentationLevels three_widths).
Proof.
  split.
  - apply (proj1 (proj2 (proj2 (proj2 (proj2
             (nesting_level_is_rank_of_indent three_widths)))))).
    + vm_compute. tauto.
    + intros v Hv. lia.
  - apply (proj2 (proj2 (proj2 (proj2 (proj2
             (nesting_level_is_rank_of_indent three_widths)))))).
    + vm_compute. tauto.
    + vm_compute. tauto.
    + lia.
Defined.

(** ** Quote stripping *)

Lemma clear_captures_nil (x : MatchState) : clear_captures [] x = x.
Proof.
  destruct x as [b a caps]. unfold clear_captures. simpl. f_equal.
  induction caps as [|kv caps IH]; simpl; [reflexivity | now rewrite IH].
Qed.

Lemma cc_match_any (ic : bool) (d : N) : cc_match ic (cls (fun _ => true)) d = true.
Proof. unfold cc_match. simpl. now destruct ic. Qed.

(** A lazy [[\s\S]*?] stops at the first position where what follows
    matches. *)
Lemma lazy_star_any (ic ml : bool) (c : Cont) (post : jsstring) (caps : list (nat * jsstring))
  (z : MatchState) :
  forall pre before fuel,
    length pre < fuel ->
    (forall p1 p2, pre = p1 ++ p2 -> p2 <> [] ->
                   c (mkState (rev p1 ++ before) (p2 ++ post) caps) = None) ->
    c (mkState (rev pre ++ before) post caps) = Some z ->
    RepeatMatcher (matcher ic ml any) [] false c fuel 0 None
                  (mkState before (pre ++ post) caps) = Some z.
Proof.
  induction pre as [|d pre IH]; intros before fuel Hfuel Hnone Hz;
    (destruct fuel as [|fuel]; [simpl in Hfuel; lia|]);
    rewrite RepeatMatcher_S; cbv zeta; simpl negb; cbv iota.
  - simpl in Hz. simpl app. now rewrite Hz.
  - pose proof (Hnone [] (d :: pre) eq_refl ltac:(discriminate)) as H0. simpl in H0.
    change ((d :: pre) ++ post) with (d :: pre ++ post). rewrite H0.
    rewrite clear_captures_nil. simpl matcher. rewrite cc_match_any.
    unfold repeat_again. simpl st_after. 
    replace (length (pre ++ post) =? length (d :: pre ++ post)) with false.
    2:{ symmetry. apply Nat.eqb_neq. simpl. lia. }
    simpl andb. cbv iota. simpl pred. simpl option_map. simpl st_before. simpl st_caps.
    apply IH.
    + simpl in Hfuel. lia.
    + intros p1 p2 -> Hp2. specialize (Hnone (d :: p1) p2 eq_refl Hp2).
      simpl in Hnone. now rewrite <- app_assoc in Hnone.
    + simpl in Hz. now rewrite <- app_assoc in Hz.
Qed.

Lemma cc_match_cls (p : N -> bool) (d : N) : cc_match false (cls p) d = p d.
Proof. unfold cc_match. simpl. now destruct (p d). Qed.

Lemma match_quotes_pair (q1 q2 : N) (mid : jsstring) :
  is_quote q1 = true -> is_quote q2 = true ->
  match_at re_quotes [] (q1 :: mid ++ [q2])
  = Some (mkState (q2 :: rev mid ++ [q1]) [] [(1, mid)]).
Proof.
  intros H1 H2. unfold match_at, re_quotes. simpl re_body. simpl re_ignoreCase.
  simpl re_multiline. unfold cset, lazy_star.
  cbn [rseq matcher at_line_start st_before st_after st_caps].
  rewrite cc_match_cls, H1.
  cbn [rseq matcher at_line_start st_before st_after st_caps groups].
  apply lazy_star_any.
  - rewrite length_app. simpl. lia.
  - intros p1 p2 -> Hp2. cbn [set_capture st_after st_before st_caps].
    destruct p2 as [|e p2]; [contradiction|].
    simpl app. cbv beta iota. rewrite cc_match_cls. destruct (is_quote e); [|reflexivity].
    unfold at_line_end. cbn [st_after]. destruct (p2 ++ [q2]) eqn:E; [|reflexivity].
    destruct p2; discriminate.
  - cbn [set_capture st_after st_before st_caps]. cbv beta iota. rewrite cc_match_cls, H2.
    unfold at_line_end. cbn [st_after]. f_equal. f_equal.
    f_equal. f_equal.
    rewrite length_app. simpl length.
    replace (length mid + 1 - 1) with (length mid) by lia.
    rewrite firstn_app, firstn_all, Nat.sub_diag. simpl. apply app_nil_r.
Qed.

Lemma stripQuotes_pair (q1 q2 : N) (mid : jsstring) :
  is_quote q1 = true -> is_quote q2 = true ->
  stripQuotes (q1 :: mid ++ [q2]) = mid.
Proof.
  intros H1 H2. unfold stripQuotes, replace_first.
  rewrite search_eq, (@match_quotes_pair q1 q2 mid H1 H2).
  unfold info_of. cbn [mi_before mi_after mi_caps st_after st_caps rev app].
  unfold ngroups. simpl. unfold cap. simpl. now rewrite !app_nil_r.
Qed.

Lemma match_quotes_none (text : jsstring) :
  (forall q1 q2 mid, text = q1 :: mid ++ [q2] ->
                     is_quote q1 = true -> is_quote q2 = false) ->
  match_at re_quotes [] text = None.
Proof.
  intros H. unfold match_at, re_quotes. simpl re_body. simpl re_ignoreCase.
  simpl re_multiline. unfold cset, lazy_star.
  cbn [rseq matcher at_line_start st_before st_after st_caps].
  destruct text as [|q1 rest]; [reflexivity|].
  rewrite cc_match_cls. destruct (is_quote q1) eqn:E1; [|reflexivity].
  apply RepeatMatcher_none; [apply matcher_none|].
  intros y Hy. cbn [set_capture st_after st_before st_caps] in *.
  destruct (st_after y) as [|d r]; [reflexivity|].
  rewrite cc_match_cls. destruct (is_quote d) eqn:E; [|reflexivity].
  unfold at_line_end. cbn [st_after]. destruct r as [|e r]; [|reflexivity].
  destruct Hy as [p Hp]. rewrite (H q1 d p) in E; [discriminate | | exact E1].
  now rewrite Hp.
Qed.

Lemma stripQuotes_other (text : jsstring) :
  (forall q1 q2 mid, text = q1 :: mid ++ [q2] ->
                     is_quote q1 = true -> is_quote q2 = false) ->
  stripQuotes text = text.
Proof.
  intros H. unfold stripQuotes, replace_first.
  assert (Hs : search re_quotes [] text = None); [|now rewrite Hs].
  rewrite search_eq, (match_quotes_none H).
  destruct text as [|d rest]; [reflexivity|].
  apply (@search_anchored re_quotes _ eq_refl eq_refl). discriminate.
Qed.


(** C9, as the code has it.  The first and the last code unit are taken
    off whenever both are quote characters, also when they are two
    different ones; every other text is left as it is. *)
Theorem quotes_are_stripped_when_both_ends_are_quotes :
  (forall (q1 q2 : N) (mid : jsstring),
      is_quote q1 = true -> is_quote q2 = true ->
      stripQuotes (q1 :: mid ++ [q2]) = mid)
  /\ (forall text : jsstring,
         (forall q1 q2 mid, text = q1 :: mid ++ [q2] ->
                            is_quote q1 = true -> is_quote q2 = false) ->
         stripQuotes text = text).
Proof.
  split.
  - intros q1 q2 mid. apply stripQuotes_pair.
  - apply stripQuotes_other.
Qed.

(** An apostrophe at both ends; and a text whose first code unit is not a
    quote character. *)
Lemma quotes_are_stripped_when_both_ends_are_quotes_witness :
  stripQuotes (39%N :: str "abc" ++ [39%N]) = str "abc"
  /\ stripQuotes (str "abc'") = str "abc'".
Proof.
  split.
  - apply (proj1 quotes_are_stripped_when_both_ends_are_quotes); reflexivity.
  - apply (proj2 quotes_are_stripped_when_both_ends_are_quotes).
    intros q1 q2 mid Heq Hq. vm_compute in Heq. injection Heq as <- _.
    vm_compute in Hq. discriminate.
Defined.

(** C9, as stated, does not hold: a double quote in front and an
    apostrophe at the end are two different quote characters, and both are
    taken off. *)
Lemma mismatched_quotes_are_stripped :
  mixed_quotes = DQ :: str "abc" ++ [39%N]
  /\ is_quote DQ = true /\ is_quote 39%N = true /\ DQ <> 39%N
  /\ stripQuotes mixed_quotes = str "abc"
  /\ stripQuotes mixed_quotes <> mixed_quotes.
Proof.
  repeat split; try reflexivity; vm_compute; discriminate.
Qed.


(** ** The classification filter *)

Lemma context_fold_none (lines : list jsstring) (i : nat) (marker : jsstring) (indent : nat) :
  forall (js : list nat) (acc : ListContext),
    (forall j, In j js -> j <> i -> match_ re_list_context (line_at lines j) = None) ->
    fold_left (context_step lines i marker indent) js acc = acc.
Proof.
  induction js as [|j js IH]; intros acc H; simpl; [reflexivity|].
  rewrite IH by (intros k Hk; apply H; now right).
  unfold context_step. destruct (j =? i) eqn:E; [reflexivity|].
  apply Nat.eqb_neq in E. now rewrite (H j (or_introl eq_refl) E).
Qed.

Lemma checkListContext_alone (lines : list jsstring) (i : nat) (marker : jsstring)
  (indent : nat) :
  (forall j, j <> i -> i - 3 <= j <= i + 3 ->
             match_ re_list_context (line_at lines j) = None) ->
  checkListContext lines i marker indent = mkContext false 0.
Proof.
  intros H. unfold checkListContext. apply context_fold_none.
  intros j Hj Hne. apply H; [exact Hne|].
  apply in_seq in Hj. unfold checkRange in *. lia.
Qed.

Lemma search_backwards_none (pick : jsstring -> option nat) (required : list nat)
  (indent : nat) (lines : list jsstring) :
  required <> [] ->
  forall n,
    (forall j, j < n ->
               found_on_line pick required indent (line_at lines j) [] = []) ->
    search_backwards pick required indent lines n [] = false.
Proof.
  intros Hreq. induction n as [|n IH]; intros H; simpl; [reflexivity|].
  rewrite (H n) by lia.
  destruct required as [|r required]; [contradiction|]. simpl.
  apply IH. intros j Hj. apply H. lia.
Qed.

Lemma found_on_line_a (indent : nat) (line : jsstring) :
  letter_item_at indent 97 line = false ->
  found_on_line pick_letter [97] indent line [] = [].
Proof.
  unfold letter_item_at, found_on_line.
  destruct (match_ re_list_context line) as [listMatch|]; [|reflexivity].
  destruct (near _ indent); [|reflexivity]. simpl.
  destruct (pick_letter _) as [c|]; [|reflexivity].
  intros H. simpl. rewrite H. reflexivity.
Qed.

(** The filter on the line of the example. *)
Lemma spielberger_filtered (lines : list jsstring) (i : nat) :
  line_at lines i = spielberger ->
  (forall j, j <> i -> i - 3 <= j <= i + 3 ->
             match_ re_list_context (line_at lines j) = None) ->
  (forall j, j < i -> letter_item_at 0 97 (line_at lines j) = false) ->
  isActualListItem lines i (str "B.") 0 = false.
Proof.
  intros Hline Hwin Hprev. unfold isActualListItem.
  rewrite Hline, (checkListContext_alone lines (str "B.") 0 Hwin).
  unfold hasSequentialMarkers, verifyAlphabeticalSequence.
  replace (marker_base (str "B.")) with (str "B") by (vm_compute; reflexivity).
  replace (test re_one_letter (str "B")) with true by (vm_compute; reflexivity).
  replace (test re_bullet (str "B.")) with false by (vm_compute; reflexivity).
  replace (content_after spielberger (str "B."))
    with (str "Spielberger directed the film.") by (vm_compute; reflexivity).
  replace (test re_single_marker (str "B.")) with true by (vm_compute; reflexivity).
  rewrite search_backwards_none.
  - vm_compute. reflexivity.
  - discriminate.
  - intros j Hj. apply found_on_line_a. now apply Hprev.
Qed.

Lemma spielberger_is_a_list_line :
  exists listMatch,
    match_ re_list_line spielberger = Some listMatch
    /\ cap 1 listMatch = [] /\ cap 2 listMatch = str "B.".
Proof. eexists. split; [vm_compute; reflexivity | split; reflexivity]. Qed.

(** C6, as the code has it.  [processLists] takes the text as the
    passes before it have left it.  When that text has the line
    [B. Spielberger directed the film.], no list line among the three
    lines before and the three lines after it, and no item [a] or [A], at
    an indent of at most two columns, on any line before it, the line is
    not taken as a list item: the loop closes the open lists and passes
    the line on as it is.  The document that is this line alone is
    rendered as one paragraph. *)
Theorem name_line_without_context_is_not_a_list_item (text : jsstring) (i : nat) :
  let lines := split_on NL text in
  line_at lines i = spielberger ->
  (forall j, j <> i -> i - 3 <= j <= i + 3 ->
             match_ re_list_context (line_at lines j) = None) ->
  (forall j, j < i -> letter_item_at 0 97 (line_at lines j) = false) ->
  accepted lines i = false
  /\ walk_state lines (S i)
     = mkLists [] (result (walk_state lines i)
                     ++ closing_tags (listStack (walk_state lines i))
                     ++ [spielberger])
  /\ convertMarkdownToHTML spielberger = str "<p>B. Spielberger directed the film.</p>".
Proof.
  intros lines Hline Hwin Hprev.
  assert (Hacc : accepted lines i = false).
  { unfold accepted. rewrite Hline.
    destruct spielberger_is_a_list_line as [listMatch [-> [-> ->]]].
    now apply spielberger_filtered. }
  split; [exact Hacc|]. split; [|vm_compute; reflexivity].
  rewrite walk_state_next, <- Hline. apply process_line_rejected; [|exact Hacc].
  rewrite Hline. vm_compute. discriminate.
Qed.

(** The line after a paragraph and an empty line. *)
Lemma name_line_without_context_is_not_a_list_item_witness :
  accepted (split_on NL after_a_paragraph) 2 = false
  /\ walk_state (split_on NL after_a_paragraph) 3
     = mkLists [] [str "He made it in 1975."; []; spielberger]
  /\ convertMarkdownToHTML spielberger = str "<p>B. Spielberger directed the film.</p>".
Proof.
  apply (@name_line_without_context_is_not_a_list_item after_a_paragraph 2 eq_refl).
  - intros j Hne Hj.
    destruct j as [|[|[|[|[|[|j]]]]]]; [reflexivity | reflexivity | congruence
                                        | reflexivity.. | lia].
  - intros j Hj. destruct j as [|[|j]]; [reflexivity | reflexivity | lia].
Defined.

(** C6, as stated, does not hold: with an item [a.] four lines up, out
    of the window of three lines, and empty lines in between, the line is
    taken as a list item. *)
Lemma name_line_after_a_distant_item_is_accepted :
  line_at distant_item 4 = spielberger
  /\ (forall j, j <> 4 -> 4 - 3 <= j <= 4 + 3 ->
                match_ re_list_context (line_at distant_item j) = None)
  /\ accepted distant_item 4 = true
  /\ convertMarkdownToHTML (join nl distant_item)
     = str "<ol><li>Intro</li></ol><ol><li>Spielberger directed the film.</li></ol>".
Proof.
  split; [reflexivity|]. split; [|split; vm_compute; reflexivity].
  intros j Hne Hj.
  destruct j as [|[|[|[|[|[|[|[|j]]]]]]]];
    try reflexivity; try congruence; lia.
Qed.

(** The conditions of C6 are on the text as [processLists] receives it:
    a heading between an item and the line is one line there, the empty
    lines before it are gone, and the item is within three lines. *)
Example heading_brings_an_item_into_the_window :
  processHeaders item_then_heading
  = join nl [str "c. Third"; str "<h1>H</h1>"; spielberger]
  /\ accepted [str "c. Third"; str "<h1>H</h1>"; spielberger] 2 = true
  /\ convertMarkdownToHTML item_then_heading
     = str "<ol><li>Third</li></ol><h1>H</h1><ol><li>Spielberger directed the film.</li></ol>".
Proof. repeat split; vm_compute; reflexivity. Qed.

(** ** Restoration of the protected fragments *)

Lemma starts_with_app (p t : jsstring) : starts_with p (p ++ t) = true.
Proof. induction p as [|c p IH]; simpl; [reflexivity|]. now rewrite N.eqb_refl. Qed.

Lemma starts_with_true (p s : jsstring) :
  starts_with p s = true -> exists t, s = p ++ t.
Proof.
  revert s. induction p as [|c p IH]; intros s H; simpl in H.
  - now exists s.
  - destruct s as [|d s]; [discriminate|].
    apply andb_true_iff in H as [Hc Hp]. apply N.eqb_eq in Hc. subst d.
    destruct (IH _ Hp) as [t ->]. now exists t.
Qed.

(** [indexOf] finds the first occurrence. *)
Lemma indexOf_first (p post : jsstring) :
  forall pre,
    (forall a b, pre ++ p ++ post = a ++ p ++ b -> length pre <= length a) ->
    indexOf p (pre ++ p ++ post) = Some (length pre).
Proof.
  induction pre as [|c pre IH]; intros H.
  - simpl app. destruct (p ++ post) eqn:E; simpl; rewrite <- ?E;
      now rewrite starts_with_app.
  - simpl app. simpl indexOf.
    destruct (starts_with p (c :: pre ++ p ++ post)) eqn:E.
    + apply starts_with_true in E as [t Ht].
      specialize (H [] t Ht). simpl in H. lia.
    + rewrite IH; [reflexivity|].
      intros a b Hab. specialize (H (c :: a) b). simpl in H.
      rewrite Hab in H. specialize (H eq_refl). lia.
Qed.

Lemma indexOf_none (p s : jsstring) :
  (forall a b, s <> a ++ p ++ b) -> indexOf p s = None.
Proof.
  induction s as [|c s IH]; intros H.
  - simpl. destruct (starts_with p []) eqn:E; [|reflexivity].
    apply starts_with_true in E as [t Ht]. now specialize (H [] t).
  - simpl. destruct (starts_with p (c :: s)) eqn:E.
    + apply starts_with_true in E as [t Ht]. now specialize (H [] t).
    + rewrite IH; [reflexivity|].
      intros a b Hab. apply (H (c :: a) b). simpl. now rewrite Hab.
Qed.

Lemma replace_string_first (p tpl pre post : jsstring) :
  (forall a b, pre ++ p ++ post = a ++ p ++ b -> length pre <= length a) ->
  replace_string p tpl (pre ++ p ++ post)
  = pre ++ GetSubstitution 0 (mkInfo (rev pre) p post []) tpl ++ post.
Proof.
  intros H. unfold replace_string. rewrite indexOf_first by exact H.
  rewrite firstn_app, firstn_all, Nat.sub_diag. simpl firstn. rewrite app_nil_r.
  rewrite skipn_app.
  replace (length pre + length p - length pre) with (length p) by lia.
  rewrite (skipn_all2 pre) by lia. simpl app.
  rewrite skipn_app, skipn_all, Nat.sub_diag. reflexivity.
Qed.

(** A step of the restoration, for any numbering of the keys: the fragment
    is put where the key first occurs in the text, read as a replacement
    pattern, and a text without the key is left as it is. *)
Lemma restore_one_first_occurrence
  (key : nat -> jsstring) (i : nat) (fragment : jsstring) :
  (forall pre post : jsstring,
      (forall a b, pre ++ key i ++ post = a ++ key i ++ b -> length pre <= length a) ->
      restore_one key (pre ++ key i ++ post) i fragment
      = pre ++ GetSubstitution 0 (mkInfo (rev pre) (key i) post []) fragment ++ post
      /\ (Forall (fun c => c <> 36%N) fragment ->
          restore_one key (pre ++ key i ++ post) i fragment = pre ++ fragment ++ post))
  /\ (forall text : jsstring,
         (forall a b, text <> a ++ key i ++ b) ->
         restore_one key text i fragment = text).
Proof.
  split.
  - intros pre post H. unfold restore_one. rewrite replace_string_first by exact H.
    split; [reflexivity|]. intros Hplain. now rewrite GetSubstitution_plain.
  - intros text H. unfold restore_one, replace_string.
    now rewrite indexOf_none by exact H.
Qed.

(** C2, as stated, does not hold: the text [__CODE_BLOCK_0__] written in
    the document is the key of the first fenced block.  Both stand inside
    bold text here, which leaves them as they are; the restoration then
    puts the block where the document had the text, and leaves the key
    where the block was. *)
Lemma written_key_takes_the_fragment :
  protectCodeBlocks written_key [] []
    = (str "**x __CODE_BLOCK_0__ y** and **z __CODE_BLOCK_0__ w**",
       [str "<pre><code>a</code></pre>"], [])
  /\ restoreCodeBlocks
       (str "<strong>x __CODE_BLOCK_0__ y</strong> and <strong>z __CODE_BLOCK_0__ w</strong>")
       [str "<pre><code>a</code></pre>"] []
     = str "<strong>x <pre><code>a</code></pre> y</strong> and <strong>z __CODE_BLOCK_0__ w</strong>"
  /\ convertMarkdownToHTML written_key
     = str "<p><strong>x <pre><code>a</code></pre> y</strong> and <strong>z __CODE_BLOCK_0__ w</strong></p>".
Proof. repeat split; vm_compute; reflexivity. Qed.

(** ** The converter on whole documents *)

(** The converter on the examples of the documentation. *)
Example bold_with_italic_inside :
  convertMarkdownToHTML (str "**bold with *italic* inside**")
  = str "<p><strong>bold with <em>italic</em> inside</strong></p>".
Proof. vm_compute. reflexivity. Qed.

Example atx_and_setext_headings :
  convertMarkdownToHTML (str "# Title") = str "<h1>Title</h1>"
  /\ convertMarkdownToHTML (text_of ["Title"; "====="]) = str "<h1>Title</h1>".
Proof. split; vm_compute; reflexivity. Qed.

Example rule_alone : convertMarkdownToHTML (str "---") = str "<hr>".
Proof. vm_compute. reflexivity. Qed.

Example heading_then_text :
  convertMarkdownToHTML (text_of ["# Title"; "text"]) = str "<h1>Title</h1><p>text</p>".
Proof. vm_compute. reflexivity. Qed.

Example nested_bullets :
  processLists (text_of ["- a"; "  - b"; "    - c"])
  = text_of ["<ul>"; "<li>a</li>"; "<li>b</li>"; "<ul>"; "<li>c</li>"; "</ul>"; "</ul>"].
Proof. vm_compute. reflexivity. Qed.

(** C1.  A code span does not reach the output as escaped code: the key
    that stands for it, [__INLINE_CODE_0__] or [__CODE_BLOCK_0__], has the
    shape of bold text, so [processTextFormatting] rewrites it and
    [restoreCodeBlocks] no longer finds it.  When the span is the whole
    document its backticks are taken off as quotes before anything else. *)
Theorem code_span_key_is_rewritten_as_bold :
  protectCodeBlocks (str "Use `<b>` here") [] []
    = (str "Use __INLINE_CODE_0__ here", [], [str "<code>&lt;b&gt;</code>"])
  /\ processTextFormatting (str "Use __INLINE_CODE_0__ here")
    = str "Use <strong>INLINE<em>CODE</em>0</strong> here"
  /\ convertMarkdownToHTML (str "Use `<b>` here")
    = str "<p>Use <strong>INLINE<em>CODE</em>0</strong> here</p>"
  /\ convertMarkdownToHTML (str "`<b>`") = str "<p><b></p>"
  /\ convertMarkdownToHTML (text_of ["Intro"; ""; "```"; "* not a list *"; "```"; ""; "end"])
    = str "<p>Intro</p><p><strong>CODE<em>BLOCK</em>0</strong></p><p>end</p>".
Proof. repeat split; vm_compute; reflexivity. Qed.

(** C3.  The three lines [a. First], [b. Second], [c. Third] each become an
    item, but each item is put in a list of its own: at level 0
    [adjustListStack] pops the list the item before opened, since its loop
    compares the length of the stack, 1, with the level, 0.  In general an
    item of level 0 closes every open list and opens a new one. *)
Theorem letter_items_each_get_their_own_list :
  processLists (text_of ["a. First"; "b. Second"; "c. Third"])
    = text_of ["<ol>"; "<li>First</li>"; "</ol>";
               "<ol>"; "<li>Second</li>"; "</ol>";
               "<ol>"; "<li>Third</li>"; "</ol>"]
  /\ convertMarkdownToHTML (text_of ["a. First"; "b. Second"; "c. Third"])
    = str "<ol><li>First</li></ol><ol><li>Second</li></ol><ol><li>Third</li></ol>"
  /\ (forall (stack : list ListCtx) (res : list jsstring) (listType : ListType),
         adjustListStack (mkLists stack res) 0 listType
         = mkLists [mkCtx listType 0]
                   (res ++ closing_tags stack ++ [open_tag listType])).
Proof.
  split; [vm_compute; reflexivity|]. split; [vm_compute; reflexivity|].
  apply adjustListStack_level_0.
Qed.

(** C8.  A heading between two lines of text of one block ends up inside
    the paragraph: [processParagraphs] looks for a block-level tag at the
    start and at the end of a block only. *)
Theorem heading_in_the_middle_of_a_block_is_wrapped :
  processHeaders (text_of ["text"; "# Title"; "more text"])
    = text_of ["text"; "<h1>Title</h1>"; "more text"]
  /\ processParagraphs (text_of ["text"; "<h1>Title</h1>"; "more text"])
    = str "<p>text<br><h1>Title</h1><br>more text</p>"
  /\ convertMarkdownToHTML (text_of ["text"; "# Title"; "more text"])
    = str "<p>text<br><h1>Title</h1>more text</p>".
Proof. repeat split; vm_compute; reflexivity. Qed.

(** * Further properties *)

(** ** escapeHtml *)

Lemma escape_char_plain (c : N) : is_escaped c = false -> escape_char c = [c].
Proof.
  unfold is_escaped, one_of, escape_char. simpl.
  destruct (c =? 38)%N, (c =? 60)%N, (c =? 62)%N, (c =? 160)%N; simpl;
    intros H; try discriminate; reflexivity.
Qed.

Lemma escape_char_clean (c : N) :
  Forall (fun d => d <> 60%N /\ d <> 62%N /\ d <> 160%N) (escape_char c).
Proof.
  unfold escape_char.
  destruct (N.eqb_spec c 38); [repeat constructor; discriminate|].
  destruct (N.eqb_spec c 60); [repeat constructor; discriminate|].
  destruct (N.eqb_spec c 62); [repeat constructor; discriminate|].
  destruct (N.eqb_spec c 160); [repeat constructor; discriminate|].
  repeat constructor; assumption.
Qed.

(** X1.  What [escapeHtml] returns holds no angle bracket and no no-break
    space, whatever the text; and a text without ampersand, angle bracket
    and no-break space is returned as it is. *)
Theorem escapeHtml_leaves_no_markup (text : jsstring) :
  Forall (fun d => d <> 60%N /\ d <> 62%N /\ d <> 160%N) (escapeHtml text)
  /\ (Forall (fun c => is_escaped c = false) text -> escapeHtml text = text).
Proof.
  split.
  - unfold escapeHtml. induction text as [|c text IH]; simpl; [constructor|].
    apply Forall_app. split; [apply escape_char_clean | exact IH].
  - unfold escapeHtml. induction 1 as [|c text Hc Htext IH]; simpl; [reflexivity|].
    now rewrite (escape_char_plain _ Hc), IH.
Qed.

Lemma escapeHtml_leaves_no_markup_witness : escapeHtml (str "a b") = str "a b".
Proof.
  apply (proj2 (escapeHtml_leaves_no_markup (str "a b"))).
  repeat constructor.
Defined.

(** The renderings of two code units do not start one another. *)
Lemma escape_char_prefix_free (c d : N) (x y : jsstring) :
  escape_char c ++ x = escape_char d ++ y -> c = d /\ x = y.
Proof.
  unfold escape_char.
  destruct (N.eqb_spec c 38), (N.eqb_spec c 60), (N.eqb_spec c 62),
    (N.eqb_spec c 160), (N.eqb_spec d 38), (N.eqb_spec d 60), (N.eqb_spec d 62),
    (N.eqb_spec d 160);
    subst; cbv; intros H; try discriminate; try congruence;
    injection H; intros; subst; try congruence; split; congruence.
Qed.

(** X2.  [escapeHtml] loses nothing: two texts with the same rendering are
    the same text. *)
Theorem escapeHtml_injective (a b : jsstring) :
  escapeHtml a = escapeHtml b -> a = b.
Proof.
  unfold escapeHtml. revert b.
  induction a as [|c a IH]; intros [|d b] H; simpl in H.
  - reflexivity.
  - exfalso. unfold escape_char in H.
    destruct (d =? 38)%N, (d =? 60)%N, (d =? 62)%N, (d =? 160)%N; discriminate.
  - exfalso. unfold escape_char in H.
    destruct (c =? 38)%N, (c =? 60)%N, (c =? 62)%N, (c =? 160)%N; discriminate.
  - apply escape_char_prefix_free in H as [-> H]. f_equal. now apply IH.
Qed.

Lemma escapeHtml_injective_witness : str "<b>" = str "<b>".
Proof. apply escapeHtml_injective. reflexivity. Defined.

(** ** adjustListStack *)

Lemma closing_tags_app (a b : list ListCtx) :
  closing_tags (a ++ b) = closing_tags a ++ closing_tags b.
Proof. apply map_app. Qed.

Lemma opening_tags_app (a b : list ListCtx) :
  opening_tags (a ++ b) = opening_tags b ++ opening_tags a.
Proof. unfold opening_tags. now rewrite map_app, rev_app_distr. Qed.

(** The first loop pops the lists above the target level. *)
Lemma close_deeper_spec (targetLevel : nat) (stack : list ListCtx) :
  forall res n, length stack <= n ->
    close_deeper targetLevel (mkLists stack res) n
    = mkLists (skipn (length stack - targetLevel) stack)
              (res ++ closing_tags (firstn (length stack - targetLevel) stack)).
Proof.
  induction stack as [|ctx stack IH]; intros res n Hn.
  - destruct n; simpl; now rewrite app_nil_r.
  - destruct n as [|n]; [simpl in Hn; lia|].
    cbn [close_deeper listStack result].
    destruct (targetLevel <? length (ctx :: stack)) eqn:E.
    + apply Nat.ltb_lt in E. cbn [length] in E, Hn.
      rewrite IH by lia. cbn [length].
      replace (S (length stack) - targetLevel)
        with (S (length stack - targetLevel)) by lia.
      cbn [skipn firstn closing_tags map]. now rewrite <- app_assoc.
    + apply Nat.ltb_ge in E. cbn [length] in E |- *.
      replace (S (length stack) - targetLevel) with 0 by lia.
      cbn [skipn firstn closing_tags map]. now rewrite app_nil_r.
Qed.

(** The second loop pushes the lists that are missing. *)
Lemma open_up_to_spec (listType : ListType) :
  forall n stack res,
    open_up_to (length stack + n) listType (mkLists stack res) n
    = mkLists (new_lists listType (length stack) n ++ stack)
              (res ++ opening_tags (new_lists listType (length stack) n)).
Proof.
  induction n as [|n IH]; intros stack res.
  - simpl. now rewrite app_nil_r.
  - cbn [open_up_to listStack result].
    replace (length stack <? length stack + S n) with true
      by (symmetry; apply Nat.ltb_lt; lia).
    replace (length stack =? length stack + S n - 1) with (n =? 0).
    2:{ destruct n; [symmetry; apply Nat.eqb_eq; lia|].
        symmetry. apply Nat.eqb_neq. lia. }
    replace (length stack + S n)
      with (length (mkCtx (if n =? 0 then listType else ul) (length stack) :: stack) + n)
      by (simpl; lia).
    rewrite IH. cbn [length new_lists].
    rewrite opening_tags_app, <- !app_assoc. reflexivity.
Qed.

Lemma new_lists_length (listType : ListType) (n base : nat) :
  length (new_lists listType base n) = n.
Proof.
  revert base. induction n as [|n IH]; intros base; simpl; [reflexivity|].
  rewrite length_app, IH. simpl. lia.
Qed.

Lemma new_lists_top (listType : ListType) (n base : nat) :
  exists below, new_lists listType base (S n) = mkCtx listType (base + n) :: below.
Proof.
  revert base. induction n as [|n IH]; intros base.
  - exists []. simpl. now rewrite Nat.add_0_r.
  - destruct (IH (S base)) as [below Hb].
    change (new_lists listType base (S (S n)))
      with (new_lists listType (S base) (S n) ++ [mkCtx ul base]).
    rewrite Hb. exists (below ++ [mkCtx ul base]). simpl. f_equal. f_equal. lia.
Qed.

Lemma levelled_new_lists (listType : ListType) (n : nat) (stack : list ListCtx) :
  levelled stack -> levelled (new_lists listType (length stack) n ++ stack).
Proof.
  revert stack. induction n as [|n IH]; intros stack H; [exact H|].
  simpl. rewrite <- app_assoc. simpl.
  apply (IH (mkCtx (if n =? 0 then listType else ul) (length stack) :: stack)).
  simpl. split; [reflexivity | exact H].
Qed.

Lemma levelled_skipn (k : nat) (stack : list ListCtx) :
  levelled stack -> levelled (skipn k stack).
Proof.
  revert stack. induction k as [|k IH]; intros [|ctx stack] H; simpl; auto.
  apply IH. apply H.
Qed.

Lemma open_up_to_missing (listType : ListType) (targetLevel : nat)
  (stack : list ListCtx) (res : list jsstring) :
  length stack <= targetLevel ->
  open_up_to targetLevel listType (mkLists stack res) (targetLevel - length stack)
  = mkLists (new_lists listType (length stack) (targetLevel - length stack) ++ stack)
            (res ++ opening_tags
                      (new_lists listType (length stack) (targetLevel - length stack))).
Proof.
  intros H.
  replace targetLevel with (length stack + (targetLevel - length stack)) at 1 by lia.
  apply open_up_to_spec.
Qed.

(** The two checks that follow the loops, on the state [mid] the loops
    leave. *)
Lemma adjustListStack_after (st mid : ListState) (targetLevel : nat)
  (listType : ListType) :
  open_up_to targetLevel listType
    (close_deeper targetLevel st (length (listStack st)))
    (targetLevel
     - length (listStack (close_deeper targetLevel st (length (listStack st)))))
  = mid ->
  adjustListStack st targetLevel listType
  = (let st3 :=
       if (length (listStack mid) =? targetLevel) && (0 <? targetLevel) then
         match listStack mid with
         | currentList :: rest =>
             if negb (ListType_eqb (type currentList) listType) then
               mkLists (mkCtx listType (targetLevel - 1) :: rest)
                       (result mid ++ [close_tag (type currentList); open_tag listType])
             else mid
         | [] => mid
         end
       else mid in
     if length (listStack st3) =? 0 then
       mkLists [mkCtx listType 0] (result st3 ++ [open_tag listType])
     else st3).
Proof. intros <-. reflexivity. Qed.

Lemma ListType_eqb_refl (t : ListType) : ListType_eqb t t = true.
Proof. now destruct t. Qed.

Lemma ListType_eqb_eq (a b : ListType) : ListType_eqb a b = true -> a = b.
Proof. destruct a, b; simpl; congruence. Qed.

(** What a call of [adjustListStack] does to the two arrays.  The stack
    loses the lists [popped] from its top and gains the lists [pushed];
    the closing tags of the first and then the opening tags of the second
    are what the call adds to the result. *)
Lemma adjustListStack_spec (stack : list ListCtx) (res : list jsstring)
  (targetLevel : nat) (listType : ListType) :
  exists popped kept pushed,
    stack = popped ++ kept
    /\ adjustListStack (mkLists stack res) targetLevel listType
       = mkLists (pushed ++ kept)
                 (res ++ closing_tags popped ++ opening_tags pushed)
    /\ length (pushed ++ kept) = Nat.max targetLevel 1
    /\ (exists lvl below, pushed ++ kept = mkCtx listType lvl :: below)
    /\ (levelled stack -> levelled (pushed ++ kept)).
Proof.
  destruct targetLevel as [|t].
  - exists stack, [], [mkCtx listType 0].
    rewrite adjustListStack_level_0, app_nil_r.
    split; [|split; [|split; [|split]]]; try reflexivity.
    + now exists 0, [].
    + intros _. simpl. auto.
  - destruct (Nat.lt_ge_cases (length stack) (S t)) as [Hlt|Hge].
    + (* lists are missing *)
      exists [], stack, (new_lists listType (length stack) (S t - length stack)).
      destruct (new_lists_top listType (t - length stack) (length stack))
        as [below Hb].
      replace (S (t - length stack)) with (S t - length stack) in Hb by lia.
      split; [reflexivity|split; [|split; [|split]]].
      * rewrite (@adjustListStack_after (mkLists stack res)
                   (mkLists (new_lists listType (length stack) (S t - length stack)
                               ++ stack)
                            (res ++ opening_tags
                                     (new_lists listType (length stack)
                                                (S t - length stack))))).
        -- cbn [listStack result]. rewrite length_app, new_lists_length.
           replace (S t - length stack + length stack =? S t) with true
             by (symmetry; apply Nat.eqb_eq; lia).
           rewrite Hb. cbn [andb Nat.ltb Nat.leb app type].
           rewrite ListType_eqb_refl. reflexivity.
        -- cbn [listStack]. rewrite close_deeper_spec by lia.
           replace (length stack - S t) with 0 by lia.
           cbn [skipn firstn closing_tags map listStack]. rewrite app_nil_r.
           apply open_up_to_missing. lia.
      * rewrite length_app, new_lists_length. lia.
      * rewrite Hb. now exists (length stack + (t - length stack)), (below ++ stack).
      * apply levelled_new_lists.
    + (* lists are closed, and the type of the top one may change *)
      assert (Hk : length (skipn (length stack - S t) stack) = S t)
        by (rewrite length_skipn; lia).
      destruct (skipn (length stack - S t) stack) as [|top below] eqn:Ekept;
        [discriminate|].
      assert (Hsplit : stack = firstn (length stack - S t) stack ++ top :: below)
        by (now rewrite <- Ekept, firstn_skipn).
      assert (Hphase : open_up_to (S t) listType
                         (close_deeper (S t) (mkLists stack res)
                            (length (listStack (mkLists stack res))))
                         (S t - length
                                  (listStack
                                     (close_deeper (S t) (mkLists stack res)
                                        (length (listStack (mkLists stack res))))))
                       = mkLists (top :: below)
                                 (res ++ closing_tags
                                          (firstn (length stack - S t) stack))).
      { cbn [listStack]. rewrite close_deeper_spec by lia. rewrite Ekept.
        cbn [listStack]. rewrite Hk, Nat.sub_diag. reflexivity. }
      cbn [length] in Hk.
      destruct (ListType_eqb (type top) listType) eqn:Etype.
      * exists (firstn (length stack - S t) stack), (top :: below), [].
        split; [|split; [|split; [|split]]]; try exact Hsplit.
        -- rewrite (@adjustListStack_after _ _ _ _ Hphase).
           cbn [listStack result length]. rewrite Hk, Nat.eqb_refl.
           cbn [andb Nat.ltb Nat.leb]. rewrite Etype.
           cbn [negb listStack length Nat.eqb app opening_tags map rev].
           now rewrite app_nil_r.
        -- cbn [app length]. lia.
        -- exists (level top), below. apply ListType_eqb_eq in Etype.
           destruct top as [ty lv]. simpl in *. now subst.
        -- intros Hlev. cbn [app]. rewrite <- Ekept. now apply levelled_skipn.
      * exists (firstn (length stack - S t) stack ++ [top]), below,
          [mkCtx listType t].
        split; [|split; [|split; [|split]]].
        -- rewrite <- app_assoc. exact Hsplit.
        -- rewrite (@adjustListStack_after _ _ _ _ Hphase).
           cbn [listStack result length]. rewrite Hk, Nat.eqb_refl.
           cbn [andb Nat.ltb Nat.leb]. rewrite Etype.
           cbn [negb listStack length Nat.eqb].
           rewrite closing_tags_app, <- !app_assoc.
           replace (S t - 1) with t by lia. reflexivity.
        -- cbn [app length]. lia.
        -- now exists t, below.
        -- intros Hlev.
           assert (Hl : levelled (top :: below))
             by (rewrite <- Ekept; now apply levelled_skipn).
           simpl in *. split; [lia | apply Hl].
Qed.

(** ** Lines *)

Lemma split_on_no_sep (sep : N) (s : jsstring) :
  Forall (fun piece => ~ In sep piece) (split_on sep s).
Proof.
  induction s as [|c s IH]; simpl.
  - constructor; [intros []|constructor].
  - destruct (N.eqb_spec c sep) as [->|Hne].
    + constructor; [intros []|exact IH].
    + destruct (split_on sep s) as [|piece pieces].
      * constructor; [|constructor]. intros [H|[]]. congruence.
      * inversion IH; subst. constructor; [|assumption].
        intros [H|H]; [congruence|contradiction].
Qed.

Lemma split_on_piece (sep : N) (x rest : jsstring) :
  ~ In sep x -> split_on sep (x ++ sep :: rest) = x :: split_on sep rest.
Proof.
  induction x as [|a x IH]; simpl; intros H.
  - now rewrite N.eqb_refl.
  - destruct (N.eqb_spec a sep) as [->|Hne]; [exfalso; apply H; now left|].
    rewrite IH by (intros H'; apply H; now right). reflexivity.
Qed.

Lemma split_on_one (sep : N) (x : jsstring) : ~ In sep x -> split_on sep x = [x].
Proof.
  induction x as [|a x IH]; simpl; intros H; [reflexivity|].
  destruct (N.eqb_spec a sep) as [->|Hne]; [exfalso; apply H; now left|].
  rewrite IH by (intros H'; apply H; now right). reflexivity.
Qed.

(** Splitting gives back the lines that were joined, when none of them
    holds the separator. *)
Lemma split_on_join (sep : N) (lines : list jsstring) :
  lines <> [] -> Forall (fun line => ~ In sep line) lines ->
  split_on sep (join [sep] lines) = lines.
Proof.
  induction lines as [|x lines IH]; intros Hne HF; [congruence|].
  inversion HF as [|? ? Hx Hrest]; subst.
  destruct lines as [|y r].
  - simpl. now apply split_on_one.
  - change (join [sep] (x :: y :: r)) with (x ++ sep :: join [sep] (y :: r)).
    rewrite split_on_piece by assumption.
    rewrite IH by (congruence || assumption). reflexivity.
Qed.

Lemma trim_start_fixed (s : jsstring) :
  match s with c :: _ => is_space c = false | [] => True end -> trim_start s = s.
Proof. destruct s as [|c s]; simpl; intros H; [reflexivity | now rewrite H]. Qed.

Lemma trim_start_head (s : jsstring) :
  match trim_start s with c :: _ => is_space c = false | [] => True end.
Proof.
  induction s as [|a s IH]; simpl; [exact I|].
  destruct (is_space a) eqn:E; [exact IH | exact E].
Qed.

Lemma trim_start_suffix (s : jsstring) : exists p, s = p ++ trim_start s.
Proof.
  induction s as [|a s [p IH]]; simpl; [now exists []|].
  destruct (is_space a); [|now exists []].
  exists (a :: p). simpl. now f_equal.
Qed.






(** ** Captures *)

Lemma caps_ok_clear (P : N -> Prop) (grp : list nat) (x : MatchState) :
  caps_ok P x -> caps_ok P (clear_captures grp x).
Proof.
  intros [Ha Hc]. split; [exact Ha|]. simpl.
  apply Forall_forall. intros kv Hkv. apply filter_In in Hkv.
  rewrite Forall_forall in Hc. apply Hc. apply Hkv.
Qed.

Lemma Forall_firstn_of (P : N -> Prop) (k : nat) (s : jsstring) :
  Forall P s -> Forall P (firstn k s).
Proof.
  intros H. rewrite <- (firstn_skipn k s) in H. now apply Forall_app in H.
Qed.

(** A match captures code units of the text only. *)
Lemma steps_caps_ok (P : N -> Prop) (ic ml : bool) (r : regex) (x y : MatchState) :
  steps ic ml r x y -> caps_ok P x -> caps_ok P y.
Proof.
  induction 1; intros Hx; auto.
  - destruct Hx as [Ha Hc]. simpl in *. split; [now inversion Ha | exact Hc].
  - apply IHsteps2, IHsteps1. now apply caps_ok_clear.
  - destruct (IHsteps Hx) as [Ha Hc]. split; [exact Ha|]. simpl.
    constructor; [|exact Hc]. simpl. apply Forall_firstn_of. apply Hx.
  - destruct Hx as [Ha Hc]. split; [|exact Hc]. simpl.
    eapply suffix_of_Forall; [|exact Ha]. eapply backref_match_suffix; eassumption.
Qed.

Lemma get_capture_Forall (P : N -> Prop) (n : nat) (caps : list (nat * jsstring))
  (s : jsstring) :
  Forall (fun kv => Forall P (snd kv)) caps -> get_capture n caps = Some s -> Forall P s.
Proof.
  induction caps as [|[k v] caps IH]; simpl; intros HF H; [discriminate|].
  inversion HF; subst. destruct (k =? n); [now inversion H; subst | auto].
Qed.

Lemma search_caps (P : N -> Prop) (re : RegExp) (n : nat) :
  forall after before mi,
    Forall P after -> search re before after = Some mi -> Forall P (cap n mi).
Proof.
  induction after as [|d rest IH]; intros before mi HP H; rewrite search_eq in H;
    destruct (match_at re before _) as [y|] eqn:E; try discriminate.
  1,2: inversion H; subst; clear H; unfold match_at in E;
       apply matcher_steps in E; destruct E as (y' & Hsteps & Hy); inversion Hy; subst;
       apply (@steps_caps_ok P) in Hsteps; [|split; [exact HP|constructor]];
       unfold cap, info_of; simpl;
       destruct (get_capture n (st_caps y)) as [s|] eqn:Eg; [|constructor];
       eapply get_capture_Forall; [apply Hsteps | exact Eg].
  eapply IH; [|exact H]. now inversion HP.
Qed.

Lemma match_caps (P : N -> Prop) (re : RegExp) (n : nat) (s : jsstring) (mi : MatchInfo) :
  Forall P s -> match_ re s = Some mi -> Forall P (cap n mi).
Proof. intros HP H. eapply search_caps; eassumption. Qed.

(** ** The tags of the walk *)

Lemma nest_app (a b : list jsstring) :
  forall open,
    nest (a ++ b) open
    = match nest a open with Some open' => nest b open' | None => None end.
Proof.
  induction a as [|line a IH]; intros open; [reflexivity|].
  simpl. destruct (list_tag line) as [[[] t]|].
  - apply IH.
  - destruct open as [|t' below]; [reflexivity|].
    destruct (ListType_eqb t t'); [apply IH | reflexivity].
  - destruct (is_item line); [|apply IH].
    destruct open; [reflexivity | apply IH].
Qed.

Lemma nest_closing_tags (popped : list ListCtx) (open : list ListType) :
  nest (closing_tags popped) (map type popped ++ open) = Some open.
Proof.
  induction popped as [|[t l] popped IH]; [reflexivity|].
  destruct t; simpl; exact IH.
Qed.

Lemma nest_opening_tags (pushed : list ListCtx) :
  forall open, nest (opening_tags pushed) open = Some (map type pushed ++ open).
Proof.
  induction pushed as [|[t l] pushed IH]; intros open; [reflexivity|].
  change (opening_tags (mkCtx t l :: pushed))
    with (opening_tags ([mkCtx t l] ++ pushed)).
  rewrite opening_tags_app, nest_app, IH.
  destruct t; reflexivity.
Qed.

Lemma nest_plain_line (line : jsstring) (open : list ListType) :
  plain_line line = true -> nest [line] open = Some open.
Proof.
  unfold plain_line. simpl. destruct (list_tag line); [discriminate|].
  destruct (is_item line); [discriminate | reflexivity].
Qed.

Lemma nest_item (content : jsstring) (open : list ListType) :
  open <> [] -> nest [str "<li>" ++ content ++ str "</li>"] open = Some open.
Proof. destruct open; [congruence | reflexivity]. Qed.

Lemma one_line_app (a b : jsstring) : one_line a -> one_line b -> one_line (a ++ b).
Proof. unfold one_line. intros Ha Hb H. apply in_app_or in H. tauto. Qed.

Lemma one_line_checkbox (taskCheckbox content : jsstring) :
  one_line content -> one_line (checkbox taskCheckbox content).
Proof.
  intros H. unfold checkbox. destruct taskCheckbox; [exact H|].
  repeat apply one_line_app; try exact H;
    try (destruct (includes _ _)); unfold one_line; simpl; unfold NL;
    intuition discriminate.
Qed.

Lemma one_line_tags (stack : list ListCtx) :
  Forall one_line (closing_tags stack) /\ Forall one_line (opening_tags stack).
Proof.
  split.
  - induction stack as [|[[] l] stack IH]; constructor; auto;
      unfold one_line; simpl; unfold NL; intuition discriminate.
  - unfold opening_tags. apply Forall_rev.
    induction stack as [|[[] l] stack IH]; constructor; auto;
      unfold one_line; simpl; unfold NL; intuition discriminate.
Qed.

Lemma process_line_ok (lines : list jsstring) (indentLevels : NumMap) (i : nat)
  (st : ListState) :
  plain_line (line_at lines i) = true -> one_line (line_at lines i) ->
  walk_ok st -> walk_ok (process_line lines indentLevels i st).
Proof.
  intros Hplain Hone [Hnest Hlines].
  assert (Hclose : walk_ok (push_result (line_at lines i) (closeAllLists st))).
  { split; simpl.
    - rewrite !nest_app, Hnest, close_all_closing_tags. cbv beta iota.
      rewrite <- (app_nil_r (map type (listStack st))), nest_closing_tags.
      now apply nest_plain_line.
    - rewrite close_all_closing_tags.
      repeat (apply Forall_app; split); auto.
      apply one_line_tags. }
  unfold process_line. cbv zeta.
  destruct (match_ re_list_line (line_at lines i)) as [listMatch|] eqn:Ematch.
  - destruct (isActualListItem lines i (cap 2 listMatch) (length (cap 1 listMatch)));
      [|exact Hclose].
    cbn [negb].
    destruct st as [stack res].
    destruct (adjustListStack_spec stack res
                (calculateNestingLevel (length (cap 1 listMatch)) indentLevels)
                (if test re_ordered (cap 2 listMatch) then ol else ul))
      as (popped & kept & pushed & Hstack & Hadj & _ & (lvl & below & Htop) & _).
    rewrite Hadj. cbn [result listStack] in Hnest, Hlines. subst stack.
    split; cbn [push_result result listStack].
    + rewrite !nest_app, Hnest. cbv beta iota.
      rewrite nest_app, (map_app type popped kept), nest_closing_tags, nest_opening_tags.
      rewrite <- map_app. apply nest_item. rewrite Htop. discriminate.
    + repeat (apply Forall_app; split); auto; try apply one_line_tags.
      constructor; [|constructor].
      apply (@one_line_app (str "<li>")); [unfold one_line; simpl; unfold NL;
                                            intuition discriminate|].
      apply one_line_app; [|unfold one_line; simpl; unfold NL; intuition discriminate].
      apply one_line_checkbox.
      assert (HF : Forall (fun d => d <> NL) (cap 4 listMatch)).
      { eapply match_caps; [|exact Ematch].
        apply Forall_forall. intros d Hd E. subst d. exact (Hone Hd). }
      intros Hin. rewrite Forall_forall in HF. exact (HF _ Hin eq_refl).
  - destruct (negb (string_eqb (trim (line_at lines i)) [])); [exact Hclose|].
    split; simpl.
    + rewrite nest_app, Hnest. cbv beta iota. now apply nest_plain_line.
    + apply Forall_app. split; auto.
Qed.

Lemma line_at_In (lines : list jsstring) (i : nat) :
  In (line_at lines i) lines \/ line_at lines i = [].
Proof.
  unfold line_at. destruct (nth_in_or_default i lines []) as [H|H]; auto.
Qed.

Lemma walk_ok_walk (lines : list jsstring) (indentLevels : NumMap) :
  Forall (fun line => plain_line line = true /\ one_line line) lines ->
  forall n i st, walk_ok st -> walk_ok (walk lines indentLevels i n st).
Proof.
  intros HF. induction n as [|n IH]; intros i st Hst; [exact Hst|].
  simpl. apply IH.
  destruct (line_at_In lines i) as [Hin|Hnil].
  - rewrite Forall_forall in HF. destruct (HF _ Hin). now apply process_line_ok.
  - apply process_line_ok; auto; rewrite Hnil; [reflexivity | intros []].
Qed.

(** X4. The list tags [processLists] writes pair up: read line by line,
    its result closes every list with the tag of the innermost open list
    and has every item inside a list, for a text none of whose lines is
    itself a list tag or starts as an item does. *)
Theorem processLists_tags_are_well_nested (text : jsstring) :
  Forall (fun line => plain_line line = true) (split_on NL text) ->
  well_nested (split_on NL (processLists text)).
Proof.
  intros Hplain.
  assert (Hok : walk_ok (closeAllLists
                           (walk (split_on NL text)
                                 (analyzeIndentationLevels (split_on NL text)) 0
                                 (length (split_on NL text)) (mkLists [] [])))).
  { assert (Hw : walk_ok (walk (split_on NL text)
                               (analyzeIndentationLevels (split_on NL text)) 0
                               (length (split_on NL text)) (mkLists [] []))).
    { apply walk_ok_walk; [|split; [reflexivity|constructor]].
      pose proof (split_on_no_sep NL text) as Hone.
      rewrite Forall_forall in *. intros line Hin. split; [auto|].
      exact (Hone _ Hin). }
    destruct Hw as [Hnest Hlines]. split; simpl.
    - rewrite nest_app, Hnest, close_all_closing_tags. cbv beta iota.
      rewrite <- (app_nil_r (map type _)). apply nest_closing_tags.
    - apply Forall_app. split; auto. rewrite close_all_closing_tags.
      apply one_line_tags. }
  destruct Hok as [Hnest Hlines].
  unfold well_nested, processLists. cbv zeta. unfold nl.
  destruct (result _) as [|x l] eqn:E in Hnest, Hlines |- *.
  - reflexivity.
  - rewrite split_on_join; [exact Hnest | discriminate | exact Hlines].
Qed.

Lemma processLists_tags_are_well_nested_witness :
  well_nested (split_on NL (processLists (text_of ["- a"; "  - b"; "text"; "1. c"]))).
Proof.
  apply processLists_tags_are_well_nested.
  repeat constructor.
Defined.

(** X5. [adjustListStack] leaves [max(targetLevel, 1)] lists open, the
    innermost of the type of the item.  It closes lists from the top of the
    stack and then opens lists, and the tags it writes are the closing tags
    of the first and the opening tags of the second, in that order.  If
    each entry of the stack held the number of entries below it, this is
    still so afterwards. *)
Theorem adjustListStack_leaves_the_list_of_the_item_open
  (st : ListState) (targetLevel : nat) (listType : ListType) :
  let st' := adjustListStack st targetLevel listType in
  length (listStack st') = Nat.max targetLevel 1
  /\ (exists lvl below, listStack st' = mkCtx listType lvl :: below)
  /\ (exists popped kept pushed,
         listStack st = popped ++ kept
         /\ listStack st' = pushed ++ kept
         /\ result st' = result st ++ closing_tags popped ++ opening_tags pushed)
  /\ (levelled (listStack st) -> levelled (listStack st')).
Proof.
  destruct st as [stack res]. cbv zeta.
  destruct (adjustListStack_spec stack res targetLevel listType)
    as (popped & kept & pushed & Hstack & Hadj & Hlen & Htop & Hlev).
  rewrite Hadj. cbn [listStack result].
  split; [exact Hlen|]. split; [exact Htop|]. split; [|exact Hlev].
  now exists popped, kept, pushed.
Qed.

Lemma adjustListStack_leaves_the_list_of_the_item_open_witness :
  levelled (listStack (adjustListStack (mkLists [mkCtx ul 1; mkCtx ul 0] []) 1 ol)).
Proof.
  apply (adjustListStack_leaves_the_list_of_the_item_open
           (mkLists [mkCtx ul 1; mkCtx ul 0] []) 1 ol).
  simpl. auto.
Defined.

Lemma process_line_levelled (lines : list jsstring) (indentLevels : NumMap) (i : nat)
  (st : ListState) :
  levelled (listStack st) -> levelled (listStack (process_line lines indentLevels i st)).
Proof.
  intros H. unfold process_line. cbv zeta.
  destruct (match_ re_list_line (line_at lines i)) as [listMatch|].
  - destruct (isActualListItem _ _ _ _); cbn [negb]; [|exact I].
    destruct st as [stack res].
    destruct (adjustListStack_spec stack res
                (calculateNestingLevel (length (cap 1 listMatch)) indentLevels)
                (if test re_ordered (cap 2 listMatch) then ol else ul))
      as (popped & kept & pushed & _ & Hadj & _ & _ & Hlev).
    rewrite Hadj. cbn [push_result listStack]. now apply Hlev.
  - destruct (negb _); [exact I | exact H].
Qed.

(** X6. Along the walk of [processLists] the field [level] of an entry of
    [listStack] is the number of entries below it: the stack holds the
    levels 0, 1, 2 and so on, with no gap, whatever the indents of the
    lines. *)
Theorem walk_keeps_levels_in_step_with_the_stack
  (lines : list jsstring) (indentLevels : NumMap) (n i : nat) (st : ListState) :
  levelled (listStack st) -> levelled (listStack (walk lines indentLevels i n st)).
Proof.
  revert i st. induction n as [|n IH]; intros i st H; [exact H|].
  simpl. apply IH. now apply process_line_levelled.
Qed.

Lemma walk_keeps_levels_in_step_with_the_stack_witness :
  levelled (listStack (walk three_widths (analyzeIndentationLevels three_widths) 0 3
                            (mkLists [] []))).
Proof.
  apply (@walk_keeps_levels_in_step_with_the_stack
           three_widths (analyzeIndentationLevels three_widths) 3 0 (mkLists [] [])).
  exact I.
Defined.

(** ** Lines that are not items *)

Lemma process_line_passed_on (lines : list jsstring) (indentLevels : NumMap) (i : nat)
  (res : list jsstring) :
  accepted lines i = false ->
  process_line lines indentLevels i (mkLists [] res)
  = mkLists [] (res ++ [line_at lines i]).
Proof.
  unfold accepted, process_line. cbv zeta. intros H.
  destruct (match_ re_list_line (line_at lines i)) as [listMatch|].
  - rewrite H. cbn [negb]. unfold push_result, closeAllLists. simpl.
    now rewrite app_nil_r.
  - destruct (negb _); unfold push_result, closeAllLists; simpl;
      now rewrite ?app_nil_r.
Qed.

Lemma walk_passed_on (lines : list jsstring) (indentLevels : NumMap) :
  (forall i, accepted lines i = false) ->
  forall n i res,
    i + n <= length lines ->
    walk lines indentLevels i n (mkLists [] res)
    = mkLists [] (res ++ firstn n (skipn i lines)).
Proof.
  intros Hno. induction n as [|n IH]; intros i res Hn.
  - simpl. now rewrite app_nil_r.
  - simpl walk. rewrite process_line_passed_on by apply Hno.
    rewrite IH by lia. rewrite (@skipn_line_at lines i) by lia.
    simpl. now rewrite <- app_assoc.
Qed.

(** X7. A text in which no line is taken as a list item comes out of
    [processLists] as it went in. *)
Theorem processLists_leaves_a_text_without_items (text : jsstring) :
  (forall i, accepted (split_on NL text) i = false) ->
  processLists text = text.
Proof.
  intros Hno. unfold processLists. cbv zeta.
  rewrite walk_passed_on by (exact Hno || simpl; lia).
  unfold closeAllLists. cbn [listStack result close_all skipn app].
  rewrite firstn_all, app_nil_r. apply join_split_on.
Qed.

Lemma processLists_leaves_a_text_without_items_witness :
  processLists spielberger = spielberger.
Proof.
  apply processLists_leaves_a_text_without_items.
  intros [|[|i]]; vm_compute; reflexivity.
Defined.

(** ** The arrays of protectCodeBlocks *)

Lemma grows_by_refl (Q : jsstring -> Prop) (a : list jsstring) : grows_by Q a a.
Proof. exists []. split; [now rewrite app_nil_r | constructor]. Qed.

Lemma grows_by_trans (Q : jsstring -> Prop) (a b c : list jsstring) :
  grows_by Q a b -> grows_by Q b c -> grows_by Q a c.
Proof.
  intros (n1 & -> & H1) (n2 & -> & H2). exists (n1 ++ n2).
  split; [now rewrite app_assoc | now apply Forall_app].
Qed.

(** What holds between the state a replacer is given and the one it
    returns holds between the first state and the last. *)
Lemma replace_scan_state (St : Type) (R : St -> St -> Prop) (re : RegExp)
  (f : St -> MatchInfo -> St * jsstring) :
  (forall s, R s s) -> (forall a b c, R a b -> R b c -> R a c) ->
  (forall s mi, R s (fst (f s mi))) ->
  forall after before skip s,
    R s (fst (replace_scan re f before after skip s)).
Proof.
  intros Hrefl Htrans Hf.
  induction after as [|d rest IH]; intros before skip s.
  - destruct skip; simpl; [|apply Hrefl].
    destruct (match_at re before []); [|apply Hrefl].
    specialize (Hf s (info_of before [] m)).
    destruct (f s (info_of before [] m)). exact Hf.
  - destruct skip as [|skip]; simpl; [|apply IH].
    destruct (match_at re before (d :: rest)) as [y|].
    + specialize (Hf s (info_of before (d :: rest) y)).
      destruct (f s (info_of before (d :: rest) y)) as [s1 out]. simpl in Hf.
      destruct (length (firstn _ _)) as [|k].
      * specialize (IH (d :: before) 0 s1).
        destruct (replace_scan re f (d :: before) rest 0 s1). simpl in *.
        eapply Htrans; eassumption.
      * specialize (IH (d :: before) k s1).
        destruct (replace_scan re f (d :: before) rest k s1). simpl in *.
        eapply Htrans; eassumption.
    + specialize (IH (d :: before) 0 s).
      destruct (replace_scan re f (d :: before) rest 0 s). exact IH.
Qed.

(** X8. [protectCodeBlocks] keeps what the two arrays hold and adds to
    their ends; what it adds is the code of a block or of a span, escaped,
    between the tags of its kind. *)
Theorem protectCodeBlocks_stores_escaped_code
  (text : jsstring) (codeBlocks inlineCode : list jsstring) :
  let '(_, codeBlocks', inlineCode') := protectCodeBlocks text codeBlocks inlineCode in
  grows_by stored_block codeBlocks codeBlocks'
  /\ grows_by stored_inline inlineCode inlineCode'.
Proof.
  unfold protectCodeBlocks.
  pose proof (@replace_scan_state _ (grows_by stored_block) re_fence protect_fence
                (@grows_by_refl _) (@grows_by_trans _)) as Hb.
  pose proof (@replace_scan_state _ (grows_by stored_inline) re_inline protect_inline
                (@grows_by_refl _) (@grows_by_trans _)) as Hi.
  assert (Hfb : forall s mi, grows_by stored_block s (fst (protect_fence s mi))).
  { intros s mi. eexists. split; [reflexivity|].
    constructor; [|constructor]. now exists (cap 1 mi). }
  assert (Hfi : forall s mi, grows_by stored_inline s (fst (protect_inline s mi))).
  { intros s mi. eexists. split; [reflexivity|].
    constructor; [|constructor]. now exists (cap 1 mi). }
  specialize (Hb Hfb text [] 0 codeBlocks).
  destruct (replace_scan re_fence protect_fence [] text 0 codeBlocks) as [blocks1 text1].
  specialize (Hi Hfi text1 [] 0 inlineCode).
  destruct (replace_scan re_inline protect_inline [] text1 0 inlineCode)
    as [inline1 text2].
  split; assumption.
Qed.

(** ** The lines the filter reads *)

Lemma context_step_ext (l1 l2 : list jsstring) (i : nat) (marker : jsstring)
  (indent : nat) (acc : ListContext) (j : nat) :
  line_at l1 j = line_at l2 j ->
  context_step l1 i marker indent acc j = context_step l2 i marker indent acc j.
Proof. intros H. unfold context_step. now rewrite H. Qed.

Lemma context_fold_ext (l1 l2 : list jsstring) (i : nat) (marker : jsstring)
  (indent : nat) :
  forall (js : list nat) (acc : ListContext),
    (forall j, In j js -> line_at l1 j = line_at l2 j) ->
    fold_left (context_step l1 i marker indent) js acc
    = fold_left (context_step l2 i marker indent) js acc.
Proof.
  induction js as [|j js IH]; intros acc H; [reflexivity|].
  simpl. rewrite (@context_step_ext l1 l2) by (apply H; now left).
  apply IH. intros k Hk. apply H. now right.
Qed.

Lemma line_at_beyond (lines : list jsstring) (j : nat) :
  length lines <= j -> line_at lines j = [].
Proof. intros H. unfold line_at. now apply nth_overflow. Qed.

(** The loop of [checkListContext] may as well run to [currentIndex + 3]:
    there is no line beyond the last one. *)
Lemma checkListContext_window (lines : list jsstring) (i : nat) (marker : jsstring)
  (indent : nat) :
  checkListContext lines i marker indent
  = fold_left (context_step lines i marker indent)
              (List.seq (i - 3) (i + 4 - (i - 3))) (mkContext false 0).
Proof.
  unfold checkListContext, checkRange. cbv zeta.
  set (hi := Nat.min (length lines - 1) (i + 3)).
  replace (i + 4 - (i - 3))
    with ((S hi - (i - 3)) + (i + 4 - (i - 3) - (S hi - (i - 3))))
    by (unfold hi; lia).
  rewrite seq_app, fold_left_app.
  symmetry. apply context_fold_none.
  intros j Hj _. apply in_seq in Hj.
  destruct (Nat.le_gt_cases (length lines) j) as [Hle|Hgt].
  - rewrite line_at_beyond by exact Hle. reflexivity.
  - exfalso. unfold hi in Hj. lia.
Qed.

Lemma search_backwards_ext (pick : jsstring -> option nat) (required : list nat)
  (indent : nat) (l1 l2 : list jsstring) :
  forall n found,
    (forall j, j < n -> line_at l1 j = line_at l2 j) ->
    search_backwards pick required indent l1 n found
    = search_backwards pick required indent l2 n found.
Proof.
  induction n as [|n IH]; intros found H; [reflexivity|].
  simpl. rewrite (H n) by lia.
  destruct (_ =? _); [reflexivity|]. apply IH. intros j Hj. apply H. lia.
Qed.

(** X9. Whether a line is taken as a list item depends on the lines up to
    the third line after it and on nothing further down: two documents
    with the same lines up to there get the same answer. *)
Theorem isActualListItem_reads_no_line_beyond_the_third_below
  (l1 l2 : list jsstring) (currentIndex : nat) (marker : jsstring) (indent : nat) :
  (forall j, j <= currentIndex + 3 -> line_at l1 j = line_at l2 j) ->
  isActualListItem l1 currentIndex marker indent
  = isActualListItem l2 currentIndex marker indent.
Proof.
  intros H. unfold isActualListItem. cbv zeta.
  rewrite (H currentIndex) by lia.
  rewrite !checkListContext_window.
  rewrite (@context_fold_ext l1 l2)
    by (intros j Hj; apply in_seq in Hj; apply H; lia).
  unfold hasSequentialMarkers, verifyAlphabeticalSequence, verifyNumericalSequence.
  cbv zeta.
  rewrite !(@search_backwards_ext _ _ indent l1 l2 currentIndex)
    by (intros j Hj; apply H; lia).
  reflexivity.
Qed.

Lemma isActualListItem_reads_no_line_beyond_the_third_below_witness :
  isActualListItem [spielberger] 0 (str "B.") 0
  = isActualListItem [spielberger; []; []; []; str "a. Intro"] 0 (str "B.") 0.
Proof.
  apply isActualListItem_reads_no_line_beyond_the_third_below.
  intros [|[|[|[|j]]]] Hj; try reflexivity. simpl in Hj. lia.
Defined.

(** ** Patterns that need a character the text does not have *)

Lemma needs_sound (ic ml : bool) (l : list N) (r : regex) :
  needs ic l r ->
  forall c x, free_of l (st_after x) -> matcher ic ml r c x = None.
Proof.
  induction r as [|cc|r1 IH1 r2 IH2|r1 IH1 r2 IH2|min max greedy r1 IH1|n r1 IH1
                  |n| | | |cc|cc];
    simpl; intros Hneeds c x Hx; try contradiction.
  - destruct (st_after x) as [|d rest] eqn:E; [reflexivity|].
    apply Forall_inv in Hx.
    destruct (cc_match ic cc d) eqn:Ed; [|reflexivity].
    exfalso. apply Hx. now apply Hneeds.
  - destruct Hneeds as [Hneeds|Hneeds].
    + now apply IH1.
    + apply matcher_none. intros y Hy. apply IH2; [exact Hneeds|].
      eapply suffix_of_Forall; eauto.
  - destruct Hneeds as [H1 H2]. rewrite IH1, IH2; auto.
  - destruct Hneeds as (Hmin & Hmax & H1).
    rewrite Nat.add_1_r, RepeatMatcher_S. cbv zeta.
    apply Nat.eqb_neq in Hmin. rewrite Hmin.
    destruct max as [[|k]|]; try congruence; apply IH1; auto.
  - now apply IH1.
Qed.

Lemma match_at_needs (l : list N) (re : RegExp) (before after : jsstring) :
  needs_re l re -> free_of l after -> match_at re before after = None.
Proof. intros Hneeds Hafter. unfold match_at. now apply needs_sound with (l := l). Qed.

Lemma search_needs (l : list N) (re : RegExp) (after : jsstring) :
  needs_re l re -> free_of l after -> forall before, search re before after = None.
Proof.
  intros Hneeds. induction after as [|d rest IH]; intros Hafter before; simpl;
    rewrite (@match_at_needs l re _ _ Hneeds Hafter).
  - reflexivity.
  - apply IH. now apply Forall_inv_tail in Hafter.
Qed.

Lemma replace_scan_needs (St : Type) (l : list N) (re : RegExp)
  (f : St -> MatchInfo -> St * jsstring) (after : jsstring) :
  needs_re l re -> free_of l after ->
  forall before s, replace_scan re f before after 0 s = (s, after).
Proof.
  intros Hneeds. induction after as [|d rest IH]; intros Hafter before s; simpl;
    rewrite (@match_at_needs l re _ _ Hneeds Hafter).
  - reflexivity.
  - rewrite IH; [reflexivity|]. now apply Forall_inv_tail in Hafter.
Qed.

Lemma replace_all_with_needs (l : list N) (re : RegExp) (f : MatchInfo -> jsstring)
  (s : jsstring) :
  needs_re l re -> free_of l s -> replace_all_with re f s = s.
Proof.
  intros Hneeds Hs. unfold replace_all_with.
  now rewrite replace_scan_needs with (l := l).
Qed.

Lemma replace_all_needs (l : list N) (re : RegExp) (tpl s : jsstring) :
  needs_re l re -> free_of l s -> replace_all re tpl s = s.
Proof. intros. unfold replace_all. eapply replace_all_with_needs; eauto. Qed.

Lemma free_of_incl (l l' : list N) (s : jsstring) :
  incl l l' -> free_of l' s -> free_of l s.
Proof.
  intros Hincl H. eapply Forall_impl; [|exact H]. intros d Hd Hin. apply Hd, Hincl, Hin.
Qed.

(** The leaves of [needs]: a class with a few members. *)
Ltac needs_leaf :=
  let d := fresh "d" in
  let H := fresh "H" in
  intros d H; unfold cc_match in H; cbn [cc_invert cc_set cls ncls] in H;
  rewrite ?xorb_false_l in H; unfold chars, one_of in H; cbn -[N.eqb] in H;
  repeat match type of H with
         | (_ || _)%bool = true => apply orb_true_iff in H; destruct H as [H|H]
         end;
  try discriminate;
  apply N.eqb_eq in H; subst;
  repeat first [left; reflexivity | right].

Ltac needs_tree :=
  lazymatch goal with
  | |- _ /\ _ => split; needs_tree
  | |- _ \/ _ => first [solve [left; needs_tree] | solve [right; needs_tree]]
  | |- _ <> _ => congruence
  | |- forall _, _ -> In _ _ => needs_leaf
  | |- False => fail
  end.

Ltac solve_needs := unfold needs_re; cbn -[cc_match In]; needs_tree.

(** X10. A text without a backtick comes out of [protectCodeBlocks] as it
    went in, and so do the two arrays. *)
Theorem protectCodeBlocks_needs_a_backtick
  (text : jsstring) (codeBlocks inlineCode : list jsstring) :
  free_of [backtick] text ->
  protectCodeBlocks text codeBlocks inlineCode = (text, codeBlocks, inlineCode).
Proof.
  intros H. unfold protectCodeBlocks.
  rewrite (@replace_scan_needs _ [backtick]) by (solve_needs || exact H).
  rewrite (@replace_scan_needs _ [backtick]) by (solve_needs || exact H).
  reflexivity.
Qed.

Lemma protectCodeBlocks_needs_a_backtick_witness :
  protectCodeBlocks (str "a ~ b") [] [] = (str "a ~ b", [], []).
Proof.
  apply protectCodeBlocks_needs_a_backtick.
  repeat constructor; cbn; intuition discriminate.
Defined.

(** X11. A text without [#], [=] and [-] comes out of [processHeaders] as
    it went in. *)
Theorem processHeaders_needs_a_heading_character (text : jsstring) :
  free_of (str "#=-") text -> processHeaders text = text.
Proof.
  intros H. unfold processHeaders. cbv zeta.
  rewrite (@replace_all_with_needs (str "#=-") re_atx) by (solve_needs || exact H).
  rewrite (@replace_all_with_needs (str "#=-") re_bullet_atx)
    by (solve_needs || exact H).
  rewrite (@replace_all_needs (str "#=-") (re_setext "=")) by (solve_needs || exact H).
  rewrite (@replace_all_needs (str "#=-") (re_setext "-")) by (solve_needs || exact H).
  reflexivity.
Qed.

Lemma processHeaders_needs_a_heading_character_witness :
  processHeaders (str "a * b") = str "a * b".
Proof.
  apply processHeaders_needs_a_heading_character.
  repeat constructor; cbn; intuition discriminate.
Defined.

Ltac inert l text H :=
  repeat first
    [ rewrite (@replace_all_needs l _ _ text) by first [exact H | solve_needs]
    | rewrite (@replace_all_with_needs l _ _ text) by first [exact H | solve_needs] ].

(** X12. A text without a double quote, [*], [_] and [~] comes out of
    [processTextFormatting] as it went in. *)
Theorem processTextFormatting_needs_a_delimiter (text : jsstring) :
  free_of (DQ :: str "*_~") text -> processTextFormatting text = text.
Proof.
  intros H. unfold processTextFormatting. cbv zeta.
  inert (DQ :: str "*_~") text H. reflexivity.
Qed.

Lemma processTextFormatting_needs_a_delimiter_witness :
  processTextFormatting (str "# a - b") = str "# a - b".
Proof.
  apply processTextFormatting_needs_a_delimiter.
  repeat constructor; cbn; intuition discriminate.
Defined.

(** X13. A text without [>] comes out of [processBlockquotes] as it went
    in. *)
Theorem processBlockquotes_needs_a_greater_than_sign (text : jsstring) :
  free_of (str ">") text -> processBlockquotes text = text.
Proof.
  intros H. unfold processBlockquotes. cbv zeta.
  inert (str ">") text H. reflexivity.
Qed.

Lemma processBlockquotes_needs_a_greater_than_sign_witness :
  processBlockquotes (str "a < b") = str "a < b".
Proof.
  apply processBlockquotes_needs_a_greater_than_sign.
  repeat constructor; cbn; intuition discriminate.
Defined.

(** X14. A text without [-], [*] and [_] comes out of
    [processHorizontalRules] as it went in. *)
Theorem processHorizontalRules_needs_a_rule_character (text : jsstring) :
  free_of (str "-*_") text -> processHorizontalRules text = text.
Proof.
  intros H. unfold processHorizontalRules.
  inert (str "-*_") text H. reflexivity.
Qed.

Lemma processHorizontalRules_needs_a_rule_character_witness :
  processHorizontalRules (str "===") = str "===".
Proof.
  apply processHorizontalRules_needs_a_rule_character.
  repeat constructor; cbn; intuition discriminate.
Defined.

(** X15. A text without [[] that has no colon, or no slash, comes out of
    [processLinksAndImages] as it went in. *)
Theorem processLinksAndImages_needs_a_bracket_or_a_scheme (text : jsstring) :
  free_of (str "[") text -> free_of (str ":") text \/ free_of (str "/") text ->
  processLinksAndImages text = text.
Proof.
  intros Hb [Hc|Hs]; unfold processLinksAndImages; cbv zeta.
  - assert (H : free_of (str "[:") text).
    { unfold free_of in *. rewrite Forall_forall in *. intros d Hd Hin.
      destruct Hin as [<-|[<-|[]]]; [eapply Hb | eapply Hc]; eauto; now left. }
    inert (str "[:") text H. reflexivity.
  - assert (H : free_of (str "[/") text).
    { unfold free_of in *. rewrite Forall_forall in *. intros d Hd Hin.
      destruct Hin as [<-|[<-|[]]]; [eapply Hb | eapply Hs]; eauto; now left. }
    inert (str "[/") text H. reflexivity.
Qed.

Lemma processLinksAndImages_needs_a_bracket_or_a_scheme_witness :
  processLinksAndImages (str "see: (a) and b]") = str "see: (a) and b]".
Proof.
  apply processLinksAndImages_needs_a_bracket_or_a_scheme.
  - repeat constructor; cbn; intuition discriminate.
  - right. repeat constructor; cbn; intuition discriminate.
Defined.

(** ** Texts a pattern does not match *)

Lemma no_match_tail (re : RegExp) (d : N) (s : jsstring) :
  no_match re (d :: s) -> no_match re s.
Proof.
  intros H before after Ha. apply H.
  eapply suffix_of_trans; [exact Ha | apply suffix_of_cons].
Qed.

Lemma no_match_cons (re : RegExp) (d : N) (s : jsstring) :
  (forall before, match_at re before (d :: s) = None) ->
  no_match re s -> no_match re (d :: s).
Proof.
  intros Hd Hs before after [p Hp].
  destruct p as [|d' p]; simpl in Hp.
  - subst after. apply Hd.
  - injection Hp as _ ->. apply Hs. now exists p.
Qed.

Lemma no_match_nil (re : RegExp) :
  (forall before, match_at re before [] = None) -> no_match re [].
Proof.
  intros H before after [p Hp]. destruct p; [|discriminate].
  simpl in Hp. subst after. apply H.
Qed.

Lemma search_none (re : RegExp) (after : jsstring) :
  no_match re after -> forall before, search re before after = None.
Proof.
  induction after as [|d rest IH]; intros H before; rewrite search_eq;
    rewrite (H before _ (suffix_of_refl _)); [reflexivity|].
  apply IH. eapply no_match_tail; eassumption.
Qed.

Lemma replace_scan_none (St : Type) (re : RegExp) (f : St -> MatchInfo -> St * jsstring)
  (after : jsstring) :
  no_match re after ->
  forall before s, replace_scan re f before after 0 s = (s, after).
Proof.
  induction after as [|d rest IH]; intros H before s; simpl;
    rewrite (H before _ (suffix_of_refl _)); [reflexivity|].
  rewrite IH; [reflexivity|]. eapply no_match_tail; eassumption.
Qed.

Lemma replace_all_none (re : RegExp) (tpl s : jsstring) :
  no_match re s -> replace_all re tpl s = s.
Proof.
  intros H. unfold replace_all, replace_all_with. now rewrite replace_scan_none.
Qed.

Lemma replace_first_none (re : RegExp) (tpl s : jsstring) :
  no_match re s -> replace_first re tpl s = s.
Proof. intros H. unfold replace_first. now rewrite search_none. Qed.

Lemma match_none (re : RegExp) (s : jsstring) : no_match re s -> match_ re s = None.
Proof. intros H. unfold match_. now apply search_none. Qed.

Lemma test_none (re : RegExp) (s : jsstring) : no_match re s -> test re s = false.
Proof. intros H. unfold test. now rewrite search_none. Qed.

Lemma split_scan_none (re : RegExp) :
  forall after before acc,
    no_match re after -> split_scan re before after 0 acc = [rev acc ++ after].
Proof.
  induction after as [|d rest IH]; intros before acc H.
  - simpl. now rewrite app_nil_r.
  - rewrite split_scan_cons, (H before _ (suffix_of_refl _)).
    rewrite IH by (eapply no_match_tail; eassumption).
    simpl. now rewrite <- app_assoc.
Qed.

Lemma split_re_none (re : RegExp) (s : jsstring) : no_match re s -> split_re re s = [s].
Proof.
  intros H. unfold split_re. destruct s as [|d s].
  - now rewrite (H [] [] (suffix_of_refl _)).
  - now rewrite split_scan_none.
Qed.

Lemma needs_no_match (l : list N) (re : RegExp) (s : jsstring) :
  needs_re l re -> free_of l s -> no_match re s.
Proof.
  intros Hneeds Hs before after Ha. apply match_at_needs with (l := l); [exact Hneeds|].
  eapply suffix_of_Forall; eassumption.
Qed.

Lemma begins_sound (ic ml : bool) (l : list N) (r : regex) :
  begins ic l r ->
  forall c x,
    match st_after x with [] => True | d :: _ => ~ In d l end ->
    matcher ic ml r c x = None.
Proof.
  induction r as [|cc|r1 IH1 r2 IH2|r1 IH1 r2 IH2|min max greedy r1 IH1|n r1 IH1
                  |n| | | |cc|cc];
    simpl; intros Hb c x Hx; try contradiction.
  - destruct (st_after x) as [|d rest] eqn:E; [reflexivity|].
    destruct (cc_match ic cc d) eqn:Ed; [|reflexivity].
    exfalso. apply Hx. now apply Hb.
  - now apply IH1.
  - destruct Hb as [H1 H2]. rewrite IH1, IH2; auto.
  - destruct Hb as (Hmin & Hmax & H1).
    rewrite Nat.add_1_r, RepeatMatcher_S. cbv zeta.
    apply Nat.eqb_neq in Hmin. rewrite Hmin.
    destruct max as [[|k]|]; try congruence; apply IH1; auto.
  - now apply IH1.
Qed.

Lemma match_at_begins (l : list N) (re : RegExp) (before after : jsstring) :
  begins_re l re ->
  match after with [] => True | d :: _ => ~ In d l end ->
  match_at re before after = None.
Proof. intros Hb Ha. unfold match_at. now apply begins_sound with (l := l). Qed.

(** A text without the code units of [l], followed by [tail]: a pattern
    that begins with a code unit of [l] can only match in [tail]. *)
Lemma no_match_before (l : list N) (re : RegExp) (tail : jsstring) :
  begins_re l re -> no_match re tail ->
  forall s, free_of l s -> no_match re (s ++ tail).
Proof.
  intros Hb Htail. induction s as [|d s IH]; intros Hs; [exact Htail|].
  simpl. apply no_match_cons.
  - intros before. apply match_at_begins with (l := l); [exact Hb|].
    now apply Forall_inv in Hs.
  - apply IH. now apply Forall_inv_tail in Hs.
Qed.

(** ** A line of plain text *)

Lemma trim_fixed (s : jsstring) :
  trim s = s -> trim_start s = s /\ trim_start (rev s) = rev s.
Proof.
  intros H.
  destruct (trim_start_suffix s) as [q Hq].
  destruct (trim_start_suffix (rev (trim_start s))) as [p Hp].
  unfold trim in H.
  set (u := trim_start s) in *. set (v := trim_start (rev u)) in *.
  assert (Hu : u = s ++ rev p).
  { rewrite <- (rev_involutive u), Hp, rev_app_distr, H. reflexivity. }
  assert (Hlen : length q = 0 /\ length p = 0).
  { apply (f_equal (@length N)) in Hq. rewrite Hu in Hq.
    rewrite !length_app, length_rev in Hq. lia. }
  destruct Hlen as [Hq0 Hp0].
  apply length_zero_iff_nil in Hq0, Hp0. subst q p.
  simpl in Hu, Hp. rewrite app_nil_r in Hu.
  split; [exact Hu|]. unfold v in Hp. rewrite Hu in Hp. now symmetry.
Qed.

Lemma trim_ends (s : jsstring) :
  trim_start s = s -> trim_start (rev s) = rev s -> trim s = s.
Proof. intros H1 H2. unfold trim. now rewrite H1, H2, rev_involutive. Qed.

Lemma trimmed_head (s : jsstring) :
  s <> [] -> trim s = s -> exists c t, s = c :: t /\ is_space c = false.
Proof.
  intros Hne H. destruct (trim_fixed H) as [Hs _].
  pose proof (trim_start_head s) as Hh. rewrite Hs in Hh.
  destruct s as [|c t]; [congruence|]. now exists c, t.
Qed.

Lemma trimmed_last (s pre p : jsstring) :
  trim s = s -> s = pre ++ p -> p <> [] -> Forall (fun d => is_space d = true) p -> False.
Proof.
  intros H -> Hne HF. destruct (trim_fixed H) as [_ Hr].
  pose proof (trim_start_head (rev (pre ++ p))) as Hh. rewrite Hr in Hh.
  rewrite rev_app_distr in Hh.
  destruct (rev p) as [|d t] eqn:E.
  - apply (f_equal (@rev N)) in E. rewrite rev_involutive in E. simpl in E. congruence.
  - simpl in Hh. rewrite Forall_forall in HF.
    rewrite HF in Hh; [discriminate|]. apply in_rev. rewrite E. now left.
Qed.

Lemma steps_Eol_inv (ic ml : bool) (x y : MatchState) :
  steps ic ml Eol x y -> y = x /\ at_line_end ml x = true.
Proof. inversion 1; subst. now split. Qed.

(** [/[ \t]+$/gm] finds nothing in a line that does not end with white
    space. *)
Lemma no_match_trailing (text : jsstring) :
  free_of line_terminators text -> trim text = text -> no_match re_trailing text.
Proof.
  intros Hfree Htrim before after [pre Hpre].
  destruct (match_at re_trailing before after) as [z|] eqn:E; [exfalso|reflexivity].
  destruct after as [|a0 after0]; [vm_compute in E; discriminate|].
  unfold match_at in E. apply matcher_steps in E. destruct E as (y & Hsteps & _).
  simpl in Hsteps.
  apply steps_Seq_inv in Hsteps. destruct Hsteps as (y1 & H1 & H2).
  apply steps_Eol_inv in H2. destruct H2 as [-> Hend].
  eapply steps_class_run in H1; [|reflexivity].
  destruct H1 as (p & Hp & HF). simpl in Hp.
  unfold at_line_end in Hend.
  destruct (st_after y1) as [|n rest] eqn:En.
  - rewrite app_nil_r in Hp.
    apply (@trimmed_last text pre (a0 :: after0)); auto; [discriminate|].
    rewrite Hp. eapply Forall_impl; [|exact HF].
    intros d Hd. unfold cc_match, one_of in Hd.
    cbn [cc_invert cc_set cls existsb] in Hd. rewrite xorb_false_l in Hd.
    repeat (apply orb_true_iff in Hd; destruct Hd as [Hd|Hd]); try discriminate;
      apply N.eqb_eq in Hd; subst d; reflexivity.
  - simpl in Hend. unfold free_of in Hfree. rewrite Forall_forall in Hfree.
    apply (Hfree n).
    + rewrite Hpre, Hp. apply in_or_app. right. apply in_or_app. right. now left.
    + unfold is_line_terminator, one_of in Hend. apply existsb_exists in Hend.
      destruct Hend as (k & Hk & Heq). apply N.eqb_eq in Heq. now subst.
Qed.

Lemma cc_match_ic_exact (c d : N) :
  is_letter c = false -> cc_match true (cls (N.eqb c)) d = true -> d = c.
Proof.
  unfold cc_match, is_letter, to_upper, to_lower, is_upper, is_lower, in_range.
  cbn [cc_invert cc_set cls]. rewrite xorb_false_l. intros Hc H.
  apply orb_false_iff in Hc. destruct Hc as [Hu Hl].
  apply andb_false_iff in Hu, Hl.
  repeat (apply orb_true_iff in H; destruct H as [H|H]); apply N.eqb_eq in H.
  - now symmetry.
  - destruct (97 <=? d)%N eqn:E1; destruct (d <=? 122)%N eqn:E2; simpl in H;
      try (now symmetry).
    apply N.leb_le in E1, E2. exfalso.
    destruct Hu as [Hu|Hu]; apply N.leb_gt in Hu; lia.
  - destruct (65 <=? d)%N eqn:E1; destruct (d <=? 90)%N eqn:E2; simpl in H;
      try (now symmetry).
    apply N.leb_le in E1, E2. exfalso.
    destruct Hl as [Hl|Hl]; apply N.leb_gt in Hl; lia.
Qed.

Ltac in_list := solve [repeat first [left; reflexivity | right]].

Ltac needs_leaf_ic :=
  let d := fresh "d" in
  let H := fresh "H" in
  intros d H; apply cc_match_ic_exact in H; [subst d; in_list | reflexivity].

Ltac needs_tree_ic :=
  lazymatch goal with
  | |- _ /\ _ => split; needs_tree_ic
  | |- _ \/ _ => first [solve [left; needs_tree_ic] | solve [right; needs_tree_ic]]
  | |- _ <> _ => congruence
  | |- forall _, _ -> In _ _ => first [solve [needs_leaf] | solve [needs_leaf_ic]]
  | |- False => fail
  end.

Ltac solve_needs_ic := unfold needs_re; cbn -[cc_match In]; needs_tree_ic.
Ltac solve_begins := unfold begins_re; cbn -[cc_match In]; needs_tree_ic.

Lemma steps_begins (ic ml : bool) (l : list N) (r : regex) (x y : MatchState) :
  steps ic ml r x y -> begins ic l r ->
  exists d rest, st_after x = d :: rest /\ In d l.
Proof.
  induction 1 as [x|cc d rest before caps Hd|r1 r2 x y z H1 IH1 H2 IH2
                  |r1 r2 x y H1 IH1|r1 r2 x y H2 IH2
                  |min max greedy r x Hmin|min max max' greedy r x y z H1 IH1 H2 IH2
                  |k r x y H1 IH1|k x Hk|k x s b a Hk Hbr|x Hx|x Hx|x Hx|cc x Hx|cc x Hx];
    simpl; intros Hb; try contradiction; auto.
  - exists d, rest. split; [reflexivity | now apply Hb].
  - apply IH1, Hb.
  - apply IH2, Hb.
  - destruct Hb as (Hmin' & Hmax & _). destruct Hmin; congruence.
  - destruct Hb as (_ & _ & Hb). apply IH1 in Hb. exact Hb.
Qed.

Lemma free_of_markup (l : list N) (s : jsstring) :
  (forall d, In d l -> In d markup) -> free_of markup s -> free_of l s.
Proof. intros H. now apply free_of_incl. Qed.

Ltac sub_markup H :=
  apply free_of_markup; [|exact H];
  let d := fresh "d" in
  let Hd := fresh "Hd" in
  intros d Hd; cbn in Hd;
  repeat (destruct Hd as [Hd|Hd]; [subst d; in_list|]); contradiction.

Lemma normalizeContent_plain (text : jsstring) :
  free_of markup text -> trim text = text -> normalizeContent text = text.
Proof.
  intros H Htrim. unfold normalizeContent, stripQuotes. cbv zeta.
  assert (Hq : free_of [DQ; 39; 96]%N text) by sub_markup H.
  assert (Hcr : free_of [CR] text) by sub_markup H.
  assert (Hlt : free_of line_terminators text) by sub_markup H.
  rewrite (@replace_first_none re_quotes).
  2:{ apply needs_no_match with (l := [DQ; 39; 96]%N); [|exact Hq].
      unfold needs_re. cbn -[cc_match In]. right. left.
      intros d Hd. unfold cc_match, is_quote, one_of in Hd.
      cbn [cc_invert cc_set cls existsb] in Hd. rewrite xorb_false_l in Hd.
      repeat (apply orb_true_iff in Hd; destruct Hd as [Hd|Hd]); try discriminate;
        apply N.eqb_eq in Hd; subst d; in_list. }
  rewrite (@replace_all_needs [CR] re_crlf _ text) by first [exact Hcr | solve_needs].
  rewrite (@replace_all_needs [CR] re_cr _ text) by first [exact Hcr | solve_needs].
  apply replace_all_none. now apply no_match_trailing.
Qed.

Lemma processParagraphs_plain (text : jsstring) :
  free_of markup text -> text <> [] -> trim text = text ->
  processParagraphs text = str "<p>" ++ text ++ str "</p>".
Proof.
  intros H Hne Htrim.
  assert (Hnl : free_of [NL] text) by sub_markup H.
  assert (Hlt : free_of [60%N] text) by sub_markup H.
  unfold processParagraphs. cbv zeta.
  rewrite (@split_re_none re_blank_line)
    by (apply needs_no_match with (l := [NL]); [solve_needs | exact Hnl]).
  cbn [flat_map]. rewrite app_nil_r. unfold process_block. rewrite Htrim.
  destruct text as [|c t]; [congruence|].
  rewrite (@match_none re_header_with_text)
    by (apply needs_no_match with (l := [60%N]); [solve_needs_ic | exact Hlt]).
  unfold is_block_level.
  rewrite (@test_none re_block_start)
    by (apply needs_no_match with (l := [60%N]); [solve_needs_ic | exact Hlt]).
  rewrite (@test_none re_block_end)
    by (apply needs_no_match with (l := [60%N]); [solve_needs_ic | exact Hlt]).
  cbn [orb]. unfold paragraph.
  rewrite (@replace_all_needs [NL] re_newline) by first [exact Hnl | solve_needs].
  reflexivity.
Qed.

Lemma steps_Rep_then (ic ml : bool) (l : list N) (min : nat) (max : option nat)
  (greedy : bool) (body rest : regex) (x z : MatchState) :
  steps ic ml (Seq (Rep min max greedy body) rest) x z ->
  begins ic l body -> begins ic l rest ->
  exists d tl, st_after x = d :: tl /\ In d l.
Proof.
  intros H Hbody Hrest.
  apply steps_Seq_inv in H. destruct H as (y & H1 & H2).
  inversion H1; subst.
  - eapply steps_begins; eassumption.
  - match goal with
    | Hs : steps _ _ body (clear_captures _ _) _ |- _ =>
        eapply steps_begins in Hs; [|exact Hbody];
        destruct Hs as (d & tl & Hd & Hin)
    end.
    simpl in Hd. now exists d, tl.
Qed.

(** The patterns of [finalCleanup] that begin with [<] find nothing in a
    paragraph of plain text, if they match neither at its start nor at
    its closing tag. *)
Lemma no_match_paragraph (re : RegExp) (text : jsstring) :
  begins_re [60%N] re -> free_of [60%N] text ->
  (forall before, match_at re before (str "<p>" ++ text ++ str "</p>") = None) ->
  (forall before, match_at re before (str "</p>") = None) ->
  no_match re (str "<p>" ++ text ++ str "</p>").
Proof.
  intros Hb Hfree Hstart Hend.
  assert (Hother : forall before d s,
             d <> 60%N -> match_at re before (d :: s) = None).
  { intros before d s Hd. apply match_at_begins with (l := [60%N]); [exact Hb|].
    intros [E|[]]. congruence. }
  apply no_match_cons; [exact Hstart|].
  apply no_match_cons; [intros; apply Hother; discriminate|].
  apply no_match_cons; [intros; apply Hother; discriminate|].
  apply no_match_before with (l := [60%N]); [exact Hb| |exact Hfree].
  apply no_match_cons; [exact Hend|].
  apply no_match_cons; [intros; apply Hother; discriminate|].
  apply no_match_cons; [intros; apply Hother; discriminate|].
  apply no_match_cons; [intros; apply Hother; discriminate|].
  apply no_match_nil. intros before.
  apply match_at_begins with (l := [60%N]); [exact Hb | exact I].
Qed.

Lemma steps_Chr_Seq_inv (ic ml : bool) (cc : CharClass) (r : regex) (x z : MatchState) :
  steps ic ml (Seq (Chr cc) r) x z ->
  exists d y, st_after x = d :: st_after y /\ steps ic ml r y z.
Proof.
  intros H. apply steps_Seq_inv in H. destruct H as (y & H1 & H2).
  apply steps_Chr_inv in H1. destruct H1 as (d & Hd & _). now exists d, y.
Qed.

(** After [<p>] comes a code unit that is neither white space nor [&]
    nor [<]: the two patterns for an empty paragraph do not match. *)
Lemma no_empty_paragraph (re : RegExp) (body : regex) (c : N) (t before : jsstring) :
  re_body re = rseq [lit "<p>"; star body; lit "</p>"] ->
  begins (re_ignoreCase re) (white_space ++ [38; 60]%N) body ->
  is_space c = false -> c <> 38%N -> c <> 60%N ->
  match_at re before (str "<p>" ++ (c :: t) ++ str "</p>") = None.
Proof.
  intros Hbody Hb Hc H38 H60.
  destruct (match_at re before _) as [z|] eqn:E; [exfalso|reflexivity].
  unfold match_at in E. apply matcher_steps in E. destruct E as (y & Hsteps & _).
  rewrite Hbody in Hsteps. cbn [rseq lit map str list_ascii_of_string] in Hsteps.
  apply steps_Seq_inv in Hsteps. destruct Hsteps as (y3 & Hp & Hrest).
  apply steps_Chr_Seq_inv in Hp. destruct Hp as (d1 & y1 & E1 & Hp).
  apply steps_Chr_Seq_inv in Hp. destruct Hp as (d2 & y2 & E2 & Hp).
  apply steps_Chr_inv in Hp. destruct Hp as (d3 & E3 & _).
  cbn [st_after] in E1. rewrite E2, E3 in E1.
  cbn [app str map list_ascii_of_string] in E1.
  injection E1 as _ _ _ E1.
  apply steps_Rep_then with (l := (white_space ++ [38; 60])%N) in Hrest;
    [|exact Hb|].
  - destruct Hrest as (d & tl & Hd & Hin). rewrite <- E1 in Hd.
    injection Hd as <- _.
    apply in_app_or in Hin. destruct Hin as [Hin|[Hin|[Hin|[]]]].
    + apply is_space_In in Hin. congruence.
    + congruence.
    + congruence.
  - cbn [begins]. intros d Hd.
    apply in_or_app. right. right. left.
    destruct (re_ignoreCase re).
    + apply cc_match_ic_exact in Hd; [now symmetry | reflexivity].
    + unfold cc_match in Hd. cbn [cc_invert cc_set cls] in Hd.
      rewrite xorb_false_l in Hd. now apply N.eqb_eq in Hd.
Qed.

Lemma finalCleanup_paragraph (c : N) (t : jsstring) :
  free_of markup (c :: t) -> trim (c :: t) = c :: t ->
  finalCleanup (str "<p>" ++ (c :: t) ++ str "</p>")
  = str "<p>" ++ (c :: t) ++ str "</p>".
Proof.
  intros H Htrim.
  assert (Hlt : free_of [60%N] (c :: t)) by sub_markup H.
  assert (Hc : is_space c = false).
  { destruct (@trimmed_head (c :: t)) as (c' & t' & E & Hs); [discriminate|exact Htrim|].
    now injection E as <- _. }
  assert (H38 : c <> 38%N).
  { apply Forall_inv in H. intros E. apply H. subst c. in_list. }
  assert (H60 : c <> 60%N).
  { apply Forall_inv in H. intros E. apply H. subst c. in_list. }
  assert (Hnl : free_of [NL] (str "<p>" ++ (c :: t) ++ str "</p>")).
  { apply Forall_app. split; [repeat constructor; cbn; intuition discriminate|].
    apply Forall_app. split; [sub_markup H|].
    repeat constructor; cbn; intuition discriminate. }
  unfold finalCleanup. cbv zeta.
  rewrite (@replace_all_none re_br_after_header).
  2:{ apply no_match_paragraph; [solve_begins | exact Hlt | |];
        intros before; reflexivity. }
  rewrite (@replace_all_none re_empty_p).
  2:{ apply no_match_paragraph; [solve_begins | exact Hlt | |].
      - intros before. apply no_empty_paragraph with (body := ws); auto.
        cbn [begins ws cset]. intros d Hd. apply in_or_app. left.
        now apply cc_match_space in Hd.
      - intros before. reflexivity. }
  rewrite (@replace_all_none re_blank_p).
  2:{ apply no_match_paragraph; [solve_begins | exact Hlt | |].
      - intros before.
        apply no_empty_paragraph with (body := ralt [ws; lit "&nbsp;"; br_tag]); auto.
        cbn -[cc_match In white_space]. repeat split.
        + intros d Hd. apply in_or_app. left. now apply cc_match_space in Hd.
        + intros d Hd. apply in_or_app. right. left.
          apply cc_match_ic_exact in Hd; [now symmetry | reflexivity].
        + intros d Hd. apply in_or_app. right. right. left.
          apply cc_match_ic_exact in Hd; [now symmetry | reflexivity].
      - intros before. reflexivity. }
  rewrite (@replace_all_none re_br_before_list).
  2:{ apply no_match_paragraph; [solve_begins | exact Hlt | |];
        intros before; reflexivity. }
  rewrite (@replace_all_none re_br_after_list).
  2:{ apply no_match_paragraph; [solve_begins | exact Hlt | |];
        intros before; reflexivity. }
  rewrite (@replace_all_needs [NL] re_three_newlines) by first [exact Hnl | solve_needs].
  rewrite (@replace_all_needs [NL] re_between_tags) by first [exact Hnl | solve_needs].
  rewrite split_on_one.
  2:{ intros Hin. unfold free_of in Hnl. rewrite Forall_forall in Hnl.
      apply (Hnl _ Hin). now left. }
  cbn [map]. rewrite trim_ends.
  - reflexivity.
  - reflexivity.
  - rewrite !rev_app_distr. reflexivity.
Qed.

(** X16. A line of plain text is rendered as one paragraph.  The line is
    not empty, does not start or end with white space, has none of the
    characters of [markup], and is not taken as a list item: then
    [convertMarkdownToHTML] returns it between [<p>] and [</p>],
    unchanged. *)
Theorem plain_line_is_rendered_as_one_paragraph (text : jsstring) :
  text <> [] -> trim text = text -> free_of markup text ->
  accepted [text] 0 = false ->
  convertMarkdownToHTML text = str "<p>" ++ text ++ str "</p>".
Proof.
  intros Hne Htrim H Hitem.
  rewrite convertMarkdownToHTML_eq, normalizeContent_plain by assumption.
  assert (Hbt : free_of [backtick] text) by sub_markup H.
  assert (Hh : free_of (str "#=-") text) by sub_markup H.
  assert (Hf : free_of (DQ :: str "*_~") text) by sub_markup H.
  assert (Hq : free_of (str ">") text) by sub_markup H.
  assert (Hr : free_of (str "-*_") text) by sub_markup H.
  assert (Hl : free_of (str "[/") text) by sub_markup H.
  assert (Hnl : ~ In NL text).
  { intros Hin. unfold free_of in H. rewrite Forall_forall in H.
    apply (H _ Hin). in_list. }
  unfold protectCodeBlocks.
  rewrite (@replace_scan_needs _ [backtick]) by first [exact Hbt | solve_needs].
  rewrite (@replace_scan_needs _ [backtick]) by first [exact Hbt | solve_needs].
  unfold processHeaders. cbv zeta. inert (str "#=-") text Hh.
  unfold processTextFormatting. cbv zeta. inert (DQ :: str "*_~") text Hf.
  unfold processBlockquotes. cbv zeta. inert (str ">") text Hq.
  assert (Hlists : processLists text = text).
  { unfold processLists. cbv zeta. rewrite split_on_one by exact Hnl.
    rewrite walk_passed_on.
    - reflexivity.
    - intros [|i]; [exact Hitem|].
      unfold accepted. rewrite line_at_beyond by (simpl; lia). reflexivity.
    - simpl. lia. }
  rewrite Hlists.
  unfold processHorizontalRules. inert (str "-*_") text Hr.
  unfold processLinksAndImages. cbv zeta. inert (str "[/") text Hl.
  cbn [restoreCodeBlocks restore_loop].
  rewrite processParagraphs_plain by assumption.
  destruct text as [|c t]; [congruence|].
  now apply finalCleanup_paragraph.
Qed.

Lemma plain_line_is_rendered_as_one_paragraph_witness :
  convertMarkdownToHTML (str "Hello, world. It is 5 o clock (or so)!")
  = str "<p>" ++ str "Hello, world. It is 5 o clock (or so)!" ++ str "</p>".
Proof.
  apply plain_line_is_rendered_as_one_paragraph.
  - discriminate.
  - reflexivity.
  - repeat constructor; cbn; intuition discriminate.
  - reflexivity.
Defined.

(** ** The sequence checks *)

Lemma set_add_In (x y : nat) (s : list nat) : In y (set_add x s) <-> In y s \/ y = x.
Proof.
  unfold set_add. destruct (existsb (Nat.eqb x) s) eqn:E.
  - split; [auto|]. intros [H| ->]; [exact H|].
    apply existsb_exists in E. destruct E as (z & Hz & Hxz).
    apply Nat.eqb_eq in Hxz. now subst.
  - rewrite in_app_iff. simpl. intuition.
Qed.

Lemma set_add_NoDup (x : nat) (s : list nat) : NoDup s -> NoDup (set_add x s).
Proof.
  intros H. unfold set_add. destruct (existsb (Nat.eqb x) s) eqn:E; [exact H|].
  apply NoDup_app; [exact H | repeat constructor; intros [] |].
  intros y Hy [Hxy|[]]. subst y.
  assert (Hex : existsb (Nat.eqb x) s = true)
    by (apply existsb_exists; exists x; split; [exact Hy | apply Nat.eqb_refl]).
  congruence.
Qed.

Lemma found_on_line_In (pick : jsstring -> option nat) (required : list nat)
  (indent : nat) (line : jsstring) (found : list nat) (r : nat) :
  In r (found_on_line pick required indent line found)
  <-> In r found \/ (In r required /\ item_at pick indent r line = true).
Proof.
  unfold found_on_line, item_at.
  destruct (match_ re_list_context line) as [listMatch|]; [|intuition discriminate].
  destruct (near (length (cap 1 listMatch)) indent); [|intuition discriminate].
  destruct (pick (marker_base (cap 2 listMatch))) as [item|];
    [|intuition discriminate].
  cbn [andb].
  destruct (existsb (Nat.eqb item) required) eqn:E.
  - rewrite set_add_In. apply existsb_exists in E. destruct E as (z & Hz & Hxz).
    apply Nat.eqb_eq in Hxz. subst z.
    split.
    + intros [H| ->]; [now left|]. right. split; [exact Hz | apply Nat.eqb_refl].
    + intros [H|[_ H]]; [now left|]. right. apply Nat.eqb_eq in H. now symmetry.
  - split; [auto|]. intros [H|[Hr H]]; [exact H|].
    apply Nat.eqb_eq in H. subst item.
    assert (Hex : existsb (Nat.eqb r) required = true)
      by (apply existsb_exists; exists r; split; [exact Hr | apply Nat.eqb_refl]).
    congruence.
Qed.

Lemma found_on_line_NoDup (pick : jsstring -> option nat) (required : list nat)
  (indent : nat) (line : jsstring) (found : list nat) :
  NoDup found -> NoDup (found_on_line pick required indent line found).
Proof.
  intros H. unfold found_on_line.
  destruct (match_ re_list_context line) as [listMatch|]; [|exact H].
  destruct (near _ _); [|exact H].
  destruct (pick _) as [item|]; [|exact H].
  destruct (existsb _ _); [|exact H]. now apply set_add_NoDup.
Qed.

Lemma found_on_line_incl (pick : jsstring -> option nat) (required : list nat)
  (indent : nat) (line : jsstring) (found : list nat) :
  incl found required -> incl (found_on_line pick required indent line found) required.
Proof.
  intros H r Hr. apply found_on_line_In in Hr. destruct Hr as [Hr|[Hr _]]; auto.
Qed.

(** The loop of the two sequence checks answers [true] exactly when every
    required item is the marker of some line above, at a near indent. *)
Lemma search_backwards_spec (pick : jsstring -> option nat) (required : list nat)
  (indent : nat) (lines : list jsstring) :
  NoDup required ->
  forall n found,
    NoDup found -> incl found required -> length found < length required ->
    (search_backwards pick required indent lines n found = true
     <-> forall r, In r required ->
                   In r found
                   \/ exists j, j < n /\ item_at pick indent r (line_at lines j) = true).
Proof.
  intros Hreq. induction n as [|n IH]; intros found Hnd Hincl Hlen.
  - simpl. split; [discriminate|]. intros H. exfalso.
    assert (Hle : length required <= length found).
    { apply NoDup_incl_length; [exact Hreq|]. intros r Hr.
      destruct (H r Hr) as [Hf|(j & Hj & _)]; [exact Hf | lia]. }
    lia.
  - simpl.
    set (found' := found_on_line pick required indent (line_at lines n) found).
    assert (Hnd' : NoDup found') by now apply found_on_line_NoDup.
    assert (Hincl' : incl found' required) by now apply found_on_line_incl.
    assert (Hle : length found' <= length required)
      by now apply NoDup_incl_length.
    destruct (Nat.eqb_spec (length found') (length required)) as [Heq|Hne].
    + split; [|reflexivity]. intros _ r Hr.
      assert (Hin : In r found').
      { apply (@NoDup_length_incl _ found' required Hnd'); [lia | exact Hincl' | exact Hr]. }
      apply found_on_line_In in Hin. destruct Hin as [Hin|[_ Hin]]; [now left|].
      right. exists n. split; [lia | exact Hin].
    + rewrite IH by (assumption || lia). split.
      * intros H r Hr. destruct (H r Hr) as [Hin|(j & Hj & Hitem)].
        -- apply found_on_line_In in Hin. destruct Hin as [Hin|[_ Hin]]; [now left|].
           right. exists n. split; [lia | exact Hin].
        -- right. exists j. split; [lia | exact Hitem].
      * intros H r Hr. destruct (H r Hr) as [Hin|(j & Hj & Hitem)].
        -- left. apply found_on_line_In. now left.
        -- destruct (Nat.eq_dec j n) as [->|Hjn].
           ++ left. apply found_on_line_In. right. now split.
           ++ right. exists j. split; [lia | exact Hitem].
Qed.

(** X17. [verifyAlphabeticalSequence] accepts a letter exactly when every
    letter before it in the alphabet, from [a] on, is the marker of some
    line above the current one, in either case and at an indent within two
    columns; how far above does not matter.  For [a] there is nothing to
    find. *)
Theorem verifyAlphabeticalSequence_wants_every_letter_before
  (lines : list jsstring) (currentIndex : nat) (c : N) (indent : nat) :
  is_letter c = true ->
  (verifyAlphabeticalSequence lines currentIndex [c] indent = true
   <-> forall code, 97 <= code < N.to_nat (to_lower c) ->
                    exists j, j < currentIndex
                              /\ item_at pick_letter indent code (line_at lines j) = true).
Proof.
  intros Hc. unfold verifyAlphabeticalSequence. cbv zeta.
  set (k := N.to_nat (to_lower c)).
  assert (Hk : 97 <= k).
  { unfold k, to_lower, is_letter, is_upper, is_lower, in_range in *.
    destruct ((65 <=? c)%N && (c <=? 90)%N) eqn:Eu.
    - apply andb_true_iff in Eu. destruct Eu as [E1 E2].
      apply N.leb_le in E1, E2. lia.
    - simpl in Hc. apply andb_true_iff in Hc. destruct Hc as [E1 E2].
      apply N.leb_le in E1, E2. lia. }
  destruct (Nat.eqb_spec k 97) as [Heq|Hne].
  - split; [|reflexivity]. intros _ code Hcode. lia.
  - rewrite search_backwards_spec.
    + split.
      * intros H code Hcode. destruct (H code) as [[]|Hj]; [|exact Hj].
        apply in_seq. lia.
      * intros H r Hr. right. apply H. apply in_seq in Hr. lia.
    + apply seq_NoDup.
    + constructor.
    + intros r [].
    + rewrite length_seq. simpl. lia.
Qed.

Lemma verifyAlphabeticalSequence_wants_every_letter_before_witness :
  verifyAlphabeticalSequence [str "a. x"; str "text"; str "B. y"] 2 (str "b") 0 = true.
Proof.
  apply (proj2 (@verifyAlphabeticalSequence_wants_every_letter_before
                  [str "a. x"; str "text"; str "B. y"] 2 98%N 0 eq_refl)).
  intros code Hcode. exists 0. split; [lia|].
  replace code with 97 by (vm_compute in Hcode; lia). reflexivity.
Defined.

(** X18. [verifyNumericalSequence] accepts a number exactly when every
    number from 1 up to the one before it is the marker of some line above
    the current one, at an indent within two columns.  For 1 there is
    nothing to find.  The number is the value of a marker of one digit,
    as [isActualListItem] asks for, and not 0. *)
Theorem verifyNumericalSequence_wants_every_number_before
  (lines : list jsstring) (currentIndex currentNumber indent : nat) :
  1 <= currentNumber <= 9 ->
  (verifyNumericalSequence lines currentIndex currentNumber indent = true
   <-> forall m, 1 <= m < currentNumber ->
                 exists j, j < currentIndex
                           /\ item_at pick_number indent m (line_at lines j) = true).
Proof.
  intros Hn. unfold verifyNumericalSequence. cbv zeta.
  destruct (Nat.eqb_spec currentNumber 1) as [Heq|Hne].
  - split; [|reflexivity]. intros _ m Hm. lia.
  - rewrite search_backwards_spec.
    + split.
      * intros H m Hm. destruct (H m) as [[]|Hj]; [|exact Hj].
        apply in_seq. lia.
      * intros H r Hr. right. apply H. apply in_seq in Hr. lia.
    + apply seq_NoDup.
    + constructor.
    + intros r [].
    + rewrite length_seq. simpl. lia.
Qed.

Lemma verifyNumericalSequence_wants_every_number_before_witness :
  verifyNumericalSequence [str "1. x"; str "text"; str "2. y"] 2 2 0 = true.
Proof.
  apply (proj2 (@verifyNumericalSequence_wants_every_number_before
                  [str "1. x"; str "text"; str "2. y"] 2 2 0 ltac:(lia))).
  intros m Hm. exists 0. split; [lia|].
  replace m with 1 by lia. reflexivity.
Defined.

(** ** Matches that succeed *)

(** A greedy repetition of a class takes the whole run of the class, when
    what follows the repetition matches after the run. *)
Lemma greedy_run (ic ml : bool) (cc : CharClass) (c : Cont) (rest : jsstring)
  (caps : list (nat * jsstring)) (z : MatchState) :
  match rest with [] => True | d :: _ => cc_match ic cc d = false end ->
  forall taken fuel min max before,
    length taken < fuel ->
    Forall (fun d => cc_match ic cc d = true) taken ->
    min <= length taken ->
    match max with Some k => length taken <= k | None => True end ->
    c (mkState (rev taken ++ before) rest caps) = Some z ->
    RepeatMatcher (matcher ic ml (Chr cc)) [] true c fuel min max
                  (mkState before (taken ++ rest) caps) = Some z.
Proof.
  intros Hrest.
  induction taken as [|a taken IH]; intros fuel min max before Hfuel Hrun Hmin Hmax Hz;
    (destruct fuel as [|fuel]; [simpl in Hfuel; lia|]);
    rewrite RepeatMatcher_S; cbv zeta.
  - simpl in Hmin. assert (min = 0) by lia. subst min.
    simpl in Hz. cbn [app Nat.eqb negb].
    destruct max as [[|k]|]; [exact Hz| |];
      rewrite clear_captures_nil; cbn [matcher st_after];
      (destruct rest as [|d rest]; [exact Hz|]); rewrite Hrest; exact Hz.
  - pose proof (Forall_inv Hrun) as Ha.
    assert (Hnext : RepeatMatcher (matcher ic ml (Chr cc)) [] true c fuel
                      (pred min) (option_map pred max)
                      (mkState (a :: before) (taken ++ rest) caps) = Some z).
    { apply IH.
      - simpl in Hfuel. lia.
      - now apply Forall_inv_tail in Hrun.
      - simpl in Hmin. lia.
      - destruct max as [k|]; [|exact I]. simpl in *. lia.
      - simpl in Hz. now rewrite <- app_assoc in Hz. }
    assert (Hstep : matcher ic ml (Chr cc)
                      (repeat_again (matcher ic ml (Chr cc)) [] true c fuel min max
                         (mkState before ((a :: taken) ++ rest) caps))
                      (clear_captures [] (mkState before ((a :: taken) ++ rest) caps))
                    = Some z).
    { rewrite clear_captures_nil. cbn [matcher st_after app st_before st_caps].
      rewrite Ha. unfold repeat_again. cbn [st_after].
      replace (length (taken ++ rest) =? length (a :: taken ++ rest)) with false
        by (symmetry; apply Nat.eqb_neq; simpl; lia).
      rewrite andb_false_r. exact Hnext. }
    destruct max as [[|k]|]; [simpl in Hmax; lia| |];
      rewrite Hstep; destruct (negb (min =? 0)); reflexivity.
Qed.

(** The same for [matcher]: the fuel is enough. *)
Lemma matcher_greedy_run (ic ml : bool) (cc : CharClass) (c : Cont) (taken rest : jsstring)
  (before : jsstring) (caps : list (nat * jsstring)) (min : nat) (max : option nat)
  (z : MatchState) :
  match rest with [] => True | d :: _ => cc_match ic cc d = false end ->
  Forall (fun d => cc_match ic cc d = true) taken ->
  min <= length taken ->
  match max with Some k => length taken <= k | None => True end ->
  c (mkState (rev taken ++ before) rest caps) = Some z ->
  matcher ic ml (Rep min max true (Chr cc)) c (mkState before (taken ++ rest) caps) = Some z.
Proof.
  intros Hrest Hrun Hmin Hmax Hz.
  change (RepeatMatcher (matcher ic ml (Chr cc)) [] true c
            (min + length (taken ++ rest) + 1) min max
            (mkState before (taken ++ rest) caps) = Some z).
  apply greedy_run; auto. rewrite length_app. lia.
Qed.

(** The walk over the code units of a match. *)
Lemma replace_scan_skip (St : Type) (re : RegExp) (f : St -> MatchInfo -> St * jsstring) :
  forall p rest before s,
    replace_scan re f before (p ++ rest) (length p) s
    = replace_scan re f (rev p ++ before) rest 0 s.
Proof.
  induction p as [|d p IH]; intros rest before s; [reflexivity|].
  cbn [app length replace_scan rev]. rewrite IH, <- app_assoc. reflexivity.
Qed.

(** A pattern that matches the whole text, from its start: what
    [s.replace] returns, when the pattern does not match the empty string
    at the end. *)
Lemma replace_all_whole (re : RegExp) (tpl : jsstring) (d : N) (rest : jsstring)
  (y : MatchState) :
  match_at re [] (d :: rest) = Some y -> st_after y = [] ->
  match_at re (rev (d :: rest)) [] = None ->
  replace_all re tpl (d :: rest)
  = GetSubstitution (ngroups re) (info_of [] (d :: rest) y) tpl.
Proof.
  intros Hy Hafter Hend. unfold replace_all, replace_all_with.
  assert (Hlen : length (mi_matched (info_of [] (d :: rest) y)) = S (length rest)).
  { cbn [info_of mi_matched]. rewrite Hafter.
    change (length (@nil N)) with 0. rewrite Nat.sub_0_r, firstn_all. reflexivity. }
  cbn [replace_scan]. rewrite Hy, Hlen.
  rewrite <- (app_nil_r rest) at 1. rewrite replace_scan_skip.
  cbn [replace_scan]. cbn [rev] in Hend. rewrite Hend. cbn [snd].
  now rewrite app_nil_r.
Qed.

Lemma matcher_Seq (ic ml : bool) (r1 r2 : regex) (c : Cont) (x : MatchState) :
  matcher ic ml (Seq r1 r2) c x = matcher ic ml r1 (fun y => matcher ic ml r2 c y) x.
Proof. reflexivity. Qed.

Lemma matcher_Group (ic ml : bool) (n : nat) (r : regex) (c : Cont) (x : MatchState) :
  matcher ic ml (Group n r) c x
  = matcher ic ml r
      (fun y => c (set_capture n
                     (firstn (length (st_after x) - length (st_after y)) (st_after x))
                     y))
      x.
Proof. reflexivity. Qed.

Lemma matcher_Alt_l (ic ml : bool) (r1 r2 : regex) (c : Cont) (x z : MatchState) :
  matcher ic ml r1 c x = Some z -> matcher ic ml (Alt r1 r2) c x = Some z.
Proof. intros H. cbn [matcher]. now rewrite H. Qed.

Lemma matcher_Bol (ic ml : bool) (c : Cont) (x : MatchState) :
  at_line_start ml x = true -> matcher ic ml Bol c x = c x.
Proof. intros H. cbn [matcher]. now rewrite H. Qed.

Lemma matcher_Eol (ic ml : bool) (c : Cont) (x : MatchState) :
  at_line_end ml x = true -> matcher ic ml Eol c x = c x.
Proof. intros H. cbn [matcher]. now rewrite H. Qed.

Lemma firstn_run (taken rest : jsstring) :
  firstn (length (taken ++ rest) - length rest) (taken ++ rest) = taken.
Proof.
  rewrite length_app, Nat.add_sub. rewrite firstn_app, Nat.sub_diag, firstn_all.
  simpl. now rewrite app_nil_r.
Qed.

Lemma hyphens_run (n : nat) :
  Forall (fun d => cc_match false (cls (N.eqb 45)) d = true) (hyphens n).
Proof. unfold hyphens. induction n; simpl; constructor; auto. Qed.

Lemma match_hyphens (n : nat) :
  3 <= n ->
  match_at re_rule [] (hyphens n)
  = Some (mkState (rev (hyphens n)) [] [(1, hyphens n)]).
Proof.
  intros Hn. unfold match_at, re_rule.
  cbn [re_body re_ignoreCase re_multiline rseq ralt].
  rewrite matcher_Seq, matcher_Bol by reflexivity.
  rewrite matcher_Seq.
  apply (@matcher_greedy_run false true (cls is_space) _ [] (hyphens n) [] [] 0 None).
  { destruct n; [lia | reflexivity]. }
  { constructor. }
  { simpl. lia. }
  { exact I. }
  cbn [rev app]. rewrite matcher_Seq, matcher_Group.
  apply matcher_Alt_l.
  rewrite <- (app_nil_r (hyphens n)) at 1.
  apply (@matcher_greedy_run false true (cls (N.eqb 45)) _ (hyphens n) [] [] [] 3 None).
  { exact I. }
  { apply hyphens_run. }
  { unfold hyphens. rewrite repeat_length. exact Hn. }
  { exact I. }
  cbn [st_after]. rewrite app_nil_r.
  change (length (@nil N)) with 0. rewrite Nat.sub_0_r, firstn_all.
  rewrite matcher_Seq.
  apply (@matcher_greedy_run false true (cls is_space) _ [] [] _ _ 0 None).
  { exact I. }
  { constructor. }
  { simpl. lia. }
  { exact I. }
  rewrite matcher_Eol by reflexivity. reflexivity.
Qed.

Lemma free_of_hyphens (l : list N) (n : nat) : ~ In 45%N l -> free_of l (hyphens n).
Proof.
  intros H. unfold free_of, hyphens. apply Forall_forall. intros d Hd.
  apply repeat_spec in Hd. now subst.
Qed.

Lemma rev_hyphens (n : nat) : rev (hyphens n) = hyphens n.
Proof.
  unfold hyphens. induction n as [|n IH]; [reflexivity|].
  simpl. rewrite IH. symmetry. apply repeat_cons.
Qed.

Ltac needs_leaf_ws :=
  let d := fresh "d" in
  let H := fresh "H" in
  intros d H; apply cc_match_space in H; exact H.

Ltac needs_tree_ws :=
  lazymatch goal with
  | |- _ /\ _ => split; needs_tree_ws
  | |- _ \/ _ => first [solve [left; needs_tree_ws] | solve [right; needs_tree_ws]]
  | |- _ <> _ => congruence
  | |- forall _, _ -> In _ _ => solve [needs_leaf_ws]
  | |- False => fail
  end.

(** A list line has white space after its marker. *)
Lemma list_line_needs_white_space : needs_re white_space re_list_line.
Proof. unfold needs_re. cbn -[cc_match In white_space]. needs_tree_ws. Qed.

Ltac not_in := cbn; intuition discriminate.

(** X20. A line of three or more hyphens is rendered as a rule: for it
    [convertMarkdownToHTML] returns [<hr>] and nothing else. *)
Theorem line_of_hyphens_is_rendered_as_a_rule (n : nat) :
  3 <= n -> convertMarkdownToHTML (hyphens n) = str "<hr>".
Proof.
  intros Hn. rewrite convertMarkdownToHTML_eq.
  assert (Hnorm : normalizeContent (hyphens n) = hyphens n).
  { unfold normalizeContent, stripQuotes. cbv zeta.
    rewrite (@replace_first_none re_quotes).
    2:{ apply needs_no_match with (l := [DQ; 39; 96]%N);
          [|apply free_of_hyphens; not_in].
        unfold needs_re. cbn -[cc_match In]. right. left.
        intros d Hd. unfold cc_match, is_quote, one_of in Hd.
        cbn [cc_invert cc_set cls existsb] in Hd. rewrite xorb_false_l in Hd.
        repeat (apply orb_true_iff in Hd; destruct Hd as [Hd|Hd]); try discriminate;
          apply N.eqb_eq in Hd; subst d; in_list. }
    rewrite (@replace_all_needs [CR] re_crlf _ (hyphens n))
      by first [apply free_of_hyphens; not_in | solve_needs].
    rewrite (@replace_all_needs [CR] re_cr _ (hyphens n))
      by first [apply free_of_hyphens; not_in | solve_needs].
    apply (@replace_all_needs [32; 9]%N re_trailing);
      [solve_needs | apply free_of_hyphens; not_in]. }
  rewrite Hnorm. unfold protectCodeBlocks.
  rewrite (@replace_scan_needs _ [backtick])
    by first [apply free_of_hyphens; not_in | solve_needs].
  rewrite (@replace_scan_needs _ [backtick])
    by first [apply free_of_hyphens; not_in | solve_needs].
  assert (Hhead : processHeaders (hyphens n) = hyphens n).
  { unfold processHeaders. cbv zeta.
    rewrite (@replace_all_with_needs (str "#") re_atx _ (hyphens n))
      by first [apply free_of_hyphens; not_in | solve_needs].
    rewrite (@replace_all_with_needs (str "#") re_bullet_atx _ (hyphens n))
      by first [apply free_of_hyphens; not_in | solve_needs].
    rewrite (@replace_all_needs [NL] (re_setext "=") _ (hyphens n))
      by first [apply free_of_hyphens; not_in | solve_needs].
    apply (@replace_all_needs [NL] (re_setext "-"));
      [solve_needs | apply free_of_hyphens; not_in]. }
  rewrite Hhead.
  assert (Hfmt : processTextFormatting (hyphens n) = hyphens n).
  { unfold processTextFormatting. cbv zeta.
    assert (H : free_of (DQ :: str "*_~") (hyphens n))
      by (apply free_of_hyphens; not_in).
    inert (DQ :: str "*_~") (hyphens n) H. reflexivity. }
  rewrite Hfmt.
  assert (Hquote : processBlockquotes (hyphens n) = hyphens n).
  { unfold processBlockquotes. cbv zeta.
    assert (H : free_of (str ">") (hyphens n)) by (apply free_of_hyphens; not_in).
    inert (str ">") (hyphens n) H. reflexivity. }
  rewrite Hquote.
  assert (Hlists : processLists (hyphens n) = hyphens n).
  { unfold processLists. cbv zeta.
    assert (Hone : split_on NL (hyphens n) = [hyphens n]).
    { apply split_on_one. intros Hin. unfold hyphens in Hin.
      apply repeat_spec in Hin. discriminate. }
    rewrite Hone, walk_passed_on.
    - reflexivity.
    - intros i. unfold accepted.
      assert (Hline : match_ re_list_line (line_at [hyphens n] i) = None).
      { apply match_none. apply needs_no_match with (l := white_space).
        - apply list_line_needs_white_space.
        - destruct i as [|[|i]]; try constructor.
          apply free_of_hyphens. not_in. }
      now rewrite Hline.
    - simpl. lia. }
  rewrite Hlists.
  assert (Hrule : processHorizontalRules (hyphens n) = str "<hr>").
  { unfold processHorizontalRules.
    destruct n as [|n]; [lia|].
    change (hyphens (S n)) with (45%N :: hyphens n).
    rewrite (@replace_all_whole re_rule _ 45%N (hyphens n)
               (mkState (rev (hyphens (S n))) [] [(1, hyphens (S n))])).
    - reflexivity.
    - now apply (@match_hyphens (S n)).
    - reflexivity.
    - change (45%N :: hyphens n) with (hyphens (S n)). rewrite rev_hyphens.
      reflexivity. }
  rewrite Hrule. reflexivity.
Qed.

Lemma line_of_hyphens_is_rendered_as_a_rule_witness :
  convertMarkdownToHTML (hyphens 5) = str "<hr>".
Proof. apply line_of_hyphens_is_rendered_as_a_rule. lia. Defined.

(** A lazy repetition of a class stops at the first place, after [min]
    code units, where what follows the repetition matches. *)
Lemma lazy_run (ic ml : bool) (cc : CharClass) (c : Cont) (rest : jsstring)
  (caps : list (nat * jsstring)) (z : MatchState) :
  forall taken fuel min before,
    length taken < fuel ->
    Forall (fun d => cc_match ic cc d = true) taken ->
    min <= length taken ->
    (forall p1 p2, taken = p1 ++ p2 -> p2 <> [] -> min <= length p1 ->
                   c (mkState (rev p1 ++ before) (p2 ++ rest) caps) = None) ->
    c (mkState (rev taken ++ before) rest caps) = Some z ->
    RepeatMatcher (matcher ic ml (Chr cc)) [] false c fuel min None
                  (mkState before (taken ++ rest) caps) = Some z.
Proof.
  induction taken as [|a taken IH]; intros fuel min before Hfuel Hrun Hmin Hnone Hz;
    (destruct fuel as [|fuel]; [simpl in Hfuel; lia|]);
    rewrite RepeatMatcher_S; cbv zeta.
  - simpl in Hmin. assert (min = 0) by lia. subst min.
    simpl in Hz. cbn [app Nat.eqb negb]. now rewrite Hz.
  - pose proof (Forall_inv Hrun) as Ha.
    assert (Hnext : RepeatMatcher (matcher ic ml (Chr cc)) [] false c fuel
                      (pred min) None
                      (mkState (a :: before) (taken ++ rest) caps) = Some z).
    { apply IH.
      - simpl in Hfuel. lia.
      - now apply Forall_inv_tail in Hrun.
      - simpl in Hmin. lia.
      - intros p1 p2 -> Hp2 Hlen.
        specialize (Hnone (a :: p1) p2 eq_refl Hp2). simpl in Hnone.
        rewrite <- app_assoc in Hnone. apply Hnone. lia.
      - simpl in Hz. now rewrite <- app_assoc in Hz. }
    assert (Hstep : matcher ic ml (Chr cc)
                      (repeat_again (matcher ic ml (Chr cc)) [] false c fuel min None
                         (mkState before ((a :: taken) ++ rest) caps))
                      (clear_captures [] (mkState before ((a :: taken) ++ rest) caps))
                    = Some z).
    { rewrite clear_captures_nil. cbn [matcher st_after app st_before st_caps].
      rewrite Ha. unfold repeat_again. cbn [st_after].
      replace (length (taken ++ rest) =? length (a :: taken ++ rest)) with false
        by (symmetry; apply Nat.eqb_neq; simpl; lia).
      rewrite andb_false_r. exact Hnext. }
    rewrite Hstep. destruct (Nat.eqb_spec min 0) as [->|Hne]; [|reflexivity].
    cbn [negb].
    pose proof (Hnone [] (a :: taken) eq_refl ltac:(discriminate) ltac:(simpl; lia))
      as H0.
    cbn [rev app] in H0 |- *. rewrite H0. reflexivity.
Qed.

Lemma matcher_lazy_run (ic ml : bool) (cc : CharClass) (c : Cont) (taken rest : jsstring)
  (before : jsstring) (caps : list (nat * jsstring)) (min : nat) (z : MatchState) :
  Forall (fun d => cc_match ic cc d = true) taken ->
  min <= length taken ->
  (forall p1 p2, taken = p1 ++ p2 -> p2 <> [] -> min <= length p1 ->
                 c (mkState (rev p1 ++ before) (p2 ++ rest) caps) = None) ->
  c (mkState (rev taken ++ before) rest caps) = Some z ->
  matcher ic ml (Rep min None false (Chr cc)) c (mkState before (taken ++ rest) caps)
  = Some z.
Proof.
  intros Hrun Hmin Hnone Hz.
  change (RepeatMatcher (matcher ic ml (Chr cc)) [] false c
            (min + length (taken ++ rest) + 1) min None
            (mkState before (taken ++ rest) caps) = Some z).
  apply lazy_run; auto. rewrite length_app. lia.
Qed.

Lemma matcher_lazy_run_end (ic ml : bool) (cc : CharClass) (c : Cont) (taken : jsstring)
  (before : jsstring) (caps : list (nat * jsstring)) (min : nat) (z : MatchState) :
  Forall (fun d => cc_match ic cc d = true) taken ->
  min <= length taken ->
  (forall p1 p2, taken = p1 ++ p2 -> p2 <> [] -> min <= length p1 ->
                 c (mkState (rev p1 ++ before) p2 caps) = None) ->
  c (mkState (rev taken ++ before) [] caps) = Some z ->
  matcher ic ml (Rep min None false (Chr cc)) c (mkState before taken caps) = Some z.
Proof.
  intros Hrun Hmin Hnone Hz. rewrite <- (app_nil_r taken) at 1.
  apply matcher_lazy_run; auto.
  intros p1 p2 Hsplit Hp2 Hlen. rewrite app_nil_r. now apply Hnone.
Qed.

Lemma matcher_greedy_run_end (ic ml : bool) (cc : CharClass) (c : Cont) (taken : jsstring)
  (before : jsstring) (caps : list (nat * jsstring)) (min : nat) (max : option nat)
  (z : MatchState) :
  Forall (fun d => cc_match ic cc d = true) taken ->
  min <= length taken ->
  match max with Some k => length taken <= k | None => True end ->
  c (mkState (rev taken ++ before) [] caps) = Some z ->
  matcher ic ml (Rep min max true (Chr cc)) c (mkState before taken caps) = Some z.
Proof.
  intros Hrun Hmin Hmax Hz. rewrite <- (app_nil_r taken) at 1.
  apply matcher_greedy_run; auto.
Qed.

(** ** Headings *)

(** What can follow the title of a heading: white space, number signs,
    white space, and the end of the line. *)
Lemma atx_tail_shape (c : Cont) (x z : MatchState) :
  matcher false true (rseq [star ws; star (lit "#"); star ws; Eol]) c x = Some z ->
  exists a1 a2 a3 r,
    st_after x = a1 ++ a2 ++ a3 ++ r
    /\ Forall (fun d => is_space d = true) a1
    /\ Forall (fun d => d = 35%N) a2
    /\ Forall (fun d => is_space d = true) a3
    /\ match r with [] => True | d :: _ => is_line_terminator d = true end.
Proof.
  intros H. apply matcher_steps in H. destruct H as (y & H & _).
  cbn [rseq] in H.
  apply steps_Seq_inv in H. destruct H as (y1 & H1 & H).
  apply steps_Seq_inv in H. destruct H as (y2 & H2 & H).
  apply steps_Seq_inv in H. destruct H as (y3 & H3 & H).
  apply steps_Eol_inv in H. destruct H as [-> Hend].
  eapply steps_class_run in H1; [|reflexivity]. destruct H1 as (a1 & E1 & F1).
  eapply steps_class_run in H2; [|reflexivity]. destruct H2 as (a2 & E2 & F2).
  eapply steps_class_run in H3; [|reflexivity]. destruct H3 as (a3 & E3 & F3).
  exists a1, a2, a3, (st_after y3). rewrite E1, E2, E3.
  split; [reflexivity|].
  split; [eapply Forall_impl; [|exact F1]; intros d Hd; cbv beta in Hd;
          now rewrite cc_match_cls in Hd|].
  split; [eapply Forall_impl; [|exact F2]; intros d Hd; cbv beta in Hd;
          rewrite cc_match_cls in Hd; apply N.eqb_eq in Hd; now symmetry|].
  split; [eapply Forall_impl; [|exact F3]; intros d Hd; cbv beta in Hd;
          now rewrite cc_match_cls in Hd|].
  unfold at_line_end in Hend. destruct (st_after y3); [exact I | exact Hend].
Qed.

Lemma atx_tail_none (title p1 p2 : jsstring) (c : Cont) (x : MatchState) :
  trim title = title -> free_of (35%N :: line_terminators) title ->
  title = p1 ++ p2 -> p2 <> [] -> st_after x = p2 ->
  matcher false true (rseq [star ws; star (lit "#"); star ws; Eol]) c x = None.
Proof.
  intros Htrim Hfree Htitle Hp2 Hx.
  destruct (matcher _ _ _ c x) as [z|] eqn:E; [exfalso|reflexivity].
  apply atx_tail_shape in E.
  destruct E as (a1 & a2 & a3 & r & Eafter & F1 & F2 & F3 & Hr).
  rewrite Eafter in Hx. subst p2.
  unfold free_of in Hfree. rewrite Forall_forall in Hfree.
  destruct r as [|d r].
  - destruct a3 as [|d3 a3].
    + destruct a2 as [|d2 a2].
      * cbn [app] in Htitle, Hp2. rewrite app_nil_r in Htitle, Hp2.
        exact (@trimmed_last title p1 a1 Htrim Htitle Hp2 F1).
      * apply (Hfree d2).
        -- rewrite Htitle. apply in_or_app. right. apply in_or_app. right. now left.
        -- apply Forall_inv in F2. subst d2. now left.
    + rewrite app_nil_r in Htitle.
      apply (@trimmed_last title (p1 ++ a1 ++ a2) (d3 :: a3)); auto.
      * now rewrite Htitle, <- !app_assoc.
      * discriminate.
  - apply (Hfree d).
    + rewrite Htitle. repeat (apply in_or_app; right). now left.
    + right. unfold is_line_terminator, one_of in Hr. apply existsb_exists in Hr.
      destruct Hr as (k & Hk & Heq). apply N.eqb_eq in Heq. now subst.
Qed.

Lemma match_atx (n : nat) (title : jsstring) :
  1 <= n <= 6 -> title <> [] -> trim title = title ->
  free_of (35%N :: line_terminators) title ->
  match_at re_atx [] (atx n title)
  = Some (mkState (rev (atx n title)) [] [(2, title); (1, repeat 35%N n)]).
Proof.
  intros Hn Hne Htrim Hfree.
  destruct (trimmed_head Hne Htrim) as (c0 & t0 & Etitle & Hc0).
  unfold match_at, re_atx, atx.
  cbn [re_body re_ignoreCase re_multiline rseq].
  rewrite matcher_Seq, matcher_Bol by reflexivity.
  rewrite matcher_Seq.
  apply (@matcher_greedy_run false true (cls is_space) _ []
           (repeat 35%N n ++ 32%N :: title) [] [] 0 None).
  { destruct n; [lia | reflexivity]. }
  { constructor. }
  { simpl. lia. }
  { exact I. }
  cbn [rev app]. rewrite matcher_Seq, matcher_Group.
  apply (@matcher_greedy_run false true (cls (N.eqb 35)) _ (repeat 35%N n)
           (32%N :: title) [] [] 1 (Some 6)).
  { reflexivity. }
  { apply Forall_forall. intros d Hd. apply repeat_spec in Hd. now subst. }
  { rewrite repeat_length. lia. }
  { rewrite repeat_length. lia. }
  cbn [set_capture st_before st_after st_caps]. rewrite firstn_run, app_nil_r.
  rewrite matcher_Seq.
  apply (@matcher_greedy_run false true (cls is_space) _ [32%N] title _ _ 0 None).
  { rewrite Etitle. now rewrite cc_match_cls. }
  { repeat constructor. }
  { simpl. lia. }
  { exact I. }
  rewrite matcher_Seq, matcher_Group.
  cbn [set_capture st_before st_after st_caps].
  apply (@matcher_lazy_run_end false true (ncls is_line_terminator) _ title _ _ 1).
  { apply Forall_forall. intros d Hd. unfold cc_match. cbn [cc_invert cc_set ncls].
    destruct (is_line_terminator d) eqn:E; [exfalso|reflexivity].
    unfold free_of in Hfree. rewrite Forall_forall in Hfree. apply (Hfree d Hd).
    right. unfold is_line_terminator, one_of in E. apply existsb_exists in E.
    destruct E as (k & Hk & Heq). apply N.eqb_eq in Heq. now subst. }
  { rewrite Etitle. simpl. lia. }
  { intros p1 p2 Hsplit Hp2 _.
    apply (@atx_tail_none title p1 p2); auto. }
  cbn [set_capture st_before st_after st_caps].
  change (length (@nil N)) with 0. rewrite Nat.sub_0_r, firstn_all.
  rewrite matcher_Seq.
  apply (@matcher_greedy_run_end false true (cls is_space) _ [] _ _ 0 None);
    [constructor | simpl; lia | exact I |].
  rewrite matcher_Seq.
  apply (@matcher_greedy_run_end false true (cls (N.eqb 35)) _ [] _ _ 0 None);
    [constructor | simpl; lia | exact I |].
  rewrite matcher_Seq.
  apply (@matcher_greedy_run_end false true (cls is_space) _ [] _ _ 0 None);
    [constructor | simpl; lia | exact I |].
  rewrite matcher_Eol by reflexivity.
  cbn [rev app]. rewrite !rev_app_distr. cbn [rev app].
  rewrite <- !app_assoc. reflexivity.
Qed.

(** ** Patterns tied to the start of a line *)

Lemma no_match_from_tail (re : RegExp) (before : jsstring) (d : N) (s : jsstring) :
  no_match_from re before (d :: s) -> no_match_from re (d :: before) s.
Proof.
  intros H p after ->. specialize (H (d :: p) after eq_refl).
  cbn [rev] in H. now rewrite <- app_assoc in H.
Qed.

Lemma no_match_from_any (re : RegExp) (before s : jsstring) :
  no_match re s -> no_match_from re before s.
Proof. intros H p after ->. apply H. now exists p. Qed.

Lemma search_none_from (re : RegExp) (s : jsstring) :
  forall before, no_match_from re before s -> search re before s = None.
Proof.
  induction s as [|d rest IH]; intros before H; rewrite search_eq;
    pose proof (H [] _ eq_refl) as H0; cbn [rev app] in H0; rewrite H0;
    [reflexivity|].
  apply IH. now apply no_match_from_tail.
Qed.

Lemma replace_scan_none_from (St : Type) (re : RegExp)
  (f : St -> MatchInfo -> St * jsstring) (s : jsstring) :
  forall before st,
    no_match_from re before s -> replace_scan re f before s 0 st = (st, s).
Proof.
  induction s as [|d rest IH]; intros before st H; cbn [replace_scan];
    pose proof (H [] _ eq_refl) as H0; cbn [rev app] in H0; rewrite H0;
    [reflexivity|].
  rewrite IH; [reflexivity|]. now apply no_match_from_tail.
Qed.

Lemma replace_all_none_from (re : RegExp) (tpl s : jsstring) :
  no_match_from re [] s -> replace_all re tpl s = s.
Proof.
  intros H. unfold replace_all, replace_all_with. now rewrite replace_scan_none_from.
Qed.

Lemma replace_all_with_none_from (re : RegExp) (f : MatchInfo -> jsstring) (s : jsstring) :
  no_match_from re [] s -> replace_all_with re f s = s.
Proof. intros H. unfold replace_all_with. now rewrite replace_scan_none_from. Qed.

Lemma match_none_from (re : RegExp) (s : jsstring) :
  no_match_from re [] s -> match_ re s = None.
Proof. intros H. unfold match_. now apply search_none_from. Qed.

(** A pattern that starts with [^] can only match at the start of a text
    without line terminators. *)
Lemma no_match_anchored (re : RegExp) (r : regex) (s : jsstring) :
  re_body re = Seq Bol r ->
  Forall (fun d => is_line_terminator d = false) s ->
  match_at re [] s = None ->
  no_match_from re [] s.
Proof.
  intros Hbody Hs Hstart p after ->.
  destruct (rev p) as [|d t] eqn:E.
  - apply (f_equal (@rev N)) in E. rewrite rev_involutive in E. subst p. exact Hstart.
  - unfold match_at. rewrite Hbody, matcher_Seq. cbn [matcher at_line_start st_before app].
    assert (Hd : is_line_terminator d = false).
    { rewrite Forall_forall in Hs. apply Hs. apply in_or_app. left.
      apply in_rev. rewrite E. now left. }
    rewrite Hd, andb_false_r. reflexivity.
Qed.

(** ** The first code unit of a match *)

Lemma steps_opens (ic ml : bool) (P : N -> Prop) (r : regex) (x y : MatchState) :
  steps ic ml r x y ->
  forall strict, opens strict ic P r ->
    (strict = false /\ st_after y = st_after x)
    \/ exists d rest, st_after x = d :: rest /\ P d.
Proof.
  induction 1 as [x|cc d rest before caps Hd|r1 r2 x y z H1 IH1 H2 IH2
                  |r1 r2 x y H1 IH1|r1 r2 x y H2 IH2
                  |min max greedy r x Hmin|min max max' greedy r x y z H1 IH1 H2 IH2
                  |k r x y H1 IH1|k x Hk|k x s b a Hk Hbr|x Hx|x Hx|x Hx|cc x Hx|cc x Hx];
    intros strict Ho; cbn [opens] in Ho;
    try (destruct strict; [contradiction | now left]); try contradiction.
  - right. exists d, rest. split; [reflexivity | now apply Ho].
  - destruct strict.
    + destruct Ho as [Ho|[Ho1 Ho2]].
      * destruct (IH1 _ Ho) as [[Hs _]|Hr]; [discriminate | now right].
      * destruct (IH1 _ Ho1) as [[_ E1]|Hr]; [|now right].
        destruct (IH2 _ Ho2) as [[Hs _]|Hr]; [discriminate|].
        right. now rewrite <- E1.
    + destruct Ho as [Ho1 Ho2].
      destruct (IH1 _ Ho1) as [[_ E1]|Hr]; [|now right].
      destruct (IH2 _ Ho2) as [[_ E2]|Hr].
      * left. split; [reflexivity | congruence].
      * right. now rewrite <- E1.
  - apply IH1, Ho.
  - apply IH2, Ho.
  - destruct strict; [|now left].
    destruct Ho as (Hmin' & Hmax & _). destruct Hmin; congruence.
  - destruct strict.
    + destruct Ho as (_ & _ & Ho).
      destruct (IH1 _ Ho) as [[Hs _]|Hr]; [discriminate|]. now right.
    + destruct (IH1 _ Ho) as [[_ E1]|Hr]; [|now right].
      cbn [clear_captures st_after] in E1.
      destruct (IH2 false Ho) as [[_ E2]|Hr].
      * left. split; [reflexivity|]. now rewrite E2, E1.
      * right. now rewrite <- E1.
  - destruct (IH1 _ Ho) as [[Hs E1]|Hr]; [left|now right]. now split.
Qed.

Lemma match_at_opens (P : N -> Prop) (re : RegExp) (before after : jsstring) :
  opens true (re_ignoreCase re) P (re_body re) ->
  match after with [] => True | d :: _ => ~ P d end ->
  match_at re before after = None.
Proof.
  intros Ho Hhead.
  destruct (match_at re before after) as [z|] eqn:E; [exfalso|reflexivity].
  unfold match_at in E. apply matcher_steps in E. destruct E as (y & Hsteps & _).
  destruct (@steps_opens _ _ P _ _ _ Hsteps true Ho) as [[Hs _]|(d & rest & Hd & HP)];
    [discriminate|].
  cbn [st_after] in Hd. subst after. now apply Hhead.
Qed.

(** A class none of whose members is the given code unit. *)
Ltac opens_leaf :=
  let d := fresh "d" in
  let H := fresh "H" in
  let E := fresh "E" in
  intros d H E; subst d; vm_compute in H; discriminate H.

Ltac opens_tree :=
  lazymatch goal with
  | |- _ /\ _ => split; opens_tree
  | |- _ \/ _ => first [solve [left; opens_tree] | solve [right; opens_tree]]
  | |- True => exact I
  | |- False => fail
  | |- _ <> _ => congruence
  | |- forall _, _ -> _ => solve [opens_leaf]
  end.

Ltac solve_opens := cbn -[cc_match]; opens_tree.

Lemma no_match_free (l : list N) (re : RegExp) (s : jsstring) :
  begins_re l re -> free_of l s -> no_match re s.
Proof.
  intros Hb Hs. rewrite <- (app_nil_r s). apply no_match_before with (l := l); auto.
  apply no_match_nil. intros before. apply match_at_begins with (l := l); [exact Hb|exact I].
Qed.

(** An element of plain text between two tags: a pattern that begins with
    [<] can only match at one of the tags. *)
Lemma no_match_wrapped (re : RegExp) (open close text : jsstring) :
  begins_re [60%N] re ->
  free_of [60%N] open -> free_of [60%N] text -> free_of [60%N] close ->
  (forall before, match_at re before (60%N :: open ++ text ++ 60%N :: close) = None) ->
  (forall before, match_at re before (60%N :: close) = None) ->
  no_match re (60%N :: open ++ text ++ 60%N :: close).
Proof.
  intros Hb Hopen Htext Hclose Hstart Hend.
  apply no_match_cons; [exact Hstart|].
  apply no_match_before with (l := [60%N]); [exact Hb| |exact Hopen].
  apply no_match_before with (l := [60%N]); [exact Hb| |exact Htext].
  apply no_match_cons; [exact Hend|].
  now apply no_match_free with (l := [60%N]).
Qed.

Lemma unique_occurrence (d : N) (pre suf : jsstring) :
  ~ In d pre -> ~ In d suf ->
  forall a b, pre ++ d :: suf = a ++ d :: b -> a = pre /\ b = suf.
Proof.
  intros Hpre Hsuf. induction pre as [|p pre IH]; intros a b E.
  - destruct a as [|x a]; simpl in E.
    + injection E as <-. now split.
    + injection E as <- E. exfalso. apply Hsuf. rewrite E.
      apply in_or_app. right. now left.
  - destruct a as [|x a]; simpl in E.
    + injection E as <- _. exfalso. apply Hpre. now left.
    + injection E as <- E. destruct (IH (fun H => Hpre (or_intror H)) a b E) as [-> ->].
      now split.
Qed.

Lemma steps_lt_inv (ml : bool) (x y : MatchState) :
  steps true ml (Chr (cls (N.eqb 60))) x y -> st_after x = 60%N :: st_after y.
Proof.
  intros H. apply steps_Chr_inv in H. destruct H as (d & Hd & Hcc).
  apply cc_match_ic_exact in Hcc; [now subst | reflexivity].
Qed.

Lemma steps_Chr_len (ic ml : bool) (cc : CharClass) (x y : MatchState) :
  steps ic ml (Chr cc) x y -> exists d, st_after x = d :: st_after y.
Proof. intros H. apply steps_Chr_inv in H. destruct H as (d & Hd & _). now exists d. Qed.

Ltac peel H y H1 :=
  apply steps_Seq_inv in H; destruct H as (y & H1 & H).

Lemma cc_match_ic_h (d : N) :
  cc_match true (cls (N.eqb 104)) d = true -> d = 104%N \/ d = 72%N.
Proof.
  unfold cc_match, to_upper, to_lower, is_upper, is_lower, in_range.
  cbn [cc_invert cc_set cls]. rewrite xorb_false_l. intros H.
  repeat (apply orb_true_iff in H; destruct H as [H|H]); apply N.eqb_eq in H.
  - now left.
  - destruct (97 <=? d)%N eqn:E1; destruct (d <=? 122)%N eqn:E2; simpl in H;
      try (now left).
    apply N.leb_le in E1, E2. lia.
  - destruct (65 <=? d)%N eqn:E1; destruct (d <=? 90)%N eqn:E2; simpl in H;
      try (now left).
    right. lia.
Qed.

(** What the pattern that splits a heading from the text after it matches:
    after white space an opening tag [<h], and further on a second [<]
    with at least five code units after it. *)
Lemma header_with_text_shape (s : jsstring) (z : MatchState) :
  match_at re_header_with_text [] s = Some z ->
  exists ws0 A B,
    s = ws0 ++ 60%N :: A ++ 60%N :: B
    /\ Forall (fun d => is_space d = true) ws0
    /\ 5 <= length B
    /\ match A with d2 :: _ => d2 = 104%N \/ d2 = 72%N | [] => False end.
Proof.
  intros H. unfold match_at in H. apply matcher_steps in H.
  destruct H as (y & H & _).
  cbn [re_header_with_text re_body re_ignoreCase re_multiline rseq lit map str
       list_ascii_of_string] in H.
  peel H y0 Hbol. apply steps_Bol_inv in Hbol. subst y0.
  peel H y1 HG. apply steps_Group_inv in HG. destruct HG as (g9 & HG & Ey1).
  peel H y2 Hws. eapply steps_class_run in Hws; [|reflexivity].
  destruct Hws as (w & Ew & _).
  peel H y3 HG2. apply steps_Group_inv in HG2. destruct HG2 as (y3' & Hplus & _).
  assert (Hone : exists d rest, st_after y2 = d :: rest).
  { destruct (@steps_opens _ _ (fun _ => True) _ _ _ Hplus true) as [[Hs _]|Hr].
    - cbn. repeat split; congruence.
    - discriminate.
    - destruct Hr as (d & rest & Hd & _). now exists d, rest. }
  destruct Hone as (k & rest & Ek).
  assert (E1 : st_after y1 = st_after g9) by now subst y1.
  peel HG g0 Hws0. eapply steps_class_run in Hws0; [|reflexivity].
  destruct Hws0 as (ws0 & Ews0 & Fws0).
  peel HG g2 Hlit1. peel Hlit1 g1 Hlt1.
  apply steps_lt_inv in Hlt1. apply steps_Chr_inv in Hlit1.
  destruct Hlit1 as (d2 & Ed2 & Hd2). apply cc_match_ic_h in Hd2.
  peel HG g3 Hdg. apply steps_Chr_len in Hdg. destruct Hdg as (dg & Edg).
  peel HG g4 Hnn. eapply steps_class_run in Hnn; [|reflexivity].
  destruct Hnn as (nn & Enn & _).
  peel HG g5 Hgt. apply steps_Chr_len in Hgt. destruct Hgt as (d3 & Ed3).
  peel HG g6 Hany. eapply steps_class_run in Hany; [|reflexivity].
  destruct Hany as (ar & Ear & _).
  peel HG g8 Hlit2. peel Hlit2 g7 Hlt2. apply steps_lt_inv in Hlt2.
  peel Hlit2 g7' Hslash. apply steps_Chr_len in Hslash. destruct Hslash as (e2 & Ee2).
  apply steps_Chr_len in Hlit2. destruct Hlit2 as (e3 & Ee3).
  peel HG g8' Hdg2. apply steps_Chr_len in Hdg2. destruct Hdg2 as (dg2 & Edg2).
  apply steps_Chr_len in HG. destruct HG as (e4 & Ee4).
  cbn [st_after] in Ews0.
  exists ws0, (d2 :: dg :: nn ++ d3 :: ar),
    (e2 :: e3 :: dg2 :: e4 :: w ++ k :: rest).
  split; [|split; [|split]].
  - rewrite Ews0, Hlt1, Ed2, Edg, Enn, Ed3, Ear, Hlt2, Ee2, Ee3, Edg2, Ee4, <- E1, Ew, Ek.
    cbn [app]. rewrite <- !app_assoc. reflexivity.
  - eapply Forall_impl; [|exact Fws0]. intros d Hd. cbv beta in Hd.
    apply cc_match_space in Hd. now apply is_space_In.
  - cbn [length]. rewrite length_app. cbn [length]. lia.
  - exact Hd2.
Qed.

(** ** Elements on a line of their own *)

Ltac sub_free H :=
  eapply free_of_incl; [|exact H];
  let d := fresh "d" in
  let Hd := fresh "Hd" in
  intros d Hd; cbn in Hd;
  repeat (destruct Hd as [Hd|Hd]; [subst d; in_list|]); contradiction.

Lemma free_of_not_terminator (s : jsstring) :
  free_of line_terminators s -> Forall (fun d => is_line_terminator d = false) s.
Proof.
  intros H. eapply Forall_impl; [|exact H]. intros d Hd.
  destruct (is_line_terminator d) eqn:E; [exfalso|reflexivity].
  apply Hd. unfold is_line_terminator, one_of in E. apply existsb_exists in E.
  destruct E as (k & Hk & Heq). apply N.eqb_eq in Heq. now subst.
Qed.

Lemma free_of_one_line (s : jsstring) : free_of line_terminators s -> ~ In NL s.
Proof.
  intros H Hin. unfold free_of in H. rewrite Forall_forall in H.
  apply (H _ Hin). now left.
Qed.

Lemma same_with_whole (re : RegExp) (f : MatchInfo -> jsstring) (d : N) (rest : jsstring)
  (y : MatchState) :
  match_at re [] (d :: rest) = Some y -> st_after y = [] ->
  match_at re (rev (d :: rest)) [] = None ->
  replace_all_with re f (d :: rest) = f (info_of [] (d :: rest) y).
Proof.
  intros Hy Hafter Hend. unfold replace_all_with.
  assert (Hlen : length (mi_matched (info_of [] (d :: rest) y)) = S (length rest)).
  { cbn [info_of mi_matched]. rewrite Hafter.
    change (length (@nil N)) with 0. rewrite Nat.sub_0_r, firstn_all. reflexivity. }
  cbn [replace_scan]. rewrite Hy, Hlen.
  rewrite <- (app_nil_r rest) at 1. rewrite replace_scan_skip.
  cbn [replace_scan]. cbn [rev] in Hend. rewrite Hend. cbn [snd].
  now rewrite app_nil_r.
Qed.

(** A line that starts with [<] is not a list line: [processLists] leaves
    a text that is this one line as it is. *)
Lemma processLists_tag_line (rest : jsstring) :
  free_of line_terminators (60%N :: rest) ->
  processLists (60%N :: rest) = 60%N :: rest.
Proof.
  intros H. unfold processLists. cbv zeta.
  rewrite split_on_one by now apply free_of_one_line.
  rewrite walk_passed_on.
  - reflexivity.
  - intros [|i]; unfold accepted.
    + cbn [line_at nth]. rewrite match_none_from; [reflexivity|].
      apply no_match_anchored with (r := rseq [Group 1 (star ws);
                                               Group 2 (ralt (marker_basic ++ marker_roman));
                                               plus ws;
                                               opt (Group 3 (rseq [lit "["; ch " x"; lit "]";
                                                                    plus ws]));
                                               Group 4 (star dot); Eol]).
      * reflexivity.
      * now apply free_of_not_terminator.
      * apply match_at_opens with (P := fun d => d <> 60%N).
        -- solve_opens.
        -- intros E. now apply E.
    + rewrite line_at_beyond by (simpl; lia). reflexivity.
  - simpl. lia.
Qed.

(** [/^\s*>\s*(.+)$/gm] finds nothing in a line that starts with [<]. *)
Lemma no_quote_line (rest : jsstring) :
  free_of line_terminators (60%N :: rest) ->
  no_match_from re_quote_line [] (60%N :: rest).
Proof.
  intros H.
  apply no_match_anchored
    with (r := rseq [star ws; lit ">"; star ws; Group 1 (plus dot); Eol]).
  - reflexivity.
  - now apply free_of_not_terminator.
  - apply match_at_opens with (P := fun d => d <> 60%N).
    + solve_opens.
    + intros E. now apply E.
Qed.

Ltac six n := destruct n as [|[|[|[|[|[|[|n]]]]]]]; try lia.

Lemma free_of_atx (l : list N) (n : nat) (title : jsstring) :
  ~ In 35%N l -> ~ In 32%N l -> free_of l title -> free_of l (atx n title).
Proof.
  intros H35 H32 Ht. unfold atx. apply Forall_app. split.
  - apply Forall_forall. intros d Hd. apply repeat_spec in Hd. now subst.
  - now constructor.
Qed.

Lemma free_of_heading (l : list N) (n : nat) (title : jsstring) :
  1 <= n <= 6 -> free_of l (str "<h/>123456") -> free_of l title ->
  free_of l (heading n title).
Proof.
  intros Hn Htag Ht. unfold free_of in Htag. rewrite Forall_forall in Htag.
  six n; unfold heading;
    repeat (apply Forall_app; split); try exact Ht;
    repeat constructor; apply Htag; cbn; tauto.
Qed.

Lemma trimmed_rev (s : jsstring) :
  s <> [] -> trim s = s -> exists c t, rev s = c :: t /\ is_space c = false.
Proof.
  intros Hne H. destruct (trim_fixed H) as [_ Hr].
  pose proof (trim_start_head (rev s)) as Hh. rewrite Hr in Hh.
  destruct (rev s) as [|c t] eqn:E.
  - apply (f_equal (@rev N)) in E. rewrite rev_involutive in E. now subst.
  - now exists c, t.
Qed.

Lemma trim_atx (n : nat) (title : jsstring) :
  1 <= n -> title <> [] -> trim title = title -> trim (atx n title) = atx n title.
Proof.
  intros Hn Hne Htrim. apply trim_ends.
  - destruct n; [lia | reflexivity].
  - destruct (trimmed_rev Hne Htrim) as (c & t & E & Hc).
    unfold atx. rewrite rev_app_distr. cbn [rev]. rewrite E.
    cbn [app]. apply trim_start_fixed. exact Hc.
Qed.

Lemma processHeaders_atx (n : nat) (title : jsstring) :
  1 <= n <= 6 -> title <> [] -> trim title = title ->
  free_of (35%N :: NL :: line_terminators) title ->
  processHeaders (atx n title) = heading n title.
Proof.
  intros Hn Hne Htrim Hfree.
  assert (Hfree' : free_of (35%N :: line_terminators) title) by sub_free Hfree.
  assert (Hh : free_of [35%N] (heading n title)).
  { apply free_of_heading; [exact Hn | repeat constructor; not_in | sub_free Hfree]. }
  assert (Hnl : free_of [NL] (heading n title)).
  { apply free_of_heading; [exact Hn | repeat constructor; not_in | sub_free Hfree]. }
  unfold processHeaders. cbv zeta.
  assert (Hfirst : replace_all_with re_atx header_of (atx n title) = heading n title).
  { pose proof (match_atx Hn Hne Htrim Hfree') as Hm.
    assert (Hcons : exists rest, atx n title = 35%N :: rest)
      by (destruct n; [lia | now eexists]).
    destruct Hcons as (rest & Erest). rewrite Erest in *.
    rewrite (@same_with_whole re_atx header_of _ _ _ Hm); [| reflexivity |].
    - unfold header_of, cap, info_of. cbn [mi_caps st_caps get_capture Nat.eqb].
      rewrite repeat_length, Htrim. reflexivity.
    - rewrite <- Erest.
      destruct (trimmed_rev Hne Htrim) as (c & t & E & Hc).
      unfold atx. rewrite rev_app_distr. cbn [rev]. rewrite E. cbn [app].
      unfold match_at, re_atx. cbn [re_body re_ignoreCase re_multiline rseq].
      rewrite matcher_Seq. cbn [matcher at_line_start st_before].
      assert (Hterm : is_line_terminator c = false).
      { assert (Hin : In c title) by (apply in_rev; rewrite E; now left).
        assert (Hlt : free_of line_terminators title) by sub_free Hfree.
        apply free_of_not_terminator in Hlt. rewrite Forall_forall in Hlt. auto. }
      now rewrite Hterm. }
  rewrite Hfirst.
  rewrite (@replace_all_with_needs [35%N] re_bullet_atx _ (heading n title))
    by first [exact Hh | solve_needs].
  rewrite (@replace_all_needs [NL] (re_setext "=") _ (heading n title))
    by first [exact Hnl | solve_needs].
  apply (@replace_all_needs [NL] (re_setext "-")); [solve_needs | exact Hnl].
Qed.

Lemma heading_digit (n : nat) (title : jsstring) :
  1 <= n <= 6 ->
  exists d, In d level_digits /\ heading n title = heading_of_digit d title.
Proof.
  intros Hn. six n; eexists; (split; [|unfold heading, heading_of_digit;
                                       cbn [nat_to_string str map list_ascii_of_string app];
                                       rewrite <- ?app_assoc; reflexivity]);
    unfold level_digits; in_list.
Qed.

Lemma free_of_heading_of_digit (l : list N) (d : N) (title : jsstring) :
  In d level_digits -> free_of l (str "<h/>123456") -> free_of l title ->
  free_of l (heading_of_digit d title).
Proof.
  intros Hd Htag Ht. unfold free_of in Htag. rewrite Forall_forall in Htag.
  unfold level_digits in Hd.
  repeat (destruct Hd as [<-|Hd];
          [unfold heading_of_digit; constructor; [apply Htag; cbn; tauto|];
           repeat (apply Forall_app; split); try exact Ht;
           repeat constructor; apply Htag; cbn; tauto|]).
  contradiction.
Qed.

Lemma tag_patterns_begin : Forall (begins_re [60%N]) tag_patterns.
Proof.
  unfold tag_patterns. repeat (apply Forall_cons; [solve_begins|]). apply Forall_nil.
Qed.

(** None of them matches at the start of a heading or at its closing
    tag. *)
Lemma tag_patterns_heading (d : N) (title : jsstring) :
  In d level_digits ->
  Forall (fun re =>
            forall before,
              match_at re before (heading_of_digit d title) = None
              /\ match_at re before (60%N :: [47; 104; d; 62]%N) = None)
         tag_patterns.
Proof.
  intros Hd. unfold level_digits in Hd.
  repeat (destruct Hd as [<-|Hd];
          [unfold tag_patterns;
           repeat (apply Forall_cons; [intros before; split; reflexivity|]);
           apply Forall_nil|]).
  contradiction.
Qed.

Lemma no_tag_pattern_heading (re : RegExp) (d : N) (title : jsstring) :
  In re tag_patterns -> In d level_digits -> free_of [60%N] title ->
  no_match re (heading_of_digit d title).
Proof.
  intros Hre Hd Ht.
  pose proof tag_patterns_begin as Hb. rewrite Forall_forall in Hb.
  pose proof (tag_patterns_heading title Hd) as He. rewrite Forall_forall in He.
  unfold heading_of_digit.
  apply no_match_wrapped; auto.
  - unfold level_digits in Hd.
    repeat (destruct Hd as [<-|Hd]; [repeat constructor; not_in|]). contradiction.
  - unfold level_digits in Hd.
    repeat (destruct Hd as [<-|Hd]; [repeat constructor; not_in|]). contradiction.
  - intros before. apply (He re Hre before).
  - intros before. apply (He re Hre before).
Qed.

Lemma trim_heading_of_digit (d : N) (title : jsstring) :
  trim (heading_of_digit d title) = heading_of_digit d title.
Proof.
  apply trim_ends; [reflexivity|].
  unfold heading_of_digit.
  change (60%N :: [104; d; 62]%N ++ title ++ 60%N :: [47; 104; d; 62]%N)
    with ((60%N :: [104; d; 62]%N) ++ title ++ 60%N :: [47; 104; d; 62]%N).
  rewrite !rev_app_distr. reflexivity.
Qed.

Lemma block_start_heading (d : N) (title : jsstring) :
  In d level_digits -> test re_block_start (heading_of_digit d title) = true.
Proof.
  intros Hd. unfold level_digits in Hd.
  repeat (destruct Hd as [<-|Hd]; [reflexivity|]). contradiction.
Qed.

Lemma no_header_with_text (d : N) (title : jsstring) :
  In d level_digits -> free_of [60%N] title ->
  free_of line_terminators title ->
  match_ re_header_with_text (heading_of_digit d title) = None.
Proof.
  intros Hd Ht Hlt.
  assert (Hd60 : d <> 60%N).
  { unfold level_digits in Hd.
    repeat (destruct Hd as [<-|Hd]; [discriminate|]). contradiction. }
  apply match_none_from. eapply no_match_anchored; [reflexivity | |].
  - apply free_of_not_terminator.
    apply free_of_heading_of_digit; [exact Hd | repeat constructor; not_in | exact Hlt].
  - destruct (match_at re_header_with_text [] (heading_of_digit d title)) as [z|] eqn:E;
      [exfalso|reflexivity].
    apply header_with_text_shape in E. destruct E as (ws0 & A & B & E & Fws & HB & _).
    unfold heading_of_digit in E.
    destruct ws0 as [|s0 ws0]; cbn [app] in E.
    + injection E as E.
      change (104%N :: d :: 62%N :: title ++ 60%N :: [47; 104; d; 62]%N)
        with (([104; d; 62]%N ++ title) ++ 60%N :: [47; 104; d; 62]%N) in E.
      apply unique_occurrence in E.
      * destruct E as [_ ->]. simpl in HB. lia.
      * intros Hin. apply in_app_or in Hin. destruct Hin as [Hin|Hin].
        -- cbn in Hin. intuition (try discriminate; congruence).
        -- unfold free_of in Ht. rewrite Forall_forall in Ht.
           apply (Ht _ Hin). now left.
      * cbn. intuition (try discriminate; congruence).
    + injection E as <- _. apply Forall_inv in Fws. discriminate.
Qed.

(** An element on a line of its own that [processParagraphs] takes as a
    block: the passes from [processLists] on leave it as it is. *)
Lemma block_element_comes_through (rest : jsstring) :
  free_of (line_terminators ++ str "-*_[:") (60%N :: rest) ->
  (forall re, In re tag_patterns -> no_match re (60%N :: rest)) ->
  trim (60%N :: rest) = 60%N :: rest ->
  match_ re_header_with_text (60%N :: rest) = None ->
  test re_block_start (60%N :: rest) = true ->
  finalCleanup
    (processParagraphs
       (restoreCodeBlocks
          (processLinksAndImages (processHorizontalRules (processLists (60%N :: rest))))
          [] []))
  = 60%N :: rest.
Proof.
  intros H Htag Htrim Hsplit Hblock.
  set (e := 60%N :: rest) in *.
  assert (Hrule : free_of (str "-*_") e) by sub_free H.
  assert (Hlink : free_of (str "[:") e) by sub_free H.
  assert (Hlt : free_of line_terminators e) by sub_free H.
  assert (Hnl : free_of [NL] e) by sub_free H.
  assert (Hlists : processLists e = e) by (apply processLists_tag_line; exact Hlt).
  rewrite Hlists.
  unfold processHorizontalRules. inert (str "-*_") e Hrule.
  unfold processLinksAndImages. cbv zeta. inert (str "[:") e Hlink.
  cbn [restoreCodeBlocks restore_loop].
  assert (Hpar : processParagraphs e = e).
  { unfold processParagraphs. cbv zeta.
    rewrite (@split_re_none re_blank_line)
      by (apply needs_no_match with (l := [NL]); [solve_needs | exact Hnl]).
    cbn [flat_map]. rewrite app_nil_r.
    unfold process_block. rewrite Htrim. cbv zeta.
    unfold e at 1. cbv iota.
    rewrite Hsplit. unfold is_block_level. rewrite Hblock. reflexivity. }
  rewrite Hpar. unfold finalCleanup. cbv zeta.
  rewrite (@replace_all_none re_br_after_header)
    by (apply Htag; unfold tag_patterns; in_list).
  rewrite (@replace_all_none re_empty_p) by (apply Htag; unfold tag_patterns; in_list).
  rewrite (@replace_all_none re_blank_p) by (apply Htag; unfold tag_patterns; in_list).
  rewrite (@replace_all_none re_br_before_list)
    by (apply Htag; unfold tag_patterns; in_list).
  rewrite (@replace_all_none re_br_after_list)
    by (apply Htag; unfold tag_patterns; in_list).
  rewrite (@replace_all_needs [NL] re_three_newlines) by first [exact Hnl | solve_needs].
  rewrite (@replace_all_needs [NL] re_between_tags) by first [exact Hnl | solve_needs].
  rewrite split_on_one by now apply free_of_one_line.
  cbn [map]. rewrite Htrim. reflexivity.
Qed.

(** The passes after [processHeaders] leave the element of a heading with
    a plain title as it is. *)
Lemma heading_comes_through (d : N) (title : jsstring) :
  In d level_digits -> free_of (58%N :: markup) title ->
  finalCleanup
    (processParagraphs
       (restoreCodeBlocks
          (processLinksAndImages
             (processHorizontalRules
                (processLists
                   (processBlockquotes
                      (processTextFormatting (heading_of_digit d title))))))
          [] []))
  = heading_of_digit d title.
Proof.
  intros Hd H.
  assert (Ht60 : free_of [60%N] title) by sub_free H.
  assert (Htlt : free_of line_terminators title) by sub_free H.
  set (h := heading_of_digit d title).
  assert (Hfmt : free_of (DQ :: str "*_~") h)
    by (apply free_of_heading_of_digit;
        [exact Hd | repeat constructor; not_in | sub_free H]).
  assert (Hlt : free_of line_terminators h)
    by (apply free_of_heading_of_digit;
        [exact Hd | repeat constructor; not_in | sub_free H]).
  assert (Htag : forall re, In re tag_patterns -> no_match re h)
    by (intros re Hre; now apply no_tag_pattern_heading).
  unfold processTextFormatting. cbv zeta. inert (DQ :: str "*_~") h Hfmt.
  unfold processBlockquotes. cbv zeta.
  rewrite (@replace_all_none_from re_quote_line) by (apply no_quote_line; exact Hlt).
  rewrite (@replace_all_none re_quote_join) by (apply Htag; unfold tag_patterns; in_list).
  apply block_element_comes_through.
  - apply free_of_heading_of_digit;
      [exact Hd | repeat constructor; not_in | sub_free H].
  - exact Htag.
  - apply trim_heading_of_digit.
  - now apply no_header_with_text.
  - now apply block_start_heading.
Qed.

(** X21. A heading line is rendered as a heading.  The line is one to six
    number signs, a space and a title; the title is not empty, does not
    start or end with white space and has no colon and none of the
    characters of [markup].  Then [processHeaders] gives the element
    [h1] to [h6] of that level around the title, and
    [convertMarkdownToHTML] returns this element and nothing else. *)
Theorem heading_line_is_rendered_as_a_heading (n : nat) (title : jsstring) :
  1 <= n <= 6 -> title <> [] -> trim title = title -> free_of (58%N :: markup) title ->
  processHeaders (atx n title) = heading n title
  /\ convertMarkdownToHTML (atx n title) = heading n title.
Proof.
  intros Hn Hne Htrim H.
  assert (Hhead : processHeaders (atx n title) = heading n title)
    by (apply processHeaders_atx; auto; sub_free H).
  split; [exact Hhead|].
  rewrite convertMarkdownToHTML_eq.
  assert (Hnorm : normalizeContent (atx n title) = atx n title).
  { unfold normalizeContent, stripQuotes. cbv zeta.
    rewrite (@replace_first_none re_quotes).
    2:{ apply needs_no_match with (l := [DQ; 39; 96]%N).
        - unfold needs_re. cbn -[cc_match In]. right. left.
          intros d Hd. unfold cc_match, is_quote, one_of in Hd.
          cbn [cc_invert cc_set cls existsb] in Hd. rewrite xorb_false_l in Hd.
          repeat (apply orb_true_iff in Hd; destruct Hd as [Hd|Hd]); try discriminate;
            apply N.eqb_eq in Hd; subst d; in_list.
        - apply free_of_atx; [not_in | not_in | sub_free H]. }
    rewrite (@replace_all_needs [CR] re_crlf _ (atx n title))
      by first [apply free_of_atx; [not_in | not_in | sub_free H] | solve_needs].
    rewrite (@replace_all_needs [CR] re_cr _ (atx n title))
      by first [apply free_of_atx; [not_in | not_in | sub_free H] | solve_needs].
    apply replace_all_none. apply no_match_trailing.
    - apply free_of_atx; [not_in | not_in | sub_free H].
    - apply trim_atx; auto. lia. }
  rewrite Hnorm. unfold protectCodeBlocks.
  rewrite (@replace_scan_needs _ [backtick])
    by first [apply free_of_atx; [not_in | not_in | sub_free H] | solve_needs].
  rewrite (@replace_scan_needs _ [backtick])
    by first [apply free_of_atx; [not_in | not_in | sub_free H] | solve_needs].
  rewrite Hhead.
  destruct (heading_digit title Hn) as (d & Hd & ->).
  now apply heading_comes_through.
Qed.

Lemma heading_line_is_rendered_as_a_heading_witness :
  convertMarkdownToHTML (atx 2 (str "Getting started"))
  = heading 2 (str "Getting started").
Proof.
  apply heading_line_is_rendered_as_a_heading.
  - lia.
  - discriminate.
  - reflexivity.
  - repeat constructor; not_in.
Defined.

(** ** Quotations *)

Lemma matcher_Chr (ic ml : bool) (cc : CharClass) (c : Cont) (d : N)
  (before rest : jsstring) (caps : list (nat * jsstring)) :
  cc_match ic cc d = true ->
  matcher ic ml (Chr cc) c (mkState before (d :: rest) caps)
  = c (mkState (d :: before) rest caps).
Proof. intros H. cbn [matcher st_after st_before st_caps]. now rewrite H. Qed.

Lemma dot_run (s : jsstring) :
  free_of line_terminators s ->
  Forall (fun d => cc_match false (ncls is_line_terminator) d = true) s.
Proof.
  intros H. apply free_of_not_terminator in H.
  eapply Forall_impl; [|exact H]. intros d Hd. unfold cc_match.
  cbn [cc_invert cc_set ncls]. now rewrite Hd.
Qed.

Lemma match_quoted (text : jsstring) :
  text <> [] -> trim text = text -> free_of line_terminators text ->
  match_at re_quote_line [] (quoted text)
  = Some (mkState (rev (quoted text)) [] [(1, text)]).
Proof.
  intros Hne Htrim Hfree.
  destruct (trimmed_head Hne Htrim) as (c0 & t0 & Etext & Hc0).
  unfold match_at, re_quote_line, quoted.
  cbn [re_body re_ignoreCase re_multiline rseq lit map str list_ascii_of_string].
  rewrite matcher_Seq, matcher_Bol by reflexivity.
  rewrite matcher_Seq.
  apply (@matcher_greedy_run false true (cls is_space) _ []
           (62%N :: 32%N :: text) [] [] 0 None);
    [reflexivity | constructor | simpl; lia | exact I |].
  cbn [rev app]. rewrite matcher_Seq, matcher_Chr by reflexivity.
  rewrite matcher_Seq.
  apply (@matcher_greedy_run false true (cls is_space) _ [32%N] text _ _ 0 None).
  { rewrite Etext. now rewrite cc_match_cls. }
  { repeat constructor. }
  { simpl. lia. }
  { exact I. }
  rewrite matcher_Seq, matcher_Group.
  apply (@matcher_greedy_run_end false true (ncls is_line_terminator) _ text _ _ 1 None).
  { now apply dot_run. }
  { rewrite Etext. simpl. lia. }
  { exact I. }
  cbn [set_capture st_before st_after st_caps].
  change (length (@nil N)) with 0. rewrite Nat.sub_0_r, firstn_all.
  rewrite matcher_Eol by reflexivity.
  cbn [rev app]. rewrite <- !app_assoc. reflexivity.
Qed.

Lemma free_of_quoted (l : list N) (text : jsstring) :
  ~ In 62%N l -> ~ In 32%N l -> free_of l text -> free_of l (quoted text).
Proof. intros H62 H32 Ht. unfold quoted. now repeat constructor. Qed.

Lemma free_of_blockquote (l : list N) (text : jsstring) :
  free_of l (str "<blockquote>/") -> free_of l text -> free_of l (blockquote text).
Proof.
  intros Htag Ht. unfold free_of in Htag. rewrite Forall_forall in Htag.
  unfold blockquote. repeat (apply Forall_app; split); try exact Ht;
    repeat constructor; apply Htag; cbn; tauto.
Qed.

Lemma trim_quoted (text : jsstring) :
  text <> [] -> trim text = text -> trim (quoted text) = quoted text.
Proof.
  intros Hne Htrim. apply trim_ends; [reflexivity|].
  destruct (trimmed_rev Hne Htrim) as (c & t & E & Hc).
  unfold quoted. cbn [rev]. rewrite E. cbn [app].
  apply trim_start_fixed. exact Hc.
Qed.

Lemma processBlockquotes_quoted (text : jsstring) :
  text <> [] -> trim text = text -> free_of (60%N :: line_terminators) text ->
  processBlockquotes (quoted text) = blockquote text.
Proof.
  intros Hne Htrim Hfree.
  assert (Hlt : free_of line_terminators text) by sub_free Hfree.
  unfold processBlockquotes. cbv zeta.
  assert (Hfirst : replace_all re_quote_line (str "<blockquote>$1</blockquote>")
                               (quoted text) = blockquote text).
  { unfold quoted.
    rewrite (@replace_all_whole re_quote_line _ _ _ _ (match_quoted Hne Htrim Hlt));
      [reflexivity | reflexivity |].
    destruct (trimmed_rev Hne Htrim) as (c & t & E & Hc).
    cbn [rev]. rewrite E. cbn [app].
    unfold match_at, re_quote_line. cbn [re_body re_ignoreCase re_multiline rseq].
    rewrite matcher_Seq. cbn [matcher at_line_start st_before].
    assert (Hterm : is_line_terminator c = false).
    { assert (Hin : In c text) by (apply in_rev; rewrite E; now left).
      apply free_of_not_terminator in Hlt. rewrite Forall_forall in Hlt. auto. }
    now rewrite Hterm. }
  rewrite Hfirst. apply replace_all_none.
  unfold blockquote.
  change (str "<blockquote>" ++ text ++ str "</blockquote>")
    with (60%N :: str "blockquote>" ++ text ++ 60%N :: str "/blockquote>").
  apply no_match_wrapped.
  - solve_begins.
  - repeat constructor; not_in.
  - sub_free Hfree.
  - repeat constructor; not_in.
  - intros before. reflexivity.
  - intros before. reflexivity.
Qed.

Lemma block_element_blockquote (text : jsstring) :
  free_of (58%N :: markup) text ->
  finalCleanup
    (processParagraphs
       (restoreCodeBlocks
          (processLinksAndImages (processHorizontalRules (processLists (blockquote text))))
          [] []))
  = blockquote text.
Proof.
  intros H.
  assert (Ht60 : free_of [60%N] text) by sub_free H.
  change (blockquote text)
    with (60%N :: str "blockquote>" ++ text ++ 60%N :: str "/blockquote>").
  apply block_element_comes_through.
  - apply (@free_of_blockquote _ text); [repeat constructor; not_in | sub_free H].
  - intros re Hre. unfold tag_patterns in Hre.
    repeat (destruct Hre as [<-|Hre];
            [apply no_match_wrapped;
             [solve_begins | repeat constructor; not_in | exact Ht60
              | repeat constructor; not_in | intros before; reflexivity
              | intros before; reflexivity]|]).
    contradiction.
  - apply trim_ends; [reflexivity|].
    change (60%N :: str "blockquote>" ++ text ++ 60%N :: str "/blockquote>")
      with (str "<blockquote>" ++ text ++ str "</blockquote>").
    rewrite !rev_app_distr. reflexivity.
  - apply match_none_from. eapply no_match_anchored; [reflexivity | |].
    + apply free_of_not_terminator.
      apply (@free_of_blockquote _ text); [repeat constructor; not_in | sub_free H].
    + destruct (match_at re_header_with_text [] _) as [z|] eqn:E;
        [exfalso|reflexivity].
      apply header_with_text_shape in E.
      destruct E as (ws0 & A & B & E & Fws & _ & HA).
      destruct ws0 as [|s0 ws0]; cbn [app] in E.
      * injection E as E. destruct A as [|d2 A]; [contradiction|].
        cbn [str map list_ascii_of_string app] in E. injection E as E _.
        destruct HA as [HA|HA]; rewrite HA in E; discriminate.
      * injection E as <- _. apply Forall_inv in Fws. discriminate.
  - reflexivity.
Qed.

(** X22. A quoted line is rendered as a quotation.  The line is [>], a
    space and a text; the text is not empty, does not start or end with
    white space and has no colon and none of the characters of [markup].
    Then [processBlockquotes] gives the element [blockquote] around the
    text, and [convertMarkdownToHTML] returns this element and nothing
    else. *)
Theorem quoted_line_is_rendered_as_a_quotation (text : jsstring) :
  text <> [] -> trim text = text -> free_of (58%N :: markup) text ->
  processBlockquotes (quoted text) = blockquote text
  /\ convertMarkdownToHTML (quoted text) = blockquote text.
Proof.
  intros Hne Htrim H.
  assert (Hquote : processBlockquotes (quoted text) = blockquote text)
    by (apply processBlockquotes_quoted; auto; sub_free H).
  split; [exact Hquote|].
  rewrite convertMarkdownToHTML_eq.
  assert (Hnorm : normalizeContent (quoted text) = quoted text).
  { unfold normalizeContent, stripQuotes. cbv zeta.
    rewrite (@replace_first_none re_quotes).
    2:{ apply needs_no_match with (l := [DQ; 39; 96]%N).
        - unfold needs_re. cbn -[cc_match In]. right. left.
          intros d Hd. unfold cc_match, is_quote, one_of in Hd.
          cbn [cc_invert cc_set cls existsb] in Hd. rewrite xorb_false_l in Hd.
          repeat (apply orb_true_iff in Hd; destruct Hd as [Hd|Hd]); try discriminate;
            apply N.eqb_eq in Hd; subst d; in_list.
        - apply free_of_quoted; [not_in | not_in | sub_free H]. }
    rewrite (@replace_all_needs [CR] re_crlf _ (quoted text))
      by first [apply free_of_quoted; [not_in | not_in | sub_free H] | solve_needs].
    rewrite (@replace_all_needs [CR] re_cr _ (quoted text))
      by first [apply free_of_quoted; [not_in | not_in | sub_free H] | solve_needs].
    apply replace_all_none. apply no_match_trailing.
    - apply free_of_quoted; [not_in | not_in | sub_free H].
    - now apply trim_quoted. }
  rewrite Hnorm. unfold protectCodeBlocks.
  rewrite (@replace_scan_needs _ [backtick])
    by first [apply free_of_quoted; [not_in | not_in | sub_free H] | solve_needs].
  rewrite (@replace_scan_needs _ [backtick])
    by first [apply free_of_quoted; [not_in | not_in | sub_free H] | solve_needs].
  assert (Hhead : processHeaders (quoted text) = quoted text).
  { assert (Hh : free_of (str "#=-") (quoted text))
      by (apply free_of_quoted; [not_in | not_in | sub_free H]).
    unfold processHeaders. cbv zeta.
    rewrite (@replace_all_with_needs (str "#=-") re_atx) by (solve_needs || exact Hh).
    rewrite (@replace_all_with_needs (str "#=-") re_bullet_atx)
      by (solve_needs || exact Hh).
    rewrite (@replace_all_needs (str "#=-") (re_setext "=")) by (solve_needs || exact Hh).
    rewrite (@replace_all_needs (str "#=-") (re_setext "-")) by (solve_needs || exact Hh).
    reflexivity. }
  rewrite Hhead.
  assert (Hfmt : processTextFormatting (quoted text) = quoted text).
  { assert (Hf : free_of (DQ :: str "*_~") (quoted text))
      by (apply free_of_quoted; [not_in | not_in | sub_free H]).
    unfold processTextFormatting. cbv zeta.
    inert (DQ :: str "*_~") (quoted text) Hf. reflexivity. }
  rewrite Hfmt, Hquote.
  now apply block_element_blockquote.
Qed.

Lemma quoted_line_is_rendered_as_a_quotation_witness :
  convertMarkdownToHTML (quoted (str "To be, or not to be"))
  = blockquote (str "To be, or not to be").
Proof.
  apply quoted_line_is_rendered_as_a_quotation.
  - discriminate.
  - reflexivity.
  - repeat constructor; not_in.
Defined.

(** ** Inline elements *)

Lemma match_struck (text : jsstring) :
  text <> [] -> free_of [126%N] text ->
  match_at re_strike [] (struck text)
  = Some (mkState (rev (struck text)) [] [(1, text)]).
Proof.
  intros Hne Hfree.
  unfold match_at, re_strike, struck.
  cbn [re_body re_ignoreCase re_multiline rseq lit map str list_ascii_of_string app].
  rewrite !matcher_Seq, !matcher_Chr by reflexivity.
  rewrite matcher_Seq, matcher_Group.
  apply (@matcher_greedy_run false false (ncls (chars "~")) _ text (str "~~") _ _ 1 None).
  { reflexivity. }
  { eapply Forall_impl; [|exact Hfree]. intros d Hd. cbv beta in Hd.
    unfold cc_match. cbn [cc_invert cc_set ncls]. unfold chars, one_of.
    cbn [str list_ascii_of_string map existsb].
    change (N_of_ascii "~") with 126%N.
    destruct (N.eqb_spec d 126) as [E|E]; [|reflexivity].
    exfalso. apply Hd. now left. }
  { destruct text; [congruence|simpl; lia]. }
  { exact I. }
  cbn [set_capture st_before st_after st_caps].
  rewrite firstn_run.
  cbn [str list_ascii_of_string map].
  unfold set_capture. cbn [st_before st_after st_caps].
  rewrite !matcher_Seq, !matcher_Chr by reflexivity.
  cbn [rev app]. rewrite !rev_app_distr. cbn [rev app]. rewrite <- !app_assoc.
  reflexivity.
Qed.

Lemma free_of_struck (l : list N) (text : jsstring) :
  ~ In 126%N l -> free_of l text -> free_of l (struck text).
Proof.
  intros Hl Ht. unfold struck.
  apply Forall_app; split; [now repeat constructor|].
  apply Forall_app; split; [exact Ht | now repeat constructor].
Qed.

Lemma processTextFormatting_struck (text : jsstring) :
  text <> [] -> free_of (DQ :: str "*_~") text ->
  processTextFormatting (struck text) = deleted text.
Proof.
  intros Hne H.
  assert (Hs : free_of (DQ :: str "*_") (struck text))
    by (apply free_of_struck; [not_in | sub_free H]).
  assert (Ht : free_of [126%N] text) by sub_free H.
  unfold processTextFormatting. cbv zeta.
  inert (DQ :: str "*_") (struck text) Hs.
  unfold struck at 1. cbn [str list_ascii_of_string map app].
  rewrite (@replace_all_whole re_strike _ _ _ _ (match_struck Hne Ht));
    reflexivity.
Qed.

(** ** Elements inside a paragraph *)

Lemma test_none_from (re : RegExp) (s : jsstring) :
  no_match_from re [] s -> test re s = false.
Proof. intros H. unfold test. now rewrite search_none_from. Qed.

(** A pattern without the flag m that starts with [^] can only match at
    the start of the text. *)
Lemma no_match_anchored_start (re : RegExp) (r : regex) (s : jsstring) :
  re_body re = Seq Bol r -> re_multiline re = false ->
  match_at re [] s = None ->
  no_match_from re [] s.
Proof.
  intros Hbody Hml Hstart p after ->.
  destruct (rev p) as [|d t] eqn:E.
  - apply (f_equal (@rev N)) in E. rewrite rev_involutive in E. subst p. exact Hstart.
  - unfold match_at. rewrite Hbody, Hml, matcher_Seq.
    cbn [matcher at_line_start st_before app andb]. reflexivity.
Qed.

(** The pattern that splits a heading from the text after it does not
    match a text that starts with a tag other than [<h]. *)
Lemma no_header_with_text_inline (d2 : N) (rest : jsstring) :
  d2 <> 104%N -> d2 <> 72%N ->
  match_ re_header_with_text (60%N :: d2 :: rest) = None.
Proof.
  intros H104 H72.
  apply match_none_from. eapply no_match_anchored_start; [reflexivity | reflexivity |].
  destruct (match_at re_header_with_text [] (60%N :: d2 :: rest)) as [z|] eqn:E;
    [exfalso|reflexivity].
  apply header_with_text_shape in E. destruct E as (ws0 & A & B & E & Fws & _ & HA).
  destruct ws0 as [|s0 ws0]; cbn [app] in E.
  - destruct A as [|a A]; [contradiction|]. cbn [app] in E.
    injection E as E _. subst a. destruct HA; contradiction.
  - injection E as <- _. apply Forall_inv in Fws. discriminate.
Qed.

Lemma wrapped_eq (open text close : jsstring) :
  wrapped (60%N :: open ++ text ++ 60%N :: close)
  = 60%N :: 112%N :: 62%N :: 60%N :: open ++ text ++ 60%N :: close ++ str "</p>".
Proof.
  unfold wrapped. cbn [str list_ascii_of_string map app].
  rewrite <- !app_assoc. cbn [app]. reflexivity.
Qed.

(** An element of plain text inside a paragraph: a pattern that begins
    with [<] can only match at one of the four tags. *)
Lemma no_match_in_paragraph (re : RegExp) (open close text : jsstring) :
  begins_re [60%N] re ->
  free_of [60%N] open -> free_of [60%N] text -> free_of [60%N] close ->
  (forall before,
      match_at re before
        (60%N :: 112%N :: 62%N :: 60%N :: open ++ text ++ 60%N :: close ++ str "</p>")
      = None) ->
  (forall before,
      match_at re before (60%N :: open ++ text ++ 60%N :: close ++ str "</p>") = None) ->
  (forall before, match_at re before (60%N :: close ++ str "</p>") = None) ->
  (forall before, match_at re before (str "</p>") = None) ->
  no_match re (wrapped (60%N :: open ++ text ++ 60%N :: close)).
Proof.
  intros Hb Hopen Htext Hclose H1 H2 H3 H4. rewrite wrapped_eq.
  assert (Hother : forall before d s,
             d <> 60%N -> match_at re before (d :: s) = None).
  { intros before d s Hd. apply match_at_begins with (l := [60%N]); [exact Hb|].
    intros [E|[]]. congruence. }
  apply no_match_cons; [exact H1|].
  apply no_match_cons; [intros; apply Hother; discriminate|].
  apply no_match_cons; [intros; apply Hother; discriminate|].
  apply no_match_cons; [exact H2|].
  apply no_match_before with (l := [60%N]); [exact Hb| |exact Hopen].
  apply no_match_before with (l := [60%N]); [exact Hb| |exact Htext].
  apply no_match_cons; [exact H3|].
  apply no_match_before with (l := [60%N]); [exact Hb| |exact Hclose].
  apply no_match_cons; [exact H4|].
  apply no_match_cons; [intros; apply Hother; discriminate|].
  apply no_match_cons; [intros; apply Hother; discriminate|].
  apply no_match_cons; [intros; apply Hother; discriminate|].
  apply no_match_nil. intros before.
  apply match_at_begins with (l := [60%N]); [exact Hb | exact I].
Qed.

(** An element on a line of its own that [processParagraphs] does not take
    as a block: the passes from [processBlockquotes] on put it in a
    paragraph. *)
Lemma inline_element_comes_through (d2 : N) (rest : jsstring) :
  d2 <> 104%N -> d2 <> 72%N ->
  free_of (line_terminators ++ str "-*_[:") (60%N :: d2 :: rest) ->
  no_match re_quote_join (60%N :: d2 :: rest) ->
  (forall re, In re tag_patterns -> no_match re (wrapped (60%N :: d2 :: rest))) ->
  trim (60%N :: d2 :: rest) = 60%N :: d2 :: rest ->
  test re_block_start (60%N :: d2 :: rest) = false ->
  test re_block_end (60%N :: d2 :: rest) = false ->
  finalCleanup
    (processParagraphs
       (restoreCodeBlocks
          (processLinksAndImages
             (processHorizontalRules
                (processLists (processBlockquotes (60%N :: d2 :: rest)))))
          [] []))
  = wrapped (60%N :: d2 :: rest).
Proof.
  intros H104 H72 H Hjoin Htag Htrim Hstart Hend.
  set (e := 60%N :: d2 :: rest) in *.
  assert (Hrule : free_of (str "-*_") e) by sub_free H.
  assert (Hlink : free_of (str "[:") e) by sub_free H.
  assert (Hlt : free_of line_terminators e) by sub_free H.
  assert (Hnl : free_of [NL] e) by sub_free H.
  unfold processBlockquotes. cbv zeta.
  rewrite (@replace_all_none_from re_quote_line) by (apply no_quote_line; exact Hlt).
  rewrite (@replace_all_none re_quote_join) by exact Hjoin.
  assert (Hlists : processLists e = e) by (apply processLists_tag_line; exact Hlt).
  rewrite Hlists.
  unfold processHorizontalRules. inert (str "-*_") e Hrule.
  unfold processLinksAndImages. cbv zeta. inert (str "[:") e Hlink.
  cbn [restoreCodeBlocks restore_loop].
  assert (Hpar : processParagraphs e = wrapped e).
  { unfold processParagraphs. cbv zeta.
    rewrite (@split_re_none re_blank_line)
      by (apply needs_no_match with (l := [NL]); [solve_needs | exact Hnl]).
    cbn [flat_map]. rewrite app_nil_r.
    unfold process_block. rewrite Htrim. cbv zeta.
    unfold e at 1. cbv iota.
    assert (Hh : match_ re_header_with_text e = None)
      by now apply no_header_with_text_inline.
    rewrite Hh. unfold is_block_level. rewrite Hstart, Hend. cbn [orb].
    unfold paragraph.
    rewrite (@replace_all_needs [NL] re_newline) by first [exact Hnl | solve_needs].
    reflexivity. }
  rewrite Hpar.
  assert (Hnlw : free_of [NL] (wrapped e)).
  { unfold wrapped. apply Forall_app. split; [repeat constructor; not_in|].
    apply Forall_app. split; [exact Hnl | repeat constructor; not_in]. }
  unfold finalCleanup. cbv zeta.
  rewrite (@replace_all_none re_br_after_header)
    by (apply Htag; unfold tag_patterns; in_list).
  rewrite (@replace_all_none re_empty_p) by (apply Htag; unfold tag_patterns; in_list).
  rewrite (@replace_all_none re_blank_p) by (apply Htag; unfold tag_patterns; in_list).
  rewrite (@replace_all_none re_br_before_list)
    by (apply Htag; unfold tag_patterns; in_list).
  rewrite (@replace_all_none re_br_after_list)
    by (apply Htag; unfold tag_patterns; in_list).
  rewrite (@replace_all_needs [NL] re_three_newlines) by first [exact Hnlw | solve_needs].
  rewrite (@replace_all_needs [NL] re_between_tags) by first [exact Hnlw | solve_needs].
  rewrite split_on_one.
  2:{ intros Hin. unfold free_of in Hnlw. rewrite Forall_forall in Hnlw.
      apply (Hnlw _ Hin). now left. }
  cbn [map]. rewrite trim_ends.
  - reflexivity.
  - reflexivity.
  - unfold wrapped. rewrite !rev_app_distr. reflexivity.
Qed.

Lemma free_of_element (l : list N) (name text : jsstring) :
  free_of l (60%N :: 62%N :: 47%N :: name) -> free_of l text ->
  free_of l (element name text).
Proof.
  intros Hn Ht. unfold free_of in Hn. rewrite Forall_forall in Hn.
  assert (Hname : free_of l name) by (apply Forall_forall; intros d Hd; apply Hn; cbn; tauto).
  unfold element. constructor; [apply Hn; cbn; tauto|].
  apply Forall_app; split; [exact Hname|].
  constructor; [apply Hn; cbn; tauto|].
  apply Forall_app; split; [exact Ht|].
  constructor; [apply Hn; cbn; tauto|].
  constructor; [apply Hn; cbn; tauto|].
  apply Forall_app; split; [exact Hname|].
  constructor; [apply Hn; cbn; tauto|constructor].
Qed.

Lemma trim_element (name text : jsstring) :
  trim (element name text) = element name text.
Proof.
  apply trim_ends; [reflexivity|].
  assert (E : element name text
              = (60%N :: name ++ 62%N :: text ++ 60%N :: 47%N :: name) ++ [62%N]).
  { unfold element. cbn [app]. rewrite <- !app_assoc. cbn [app].
    rewrite <- !app_assoc. reflexivity. }
  rewrite E, rev_app_distr. reflexivity.
Qed.

Ltac inline_case H :=
  match goal with
  | |- context [element ?name ?text] =>
      let Ht60 := fresh "Ht60" in
      assert (Ht60 : free_of [60%N] text) by sub_free H;
      apply inline_element_comes_through;
      [ discriminate
      | discriminate
      | apply (@free_of_element _ name text); [repeat constructor; not_in | sub_free H]
      | (apply (@no_match_wrapped re_quote_join (name ++ [62%N]) (47%N :: name ++ [62%N]) text);
         [solve_begins | repeat constructor; not_in | exact Ht60
         | repeat constructor; not_in
         | intros before; reflexivity | intros before; reflexivity])
      | (let re := fresh "re" in
         let Hre := fresh "Hre" in
         intros re Hre;
         pose proof tag_patterns_begin as Hb; rewrite Forall_forall in Hb;
         apply (@no_match_in_paragraph re (name ++ [62%N]) (47%N :: name ++ [62%N]) text);
         [ apply Hb; exact Hre | repeat constructor; not_in | exact Ht60
         | repeat constructor; not_in | | | | ];
         unfold tag_patterns in Hre;
         repeat (destruct Hre as [<-|Hre]; [intros before; reflexivity|]);
         contradiction)
      | apply (@trim_element name text)
      | (apply test_none_from; eapply no_match_anchored;
         [ reflexivity
         | apply free_of_not_terminator;
           apply (@free_of_element _ name text); [repeat constructor; not_in | sub_free H]
         | reflexivity ])
      | (apply test_none;
         apply (@no_match_wrapped re_block_end (name ++ [62%N]) (47%N :: name ++ [62%N]) text);
         [solve_begins | repeat constructor; not_in | exact Ht60
         | repeat constructor; not_in
         | intros before; reflexivity | intros before; reflexivity]) ]
  end.

(** The passes after [processTextFormatting] put an element of plain text
    with one of the three tags in a paragraph. *)
Lemma element_in_paragraph (name text : jsstring) :
  In name inline_names -> free_of (58%N :: markup) text ->
  finalCleanup
    (processParagraphs
       (restoreCodeBlocks
          (processLinksAndImages
             (processHorizontalRules
                (processLists (processBlockquotes (element name text)))))
          [] []))
  = wrapped (element name text).
Proof.
  intros Hname H. unfold inline_names in Hname.
  destruct Hname as [<-|[<-|[<-|[]]]].
  - inline_case H.
  - inline_case H.
  - inline_case H.
Qed.

(** The passes before [processTextFormatting] leave a line without
    quotes, backticks and number signs as it is. *)
Lemma line_reaches_formatting (src : jsstring) :
  free_of (line_terminators ++ [DQ; 39; 96; 35]%N) src -> trim src = src ->
  convertMarkdownToHTML src
  = finalCleanup
      (processParagraphs
         (restoreCodeBlocks
            (processLinksAndImages
               (processHorizontalRules
                  (processLists (processBlockquotes (processTextFormatting src)))))
            [] [])).
Proof.
  intros H Htrim.
  assert (Hq : free_of [DQ; 39; 96]%N src) by sub_free H.
  assert (Hcr : free_of [CR] src) by sub_free H.
  assert (Hlt : free_of line_terminators src) by sub_free H.
  assert (Hbt : free_of [backtick] src) by sub_free H.
  assert (Hh : free_of [35%N] src) by sub_free H.
  assert (Hnl : free_of [NL] src) by sub_free H.
  rewrite convertMarkdownToHTML_eq.
  assert (Hnorm : normalizeContent src = src).
  { unfold normalizeContent, stripQuotes. cbv zeta.
    rewrite (@replace_first_none re_quotes).
    2:{ apply needs_no_match with (l := [DQ; 39; 96]%N); [|exact Hq].
        unfold needs_re. cbn -[cc_match In]. right. left.
        intros d Hd. unfold cc_match, is_quote, one_of in Hd.
        cbn [cc_invert cc_set cls existsb] in Hd. rewrite xorb_false_l in Hd.
        repeat (apply orb_true_iff in Hd; destruct Hd as [Hd|Hd]); try discriminate;
          apply N.eqb_eq in Hd; subst d; in_list. }
    rewrite (@replace_all_needs [CR] re_crlf _ src) by first [exact Hcr | solve_needs].
    rewrite (@replace_all_needs [CR] re_cr _ src) by first [exact Hcr | solve_needs].
    apply replace_all_none. now apply no_match_trailing. }
  rewrite Hnorm. unfold protectCodeBlocks.
  rewrite (@replace_scan_needs _ [backtick]) by first [exact Hbt | solve_needs].
  rewrite (@replace_scan_needs _ [backtick]) by first [exact Hbt | solve_needs].
  unfold processHeaders. cbv zeta.
  rewrite (@replace_all_with_needs [35%N] re_atx _ src) by first [exact Hh | solve_needs].
  rewrite (@replace_all_with_needs [35%N] re_bullet_atx _ src)
    by first [exact Hh | solve_needs].
  rewrite (@replace_all_needs [NL] (re_setext "=") _ src)
    by first [exact Hnl | solve_needs].
  rewrite (@replace_all_needs [NL] (re_setext "-") _ src)
    by first [exact Hnl | solve_needs].
  reflexivity.
Qed.

Lemma trim_struck (text : jsstring) : trim (struck text) = struck text.
Proof.
  apply trim_ends; [reflexivity|].
  unfold struck. rewrite !rev_app_distr. reflexivity.
Qed.

(** X23. A text between two pairs of tildes is rendered as deleted text.
    The text is not empty and has no colon and none of the characters of
    [markup]: then [processTextFormatting] puts it in an element [del],
    and [convertMarkdownToHTML] returns this element in a paragraph. *)
Theorem struck_text_is_rendered_as_deleted (text : jsstring) :
  text <> [] -> free_of (58%N :: markup) text ->
  processTextFormatting (struck text) = deleted text
  /\ convertMarkdownToHTML (struck text) = wrapped (deleted text).
Proof.
  intros Hne H.
  assert (Hfmt : processTextFormatting (struck text) = deleted text)
    by (apply processTextFormatting_struck; [exact Hne | sub_free H]).
  split; [exact Hfmt|].
  rewrite line_reaches_formatting.
  - rewrite Hfmt. apply (@element_in_paragraph (str "del") text); [|exact H].
    unfold inline_names. in_list.
  - apply free_of_struck; [not_in | sub_free H].
  - apply trim_struck.
Qed.

Lemma struck_text_is_rendered_as_deleted_witness :
  convertMarkdownToHTML (str "~~no longer true~~")
  = str "<p><del>no longer true</del></p>".
Proof.
  apply (struck_text_is_rendered_as_deleted (text := str "no longer true")).
  - discriminate.
  - repeat constructor; not_in.
Defined.

(** ** Bold text *)

Lemma match_bold (text : jsstring) :
  text <> [] -> trim text = text -> free_of [NL; 42%N] text ->
  match_at re_bold [] (bold text)
  = Some (mkState (rev (bold text)) [] [(3, str "**"); (2, text); (1, str "**")]).
Proof.
  intros Hne Htrim Hfree.
  destruct (trimmed_head Hne Htrim) as (c & t & Etext & Hc).
  destruct (trimmed_rev Hne Htrim) as (e & r & Erev & He).
  unfold match_at, re_bold, bold.
  cbn [re_body re_ignoreCase re_multiline rseq lit map str list_ascii_of_string app].
  rewrite matcher_Seq, matcher_Group. apply matcher_Alt_l.
  rewrite matcher_Seq, !matcher_Chr by reflexivity.
  cbn [st_after].
  change (N_of_ascii "*") with 42%N.
  change (42%N :: 42%N :: text ++ [42%N; 42%N])
    with ([42%N; 42%N] ++ (text ++ [42%N; 42%N])).
  rewrite firstn_run. unfold set_capture at 1. cbn [st_before st_after st_caps].
  rewrite matcher_Seq, matcher_Group. cbn [st_after].
  match goal with |- matcher _ _ _ ?k _ = _ => set (K := k) end.
  assert (HK_some : forall b,
             K (mkState b [42%N; 42%N] [(1, [42%N; 42%N])])
             = Some (mkState (42%N :: 42%N :: b) []
                             [(3, [42%N; 42%N]); (2, text); (1, [42%N; 42%N])])).
  { intros b. unfold K. cbn [st_after]. rewrite firstn_run. reflexivity. }
  assert (HK_none : forall b after,
             (forall rest, after <> 42%N :: 42%N :: rest) ->
             K (mkState b after [(1, [42%N; 42%N])]) = None).
  { intros b after Hafter. unfold K. rewrite matcher_Group.
    cbn [matcher set_capture st_caps st_after st_before get_capture Nat.eqb
         backref_match canonicalize].
    destruct after as [|a1 [|a2 rest]]; [reflexivity| |].
    - destruct (42 =? a1)%N; reflexivity.
    - destruct (N.eqb_spec 42 a1) as [E1|E1]; [|reflexivity].
      destruct (N.eqb_spec 42 a2) as [E2|E2]; [|reflexivity].
      subst a1 a2. now elim (Hafter rest). }
  clearbody K. rewrite Etext. rewrite Etext in HK_some. destruct t as [|t1 t'].
  - cbn -[is_space]. rewrite Hc. cbn -[is_space].
    rewrite !HK_none by (intros rest; discriminate).
    change (is_space 42) with false. cbv iota. apply HK_some.
  - destruct (@exists_last _ (t1 :: t')) as (mid & e' & Et); [discriminate|].
    rewrite Et in *. clear t1 t' Et.
    assert (Ee : e' = e).
    { rewrite Etext in Erev. cbn [rev] in Erev. rewrite rev_app_distr in Erev.
      cbn [rev app] in Erev. now injection Erev as -> _. }
    subst e'.
    assert (Hin : forall d, In d (c :: mid ++ [e]) -> d <> NL /\ d <> 42%N).
    { intros d Hd. unfold free_of in Hfree. rewrite Forall_forall in Hfree.
      rewrite Etext in Hfree. specialize (Hfree d Hd). cbn in Hfree. intuition. }
    assert (Hns : forall d, is_space d = false ->
                            cc_match false (ncls is_space) d = true).
    { intros d Hd. unfold cc_match. cbn [cc_invert cc_set ncls]. now rewrite Hd. }
    apply matcher_Alt_l. unfold not_space, nset, lazy_star.
    rewrite matcher_Seq. cbn [app]. rewrite <- app_assoc. cbn [app].
    rewrite matcher_Chr by now apply Hns.
    rewrite matcher_Seq.
    apply (@matcher_lazy_run false false (ncls (N.eqb NL)) _ mid (e :: [42%N; 42%N])
             _ _ 0).
    + apply Forall_forall. intros d Hd.
      destruct (Hin d) as [Hnl _]; [right; apply in_or_app; now left|].
      unfold cc_match. cbn [cc_invert cc_set ncls].
      destruct (N.eqb_spec NL d) as [E|E]; [now elim Hnl | reflexivity].
    + lia.
    + intros p1 p2 Hsplit Hp2 _.
      destruct p2 as [|d p2]; [congruence|]. cbn [app].
      cbn [matcher st_after st_before st_caps].
      destruct (cc_match false (ncls is_space) d); [|reflexivity].
      apply HK_none. intros rest Hrest.
      assert (Hh : In 42%N (c :: mid ++ [e])).
      { right. rewrite Hsplit, <- !app_assoc. apply in_or_app. right. right.
        destruct p2 as [|d2 p2]; cbn [app] in Hrest |- *.
        - injection Hrest as -> _. now left.
        - injection Hrest as -> _. now left. }
      now destruct (Hin _ Hh) as [_ Hx].
    + rewrite matcher_Chr by now apply Hns.
      rewrite HK_some. cbn [rev app]. rewrite !rev_app_distr. cbn [rev app].
      rewrite <- !app_assoc. reflexivity.
Qed.

Lemma free_of_bold (l : list N) (text : jsstring) :
  ~ In 42%N l -> free_of l text -> free_of l (bold text).
Proof.
  intros Hl Ht. unfold bold.
  apply Forall_app; split; [now repeat constructor|].
  apply Forall_app; split; [exact Ht | now repeat constructor].
Qed.

Lemma free_of_strong (l : list N) (text : jsstring) :
  free_of l (str "<strong>/") -> free_of l text -> free_of l (strong text).
Proof.
  intros Htag Ht. unfold free_of in Htag. rewrite Forall_forall in Htag.
  unfold strong. repeat (apply Forall_app; split); try exact Ht;
    repeat constructor; apply Htag; cbn; tauto.
Qed.

Lemma processTextFormatting_bold (text : jsstring) :
  text <> [] -> trim text = text -> free_of (NL :: DQ :: str "*_~") text ->
  processTextFormatting (bold text) = strong text.
Proof.
  intros Hne Htrim H.
  assert (Hq : free_of [DQ] (bold text)) by (apply free_of_bold; [not_in | sub_free H]).
  assert (Hs : free_of (str "*_~") (strong text))
    by (apply free_of_strong; [repeat constructor; not_in | sub_free H]).
  assert (Hstar : free_of [star_c] text) by sub_free H.
  assert (Hunder : free_of [under_c] text) by sub_free H.
  assert (Hm : match_at re_bold [] (bold text) = Some _)
    by (apply (match_bold Hne Htrim); sub_free H).
  unfold processTextFormatting. cbv zeta.
  rewrite (@replace_all_needs [DQ] re_double_quotes _ (bold text))
    by first [exact Hq | solve_needs].
  assert (Hb : replace_all_with re_bold bold_of (bold text) = strong text).
  { unfold bold in Hm |- *. cbn [str list_ascii_of_string map app] in Hm |- *.
    rewrite (@same_with_whole re_bold bold_of _ _ _ Hm); [| reflexivity | reflexivity].
    unfold bold_of, cap, info_of. cbn [mi_caps st_caps get_capture Nat.eqb].
    change (string_eqb (str "**") (str "**")) with true. cbv iota.
    rewrite (@replace_all_needs [star_c] (re_inner star_c (N.eqb star_c)) _ text)
      by first [exact Hstar | solve_needs].
    rewrite (@replace_all_needs [under_c] (re_inner under_c is_word) _ text)
      by first [exact Hunder | solve_needs].
    reflexivity. }
  rewrite Hb. inert (str "*_~") (strong text) Hs. reflexivity.
Qed.

Lemma trim_bold (text : jsstring) : trim (bold text) = bold text.
Proof.
  apply trim_ends; [reflexivity|].
  unfold bold. rewrite !rev_app_distr. reflexivity.
Qed.

(** X24. A text between two pairs of asterisks is rendered as strong
    text.  The text is not empty, does not start or end with white space,
    and has no colon and none of the characters of [markup]: then
    [processTextFormatting] puts it in an element [strong], and
    [convertMarkdownToHTML] returns this element in a paragraph. *)
Theorem bold_text_is_rendered_as_strong (text : jsstring) :
  text <> [] -> trim text = text -> free_of (58%N :: markup) text ->
  processTextFormatting (bold text) = strong text
  /\ convertMarkdownToHTML (bold text) = wrapped (strong text).
Proof.
  intros Hne Htrim H.
  assert (Hfmt : processTextFormatting (bold text) = strong text)
    by (apply processTextFormatting_bold; [exact Hne | exact Htrim | sub_free H]).
  split; [exact Hfmt|].
  rewrite line_reaches_formatting.
  - rewrite Hfmt. apply (@element_in_paragraph (str "strong") text); [|exact H].
    unfold inline_names. in_list.
  - apply free_of_bold; [not_in | sub_free H].
  - apply trim_bold.
Qed.

Lemma bold_text_is_rendered_as_strong_witness :
  convertMarkdownToHTML (str "**read this first**")
  = str "<p><strong>read this first</strong></p>".
Proof.
  apply (bold_text_is_rendered_as_strong (text := str "read this first")).
  - discriminate.
  - reflexivity.
  - repeat constructor; not_in.
Defined.

(** ** Emphasis *)

(** A greedy repetition of a class gives back the last code unit of the
    run, when what follows the repetition does not match after the whole
    run, but does match before its last code unit. *)
Lemma greedy_gives_back (ic ml : bool) (cc : CharClass) (c : Cont) (last : N)
  (rest : jsstring) (caps : list (nat * jsstring)) (z : MatchState) :
  match rest with [] => True | d :: _ => cc_match ic cc d = false end ->
  cc_match ic cc last = true ->
  forall taken fuel min before,
    length taken + 1 < fuel ->
    Forall (fun d => cc_match ic cc d = true) taken ->
    min <= length taken ->
    c (mkState (last :: rev taken ++ before) rest caps) = None ->
    c (mkState (rev taken ++ before) (last :: rest) caps) = Some z ->
    RepeatMatcher (matcher ic ml (Chr cc)) [] true c fuel min None
                  (mkState before (taken ++ last :: rest) caps) = Some z.
Proof.
  intros Hrest Hlast taken.
  induction taken as [|a taken IH]; intros fuel min before Hfuel Htaken Hmin Hfull Hz;
    (destruct fuel as [|fuel]; [simpl in Hfuel; lia|]);
    rewrite RepeatMatcher_S; cbv zeta.
  - simpl in Hmin. assert (min = 0) by lia. subst min.
    cbn [rev app] in Hz, Hfull. cbn [app Nat.eqb negb].
    rewrite clear_captures_nil. cbn [matcher st_after st_before st_caps].
    rewrite Hlast. unfold repeat_again. cbn [st_after].
    replace (length rest =? length (last :: rest)) with false
      by (symmetry; apply Nat.eqb_neq; simpl; lia).
    rewrite andb_false_r.
    destruct fuel as [|fuel]; [simpl in Hfuel; lia|].
    rewrite RepeatMatcher_S. cbv zeta. cbn [Nat.pred Nat.eqb negb option_map].
    rewrite clear_captures_nil. cbn [matcher st_after st_before st_caps].
    destruct rest as [|d rest]; [now rewrite Hfull|].
    now rewrite Hrest, Hfull.
  - pose proof (Forall_inv Htaken) as Ha.
    assert (Hnext : RepeatMatcher (matcher ic ml (Chr cc)) [] true c fuel
                      (pred min) None
                      (mkState (a :: before) (taken ++ last :: rest) caps) = Some z).
    { apply IH.
      - simpl in Hfuel. lia.
      - now apply Forall_inv_tail in Htaken.
      - simpl in Hmin. lia.
      - simpl in Hfull. now rewrite <- app_assoc in Hfull.
      - simpl in Hz. now rewrite <- app_assoc in Hz. }
    assert (Hstep : matcher ic ml (Chr cc)
                      (repeat_again (matcher ic ml (Chr cc)) [] true c fuel min None
                         (mkState before ((a :: taken) ++ last :: rest) caps))
                      (clear_captures []
                         (mkState before ((a :: taken) ++ last :: rest) caps))
                    = Some z).
    { rewrite clear_captures_nil. cbn [matcher st_after app st_before st_caps].
      rewrite Ha. unfold repeat_again. cbn [st_after].
      replace (length (taken ++ last :: rest) =? length (a :: taken ++ last :: rest))
        with false by (symmetry; apply Nat.eqb_neq; simpl; lia).
      rewrite andb_false_r. exact Hnext. }
    rewrite Hstep; destruct (negb (min =? 0)); reflexivity.
Qed.

Lemma matcher_greedy_gives_back (ic ml : bool) (cc : CharClass) (c : Cont)
  (taken : jsstring) (last : N) (rest before : jsstring)
  (caps : list (nat * jsstring)) (min : nat) (z : MatchState) :
  match rest with [] => True | d :: _ => cc_match ic cc d = false end ->
  cc_match ic cc last = true ->
  Forall (fun d => cc_match ic cc d = true) taken ->
  min <= length taken ->
  c (mkState (last :: rev taken ++ before) rest caps) = None ->
  c (mkState (rev taken ++ before) (last :: rest) caps) = Some z ->
  matcher ic ml (Rep min None true (Chr cc)) c
          (mkState before (taken ++ last :: rest) caps) = Some z.
Proof.
  intros Hrest Hlast Htaken Hmin Hfull Hz.
  change (RepeatMatcher (matcher ic ml (Chr cc)) [] true c
            (min + length (taken ++ last :: rest) + 1) min None
            (mkState before (taken ++ last :: rest) caps) = Some z).
  apply greedy_gives_back; auto. rewrite length_app. simpl. lia.
Qed.

Lemma matcher_NotBehind_start (ic ml : bool) (cc : CharClass) (c : Cont)
  (after : jsstring) (caps : list (nat * jsstring)) :
  matcher ic ml (NotBehind cc) c (mkState [] after caps) = c (mkState [] after caps).
Proof. reflexivity. Qed.

Lemma matcher_Alt_r (ic ml : bool) (r1 r2 : regex) (c : Cont) (x : MatchState) :
  matcher ic ml r1 c x = None -> matcher ic ml (Alt r1 r2) c x = matcher ic ml r2 c x.
Proof. intros H. cbn [matcher]. now rewrite H. Qed.

Lemma match_starred (text : jsstring) :
  text <> [] -> trim text = text -> free_of [42; 95]%N text ->
  match_at re_italic [] (starred text)
  = Some (mkState (rev (starred text)) [] [(2, text); (1, str "*")]).
Proof.
  intros Hne Htrim Hfree.
  destruct (trimmed_head Hne Htrim) as (c & t & Etext & Hc).
  destruct (trimmed_rev Hne Htrim) as (e & r & Erev & He).
  unfold match_at, re_italic, starred.
  cbn [re_body re_ignoreCase re_multiline rseq lit map str list_ascii_of_string app].
  rewrite matcher_Seq, matcher_NotBehind_start.
  rewrite matcher_Seq, matcher_Group. apply matcher_Alt_l.
  rewrite matcher_Chr by reflexivity.
  cbn [st_after].
  change (N_of_ascii "*") with 42%N.
  change (42%N :: text ++ [42%N]) with ([42%N] ++ (text ++ [42%N])).
  rewrite firstn_run. unfold set_capture at 1. cbn [st_before st_after st_caps].
  rewrite matcher_Seq, matcher_Group. cbn [st_after].
  match goal with |- matcher _ _ _ ?k _ = _ => set (K := k) end.
  assert (HK_some : forall b,
             K (mkState b [42%N] [(1, [42%N])])
             = Some (mkState (42%N :: b) [] [(2, text); (1, [42%N])])).
  { intros b. unfold K. cbn [st_after]. rewrite firstn_run. reflexivity. }
  clearbody K. rewrite Etext. rewrite Etext in HK_some.
  assert (Hin : forall d, In d (c :: t) -> d <> 42%N /\ d <> 95%N).
  { intros d Hd. unfold free_of in Hfree. rewrite Forall_forall in Hfree.
    rewrite Etext in Hfree. specialize (Hfree d Hd). cbn in Hfree. intuition. }
  assert (Hone : forall d, d <> 42%N /\ d <> 95%N ->
                           cc_match false (ncls (one_of [star_c; under_c])) d = true).
  { intros d [H42 H95]. unfold cc_match, one_of, star_c, under_c.
    cbn [cc_invert cc_set ncls existsb].
    destruct (N.eqb_spec d 42) as [E|E]; [now elim H42|].
    destruct (N.eqb_spec d 95) as [E'|E']; [now elim H95|]. reflexivity. }
  assert (Hsus : forall d, d <> 42%N /\ d <> 95%N -> is_space d = false ->
                           cc_match false (ncls star_under_space) d = true).
  { intros d [H42 H95] Hd. unfold cc_match, star_under_space, one_of, star_c, under_c.
    cbn [cc_invert cc_set ncls existsb]. rewrite Hd.
    destruct (N.eqb_spec d 42) as [E|E]; [now elim H42|].
    destruct (N.eqb_spec d 95) as [E'|E']; [now elim H95|]. reflexivity. }
  assert (Hns : forall d, is_space d = false ->
                          cc_match false (ncls is_space) d = true).
  { intros d Hd. unfold cc_match. cbn [cc_invert cc_set ncls]. now rewrite Hd. }
  destruct t as [|t1 t'].
  - assert (Hc2 : c <> 42%N /\ c <> 95%N) by (apply Hin; now left).
    cbn [app].
    assert (Hfirst : matcher false false
                       (Seq (nset star_under_space)
                            (Seq (star (nset (one_of [star_c; under_c])))
                                 (nset star_under_space)))
                       K (mkState [42%N] [c; 42%N] [(1, [42%N])]) = None).
    { unfold nset at 1. rewrite matcher_Seq, matcher_Chr by now apply Hsus.
      reflexivity. }
    etransitivity; [apply matcher_Alt_r; exact Hfirst|].
    unfold not_space, nset. rewrite matcher_Chr by now apply Hns.
    apply HK_some.
  - destruct (@exists_last _ (t1 :: t')) as (mid & e' & Et); [discriminate|].
    rewrite Et in *. clear t1 t' Et.
    assert (Ee : e' = e).
    { rewrite Etext in Erev. cbn [rev] in Erev. rewrite rev_app_distr in Erev.
      cbn [rev app] in Erev. now injection Erev as -> _. }
    subst e'.
    assert (Hc2 : c <> 42%N /\ c <> 95%N) by (apply Hin; now left).
    assert (He2 : e <> 42%N /\ e <> 95%N)
      by (apply Hin; right; apply in_or_app; right; now left).
    apply matcher_Alt_l. unfold nset, star.
    rewrite matcher_Seq. cbn [app]. rewrite <- app_assoc. cbn [app].
    rewrite matcher_Chr by now apply Hsus.
    rewrite matcher_Seq.
    apply (@matcher_greedy_gives_back false false (ncls (one_of [star_c; under_c])) _
             mid e [42%N] _ _ 0).
    + reflexivity.
    + now apply Hone.
    + apply Forall_forall. intros d Hd. apply Hone, Hin.
      right. apply in_or_app. now left.
    + lia.
    + reflexivity.
    + rewrite matcher_Chr by now apply Hsus.
      rewrite HK_some. cbn [rev app]. rewrite !rev_app_distr. cbn [rev app].
      rewrite <- !app_assoc. reflexivity.
Qed.

(** Two literal code units in a row do not match two code units of which
    one is another. *)
Lemma literal_pair_none (ml : bool) (a b d1 d2 : N) (c : Cont)
  (before rest : jsstring) (caps : list (nat * jsstring)) :
  d1 <> a \/ d2 <> b ->
  matcher false ml (Seq (Chr (cls (N.eqb a))) (Chr (cls (N.eqb b)))) c
          (mkState before (d1 :: d2 :: rest) caps) = None.
Proof.
  intros H. cbn [matcher st_after st_before st_caps]. unfold cc_match.
  cbn [cc_invert cc_set cls]. rewrite !xorb_false_l.
  destruct (N.eqb_spec a d1) as [E1|E1]; [|reflexivity].
  destruct (N.eqb_spec b d2) as [E2|E2]; [|reflexivity].
  subst. destruct H; congruence.
Qed.

Lemma free_of_starred (l : list N) (text : jsstring) :
  ~ In 42%N l -> free_of l text -> free_of l (starred text).
Proof.
  intros Hl Ht. unfold starred.
  apply Forall_app; split; [now repeat constructor|].
  apply Forall_app; split; [exact Ht | now repeat constructor].
Qed.

Lemma free_of_em (l : list N) (text : jsstring) :
  free_of l (str "<em>/") -> free_of l text -> free_of l (em text).
Proof.
  intros Htag Ht. unfold free_of in Htag. rewrite Forall_forall in Htag.
  unfold em. repeat (apply Forall_app; split); try exact Ht;
    repeat constructor; apply Htag; cbn; tauto.
Qed.

(** The pattern for bold text finds nothing in a text between two single
    asterisks. *)
Lemma no_bold_in_starred (text : jsstring) :
  text <> [] -> free_of [42; 95]%N text -> no_match re_bold (starred text).
Proof.
  intros Hne Hfree.
  assert (Hb : begins_re [42; 95]%N re_bold) by solve_begins.
  destruct text as [|c t]; [congruence|].
  assert (Hc : c <> 42%N).
  { apply Forall_inv in Hfree. intros E. apply Hfree. subst c. now left. }
  unfold starred. cbn [str list_ascii_of_string map app].
  change (N_of_ascii "*") with 42%N.
  apply no_match_cons.
  - intros before. unfold match_at, re_bold.
    cbn [re_body re_ignoreCase re_multiline rseq lit map str list_ascii_of_string].
    rewrite matcher_Seq, matcher_Group.
    etransitivity; [apply matcher_Alt_r; apply literal_pair_none; now right|].
    apply literal_pair_none. left. discriminate.
  - change (c :: t ++ [42%N]) with ((c :: t) ++ [42%N]).
    apply no_match_before with (l := [42; 95]%N); [exact Hb| |exact Hfree].
    apply no_match_cons; [intros before; reflexivity|].
    apply no_match_nil. intros before. reflexivity.
Qed.

Lemma processTextFormatting_starred (text : jsstring) :
  text <> [] -> trim text = text -> free_of (DQ :: str "*_~") text ->
  processTextFormatting (starred text) = em text.
Proof.
  intros Hne Htrim H.
  assert (Hq : free_of [DQ] (starred text))
    by (apply free_of_starred; [not_in | sub_free H]).
  assert (Hs : free_of (str "~") (em text))
    by (apply free_of_em; [repeat constructor; not_in | sub_free H]).
  assert (Hsu : free_of [42; 95]%N text) by sub_free H.
  pose proof (match_starred Hne Htrim Hsu) as Hm.
  unfold processTextFormatting. cbv zeta.
  rewrite (@replace_all_needs [DQ] re_double_quotes _ (starred text))
    by first [exact Hq | solve_needs].
  rewrite (@replace_all_with_none_from re_bold bold_of (starred text))
    by (apply no_match_from_any; now apply no_bold_in_starred).
  assert (Hi : replace_all re_italic em2 (starred text) = em text).
  { unfold starred in Hm |- *. cbn [str list_ascii_of_string map app] in Hm |- *.
    rewrite (@replace_all_whole re_italic _ _ _ _ Hm); [reflexivity | reflexivity |].
    cbn [rev]. rewrite rev_app_distr. reflexivity. }
  rewrite Hi. inert (str "~") (em text) Hs. reflexivity.
Qed.

Lemma trim_starred (text : jsstring) : trim (starred text) = starred text.
Proof.
  apply trim_ends; [reflexivity|].
  unfold starred. rewrite !rev_app_distr. reflexivity.
Qed.

(** X25. A text between two asterisks is rendered as emphasised text.
    The text is not empty, does not start or end with white space, and
    has no colon and none of the characters of [markup]: then
    [processTextFormatting] puts it in an element [em], and
    [convertMarkdownToHTML] returns this element in a paragraph. *)
Theorem starred_text_is_rendered_as_emphasis (text : jsstring) :
  text <> [] -> trim text = text -> free_of (58%N :: markup) text ->
  processTextFormatting (starred text) = em text
  /\ convertMarkdownToHTML (starred text) = wrapped (em text).
Proof.
  intros Hne Htrim H.
  assert (Hfmt : processTextFormatting (starred text) = em text)
    by (apply processTextFormatting_starred; [exact Hne | exact Htrim | sub_free H]).
  split; [exact Hfmt|].
  rewrite line_reaches_formatting.
  - rewrite Hfmt. apply (@element_in_paragraph (str "em") text); [|exact H].
    unfold inline_names. in_list.
  - apply free_of_starred; [not_in | sub_free H].
  - apply trim_starred.
Qed.

Lemma starred_text_is_rendered_as_emphasis_witness :
  convertMarkdownToHTML (str "*only once*") = str "<p><em>only once</em></p>".
Proof.
  apply (starred_text_is_rendered_as_emphasis (text := str "only once")).
  - discriminate.
  - reflexivity.
  - repeat constructor; not_in.
Defined.

(** ** Bullet items *)

Lemma space_ic (d : N) : cc_match true (cls is_space) d = is_space d.
Proof.
  destruct (cc_match true (cls is_space) d) eqn:E.
  - apply cc_match_space in E. symmetry. now apply is_space_In.
  - unfold cc_match in E. cbn [cc_invert cc_set cls] in E. rewrite xorb_false_l in E.
    destruct (is_space d); [discriminate | reflexivity].
Qed.

Lemma dot_ic (d : N) :
  is_line_terminator d = false -> cc_match true (ncls is_line_terminator) d = true.
Proof.
  intros H. unfold cc_match. cbn [cc_invert cc_set ncls]. rewrite H. cbn [orb].
  assert (Hu : is_line_terminator (to_upper d) = false).
  { unfold to_upper. destruct (is_lower d) eqn:El; [|exact H].
    unfold is_lower, in_range in El. apply andb_true_iff in El as [E1 E2].
    apply N.leb_le in E1, E2.
    unfold is_line_terminator, one_of, line_terminators. cbn [existsb].
    repeat (match goal with
            | |- context [(?a =? ?b)%N] =>
                destruct (N.eqb_spec a b); [exfalso; lia|]
            end).
    reflexivity. }
  assert (Hl : is_line_terminator (to_lower d) = false).
  { unfold to_lower. destruct (is_upper d) eqn:El; [|exact H].
    unfold is_upper, in_range in El. apply andb_true_iff in El as [E1 E2].
    apply N.leb_le in E1, E2.
    unfold is_line_terminator, one_of, line_terminators. cbn [existsb].
    repeat (match goal with
            | |- context [(?a =? ?b)%N] =>
                destruct (N.eqb_spec a b); [exfalso; lia|]
            end).
    reflexivity. }
  now rewrite Hu, Hl.
Qed.

(** A repetition that may be empty is skipped when its atom does not
    match. *)
Lemma matcher_Rep_skip (ic ml : bool) (max : option nat) (r : regex) (c : Cont)
  (x : MatchState) :
  (forall k, matcher ic ml r k (clear_captures (groups r) x) = None) ->
  matcher ic ml (Rep 0 max true r) c x = c x.
Proof.
  intros H. cbn [matcher].
  replace (0 + length (st_after x) + 1) with (S (length (st_after x))) by lia.
  rewrite RepeatMatcher_S. cbv zeta. cbn [Nat.eqb negb].
  destruct max as [[|k]|]; [reflexivity| |]; now rewrite H.
Qed.

(** The start of the two patterns for list lines on a line with a hyphen
    as bullet: no indent, and the hyphen as marker. *)
Lemma bullet_start (rest : regex) (c : Cont) (t : jsstring) (z : MatchState) :
  matcher true false rest c (mkState [45%N] (32%N :: t) [(2, [45%N]); (1, [])]) = Some z ->
  matcher true false
    (Seq Bol (Seq (Group 1 (star ws))
                  (Seq (Group 2 (ralt (marker_basic ++ marker_roman))) rest)))
    c (mkState [] (bullet_item t) []) = Some z.
Proof.
  intros H. unfold bullet_item. cbn [str list_ascii_of_string map app].
  change (N_of_ascii "-") with 45%N. change (N_of_ascii " ") with 32%N.
  rewrite matcher_Seq, matcher_Bol by reflexivity.
  rewrite matcher_Seq, matcher_Group.
  apply (@matcher_greedy_run true false (cls is_space) _ [] (45%N :: 32%N :: t) [] []
           0 None);
    [reflexivity | constructor | simpl; lia | exact I |].
  cbn [rev app set_capture st_before st_after st_caps].
  rewrite Nat.sub_diag. cbn [firstn].
  rewrite matcher_Seq, matcher_Group.
  cbn [ralt app marker_basic marker_roman]. apply matcher_Alt_l.
  unfold set_capture at 2 3 4. cbn [st_before st_after st_caps].
  unfold ch. rewrite matcher_Chr by reflexivity.
  unfold set_capture. cbn [st_before st_after st_caps].
  change (45%N :: 32%N :: t) with ([45%N] ++ (32%N :: t)). rewrite firstn_run.
  exact H.
Qed.

Lemma item_text_head (t : jsstring) :
  trim_start t = t ->
  match t with [] => True | d :: _ => cc_match true (cls is_space) d = false end.
Proof.
  intros Ht. pose proof (trim_start_head t) as H. rewrite Ht in H.
  destruct t as [|d t']; [exact I|]. now rewrite space_ic.
Qed.

Lemma match_bullet_prefix (t : jsstring) :
  trim_start t = t ->
  match_at re_list_prefix [] (bullet_item t)
  = Some (mkState [32%N; 45%N] t [(2, [45%N]); (1, [])]).
Proof.
  intros Ht. unfold match_at, re_list_prefix.
  cbn [re_body re_ignoreCase re_multiline rseq]. apply bullet_start.
  apply (@matcher_greedy_run true false (cls is_space) _ [32%N] t _ _ 1 None).
  - now apply item_text_head.
  - repeat constructor.
  - simpl. lia.
  - exact I.
  - reflexivity.
Qed.

Lemma match_bullet_line (t : jsstring) :
  item_text t ->
  match_at re_list_line [] (bullet_item t)
  = Some (mkState (rev (bullet_item t)) [] [(4, t); (2, [45%N]); (1, [])]).
Proof.
  intros [Hfree Ht]. unfold match_at, re_list_line.
  cbn [re_body re_ignoreCase re_multiline rseq]. apply bullet_start.
  rewrite matcher_Seq.
  apply (@matcher_greedy_run true false (cls is_space) _ [32%N] t _ _ 1 None).
  { now apply item_text_head. }
  { repeat constructor. }
  { simpl. lia. }
  { exact I. }
  cbn [rev app]. rewrite matcher_Seq. unfold opt.
  rewrite matcher_Rep_skip.
  2:{ intros k. rewrite matcher_Group.
      cbn [rseq lit map str list_ascii_of_string].
      rewrite matcher_Seq. cbn [matcher clear_captures st_after st_before st_caps].
      destruct t as [|d t']; [reflexivity|].
      destruct (cc_match true (cls (N.eqb (N_of_ascii "["))) d) eqn:E; [|reflexivity].
      apply cc_match_ic_exact in E; [|reflexivity].
      apply Forall_inv in Hfree. exfalso. apply Hfree. left. now rewrite E. }
  rewrite matcher_Seq, matcher_Group.
  apply (@matcher_greedy_run_end true false (ncls is_line_terminator) _ t _ _ 0 None).
  { assert (Hlt : free_of line_terminators t) by sub_free Hfree.
    apply free_of_not_terminator in Hlt.
    eapply Forall_impl; [|exact Hlt]. intros d Hd. now apply dot_ic. }
  { lia. }
  { exact I. }
  unfold set_capture. cbn [st_before st_after st_caps].
  change (length (@nil N)) with 0. rewrite Nat.sub_0_r, firstn_all.
  rewrite matcher_Eol by reflexivity.
  unfold bullet_item. cbn [str list_ascii_of_string map app rev].
  rewrite <- !app_assoc. reflexivity.
Qed.

Lemma count_bullets (texts : list jsstring) :
  Forall item_text texts ->
  forall k, fold_left count_indent (map bullet_item texts) [(0, S k)]
            = [(0, S k + length texts)].
Proof.
  induction 1 as [|t texts [_ Ht] _ IH]; intros k; cbn [map fold_left length].
  - now rewrite Nat.add_0_r.
  - unfold count_indent at 2. unfold match_.
    rewrite search_eq, (match_bullet_prefix Ht).
    unfold cap, info_of. cbn [mi_caps st_caps get_capture Nat.eqb length map_get map_set].
    rewrite Nat.add_1_r, IH. f_equal. f_equal. lia.
Qed.

Lemma levels_of_bullets (texts : list jsstring) :
  texts <> [] -> Forall item_text texts ->
  analyzeIndentationLevels (map bullet_item texts) = [(0, 0)].
Proof.
  intros Hne H. destruct texts as [|t texts]; [congruence|].
  inversion H as [|? ? [_ Ht] Hrest]; subst.
  unfold analyzeIndentationLevels. cbv zeta. cbn [map fold_left].
  unfold count_indent at 2. unfold match_.
  rewrite search_eq, (match_bullet_prefix Ht).
  unfold cap, info_of.
  cbn [mi_caps st_caps get_capture Nat.eqb length map_get map_set Nat.add].
  rewrite (count_bullets Hrest). reflexivity.
Qed.

(** What the loop of [processLists] does with a line with a hyphen as
    bullet: the open lists are closed, a new list is opened, and the item
    is written. *)
Lemma process_bullet_line (lines : list jsstring) (i : nat) (t : jsstring)
  (stack : list ListCtx) (res : list jsstring) :
  line_at lines i = bullet_item t -> item_text t ->
  process_line lines [(0, 0)] i (mkLists stack res)
  = mkLists [mkCtx ul 0] (res ++ closing_tags stack ++ [open_tag ul; li t]).
Proof.
  intros Hline Ht. unfold process_line. cbv zeta. rewrite Hline.
  unfold match_. rewrite search_eq, (match_bullet_line Ht).
  unfold cap, info_of. cbn [mi_caps st_caps get_capture Nat.eqb length].
  unfold isActualListItem. change (test re_bullet [45%N]) with true. cbv iota.
  cbn [negb]. change (test re_ordered [45%N]) with false. cbv iota.
  change (calculateNestingLevel 0 [(0, 0)]) with 0.
  rewrite adjustListStack_level_0. unfold push_result. cbn [listStack result checkbox].
  unfold li. rewrite <- !app_assoc. reflexivity.
Qed.

Lemma walk_bullets :
  forall rest done stack res,
    Forall item_text rest ->
    walk (map bullet_item (done ++ rest)) [(0, 0)] (length done) (length rest)
         (mkLists stack res)
    = mkLists (match rest with [] => stack | _ => [mkCtx ul 0] end)
              (res ++ item_lines stack rest).
Proof.
  induction rest as [|t rest IH]; intros done stack res H.
  - cbn [length walk item_lines]. now rewrite app_nil_r.
  - inversion H as [|? ? Ht Hrest]; subst. cbn [length walk item_lines].
    rewrite (@process_bullet_line _ _ t).
    + replace (done ++ t :: rest) with ((done ++ [t]) ++ rest)
        by (rewrite <- app_assoc; reflexivity).
      replace (S (length done)) with (length (done ++ [t]))
        by (rewrite length_app; simpl; lia).
      rewrite IH by exact Hrest.
      f_equal.
      * now destruct rest.
      * rewrite <- !app_assoc. reflexivity.
    + unfold line_at. rewrite map_app, app_nth2 by (rewrite length_map; lia).
      rewrite length_map, Nat.sub_diag. reflexivity.
    + exact Ht.
Qed.

Lemma item_lines_closed (texts : list jsstring) :
  forall stack,
    texts <> [] ->
    item_lines stack texts ++ [close_tag ul]
    = closing_tags stack ++ flat_map own_list texts.
Proof.
  induction texts as [|t rest IH]; intros stack Hne; [congruence|].
  cbn [item_lines flat_map]. rewrite <- !app_assoc. f_equal.
  destruct rest as [|t2 rest'].
  - reflexivity.
  - cbn [app]. f_equal. f_equal.
    rewrite (IH [mkCtx ul 0]) by discriminate. reflexivity.
Qed.

Lemma free_of_bullet_item (l : list N) (t : jsstring) :
  ~ In 45%N l -> ~ In 32%N l -> free_of l t -> free_of l (bullet_item t).
Proof. intros H45 H32 Ht. unfold bullet_item. now repeat constructor. Qed.

(** What the walk leaves in [result] for a text of such lines. *)
Lemma walk_of_bullets (texts : list jsstring) :
  texts <> [] -> Forall item_text texts ->
  result
    (closeAllLists
       (walk (map bullet_item texts) (analyzeIndentationLevels (map bullet_item texts))
             0 (length (map bullet_item texts)) (mkLists [] [])))
  = flat_map own_list texts.
Proof.
  intros Hne H.
  rewrite (levels_of_bullets Hne H), length_map.
  pose proof (@walk_bullets texts [] [] [] H) as Hwalk.
  cbn [app length] in Hwalk. rewrite Hwalk.
  unfold closeAllLists. cbn [listStack result app].
  destruct texts as [|t rest]; [congruence|].
  cbn [close_all type].
  rewrite (@item_lines_closed (t :: rest) []) by discriminate. reflexivity.
Qed.

(** X26. Every item of a list with hyphens as bullets gets a list of its
    own.  The text is one line [- text] for every text of [texts]; each
    text is on one line, does not start with white space and has no
    opening bracket.  Then [processLists] writes, for every item, an
    opening tag [ul], the item and a closing tag [ul]: the items are not
    gathered in one list. *)
Theorem every_bullet_item_gets_a_list_of_its_own (texts : list jsstring) :
  texts <> [] -> Forall item_text texts ->
  processLists (join nl (map bullet_item texts)) = join nl (flat_map own_list texts).
Proof.
  intros Hne H. unfold processLists. cbv zeta.
  assert (Hsplit : split_on NL (join nl (map bullet_item texts))
                   = map bullet_item texts).
  { apply split_on_join.
    - destruct texts; [congruence | discriminate].
    - apply Forall_forall. intros line Hin. apply in_map_iff in Hin.
      destruct Hin as (t & <- & Hin). rewrite Forall_forall in H.
      destruct (H t Hin) as [Hfree _].
      apply free_of_one_line. apply free_of_bullet_item; [not_in | not_in |].
      sub_free Hfree. }
  rewrite Hsplit. f_equal. now apply walk_of_bullets.
Qed.

Lemma every_bullet_item_gets_a_list_of_its_own_witness :
  processLists (str "- milk" ++ nl ++ str "- eggs")
  = join nl [str "<ul>"; str "<li>milk</li>"; str "</ul>";
             str "<ul>"; str "<li>eggs</li>"; str "</ul>"].
Proof.
  apply (@every_bullet_item_gets_a_list_of_its_own [str "milk"; str "eggs"]).
  - discriminate.
  - repeat constructor; not_in.
Defined.

(** ** One walk of [s.replace] *)

Lemma scan_miss (re : RegExp) (g : MatchInfo -> jsstring) (before : jsstring) (d : N)
  (rest : jsstring) :
  match_at re before (d :: rest) = None ->
  scan re g before (d :: rest) 0 = d :: scan re g (d :: before) rest 0.
Proof.
  intros H. unfold scan. cbn [replace_scan]. rewrite H.
  now destruct (replace_scan _ _ (d :: before) rest 0 tt) as [[] out].
Qed.

Lemma scan_end (re : RegExp) (g : MatchInfo -> jsstring) (before : jsstring) :
  match_at re before [] = None -> scan re g before [] 0 = [].
Proof. intros H. unfold scan. cbn [replace_scan]. now rewrite H. Qed.

Lemma scan_hit (re : RegExp) (g : MatchInfo -> jsstring) (before : jsstring) (d : N)
  (rest : jsstring) (y : MatchState) (k : nat) :
  match_at re before (d :: rest) = Some y ->
  length (mi_matched (info_of before (d :: rest) y)) = S k ->
  scan re g before (d :: rest) 0
  = g (info_of before (d :: rest) y) ++ scan re g (d :: before) rest k.
Proof.
  intros H Hk. unfold scan. cbn [replace_scan]. rewrite H, Hk.
  now destruct (replace_scan _ _ (d :: before) rest k tt) as [[] out].
Qed.

Lemma scan_skip (re : RegExp) (g : MatchInfo -> jsstring) (p rest before : jsstring) :
  scan re g before (p ++ rest) (length p) = scan re g (rev p ++ before) rest 0.
Proof. unfold scan. now rewrite replace_scan_skip. Qed.

(** The walk passes a text without the code units a match begins with. *)
Lemma scan_free (l : list N) (re : RegExp) (g : MatchInfo -> jsstring) (tail : jsstring) :
  begins_re l re ->
  forall s before,
    free_of l s ->
    scan re g before (s ++ tail) 0 = s ++ scan re g (rev s ++ before) tail 0.
Proof.
  intros Hb. induction s as [|d s IH]; intros before Hs; [reflexivity|].
  cbn [app rev]. rewrite scan_miss.
  - rewrite IH by now apply Forall_inv_tail in Hs.
    now rewrite <- app_assoc.
  - apply match_at_begins with (l := l); [exact Hb|]. now apply Forall_inv in Hs.
Qed.

(** ** Line ends *)

Lemma match_at_cr (before rest : jsstring) (d : N) :
  match_at re_cr before (d :: rest)
  = if (CR =? d)%N then Some (mkState (d :: before) rest []) else None.
Proof.
  unfold match_at, re_cr, cset. cbn [re_body re_ignoreCase re_multiline matcher st_after].
  unfold cc_match. cbn [cc_invert cc_set cls]. rewrite xorb_false_l. reflexivity.
Qed.

Lemma match_at_crlf (before rest : jsstring) (c d : N) :
  match_at re_crlf before (c :: d :: rest)
  = if (c =? CR)%N && (d =? NL)%N
    then Some (mkState (d :: c :: before) rest []) else None.
Proof.
  unfold match_at, re_crlf, cset.
  cbn [re_body re_ignoreCase re_multiline rseq matcher st_after st_before st_caps].
  unfold cc_match. cbn [cc_invert cc_set cls]. rewrite !xorb_false_l.
  rewrite (N.eqb_sym CR c), (N.eqb_sym NL d).
  destruct (c =? CR)%N; [|reflexivity]. destruct (d =? NL)%N; reflexivity.
Qed.

Lemma match_at_crlf_last (before : jsstring) (c : N) :
  match_at re_crlf before [c] = None.
Proof.
  unfold match_at, re_crlf, cset.
  cbn [re_body re_ignoreCase re_multiline rseq matcher st_after st_before st_caps].
  now destruct (cc_match false (cls (N.eqb CR)) c).
Qed.

(** [/\r\n/g] with a line feed as replacement. *)
Lemma scan_crlf (g : MatchInfo -> jsstring) :
  (forall mi, g mi = nl) ->
  forall n s before, length s <= n -> scan re_crlf g before s 0 = crlf_to_lf s.
Proof.
  intros Hg. induction n as [|n IH]; intros s before Hn.
  - destruct s; [|simpl in Hn; lia]. apply scan_end. reflexivity.
  - destruct s as [|c [|d rest]].
    + apply scan_end. reflexivity.
    + rewrite scan_miss by apply match_at_crlf_last.
      rewrite scan_end by reflexivity. reflexivity.
    + cbn [crlf_to_lf]. pose proof (match_at_crlf before rest c d) as Hm.
      destruct ((c =? CR)%N && (d =? NL)%N).
      * rewrite (@scan_hit _ _ _ _ _ _ 1 Hm).
        -- rewrite Hg. change (d :: rest) with ([d] ++ rest).
           change 1 with (length [d]). rewrite scan_skip.
           rewrite IH by (cbn [length] in *; lia). reflexivity.
        -- unfold info_of. cbn [mi_matched st_after].
           change (c :: d :: rest) with ([c; d] ++ rest). now rewrite firstn_run.
      * rewrite scan_miss by exact Hm. f_equal. apply IH. cbn [length] in *. lia.
Qed.

(** [/\r/g] with a line feed as replacement. *)
Lemma scan_cr (g : MatchInfo -> jsstring) :
  (forall mi, g mi = nl) ->
  forall s before, scan re_cr g before s 0 = cr_to_lf s.
Proof.
  intros Hg. induction s as [|d rest IH]; intros before.
  - apply scan_end. reflexivity.
  - cbn [cr_to_lf map]. pose proof (match_at_cr before rest d) as Hm.
    rewrite (N.eqb_sym CR d) in Hm. destruct (d =? CR)%N.
    + rewrite (@scan_hit _ _ _ _ _ _ 0 Hm).
      * rewrite Hg. change (scan re_cr g (d :: before) rest 0)
          with (scan re_cr g (d :: before) ([] ++ rest) (length (@nil N))).
        rewrite scan_skip. cbn [rev app]. now rewrite IH.
      * unfold info_of. cbn [mi_matched st_after].
        change (d :: rest) with ([d] ++ rest). now rewrite firstn_run.
    + rewrite scan_miss by exact Hm. f_equal. apply IH.
Qed.

Lemma cr_to_lf_no_cr (s : jsstring) : Forall (fun d => d <> CR) (cr_to_lf s).
Proof.
  induction s as [|d s IH]; cbn [cr_to_lf map]; constructor; [|exact IH].
  destruct (N.eqb_spec d CR) as [E|E]; [discriminate | exact E].
Qed.

Lemma replace_scan_Forall (St : Type) (P : N -> Prop) (re : RegExp)
  (f : St -> MatchInfo -> St * jsstring) :
  (forall s mi, Forall P (snd (f s mi))) ->
  forall after before skip s,
    Forall P after -> Forall P (snd (replace_scan re f before after skip s)).
Proof.
  intros Hf. induction after as [|d rest IH]; intros before skip s Hafter.
  - destruct skip as [|k]; simpl; [|constructor].
    destruct (match_at re before []) as [y|]; [|constructor].
    specialize (Hf s (info_of before [] y)). destruct (f s _). exact Hf.
  - pose proof (Forall_inv Hafter) as Hd.
    pose proof (Forall_inv_tail Hafter) as Hrest.
    destruct skip as [|k]; simpl; [|apply IH; exact Hrest].
    destruct (match_at re before (d :: rest)) as [y|].
    + specialize (Hf s (info_of before (d :: rest) y)).
      destruct (f s _) as [s1 out]. simpl in Hf.
      destruct (length _) as [|k].
      * specialize (IH (d :: before) 0 s1 Hrest).
        destruct (replace_scan _ _ _ _ _ _) as [s2 tl]. simpl in *.
        apply Forall_app. split; [exact Hf|]. constructor; assumption.
      * specialize (IH (d :: before) k s1 Hrest).
        destruct (replace_scan _ _ _ _ _ _) as [s2 tl]. simpl in *.
        apply Forall_app. split; assumption.
    + specialize (IH (d :: before) 0 s Hrest).
      destruct (replace_scan _ _ _ _ _ _) as [s1 tl]. simpl in *.
      constructor; assumption.
Qed.

(** X19. [normalizeContent] gives every line one end.  After the quotes
    are stripped, every pair of a carriage return and a line feed becomes
    one line feed, and then every carriage return that is left becomes a
    line feed; the blanks at the line ends are removed from that text.
    What is returned has no carriage return. *)
Theorem normalizeContent_leaves_no_carriage_return (text : jsstring) :
  normalizeContent text = replace_all re_trailing [] (unix_lines (stripQuotes text))
  /\ Forall (fun d => d <> CR) (normalizeContent text).
Proof.
  assert (Hlines : forall s, replace_all re_cr nl (replace_all re_crlf nl s)
                             = unix_lines s).
  { intros s. unfold unix_lines, replace_all, replace_all_with. fold (scan re_crlf).
    change (scan re_cr (fun mi => GetSubstitution (ngroups re_cr) mi nl) []
                 (scan re_crlf (fun mi => GetSubstitution (ngroups re_crlf) mi nl) [] s 0)
                 0
            = cr_to_lf (crlf_to_lf s)).
    rewrite (@scan_crlf _ (fun mi => eq_refl) (length s)) by lia.
    now rewrite scan_cr. }
  assert (Heq : normalizeContent text
                = replace_all re_trailing [] (unix_lines (stripQuotes text))).
  { unfold normalizeContent. cbv zeta. now rewrite Hlines. }
  split; [exact Heq|].
  rewrite Heq. unfold replace_all, replace_all_with.
  apply replace_scan_Forall.
  - intros s mi. simpl. constructor.
  - apply cr_to_lf_no_cr.
Qed.

(** ** The keys of the protected fragments *)

(** The walk of [s.replace] passes a text without the code units a match
    begins with. *)
Lemma replace_scan_free (St : Type) (l : list N) (re : RegExp)
  (f : St -> MatchInfo -> St * jsstring) (tail : jsstring) :
  begins_re l re ->
  forall s before st,
    free_of l s ->
    replace_scan re f before (s ++ tail) 0 st
    = (fst (replace_scan re f (rev s ++ before) tail 0 st),
       s ++ snd (replace_scan re f (rev s ++ before) tail 0 st)).
Proof.
  intros Hb. induction s as [|d s IH]; intros before st Hs.
  - cbn [app rev]. now destruct (replace_scan re f before tail 0 st).
  - cbn [app rev replace_scan].
    rewrite (@match_at_begins l re before (d :: s ++ tail) Hb)
      by now apply Forall_inv in Hs.
    rewrite IH by now apply Forall_inv_tail in Hs.
    rewrite <- app_assoc. reflexivity.
Qed.

(** One match in a text: what is before it has none of the code units a
    match begins with, and the pattern matches nowhere after it. *)
Lemma replace_scan_once (St : Type) (l : list N) (re : RegExp)
  (f : St -> MatchInfo -> St * jsstring) (pre post : jsstring) (d : N) (m : jsstring)
  (y : MatchState) (st : St) :
  begins_re l re -> free_of l pre ->
  match_at re (rev pre) ((d :: m) ++ post) = Some y -> st_after y = post ->
  no_match re post ->
  replace_scan re f [] (pre ++ (d :: m) ++ post) 0 st
  = (fst (f st (info_of (rev pre) ((d :: m) ++ post) y)),
     pre ++ snd (f st (info_of (rev pre) ((d :: m) ++ post) y)) ++ post).
Proof.
  intros Hb Hpre Hy Hafter Hpost.
  rewrite (@replace_scan_free St l re f _ Hb pre [] st Hpre). rewrite app_nil_r.
  assert (Hlen : length (mi_matched (info_of (rev pre) ((d :: m) ++ post) y))
                 = S (length m)).
  { cbn [info_of mi_matched]. rewrite Hafter, firstn_run. reflexivity. }
  cbn [app replace_scan] in Hy, Hlen |- *. rewrite Hy, Hlen.
  destruct (f st (info_of (rev pre) (d :: m ++ post) y)) as [st1 out].
  rewrite replace_scan_skip.
  rewrite (replace_scan_none f Hpost). reflexivity.
Qed.

Lemma not_backtick (d : N) :
  d <> backtick -> cc_match false (cls (N.eqb backtick)) d = false.
Proof.
  intros H. rewrite cc_match_cls. apply N.eqb_neq. congruence.
Qed.

Lemma free_of_backtick_head (s : jsstring) :
  free_of [backtick] s ->
  match s with [] => True | d :: _ => d <> backtick end.
Proof.
  intros H. destruct s as [|d s]; [exact I|].
  apply Forall_inv in H. intros E. apply H. now left.
Qed.

Lemma match_fenced (code post before : jsstring) :
  free_of [backtick] code ->
  match_at re_fence before (fenced code ++ post)
  = Some (mkState (rev (fenced code) ++ before) post [(1, code)]).
Proof.
  intros Hcode. unfold match_at, re_fence, fenced.
  cbn [re_body re_ignoreCase re_multiline rseq lit map str list_ascii_of_string app].
  rewrite <- !app_assoc. cbn [app].
  rewrite matcher_Seq, matcher_Seq, matcher_Chr by reflexivity.
  rewrite matcher_Seq, matcher_Chr by reflexivity.
  rewrite matcher_Chr by reflexivity.
  rewrite matcher_Seq, matcher_Group. unfold lazy_star, any, cset.
  change (N_of_ascii "`") with backtick.
  apply (@matcher_lazy_run false false (cls (fun _ => true)) _ code
           (backtick :: backtick :: backtick :: post) _ _ 0).
  - apply Forall_forall. intros d _. reflexivity.
  - lia.
  - intros p1 p2 Hsplit Hp2 _.
    destruct p2 as [|d p2]; [congruence|].
    assert (Hd : d <> backtick).
    { assert (Hin : In d code) by (rewrite Hsplit; apply in_or_app; right; now left).
      unfold free_of in Hcode. rewrite Forall_forall in Hcode.
      intros E. apply (Hcode d Hin). now left. }
    unfold set_capture. cbn [app matcher st_after st_before st_caps].
    now rewrite (not_backtick Hd).
  - unfold set_capture. cbn [st_after st_before st_caps].
    rewrite firstn_run.
    rewrite matcher_Seq, matcher_Chr by reflexivity.
    rewrite matcher_Seq, matcher_Chr by reflexivity.
    rewrite matcher_Chr by reflexivity.
    cbn [rev app]. rewrite !rev_app_distr. cbn [rev app]. rewrite <- !app_assoc.
    reflexivity.
Qed.

Lemma match_code_span (code post before : jsstring) :
  code <> [] -> free_of [backtick] code ->
  match_at re_inline before (code_span code ++ post)
  = Some (mkState (rev (code_span code) ++ before) post [(1, code)]).
Proof.
  intros Hne Hcode. unfold match_at, re_inline, code_span.
  cbn [re_body re_ignoreCase re_multiline rseq lit map str list_ascii_of_string app].
  rewrite <- !app_assoc. cbn [app].
  rewrite matcher_Seq, matcher_Chr by reflexivity.
  rewrite matcher_Seq, matcher_Group. unfold plus, nset.
  change (N_of_ascii "`") with backtick.
  apply (@matcher_greedy_run false false (ncls (N.eqb backtick)) _ code
           (backtick :: post) _ _ 1 None).
  - reflexivity.
  - eapply Forall_impl; [|exact Hcode]. intros d Hd. cbv beta in Hd.
    unfold cc_match. cbn [cc_invert cc_set ncls].
    destruct (N.eqb_spec backtick d) as [E|E]; [|reflexivity].
    exfalso. apply Hd. now left.
  - destruct code; [congruence | simpl; lia].
  - exact I.
  - unfold set_capture. cbn [st_after st_before st_caps].
    rewrite firstn_run. rewrite matcher_Chr by reflexivity.
    cbn [rev app]. rewrite !rev_app_distr. cbn [rev app]. rewrite <- !app_assoc.
    reflexivity.
Qed.

(** A fence does not start at a backtick that stands alone. *)
Lemma no_fence_at_one_backtick (before rest : jsstring) :
  match rest with [] => True | d :: _ => d <> backtick end ->
  match_at re_fence before (backtick :: rest) = None.
Proof.
  intros Hrest. destruct rest as [|d rest]; [reflexivity|].
  unfold match_at, re_fence.
  cbn [re_body re_ignoreCase re_multiline rseq lit map str list_ascii_of_string].
  rewrite matcher_Seq, matcher_Seq, matcher_Chr by reflexivity.
  rewrite matcher_Seq. cbn [matcher st_after]. change (N_of_ascii "`") with backtick.
  now rewrite (not_backtick Hrest).
Qed.

Lemma no_fence_in_code_span (pre code post : jsstring) :
  free_of [backtick] pre -> code <> [] -> free_of [backtick] code ->
  free_of [backtick] post ->
  no_match re_fence (pre ++ code_span code ++ post).
Proof.
  intros Hpre Hne Hcode Hpost.
  assert (Hb : begins_re [backtick] re_fence) by solve_begins.
  apply no_match_before with (l := [backtick]); [exact Hb| |exact Hpre].
  unfold code_span. cbn [str list_ascii_of_string map app].
  change (N_of_ascii "`") with backtick. rewrite <- app_assoc.
  apply no_match_cons.
  { intros before. apply no_fence_at_one_backtick.
    destruct code as [|c code']; [congruence|]. cbn [app].
    apply (free_of_backtick_head Hcode). }
  apply no_match_before with (l := [backtick]); [exact Hb| |exact Hcode].
  cbn [app]. apply no_match_cons.
  { intros before. apply no_fence_at_one_backtick.
    now apply free_of_backtick_head. }
  now apply no_match_free with (l := [backtick]).
Qed.

Lemma digits_free_of_backtick (u : Decimal.uint) :
  free_of [backtick] (str (NilZero.string_of_uint u)).
Proof.
  assert (H : forall v, free_of [backtick] (str (NilEmpty.string_of_uint v))).
  { unfold free_of.
    induction v; cbn [NilEmpty.string_of_uint str list_ascii_of_string map];
      first [apply Forall_nil
            | apply Forall_cons; [intros [E|[]]; discriminate E | exact IHv]]. }
  destruct u; try apply H. repeat constructor. intros [E|[]]. discriminate E.
Qed.

Lemma keys_free_of_backtick (i : nat) :
  free_of [backtick] (code_block_key i) /\ free_of [backtick] (inline_code_key i).
Proof.
  unfold code_block_key, inline_code_key, nat_to_string.
  split; (apply Forall_app; split; [repeat constructor; not_in|]);
    (apply Forall_app; split; [apply digits_free_of_backtick | repeat constructor; not_in]).
Qed.

Lemma protectCodeBlocks_fenced (pre code post : jsstring) (blocks inline : list jsstring) :
  free_of [backtick] pre -> free_of [backtick] code -> free_of [backtick] post ->
  protectCodeBlocks (pre ++ fenced code ++ post) blocks inline
  = (pre ++ code_block_key (length blocks) ++ post,
     blocks ++ [str "<pre><code>" ++ escapeHtml code ++ str "</code></pre>"],
     inline).
Proof.
  intros Hpre Hcode Hpost. unfold protectCodeBlocks.
  assert (Hb : begins_re [backtick] re_fence) by solve_begins.
  assert (Hcons : exists d m, fenced code = d :: m) by (now eexists; eexists).
  destruct Hcons as (d & m & Em).
  pose proof (match_fenced post (rev pre) Hcode) as Hm. rewrite Em in Hm |- *.
  rewrite (@replace_scan_once _ [backtick] re_fence protect_fence pre post d m _ blocks
             Hb Hpre Hm eq_refl)
    by (apply needs_no_match with (l := [backtick]); [solve_needs | exact Hpost]).
  unfold protect_fence, cap, info_of. cbn [mi_caps st_caps get_capture Nat.eqb fst snd].
  rewrite (@replace_scan_needs _ [backtick]); [reflexivity | solve_needs |].
  apply Forall_app; split; [exact Hpre|].
  apply Forall_app; split; [apply keys_free_of_backtick | exact Hpost].
Qed.

Lemma protectCodeBlocks_code_span (pre code post : jsstring)
  (blocks inline : list jsstring) :
  free_of [backtick] pre -> code <> [] -> free_of [backtick] code ->
  free_of [backtick] post ->
  protectCodeBlocks (pre ++ code_span code ++ post) blocks inline
  = (pre ++ inline_code_key (length inline) ++ post,
     blocks,
     inline ++ [str "<code>" ++ escapeHtml code ++ str "</code>"]).
Proof.
  intros Hpre Hne Hcode Hpost. unfold protectCodeBlocks.
  rewrite (replace_scan_none protect_fence
             (no_fence_in_code_span Hpre Hne Hcode Hpost)).
  assert (Hb : begins_re [backtick] re_inline) by solve_begins.
  assert (Hcons : exists d m, code_span code = d :: m) by (now eexists; eexists).
  destruct Hcons as (d & m & Em).
  pose proof (match_code_span post (rev pre) Hne Hcode) as Hm. rewrite Em in Hm |- *.
  rewrite (@replace_scan_once _ [backtick] re_inline protect_inline pre post d m _ inline
             Hb Hpre Hm eq_refl)
    by (apply needs_no_match with (l := [backtick]); [solve_needs | exact Hpost]).
  unfold protect_inline, cap, info_of. cbn [mi_caps st_caps get_capture Nat.eqb fst snd].
  reflexivity.
Qed.

(** A text without backticks holds no fence and no code span. *)
Lemma protectCodeBlocks_free (text : jsstring) (blocks inline : list jsstring) :
  free_of [backtick] text -> protectCodeBlocks text blocks inline = (text, blocks, inline).
Proof.
  intros H. unfold protectCodeBlocks.
  rewrite (@replace_scan_needs _ [backtick]); [| solve_needs | exact H].
  rewrite (@replace_scan_needs _ [backtick]); [reflexivity | solve_needs | exact H].
Qed.

Lemma restore_loop_snoc (key : nat -> jsstring) (fragment : jsstring) :
  forall (fragments : list jsstring) (i : nat) (text : jsstring),
    restore_loop key (fragments ++ [fragment]) i text
    = restore_one key (restore_loop key fragments i text) (i + length fragments) fragment.
Proof.
  induction fragments as [|f fragments IH]; intros i text; simpl.
  - now rewrite Nat.add_0_r.
  - rewrite IH. now rewrite Nat.add_succ_r.
Qed.

(** A pattern occurs first behind a text without its first character. *)
Lemma first_occurrence_behind (c : N) (p post : jsstring) :
  forall a : jsstring,
    ~ In c a ->
    forall x y, a ++ (c :: p) ++ post = x ++ (c :: p) ++ y -> length a <= length x.
Proof.
  induction a as [|d a IH]; intros Hc x y E; simpl; [lia|].
  destruct x as [|e x].
  - simpl in E. injection E as Ed _. exfalso. apply Hc. now left.
  - simpl in E. injection E as _ E. simpl. apply le_n_S. apply (IH (fun H => Hc (or_intror H)) x y E).
Qed.

Lemma escapeHtml_no_dollar (text : jsstring) :
  Forall (fun c => c <> 36%N) text -> Forall (fun c => c <> 36%N) (escapeHtml text).
Proof.
  induction 1 as [|c text Hc _ IH]; [constructor|].
  unfold escapeHtml. cbn [flat_map]. apply Forall_app. split; [|exact IH].
  unfold escape_char.
  repeat match goal with |- context [(c =? ?k)%N] => destruct (N.eqb_spec c k) end;
    repeat constructor; try discriminate; exact Hc.
Qed.

Lemma free_of_sub (l k : list N) (s : jsstring) :
  (forall d, In d k -> In d l) -> free_of l s -> free_of k s.
Proof.
  intros Hsub H. unfold free_of in *. eapply Forall_impl; [|exact H].
  intros d Hd Hk. exact (Hd (Hsub d Hk)).
Qed.

(** C2, as the code has it.  The keys are fixed texts, numbered by the
    fragments protected before: [protectCodeBlocks] puts [code_block_key]
    of the length of its first array in the place of a fenced block and
    [inline_code_key] of the length of its second array in the place of a
    code span, whatever stands before and after; the text of a key has no
    backtick, so a document can hold it, and [protectCodeBlocks] leaves it
    there.  [restoreCodeBlocks] is a sequence of steps, one for each
    fragment in the order of the arrays, and a step looks for the text of
    the key: it puts the fragment where the key first occurs in the text,
    whoever wrote that occurrence, the fragment being read as a replacement
    pattern, and it leaves a text without the key as it is.  So, in a
    document that writes the key of the first block before a fenced block,
    the restoration of the protected text puts the block where the document
    had the key and leaves the key where the block was. *)
Theorem restore_replaces_first_occurrence_of_key :
  (forall i : nat,
      code_block_key i = str "__CODE_BLOCK_" ++ nat_to_string i ++ str "__"
      /\ inline_code_key i = str "__INLINE_CODE_" ++ nat_to_string i ++ str "__")
  /\ (forall (pre code post : jsstring) (blocks inline : list jsstring),
         free_of [backtick] pre -> free_of [backtick] code -> free_of [backtick] post ->
         protectCodeBlocks (pre ++ fenced code ++ post) blocks inline
         = (pre ++ code_block_key (length blocks) ++ post,
            blocks ++ [str "<pre><code>" ++ escapeHtml code ++ str "</code></pre>"],
            inline))
  /\ (forall (pre code post : jsstring) (blocks inline : list jsstring),
         free_of [backtick] pre -> code <> [] -> free_of [backtick] code ->
         free_of [backtick] post ->
         protectCodeBlocks (pre ++ code_span code ++ post) blocks inline
         = (pre ++ inline_code_key (length inline) ++ post,
            blocks,
            inline ++ [str "<code>" ++ escapeHtml code ++ str "</code>"]))
  /\ (forall (key : nat -> jsstring) (i : nat) (pre post : jsstring)
             (blocks inline : list jsstring),
         key = code_block_key \/ key = inline_code_key ->
         free_of [backtick] pre -> free_of [backtick] post ->
         protectCodeBlocks (pre ++ key i ++ post) blocks inline
         = (pre ++ key i ++ post, blocks, inline))
  /\ (forall (text fragment : jsstring) (blocks inline : list jsstring),
         restoreCodeBlocks text [] [] = text
         /\ restoreCodeBlocks text (blocks ++ [fragment]) []
         = restore_one code_block_key (restoreCodeBlocks text blocks [])
                       (length blocks) fragment
         /\ restoreCodeBlocks text blocks (inline ++ [fragment])
            = restore_one inline_code_key (restoreCodeBlocks text blocks inline)
                          (length inline) fragment)
  /\ (forall (key : nat -> jsstring) (i : nat) (fragment : jsstring),
         key = code_block_key \/ key = inline_code_key ->
         (forall pre post : jsstring,
             (forall a b, pre ++ key i ++ post = a ++ key i ++ b ->
                          length pre <= length a) ->
             restore_one key (pre ++ key i ++ post) i fragment
             = pre ++ GetSubstitution 0 (mkInfo (rev pre) (key i) post []) fragment
                   ++ post
             /\ (Forall (fun c => c <> 36%N) fragment ->
                 restore_one key (pre ++ key i ++ post) i fragment
                 = pre ++ fragment ++ post))
         /\ (forall text : jsstring,
                (forall a b, text <> a ++ key i ++ b) ->
                restore_one key text i fragment = text))
  /\ (forall a b code post : jsstring,
         free_of [backtick; 95%N] a -> free_of [backtick] b ->
         free_of [backtick; 36%N] code -> free_of [backtick] post ->
         protectCodeBlocks (a ++ code_block_key 0 ++ b ++ fenced code ++ post) [] []
         = (a ++ code_block_key 0 ++ b ++ code_block_key 0 ++ post,
            [str "<pre><code>" ++ escapeHtml code ++ str "</code></pre>"], [])
         /\ restoreCodeBlocks
              (a ++ code_block_key 0 ++ b ++ code_block_key 0 ++ post)
              [str "<pre><code>" ++ escapeHtml code ++ str "</code></pre>"] []
            = a ++ (str "<pre><code>" ++ escapeHtml code ++ str "</code></pre>")
                ++ b ++ code_block_key 0 ++ post).
Proof.
  split; [intros i; split; reflexivity|].
  split; [exact protectCodeBlocks_fenced|].
  split; [exact protectCodeBlocks_code_span|].
  split.
  { intros key i pre post blocks inline Hkey Hpre Hpost.
    apply protectCodeBlocks_free.
    apply Forall_app; split; [exact Hpre|].
    apply Forall_app; split; [|exact Hpost].
    destruct Hkey as [-> | ->]; apply keys_free_of_backtick. }
  split.
  { intros text fragment blocks inline. unfold restoreCodeBlocks.
    split; [reflexivity|]. split.
    - cbn [restore_loop]. now rewrite restore_loop_snoc.
    - now rewrite restore_loop_snoc. }
  split.
  { intros key i fragment _. apply restore_one_first_occurrence. }
  intros a b code post Ha Hb Hcode Hpost. split.
  - rewrite !(app_assoc a), !(app_assoc (a ++ _)).
    apply (@protectCodeBlocks_fenced _ code post [] []);
      [| eapply free_of_sub; [|exact Hcode]; intros d [<-|[]]; now left | exact Hpost].
    apply Forall_app; split; [|exact Hb].
    apply Forall_app; split; [|apply keys_free_of_backtick].
    eapply free_of_sub; [|exact Ha]. intros d [<-|[]]; now left.
  - unfold restoreCodeBlocks. cbn [restore_loop].
    apply (proj1 (@restore_one_first_occurrence code_block_key 0 _)).
    + change (code_block_key 0) with (95%N :: tl (code_block_key 0)).
      apply first_occurrence_behind.
      intros Hin. unfold free_of in Ha. rewrite Forall_forall in Ha.
      apply (Ha _ Hin). right. now left.
    + apply Forall_app; split; [repeat constructor; discriminate|].
      apply Forall_app; split; [|repeat constructor; discriminate].
      apply escapeHtml_no_dollar. unfold free_of in Hcode.
      eapply Forall_impl; [|exact Hcode]. intros d Hd ->. apply Hd. right. now left.
Qed.

(** The key of the first block, written in bold text before a fenced
    block. *)
Lemma restore_replaces_first_occurrence_of_key_witness :
  protectCodeBlocks
    (str "**x " ++ code_block_key 0 ++ str " y** and **z " ++ fenced (str "a")
         ++ str " w**") [] []
  = (str "**x " ++ code_block_key 0 ++ str " y** and **z " ++ code_block_key 0
         ++ str " w**",
     [str "<pre><code>" ++ escapeHtml (str "a") ++ str "</code></pre>"], [])
  /\ restoreCodeBlocks
       (str "**x " ++ code_block_key 0 ++ str " y** and **z " ++ code_block_key 0
            ++ str " w**")
       [str "<pre><code>" ++ escapeHtml (str "a") ++ str "</code></pre>"] []
     = str "**x " ++ (str "<pre><code>" ++ escapeHtml (str "a") ++ str "</code></pre>")
           ++ str " y** and **z " ++ code_block_key 0 ++ str " w**".
Proof.
  apply (proj2 (proj2 (proj2 (proj2 (proj2 (proj2
           restore_replaces_first_occurrence_of_key))))));
    unfold free_of; repeat constructor; not_in.
Defined.
